(* ===== verification/_CoqProject ===== *)
-Q . S2P
Prelude.v
GoStrings.v
Tags.v
Payload.v
Sink.v
Heap.v
Slices.v
Node.v
Invariant.v
NodeSlices.v
Tree.v
TreeOps.v
Search.v
SearchSlices.v
Forest.v
Visit.v
VisitSlices.v
Roundtrip.v
SearchSpec.v
Render.v
RenderSlices.v
RenderSpec.v
RenderProps.v
Refinement.v
Lines.v
Reader.v
Interface.v
Pipeline.v
RenderErrors.v
Attached.v
SinkProps.v
Examples.v
