(* ===== verification/Prelude.v ===== *)
(** * treeprint: a verification development

    The program ([src/treeprint.go], which holds the package file and the
    struct-tag helper file one after the other) builds a tree of labelled
    nodes in memory and renders it as a diagram drawn with the glyphs
    [│], [├─] and [└─].  It has three parts:

    - the tree model: [Node] objects linked by pointers ([Root] points to
      the parent, [Nodes] holds the children in insertion order), built by
      [New], [AddNode], [AddMetaNode], [AddBranch], [AddMetaBranch] and
      changed by [Branch], [SetValue], [SetMetaValue]; searched by
      [FindLastNode], [FindByMeta], [FindByValue]; walked by [VisitAll];
    - the renderer: [Writer] (with [Bytes] and [String]) prints the root
      line and calls [printNodes], which walks the children depth first and
      calls [printValues] for each line; [printValues] asks [renderValue] for
      the text of the value, and [renderValue] calls [padding] (which walks
      the [Root] pointers upwards and calls [isLast]) when the text has
      several lines;
    - the struct-tag helpers [tagSpec] and [filterTags].

    ** Files

    - [Prelude] (this file): the result type [res] (a value, a Go panic or
      the model's [OutOfFuel]), the state-and-error monad [M], Go's [int]
      addition with its 64-bit wrap-around, basic lemmas on strings and
      lists, the tactics and the hint database [go] of the development,
      and the relation [simulates] between a computation on one model of
      the state and a computation on another.
    - [GoStrings]: the functions of Go's [strings] package the program calls
      ([Repeat], [Split] and [Join] on a one-byte separator, [HasPrefix]),
      modelled from their documentation, with their round-trip laws.
    - [Tags]: [tagSpec] and [filterTags] (module [Tags]); [tagSpec] never
      panics, [filterTags] keeps the tags that do not start with [tree:]
      and is idempotent.
    - [Payload]: the interface [Payload] a value of Go's [any] has to offer
      the program (the nil value, [%v] formatting, [fmt.Sprintf],
      [reflect.DeepEqual]) and its instance [GoValue] (nil, strings,
      integers, booleans, NaN).  [reflect.DeepEqual] is a boolean relation
      of which the theorems assume nothing; on [GoValue] it is equality,
      except that NaN is not equal to itself.  [Sprintf] of the instance
      interprets the verbs [v], [s],
      [d] and [t] with the texts [fmt] prints for a verb that does not fit
      its operand, a missing operand and operands left over.
    - [Sink]: the interface [Sink] of an [io.Writer] and two instances, the
      byte buffer of [Bytes] and the trace of [Write] calls.
    - [Heap]: the Go heap of [Node] objects as an arena ([list Node], an
      address is an index), with [load], [store] and [alloc].
    - [Slices] (module [Slice]): Go slices.  A slice is a header (an
      array and a length) into a store of arrays; [append] writes in place
      when the array has room and else copies the elements to a new array,
      whose capacity the growth policy [grow] chooses (the theorems hold
      for every policy).  [modifies s] relates two stores when the
      elements of the slice [s], and every array but its own, are the
      same in both.
    - [Node]: the tree-building and mutating methods of [*Node], as
      computations in [M heap], and [FindLastNode]; what each of them
      returns and changes.  The [...f] variants take the format and the
      operands and store the text [Sprintf] makes of them.
    - [Invariant]: the well-formedness invariant [wf_heap] of the arena
      (children are younger than their parent and point back to it or are
      detached, no node has two places), the public operations as the
      constructors of [call], run by [exec], the step relation [api_step]
      and the set [reachable] of the heaps a program can build; every
      reachable heap is well formed ([reachable_wf], [reachable_forest]),
      no call on a node of the heap fails ([exec_total]), and a method
      called on nil panics ([exec_on_nil]), so that a call that returns
      was made on a node of the heap ([exec_receiver]).
    - [NodeSlices]: the methods of [*Node] with the field [Nodes] as a
      Go slice, as the source has it: a node holds a header, and
      [append(n.Nodes, child)] is [Slice.append].  The invariant [sep]
      says that no two nodes share an array; under it every call does to
      the heap of slices what [exec] does to the heap of lists
      ([exec_sl_refines], [run_calls_sl_refines]), so the theorems on
      lists are theorems on the program.  A call also keeps the elements
      of every slice a caller holds ([held]), such as the slice a loop in
      progress ranges over: it writes a shared array past the length of
      the slices that share it.
    - [Tree]: the abstract view, a rose tree [tree] of addresses, metas
      and values, and [abs], which reads the tree below an address off the
      heap.
    - [TreeOps]: the abstract specification of the tree model: [spec cl] is
      what the call [cl] does to a tree (a leaf appended at the node with
      the receiver's address, or one field of it changed).  Every call
      refines it ([exec_spec]), and so does every program of calls
      ([build_refines]); a program runs to its end exactly when each
      receiver was allocated before its call ([build_total]).
    - [Search]: [FindByMeta], [FindByValue] and [VisitAll], specified on
      [below h n], the nodes under [n] in pre-order.  [FindByValue] is
      modelled with the recursive call to [FindByMeta] the source makes;
      [FindByValue_first] says what it returns.
    - [SearchSlices]: [FindByMeta] and [FindByValue] ranging over the
      elements of the slices, which may be nil; under [sep] they return
      what the searches on lists return ([searches_sl_view]).
    - [Forest]: the invariant is local; this file derives from it that
      the nodes under a node are younger than it, have one parent each,
      and are met once by a walk ([descendants_NoDup], [below_forest]).
    - [Visit]: [VisitAll] under visitors that write to the nodes.  Heaps
      that differ in values and metas only are related by [same_shape];
      a visitor that keeps the shape is called once on every node under
      the receiver, in pre-order ([VisitAll_shape]); the visitor that
      calls [SetValue] maps its function over the values of the tree
      under the root ([VisitAll_map_values]).  The walk reads the
      children of the receiver once and those of a node under it after
      the visitor returned from it ([VisitAll_walk]): a visitor may append
      leaves to the receiver or to a node that is not under it, they are
      not visited ([VisitAll_add_outside]); a visitor that appends a child
      to the node it receives makes the walk endless
      ([VisitAll_grow_diverges]).
    - [VisitSlices]: [VisitAll] with the [range] of Go: the slice
      [n.Nodes] is read once, before the first iteration, and the element
      [i] at the iteration [i].  The walk on slices does what the walk on
      lists does for every visitor that keeps the slices the loops in
      progress hold, the visitors that call the methods of the package
      among them ([VisitAll_sl_VisitAll], [add_to_sl_sim]); a visitor
      that assigns to an element of the slice being walked is seen by the
      walk on slices and not by the walk on lists ([overwrite_seen]).
    - [Roundtrip]: a node appended by [AddMetaNode] is the node
      [FindByMeta] returns for its meta, unless an older node under the
      receiver has that meta ([FindByMeta_AddMetaNode]); the meta has to
      be one [reflect.DeepEqual] finds equal to itself.
    - [SearchSpec]: the searches on the abstract tree: [find_by_meta] is
      the first node under the root, in pre-order, with the meta sought,
      [find_by_value] what the code does for a value; [FindByMeta] and
      [FindByValue] refine them ([FindByMeta_find], [FindByValue_tree]),
      also after a program of calls ([FindByMeta_after_build]); a call
      of [Branch] or [SetValue] changes no search by meta
      ([FindByMeta_kept]).
    - [Render]: [isEnded], [isLast], [padding], [renderValue],
      [printValues], [printNodes], [Writer], [Bytes], [String], and the
      package variables as the record [Config].
    - [RenderSlices]: the renderer with [levelsEnded] as a Go slice.
      [printNodes] appends to the slice it was passed inside its loop,
      and passes the result to the recursive call; an [append] may write
      into the array the caller's slice shares ([deep_shares] shows a run
      that does).  [Writer_sl] writes what [Writer] writes and returns
      what it returns, for every store and growth policy
      ([Writer_sl_Writer], [Bytes_sl_Bytes]): the proof is a simulation
      ([sim]) whose frame is [Slice.modifies].
    - [SinkProps]: [Writer] never reads its sink: it commutes with every
      map between sinks that commutes with [Write] ([Writer_hom]), so the
      bytes of [Bytes] are the chunks any writer receives, and a second
      call appends the same bytes again ([Writer_twice]).
    - [RenderSpec]: the specification of the renderer on the abstract
      tree: [render t] is the diagram, defined by recursion on [t].
    - [RenderProps]: the lemmas that relate the functions of [Render] to
      the pieces of [RenderSpec] ([columns], [segment], [text], [label]);
      the invariant [pad_inv] of the upward walk of [padding]; [padding]
      terminates on any heap.
    - [Refinement]: [Bytes], called on a node without parent of a
      well-formed heap, returns [render t] for the tree [t] below the node
      ([Bytes_render]); on a heap built by the public operations it
      therefore returns, and does not panic ([Bytes_reachable]), and
      after a call it returns the diagram of the tree the call's
      specification yields ([Bytes_after]).  On a node that has a parent
      it returns the line of the node and its children at the same level,
      when every value is one line ([Bytes_attached]).  The lemmas on
      [printNodes] hold whenever the walk of [padding] is known or not
      needed ([pad_ok]), which [Attached] uses.
    - [Lines]: the diagram as a list of rows, one per node under the
      root, in pre-order ([Bytes_rows]); without line breaks in the texts
      it has one line per node ([Bytes_line_count]).
    - [Reader]: a reader of diagrams, [read], that counts the columns of
      each line and rebuilds the forest from the depths; it returns the
      tree of the texts of the nodes for what [Bytes] returned
      ([read_Bytes]), when no text holds a line break and the glyphs can
      be told apart ([readable]): the diagram determines the shape of the
      tree.  It does not determine the metas and the values
      ([same_diagram]).
    - [Interface] (module [Iface]): the interface [Tree] of the source as
      a type class with one field per method, the package-level
      constructors as the class [Package], and the contract [Laws] of an
      implementation: an invariant, a view of a node as an abstract tree,
      every call refining [spec], the searches returning [find_by_meta]
      and [find_by_value] of the view, [String] returning [render] of it.
      [render_after_spec] and [program_finds] are proved for any
      implementation that keeps the contract; [Node_Laws] shows that
      [*Node] keeps it, from the theorems of [TreeOps], [SearchSpec] and
      [Refinement]; [Slice_Laws] that [*Node] with Go slices keeps it,
      from the simulations of [NodeSlices], [SearchSlices] and
      [RenderSlices].  [program_renders] and [Slice_program_renders] are
      the client theorem at the two implementations.
    - [Pipeline]: the walk composed with the search and the renderer: after
      [VisitAll] with the visitor that rewrites the values, [FindByMeta]
      returns what it returned before ([map_FindByMeta_same]) and [String]
      the diagram of the tree with the values rewritten
      ([map_String_renders]); a search written with [VisitAll] and a
      visitor that remembers the first node with the meta returns what
      [FindByMeta] returns ([FindByMeta_find_by_visit]).
    - [RenderErrors]: the panics of the renderer: the index of [padding]
      out of range when a node that is not a root is rendered, and
      [strings.Repeat] on a negative or overflowing indent size; and the
      endless recursion of [printNodes] on a heap with a cycle.
    - [Attached]: what [Bytes] returns on a node that has a parent, in
      every case ([Bytes_on_attached]): the panic of [padding] exactly
      when a value of several lines is reached from the node through
      nodes that have a parent ([exposed]), and else the line of the node
      and the diagram of its children, at the same level.
    - [Examples]: programs of calls run from the empty heap and what they
      render and find.

    ** Modelling choices

    - Strings are Go byte strings: [string] of 8-bit characters; a glyph
      such as [│] is its three UTF-8 bytes, as in Go.
    - A pointer [*Node] is an address ([nat]) into the arena; a nullable
      pointer or [Tree] result is an [option].  Loading an address that was
      never allocated is the panic [NilDereference]: such an address
      stands for nil.  A pointer a caller holds is not the address of an
      object allocated later, so [AddBranch] and [AddMetaBranch], which
      allocate before they read their receiver, read it with
      [loadM_before]: nil stays nil.  Nothing is ever freed (Go collects
      garbage), so addresses stay valid.
    - Methods that mutate are computations [M heap A = heap -> res A * heap];
      the renderer reads the heap and writes to a sink [W], in [M W A].
      What was written before a panic stays written, as with an [io.Writer].
    - The two slices of the program, [n.Nodes] and the [levelsEnded] of
      [printNodes], are lists in [Node], [Search] and [Render], which
      most theorems are about, and Go slices in [NodeSlices],
      [SearchSlices], [VisitSlices] and [RenderSlices].  In Go an
      [append] may write into an array another slice shares, but only
      past that slice's length; the simulations of these files show that
      no read of the program sees such a write, so that the models with
      lists return what the models with slices return.  A slice element
      of [n.Nodes] is a nullable pointer; the view [abs_heap] reads the
      elements that are not nil, and [sep] says that none is.
    - A loop [for _, node := range n.Nodes] runs over the list of
      children read before its first iteration in the models with lists.
      That is what Go does unless the body assigns to an element of the
      slice, which no method of the package does; [VisitAll], whose body
      calls code of the client, is modelled with the [range] of Go in
      [VisitSlices].
    - Recursion through the heap ([printNodes], [FindByMeta], [VisitAll],
      [abs]) takes fuel, since a corrupted heap can hold a cycle; on a
      well-formed heap [length h] units are enough, because a child's
      address is larger than its parent's, and the theorems are stated for
      any fuel from [length h] on.  [padding] needs no assumption: its
      index runs below zero, and panics, after [level + 1] steps; its fuel
      is [level + 2].
    - Tree levels are Go [int]s that start at 0 and only grow: they are
      [nat], except the counter of [padding], which is decremented and kept
      in [Z].  [IndentSize] is an [int] the caller may set to anything: it
      is a [Z], and [IndentSize + 1] wraps around at 64 bits.  The
      theorems on the diagram assume [cfg_ok]: [0 ≤ IndentSize < MaxInt].
    - The package variables [IndentSize], [EdgeTypeLink], [EdgeTypeMid] and
      [EdgeTypeEnd] are the fields of a [Config] the renderer reads.
    - Rendering does not change the tree by construction: [Writer] has the
      heap as a parameter, not as state, as the source assigns to no field
      of a node while it renders.

    ** Not modelled

    - [fmt.Sprintf] outside the fragment of [GoValue]: flags, width,
      precision, argument indexes and the verbs other than [v], [s], [d]
      and [t].  Payloads other than nil, strings, integers, booleans and
      NaN as values of [GoValue] (structs, slices, maps, functions: the
      class [Payload] admits them, no instance holds them).  A payload
      whose [String] or [Format] method panics or changes the tree: the
      text of [%v] is a function of the value.
    - Memory exhaustion and the depth of the Go stack.  [strings.Repeat]
      is modelled with its panic on a negative count only, so [cfg_ok]
      admits indent sizes no machine has the memory for.
    - A nil [NodeVisitor], whose call panics in Go: a visitor is a
      function.  The difference between a nil [Tree] and a [Tree] that
      holds a nil [*Node]: both are [None].  A nil child in the models
      with lists: [Nodes] is a list of addresses, and nil elements exist
      in the models with slices only.
    - Concurrent use.
    - [VisitAll] is modelled for every visitor; its theorems cover the
      visitors that leave the parent pointers and the lists of children
      as they are, the ones that append leaves outside the nodes being
      walked, and the one that appends to the node it receives; visitors
      that detach nodes, or append to a node under the receiver other
      than the one they receive, are not covered; visitors that assign to
      the elements of [Nodes] are modelled on slices only
      ([VisitSlices]).
    - The file of struct-tag helpers holds no code that walks a struct by
      reflection.
    - A write to the [io.Writer] that fails: the program ignores the
      error [fmt.Fprintf] returns, and the sinks of the model always
      accept. *)

From stdpp Require Export base tactics option list strings.
From Stdlib Require Export ZArith Lia Ascii.

(** ** Results of Go computations *)

(** The run-time panics the program can raise. *)
Inductive panic : Type :=
| NilDereference
| IndexOutOfRange
| NegativeRepeat.

(** A computation returns a value, panics, or (in the model only) runs out
    of fuel. *)
Inductive res (A : Type) : Type :=
| Ok (a : A)
| Panic (p : panic)
| OutOfFuel.
Arguments Ok {A} a.
Arguments Panic {A} p.
Arguments OutOfFuel {A}.

#[export] Instance panic_eq_dec : EqDecision panic.
Proof. solve_decision. Defined.

#[export] Instance res_eq_dec {A} `{EqDecision A} : EqDecision (res A).
Proof. solve_decision. Defined.

#[export] Instance res_ret : MRet res := λ A a, Ok a.

#[export] Instance res_bind : MBind res := λ A B f r,
  match r with
  | Ok a => f a
  | Panic p => Panic p
  | OutOfFuel => OutOfFuel
  end.

#[export] Instance res_fmap : FMap res := λ A B f r,
  match r with
  | Ok a => Ok (f a)
  | Panic p => Panic p
  | OutOfFuel => OutOfFuel
  end.

Definition is_Ok {A} (r : res A) : Prop := ∃ a, r = Ok a.

Definition is_Panic {A} (r : res A) : Prop := ∃ p, r = Panic p.

(** ** The state-and-error monad *)

(** A computation over a state [S]: the state it leaves is kept when it
    panics. *)
Definition M (S A : Type) : Type := S → res A * S.

#[export] Instance M_ret {S} : MRet (M S) := λ A a s, (Ok a, s).

#[export] Instance M_bind {S} : MBind (M S) := λ A B f m s,
  match m s with
  | (Ok a, s') => f a s'
  | (Panic p, s') => (Panic p, s')
  | (OutOfFuel, s') => (OutOfFuel, s')
  end.

#[export] Instance M_fmap {S} : FMap (M S) := λ A B f m s,
  let '(r, s') := m s in (f <$> r, s').

Definition lift {S A} (r : res A) : M S A := λ s, (r, s).

Definition get_state {S} : M S S := λ s, (Ok s, s).

Definition put_state {S} (s : S) : M S () := λ _, (Ok (), s).

(** A [for] loop over the elements of a slice, for its effects. *)
Fixpoint forM_ {S A} (l : list A) (f : A → M S ()) : M S () :=
  match l with
  | [] => mret ()
  | x :: l' => f x;; forM_ l' f
  end.

(** Indexing a slice, [l[i]]: panics out of range. *)
Definition index {A} (l : list A) (i : nat) : res A :=
  match l !! i with
  | Some x => Ok x
  | None => Panic IndexOutOfRange
  end.

(** Assigning to an element of a slice, [l[i] = x], for an [int] index:
    panics when the index is negative or past the end. *)
Definition set_index {A} (l : list A) (i : Z) (x : A) : res (list A) :=
  if decide (0 ≤ i < Z.of_nat (length l))%Z then Ok (<[Z.to_nat i := x]> l)
  else Panic IndexOutOfRange.

(** ** Go's [int] *)

Definition int_min : Z := - 2 ^ 63.

Definition int_max : Z := 2 ^ 63 - 1.

Definition wrap_int (z : Z) : Z := ((z + 2 ^ 63) mod 2 ^ 64 - 2 ^ 63)%Z.

Definition int_add (a b : Z) : Z := wrap_int (a + b).

Declare Scope go_scope.
Delimit Scope go_scope with go.
Notation "a +ᵢ b" := (int_add a b) (at level 50, left associativity) : go_scope.
Notation "x =? y" := (bool_decide (x = y)) (at level 70, no associativity) : go_scope.
Notation "'len' l" := (length l) (at level 10, l at level 9, only parsing) : go_scope.

(** ** Strings *)

(** The line feed, ["\n"] in Go. *)
Definition nl : string := String "010"%char "".

(** The characters of a string. *)
Fixpoint chars (s : string) : list ascii :=
  match s with
  | EmptyString => []
  | String c s' => c :: chars s'
  end.

(** ** Tactics *)

(** Case analysis on the result that a bind of the goal inspects. *)
Ltac case_res :=
  match goal with
  | |- context [mbind _ ?r] =>
      let E := fresh "E" in destruct r eqn:E; simpl
  | |- context [match ?r with Ok _ => _ | Panic _ => _ | OutOfFuel => _ end] =>
      let E := fresh "E" in destruct r eqn:E; simpl
  end.

(** Proves a decidable proposition about closed terms by evaluating its
    decision procedure. *)
Ltac by_compute := refine (bool_decide_unpack _ _); vm_compute; exact I.

(** Unfolds the monad operations in the goal. *)
Ltac unfold_M := unfold mbind, mret, M_bind, M_ret, res_bind, res_ret, lift in *.

Create HintDb go discriminated.
Create Rewrite HintDb go.

(** ** Lemmas *)

Lemma res_bind_Ok {A B} (f : A → res B) (a : A) : Ok a ≫= f = f a.
Proof. reflexivity. Qed.

Lemma res_bind_Panic {A B} (f : A → res B) (p : panic) : Panic p ≫= f = Panic p.
Proof. reflexivity. Qed.

Lemma res_bind_inv {A B} (f : A → res B) (r : res A) (b : B) :
  r ≫= f = Ok b → ∃ a, r = Ok a ∧ f a = Ok b.
Proof. destruct r; simpl; intros; simplify_eq; eauto. Qed.

Lemma res_bind_assoc {A B C} (r : res A) (f : A → res B) (g : B → res C) :
  (r ≫= f) ≫= g = r ≫= (λ a, f a ≫= g).
Proof. by destruct r. Qed.

Lemma M_bind_Ok {S A B} (m : M S A) (f : A → M S B) (s s' : S) (a : A) :
  m s = (Ok a, s') → (m ≫= f) s = f a s'.
Proof. unfold mbind, M_bind. by intros ->. Qed.

Lemma M_bind_Panic {S A B} (m : M S A) (f : A → M S B) (s s' : S) (p : panic) :
  m s = (Panic p, s') → (m ≫= f) s = (Panic p, s').
Proof. unfold mbind, M_bind. by intros ->. Qed.

Lemma M_bind_OutOfFuel {S A B} (m : M S A) (f : A → M S B) (s s' : S) :
  m s = (OutOfFuel, s') → (m ≫= f) s = (OutOfFuel, s').
Proof. unfold mbind, M_bind. by intros ->. Qed.

(** The same, when the state after the panic does not matter. *)
Lemma M_bind_Panic_1 {S A B} (m : M S A) (f : A → M S B) (s : S) (p : panic) :
  (m s).1 = Panic p → ((m ≫= f) s).1 = Panic p.
Proof. unfold mbind, M_bind. by destruct (m s) as [[?|?|] ?]; intros [= ->]. Qed.

Lemma M_bind_assoc {S A B C} (m : M S A) (f : A → M S B) (g : B → M S C) (s : S) :
  ((m ≫= f) ≫= g) s = (m ≫= λ a, f a ≫= g) s.
Proof. unfold mbind, M_bind. by destruct (m s) as [[?|?|] ?]. Qed.

Lemma M_bind_lift_Ok {S A B} (a : A) (f : A → M S B) (s : S) :
  (lift (Ok a) ≫= f) s = f a s.
Proof. reflexivity. Qed.

Lemma M_bind_get_state {S B} (f : S → M S B) (s : S) : (get_state ≫= f) s = f s s.
Proof. reflexivity. Qed.

Lemma M_bind_inv {S A B} (m : M S A) (f : A → M S B) (s s2 : S) (b : B) :
  (m ≫= f) s = (Ok b, s2) → ∃ a s1, m s = (Ok a, s1) ∧ f a s1 = (Ok b, s2).
Proof.
  unfold mbind, M_bind. destruct (m s) as [[a| |] s1]; intros; simplify_eq; eauto.
Qed.

Lemma forM_app {S A} (l1 l2 : list A) (f : A → M S ()) (s : S) :
  forM_ (l1 ++ l2) f s = (forM_ l1 f;; forM_ l2 f) s.
Proof.
  revert s. induction l1 as [|x l1 IH]; intros s; simpl; [done|].
  unfold mbind, M_bind in *. destruct (f x s) as [[[]| |] s1]; auto.
Qed.

#[export] Hint Rewrite @res_bind_Ok @res_bind_Panic @M_bind_lift_Ok : go.

(** ** Simulation of computations *)

(** Two models of one program, on states [S1] and [S2]: [view] reads a
    state of the second off a state of the first, and [inv] holds of the
    states of the first that the program makes.  A computation on [S1]
    simulates one on [S2] when, from a state that satisfies [inv], it
    returns what the other returns from the view of that state (a value,
    a panic or the end of the fuel), and leaves a state that satisfies
    [inv] and whose view is the state the other leaves. *)
Section simulates.
Context {S1 S2 : Type} (view : S1 → S2) (inv : S1 → Prop).

Definition simulates {B} (m1 : M S1 B) (m2 : M S2 B) : Prop :=
  ∀ s, inv s →
    ∃ s', m1 s = ((m2 (view s)).1, s') ∧ view s' = (m2 (view s)).2 ∧ inv s'.

Lemma simulates_ret {B} (b : B) : simulates (mret b) (mret b).
Proof. intros s Hs. by exists s. Qed.

Lemma simulates_lift {B} (r : res B) : simulates (lift r) (lift r).
Proof. intros s Hs. by exists s. Qed.

Lemma simulates_bind {B C} (m1 : M S1 B) (m2 : M S2 B) (f1 : B → M S1 C)
    (f2 : B → M S2 C) :
  simulates m1 m2 → (∀ b, simulates (f1 b) (f2 b)) →
  simulates (m1 ≫= f1) (m2 ≫= f2).
Proof.
  intros Hm Hf s Hs. destruct (Hm s Hs) as (s1 & Hrun & Hview & Hs1).
  unfold mbind, M_bind. rewrite Hrun.
  destruct (m2 (view s)) as [[b|p|] t1]; simpl in *; [|by exists s1..].
  subst t1. apply (Hf b s1 Hs1).
Qed.

Lemma simulates_fmap {B C} (f : B → C) (m1 : M S1 B) (m2 : M S2 B) :
  simulates m1 m2 → simulates (f <$> m1) (f <$> m2).
Proof.
  intros Hm s Hs. destruct (Hm s Hs) as (s1 & Hrun & Hview & Hs1).
  exists s1. unfold fmap, M_fmap. rewrite Hrun.
  by destruct (m2 (view s)) as [[?|?|] ?].
Qed.

Lemma simulates_forM_ {B1 B2} (R : B1 → B2 → Prop) (l1 : list B1) (l2 : list B2)
    (f1 : B1 → M S1 ()) (f2 : B2 → M S2 ()) :
  Forall2 R l1 l2 → (∀ b1 b2, R b1 b2 → simulates (f1 b1) (f2 b2)) →
  simulates (forM_ l1 f1) (forM_ l2 f2).
Proof.
  intros Hl Hf. induction Hl as [|b1 b2 l1 l2 Hb _ IH]; [apply simulates_ret|].
  simpl. apply simulates_bind; [by apply Hf|by intros _].
Qed.

End simulates.

(** A run under an invariant that holds of the state and is stronger than
    the one to be kept. *)
Lemma simulates_run {S1 S2 B} (view : S1 → S2) (inv inv' : S1 → Prop)
    (m1 : M S1 B) (m2 : M S2 B) (s : S1) :
  simulates view inv' m1 m2 → inv' s → (∀ s', inv' s' → inv s') →
  ∃ s', m1 s = ((m2 (view s)).1, s') ∧ view s' = (m2 (view s)).2 ∧ inv s'.
Proof.
  intros Hm Hs Himp. destruct (Hm s Hs) as (s' & ? & ? & ?). exists s'. auto.
Qed.

Lemma index_Ok {A} (l : list A) (i : nat) (x : A) :
  index l i = Ok x ↔ l !! i = Some x.
Proof. unfold index. destruct (l !! i); naive_solver. Qed.

Lemma index_lt {A} (l : list A) (i : nat) : i < length l → is_Ok (index l i).
Proof.
  intros [x Hx]%lookup_lt_is_Some_2. exists x. by apply index_Ok.
Qed.

Lemma index_ge {A} (l : list A) (i : nat) :
  length l ≤ i → index l i = Panic IndexOutOfRange.
Proof. intros Hi%lookup_ge_None_2. unfold index. by rewrite Hi. Qed.

Lemma set_index_Ok {A} (l : list A) (i : Z) (x : A) :
  (0 ≤ i < Z.of_nat (length l))%Z → set_index l i x = Ok (<[Z.to_nat i := x]> l).
Proof. intros. unfold set_index. by rewrite decide_True. Qed.

Lemma set_index_negative {A} (l : list A) (i : Z) (x : A) :
  (i < 0)%Z → set_index l i x = Panic IndexOutOfRange.
Proof. intros. unfold set_index. by rewrite decide_False by lia. Qed.

Lemma set_index_not_OutOfFuel {A} (l : list A) (i : Z) (x : A) :
  set_index l i x ≠ OutOfFuel.
Proof. unfold set_index. by case_decide. Qed.

Lemma insert_middle {A} (l1 l2 : list A) (x y : A) :
  <[length l1 := x]> (l1 ++ y :: l2) = l1 ++ x :: l2.
Proof.
  rewrite <- (Nat.add_0_r (length l1)). by rewrite insert_app_r.
Qed.

Lemma Forall_filter_sub{A} (P Q : A → Prop) `{∀ x, Decision (Q x)} (l : list A) :
  Forall P l → Forall P (filter Q l).
Proof.
  rewrite !Forall_forall. intros HP x [_ Hx]%list_elem_of_filter. auto.
Qed.

Lemma filter_all {A} (P : A → Prop) `{∀ x, Decision (P x)} (l : list A) :
  Forall P l → filter P l = l.
Proof.
  induction 1 as [|x l Hx Hl IH]; [done|].
  rewrite filter_cons_True by done. by f_equal.
Qed.

Lemma wrap_int_small (z : Z) : (int_min ≤ z ≤ int_max)%Z → wrap_int z = z.
Proof.
  unfold int_min, int_max, wrap_int. intros Hz.
  rewrite Z.mod_small; lia.
Qed.

Lemma wrap_int_range (z : Z) : (int_min ≤ wrap_int z ≤ int_max)%Z.
Proof.
  unfold int_min, int_max, wrap_int.
  pose proof (Z.mod_pos_bound (z + 2 ^ 63) (2 ^ 64)). lia.
Qed.

Lemma int_add_small (a b : Z) :
  (int_min ≤ a + b ≤ int_max)%Z → int_add a b = (a + b)%Z.
Proof. apply wrap_int_small. Qed.

Lemma int_add_overflow : int_add int_max 1 = int_min.
Proof. reflexivity. Qed.

Lemma string_app_cons (c : ascii) (s1 s2 : string) :
  String c s1 +:+ s2 = String c (s1 +:+ s2).
Proof. reflexivity. Qed.

Lemma string_app_nil_l (s : string) : "" +:+ s = s.
Proof. reflexivity. Qed.

Lemma string_app_nil_r (s : string) : s +:+ "" = s.
Proof. induction s; [reflexivity|]. rewrite string_app_cons. by f_equal. Qed.

Lemma string_app_assoc (s1 s2 s3 : string) :
  s1 +:+ (s2 +:+ s3) = (s1 +:+ s2) +:+ s3.
Proof. induction s1; [reflexivity|]. rewrite !string_app_cons. by f_equal. Qed.

Lemma string_length_app (s1 s2 : string) :
  String.length (s1 +:+ s2) = String.length s1 + String.length s2.
Proof. induction s1; [reflexivity|]. rewrite string_app_cons. simpl. by f_equal. Qed.

Lemma chars_app (s1 s2 : string) : chars (s1 +:+ s2) = chars s1 ++ chars s2.
Proof. induction s1; [reflexivity|]. rewrite string_app_cons. simpl. by f_equal. Qed.

Lemma chars_inj (s1 s2 : string) : chars s1 = chars s2 → s1 = s2.
Proof.
  revert s2. induction s1; intros [|] ?; simplify_eq/=; [done|].
  f_equal; auto.
Qed.

Lemma chars_length (s : string) : length (chars s) = String.length s.
Proof. induction s; simpl; congruence. Qed.

#[export] Hint Rewrite string_app_nil_l string_app_nil_r string_app_cons string_length_app chars_app : go.
