(* ===== verification/GoStrings.v ===== *)
(** * The functions of Go's [strings] package that the program calls

    [Repeat], [Split], [Join] and [HasPrefix], modelled from the package
    documentation.  Every separator the program splits on (["\n"], [","],
    [" "]) is one byte, so [Split] takes a character. *)

From S2P Require Import Prelude.

(** ** Definitions *)

(** [strings.Repeat(s, count)]: panics when [count] is negative. *)
Definition Repeat (s : string) (count : Z) : res string :=
  if decide (count < 0)%Z then Panic NegativeRepeat
  else Ok (foldr String.app "" (replicate (Z.to_nat count) s)).

(** The piece before the first separator and the pieces after it. *)
Fixpoint split_aux (sep : ascii) (s : string) : string * list string :=
  match s with
  | EmptyString => ("", [])
  | String c s' =>
      let '(x, xs) := split_aux sep s' in
      if decide (c = sep) then ("", x :: xs) else (String c x, xs)
  end.

(** [strings.Split(s, sep)] for a separator of one byte. *)
Definition Split (s : string) (sep : ascii) : list string :=
  let '(x, xs) := split_aux sep s in x :: xs.

(** [strings.Join(elems, sep)]. *)
Fixpoint Join (elems : list string) (sep : string) : string :=
  match elems with
  | [] => ""
  | x :: xs =>
      match xs with
      | [] => x
      | _ :: _ => x +:+ sep +:+ Join xs sep
      end
  end.

(** [strings.HasPrefix(s, prefix)]. *)
Fixpoint HasPrefix (s prefix : string) {struct prefix} : bool :=
  match prefix with
  | EmptyString => true
  | String c p' =>
      match s with
      | EmptyString => false
      | String d s' => bool_decide (c = d) && HasPrefix s' p'
      end
  end.

(** The string holds the character. *)
Definition contains (c : ascii) (s : string) : Prop := c ∈ chars s.

#[export] Instance contains_dec (c : ascii) (s : string) : Decision (contains c s).
Proof. unfold contains. apply _. Defined.

(** ** [Repeat] *)

Lemma Repeat_nonneg (s : string) (count : Z) :
  (0 ≤ count)%Z →
  Repeat s count = Ok (foldr String.app "" (replicate (Z.to_nat count) s)).
Proof. intros. unfold Repeat. by rewrite decide_False by lia. Qed.

Lemma Repeat_negative (s : string) (count : Z) :
  (count < 0)%Z → Repeat s count = Panic NegativeRepeat.
Proof. intros. unfold Repeat. by rewrite decide_True. Qed.

Lemma Repeat_zero (s : string) : Repeat s 0 = Ok "".
Proof. reflexivity. Qed.

Lemma replicate_app_length (s : string) (n : nat) :
  String.length (foldr String.app "" (replicate n s)) = n * String.length s.
Proof.
  induction n as [|n IH]; simpl; [done|].
  rewrite string_length_app, IH. lia.
Qed.

Lemma Repeat_length (s r : string) (count : Z) :
  Repeat s count = Ok r →
  (0 ≤ count)%Z ∧ String.length r = Z.to_nat count * String.length s.
Proof.
  unfold Repeat. case_decide; intros; simplify_eq.
  split; [lia|]. apply replicate_app_length.
Qed.

Lemma Repeat_is_Ok (s : string) (count : Z) :
  is_Ok (Repeat s count) ↔ (0 ≤ count)%Z.
Proof.
  unfold is_Ok, Repeat. case_decide; split; intros; try lia; eauto.
  by destruct H0.
Qed.

(** ** [Split] and [Join] *)

Lemma Split_nil (sep : ascii) : Split "" sep = [""].
Proof. reflexivity. Qed.

Lemma Split_cons_sep (sep : ascii) (s : string) :
  Split (String sep s) sep = "" :: Split s sep.
Proof.
  unfold Split. simpl. destruct (split_aux sep s). by rewrite decide_True.
Qed.

Lemma Split_cons_other (sep c : ascii) (s : string) :
  c ≠ sep →
  Split (String c s) sep =
    match Split s sep with
    | x :: xs => String c x :: xs
    | [] => []
    end.
Proof.
  intros. unfold Split. simpl. destruct (split_aux sep s).
  by rewrite decide_False.
Qed.

Lemma Split_not_nil (s : string) (sep : ascii) : Split s sep ≠ [].
Proof. unfold Split. by destruct (split_aux sep s). Qed.

Lemma Split_length_pos (s : string) (sep : ascii) : 0 < length (Split s sep).
Proof. unfold Split. destruct (split_aux sep s). simpl. lia. Qed.

(** The number of pieces is one more than the number of separators. *)
Lemma Split_length (s : string) (sep : ascii) :
  length (Split s sep) = S (length (filter (λ c, c = sep) (chars s))).
Proof.
  induction s as [|c s IH]; [done|].
  destruct (decide (c = sep)) as [->|Hne].
  - rewrite Split_cons_sep. simpl. rewrite filter_cons_True by done.
    simpl. by rewrite IH.
  - rewrite Split_cons_other by done. simpl. rewrite filter_cons_False by done.
    rewrite <- IH. by destruct (Split s sep).
Qed.

(** A string without the separator is its own single piece. *)
Lemma Split_no_sep (s : string) (sep : ascii) :
  ¬ contains sep s → Split s sep = [s].
Proof.
  unfold contains. induction s as [|c s IH]; [done|].
  simpl. rewrite not_elem_of_cons. intros [Hne Hs].
  rewrite Split_cons_other by done. by rewrite IH.
Qed.

(** One piece only when there is no separator. *)
Lemma Split_length_lt_2 (s : string) (sep : ascii) :
  length (Split s sep) < 2 ↔ ¬ contains sep s.
Proof.
  rewrite Split_length. unfold contains. split.
  - intros Hlen Hin.
    assert (sep ∈ filter (λ c, c = sep) (chars s)) as Hf
      by (by apply list_elem_of_filter).
    destruct (filter _ (chars s)); [by apply elem_of_nil in Hf|simpl in *; lia].
  - intros Hnin.
    destruct (filter (λ c, c = sep) (chars s)) as [|c l] eqn:E; simpl; [lia|].
    assert (c ∈ filter (λ c, c = sep) (chars s)) as Hf by (rewrite E; left).
    apply list_elem_of_filter in Hf as [-> ?]. done.
Qed.

(** No piece holds the separator. *)
Lemma Split_pieces (s : string) (sep : ascii) :
  Forall (λ x, ¬ contains sep x) (Split s sep).
Proof.
  unfold contains. induction s as [|c s IH].
  - repeat constructor. simpl. apply not_elem_of_nil.
  - destruct (decide (c = sep)) as [->|Hne].
    + rewrite Split_cons_sep. constructor; [apply not_elem_of_nil|done].
    + rewrite Split_cons_other by done.
      destruct (Split s sep) as [|x xs]; [done|].
      inversion IH; subst. constructor; [|done].
      simpl. rewrite not_elem_of_cons. auto.
Qed.

Lemma Join_singleton (x sep : string) : Join [x] sep = x.
Proof. reflexivity. Qed.

Lemma Join_cons_cons (x y : string) (l : list string) (sep : string) :
  Join (x :: y :: l) sep = x +:+ sep +:+ Join (y :: l) sep.
Proof. reflexivity. Qed.

(** Joining with the empty separator concatenates. *)
Lemma Join_empty_sep (l : list string) : Join l "" = foldr String.app "" l.
Proof.
  induction l as [|x [|y l] IH]; [done| |].
  - simpl. by rewrite string_app_nil_r.
  - rewrite Join_cons_cons, IH. by rewrite string_app_nil_l.
Qed.

(** Round trip: joining the pieces with the separator gives the string
    back. *)
Lemma Join_Split (s : string) (sep : ascii) :
  Join (Split s sep) (String sep "") = s.
Proof.
  induction s as [|c s IH]; [done|].
  destruct (decide (c = sep)) as [->|Hne].
  - rewrite Split_cons_sep.
    pose proof (Split_not_nil s sep).
    destruct (Split s sep) as [|x xs] eqn:E; [done|].
    rewrite Join_cons_cons, IH. reflexivity.
  - rewrite Split_cons_other by done.
    destruct (Split s sep) as [|x [|y ys]] eqn:E.
    + by destruct (Split_not_nil s sep).
    + simpl in *. by subst.
    + rewrite Join_cons_cons in *. rewrite string_app_cons. by f_equal.
Qed.

(** Round trip, the other way: splitting a join of pieces that hold no
    separator gives the pieces back. *)
Lemma Split_Join (l : list string) (sep : ascii) :
  l ≠ [] → Forall (λ x, ¬ contains sep x) l →
  Split (Join l (String sep "")) sep = l.
Proof.
  intros Hne Hl. induction Hl as [|x l Hx Hl IH]; [done|].
  destruct l as [|y l].
  - simpl. by apply Split_no_sep.
  - rewrite Join_cons_cons. clear Hne.
    specialize (IH ltac:(done)). revert Hx. unfold contains.
    induction x as [|c x IHx]; intros Hx.
    + rewrite string_app_nil_l, string_app_cons, string_app_nil_l.
      by rewrite Split_cons_sep, IH.
    + simpl in Hx. apply not_elem_of_cons in Hx as [Hc Hx].
      rewrite string_app_cons, Split_cons_other by done.
      by rewrite IHx.
Qed.

(** ** [HasPrefix] *)

Lemma HasPrefix_spec (s prefix : string) :
  HasPrefix s prefix = true ↔ ∃ r, s = prefix +:+ r.
Proof.
  revert s. induction prefix as [|c p IH]; intros s; simpl.
  - split; [intros _; by exists s|done].
  - destruct s as [|d s].
    + split; [done|]. by intros [r ?].
    + rewrite andb_true_iff, bool_decide_eq_true, IH. split.
      * intros [-> [r ->]]. by exists r.
      * intros [r Hr]. rewrite string_app_cons in Hr. simplify_eq. eauto.
Qed.

Lemma HasPrefix_app (prefix r : string) : HasPrefix (prefix +:+ r) prefix = true.
Proof. apply HasPrefix_spec. eauto. Qed.

#[export] Hint Resolve Split_not_nil Split_length_pos Split_pieces : go.
#[export] Hint Rewrite Split_nil Split_cons_sep Join_Split Join_singleton : go.
