(* ===== verification/Tags.v ===== *)
(** * The struct-tag helpers

    [tagSpec] reads the name and the [omitempty] option of a tag;
    [filterTags] drops the tags that start with [tree:] from a
    space-separated list of tags. *)

From S2P Require Import Prelude GoStrings.

Module Tags.

(** ** Definitions *)

(** [tagSpec(tag)]: the part before the first comma, and whether the part
    after it is [omitempty]. *)
Definition tagSpec (tag : string) : res (string * bool) :=
  let parts := Split tag ","%char in
  if decide (length parts < 2) then Ok (tag, false)
  else
    p1 ← index parts 1;
    if decide (p1 = "omitempty") then
      p0 ← index parts 0; Ok (p0, true)
    else
      p0 ← index parts 0; Ok (p0, false).

(** The body of the loop of [filterTags]: a tag is appended unless it
    starts with [tree:]. *)
Definition filter_step (filtered : list string) (t : string) : list string :=
  if HasPrefix t "tree:" then filtered else filtered ++ [t].

(** [filterTags(tag)]. *)
Definition filterTags (tag : string) : string :=
  let tags := Split tag " "%char in
  let filtered := foldl filter_step [] tags in
  Join filtered " ".

(** The tags [filterTags] keeps, stated without the loop. *)
Definition kept (tags : list string) : list string :=
  filter (λ t, HasPrefix t "tree:" = false) tags.

(** ** [tagSpec] *)

Lemma tagSpec_parts (tag p0 p1 : string) (rest : list string) :
  Split tag ","%char = p0 :: p1 :: rest →
  tagSpec tag = Ok (p0, bool_decide (p1 = "omitempty")).
Proof.
  intros Hs. unfold tagSpec. rewrite Hs. simpl.
  case_decide; [by rewrite bool_decide_eq_true_2|by rewrite bool_decide_eq_false_2].
Qed.

(** C39: [tagSpec] never panics: its two index expressions are in range. *)
Theorem tagSpec_total (tag : string) : is_Ok (tagSpec tag).
Proof.
  destruct (Split tag ","%char) as [|p0 [|p1 rest]] eqn:Hs.
  - by destruct (Split_not_nil tag ","%char).
  - unfold tagSpec, is_Ok. rewrite Hs. simpl. eauto.
  - rewrite (tagSpec_parts _ _ _ _ Hs). unfold is_Ok. eauto.
Qed.

(** A tag without a comma is its own name, and is not [omitempty]. *)
Theorem tagSpec_no_comma (tag : string) :
  ¬ contains ","%char tag → tagSpec tag = Ok (tag, false).
Proof.
  intros Hs%Split_no_sep. unfold tagSpec. by rewrite Hs.
Qed.

Lemma tagSpec_no_comma_witness :
  ¬ contains ","%char "name" ∧ tagSpec "name" = Ok ("name", false).
Proof.
  assert (¬ contains ","%char "name") as H by by_compute.
  split; [exact H|exact (tagSpec_no_comma "name" H)].
Defined.

(** For a tag [name,opt...] whose name holds no comma, [tagSpec] returns
    the name, and says [omitempty] exactly when the text between the first
    and the second comma is [omitempty]. *)
Theorem tagSpec_comma (name rest : string) :
  ¬ contains ","%char name →
  ∃ p1 ps, Split rest ","%char = p1 :: ps ∧
    tagSpec (name +:+ String ","%char rest) =
      Ok (name, bool_decide (p1 = "omitempty")).
Proof.
  intros Hname.
  destruct (Split rest ","%char) as [|p1 ps] eqn:Hrest;
    [by destruct (Split_not_nil rest ","%char)|].
  exists p1, ps. split; [done|].
  apply (tagSpec_parts _ _ _ ps).
  rewrite <- Hrest. clear Hrest. revert Hname. unfold contains.
  induction name as [|c name IH]; simpl; intros Hname.
  - by rewrite string_app_nil_l, Split_cons_sep.
  - apply not_elem_of_cons in Hname as [Hc Hname].
    rewrite string_app_cons, Split_cons_other by done.
    by rewrite IH.
Qed.

(** ** [filterTags] *)

Lemma foldl_filter_step (acc tags : list string) :
  foldl filter_step acc tags = acc ++ kept tags.
Proof.
  revert acc. induction tags as [|t tags IH]; intros acc; simpl.
  - by rewrite app_nil_r.
  - rewrite IH. unfold filter_step, kept.
    destruct (HasPrefix t "tree:") eqn:E.
    + by rewrite filter_cons_False by (by rewrite E).
    + rewrite filter_cons_True by done. by rewrite <- app_assoc.
Qed.

(** The loop of [filterTags] keeps, in order, exactly the tags that do
    not start with [tree:]. *)
Lemma filterTags_kept (tag : string) :
  filterTags tag = Join (kept (Split tag " "%char)) " ".
Proof. unfold filterTags. by rewrite foldl_filter_step. Qed.

Lemma kept_no_space (tag : string) :
  Forall (λ x, ¬ contains " "%char x) (kept (Split tag " "%char)).
Proof. apply Forall_filter_sub, Split_pieces. Qed.

Lemma kept_idemp (tags : list string) : kept (kept tags) = kept tags.
Proof.
  apply filter_all, Forall_forall. by intros t [? _]%list_elem_of_filter.
Qed.

(** The tags of the result: those kept, or one empty tag when none is. *)
Lemma Split_filterTags (tag : string) :
  Split (filterTags tag) " "%char =
    match kept (Split tag " "%char) with
    | [] => [""]
    | l => l
    end.
Proof.
  rewrite filterTags_kept.
  destruct (kept (Split tag " "%char)) as [|x l] eqn:E; [done|].
  apply Split_Join; [done|]. rewrite <- E. apply kept_no_space.
Qed.

(** C40: no tag of the result of [filterTags] starts with [tree:]. *)
Theorem filterTags_no_tree (tag : string) :
  Forall (λ t, HasPrefix t "tree:" = false) (Split (filterTags tag) " "%char).
Proof.
  rewrite Split_filterTags.
  destruct (kept (Split tag " "%char)) as [|x l] eqn:E.
  - by repeat constructor.
  - rewrite <- E. unfold kept. apply Forall_forall.
    by intros t [? _]%list_elem_of_filter.
Qed.

(** [filterTags] is idempotent. *)
Theorem filterTags_idemp (tag : string) :
  filterTags (filterTags tag) = filterTags tag.
Proof.
  rewrite (filterTags_kept (filterTags tag)), Split_filterTags.
  destruct (kept (Split tag " "%char)) as [|x l] eqn:E.
  - by rewrite filterTags_kept, E.
  - rewrite <- E, kept_idemp. by rewrite filterTags_kept.
Qed.

(** A list of tags none of which starts with [tree:] is returned
    unchanged. *)
Theorem filterTags_id (tag : string) :
  Forall (λ t, HasPrefix t "tree:" = false) (Split tag " "%char) →
  filterTags tag = tag.
Proof.
  intros Hall. rewrite filterTags_kept. unfold kept.
  rewrite filter_all by done. apply Join_Split.
Qed.

Lemma filterTags_id_witness :
  Forall (λ t, HasPrefix t "tree:" = false) (Split "json:x xml:y" " "%char) ∧
  filterTags "json:x xml:y" = "json:x xml:y".
Proof.
  assert (Forall (λ t, HasPrefix t "tree:" = false)
            (Split "json:x xml:y" " "%char)) as H by by_compute.
  split; [exact H|exact (filterTags_id _ H)].
Defined.

Lemma tagSpec_comma_witness :
  ¬ contains ","%char "name" ∧
  ∃ p1 ps, Split "omitempty" ","%char = p1 :: ps ∧
    tagSpec ("name" +:+ String ","%char "omitempty") =
      Ok ("name", bool_decide (p1 = "omitempty")).
Proof.
  assert (¬ contains ","%char "name") as H by by_compute.
  split; [exact H|exact (tagSpec_comma "name" "omitempty" H)].
Defined.

Example filterTags_example :
  filterTags "json:a tree:b xml:c tree:d" = "json:a xml:c".
Proof. reflexivity. Qed.

Example tagSpec_example :
  tagSpec "size,omitempty" = Ok ("size", true) ∧
  tagSpec "size,string,omitempty" = Ok ("size", false).
Proof. split; reflexivity. Qed.

End Tags.
