(* ===== verification/Payload.v ===== *)
(** * Payloads: what the program asks of a value of type [any]

    A node's [Value] and [Meta] are of Go's type [any].  The program does
    four things with such a value: it compares it with [nil], prints it
    with the verb [%v], hands a list of them to [fmt.Sprintf] with a format
    of the caller (the [...f] methods), and compares two of them with
    [reflect.DeepEqual].  [renderValue] also returns a string as an [any].
    The class [Payload] is that interface.  [reflect.DeepEqual] is a field
    of its own, a boolean relation of which nothing is assumed: in Go it is
    not reflexive (a NaN, a non-nil func) and relates values that are not
    identical (two pointers to equal structs).  [GoValue] is the instance
    the examples run on: nil, strings, integers, booleans and the float64
    NaN; [reflect.DeepEqual] is equality on them, except that NaN is not
    equal to itself.  [GoValue_sprintf] is [fmt.Sprintf] on
    these values for the verbs [v], [s], [d], [t] and the doubled percent
    sign, without flags, width or precision; it returns [None] on a format
    outside this fragment. *)

From S2P Require Import Prelude.
From stdpp Require Import pretty.

(** ** The interface *)

Class Payload (any : Type) := {
  (** identity of values, for the comparison with [nil] *)
  any_eq_dec :: EqDecision any;
  (** [reflect.DeepEqual(x, y)] *)
  DeepEqual : any → any → bool;
  (** the nil interface value *)
  any_nil : any;
  (** a Go string as an [any] *)
  any_string : string → any;
  (** [fmt.Sprintf("%v", x)] *)
  fmt_v : any → string;
  (** [fmt.Sprintf(format, a...)] *)
  Sprintf : string → list any → string;
  fmt_v_string : ∀ s, fmt_v (any_string s) = s;
  any_string_not_nil : ∀ s, any_string s ≠ any_nil;
  Sprintf_v : ∀ x, Sprintf "%v" [x] = fmt_v x;
}.

(** ** The instance: nil, strings, integers, booleans, NaN *)

Inductive GoValue : Type :=
| VNil
| VString (s : string)
| VInt (z : Z)
| VBool (b : bool)
| VNaN.

#[export] Instance GoValue_eq_dec : EqDecision GoValue.
Proof. solve_decision. Defined.

(** The text [%v] prints. *)
Definition GoValue_fmt (v : GoValue) : string :=
  match v with
  | VNil => "<nil>"
  | VString s => s
  | VInt z => pretty z
  | VBool b => if b then "true" else "false"
  | VNaN => "NaN"
  end.

(** [reflect.DeepEqual] on these values: identity, except that a NaN is
    equal to nothing. *)
Definition GoValue_DeepEqual (x y : GoValue) : bool :=
  match x, y with
  | VNaN, _ | _, VNaN => false
  | _, _ => bool_decide (x = y)
  end.

(** The name of the dynamic type, as the error forms of [fmt] print it. *)
Definition GoValue_type (v : GoValue) : string :=
  match v with
  | VNil => "<nil>"
  | VString _ => "string"
  | VInt _ => "int"
  | VBool _ => "bool"
  | VNaN => "float64"
  end.

(** An operand in an error form: [type=value], [<nil>] for nil. *)
Definition fmt_operand (v : GoValue) : string :=
  match v with
  | VNil => "<nil>"
  | _ => GoValue_type v +:+ "=" +:+ GoValue_fmt v
  end.

(** [%!verb(type=value)]: a verb that does not fit its operand. *)
Definition bad_verb (c : ascii) (v : GoValue) : string :=
  "%!" +:+ String c ("(" +:+ fmt_operand v +:+ ")").

(** One operand under one verb.  The verbs [v], [s], [d] and [t] are
    modelled; the result is [None] for any other. *)
Definition fmt_verb (c : ascii) (v : GoValue) : option string :=
  if decide (c = "v"%char) then Some (GoValue_fmt v)
  else if decide (c = "s"%char) then
    Some (match v with VString s => s | _ => bad_verb c v end)
  else if decide (c = "d"%char) then
    Some (match v with VInt z => pretty z | _ => bad_verb c v end)
  else if decide (c = "t"%char) then
    Some (match v with VBool _ => GoValue_fmt v | _ => bad_verb c v end)
  else None.

(** [%!(EXTRA type=value, ...)]: the operands no verb consumed. *)
Definition fmt_extra (a : list GoValue) : string :=
  match a with
  | [] => ""
  | v :: a' =>
      "%!(EXTRA " +:+ fmt_operand v +:+
      foldr (λ x acc, ", " +:+ fmt_operand x +:+ acc) ")" a'
  end.

(** [fmt.Sprintf] on formats whose directives are a [%] and a verb, with
    neither flags nor width, precision or argument index: a [%%] is a
    percent sign, a verb without operand is [%!verb(MISSING)], a [%] at
    the end is [%!(NOVERB)], and the operands left over are listed at
    the end.  [None] when the format is outside this fragment. *)
Fixpoint GoValue_sprintf (format : string) (a : list GoValue) : option string :=
  match format with
  | "" => Some (fmt_extra a)
  | String c rest =>
      if decide (c = "%"%char) then
        match rest with
        | "" => Some ("%!(NOVERB)" +:+ fmt_extra a)
        | String c' rest' =>
            if decide (c' = "%"%char) then String c' <$> GoValue_sprintf rest' a
            else
              match a with
              | [] =>
                  if decide (fmt_verb c' VNil = None) then None
                  else String.app ("%!" +:+ String c' "(MISSING)") <$>
                         GoValue_sprintf rest' []
              | v :: a' =>
                  s ← fmt_verb c' v;
                  String.app s <$> GoValue_sprintf rest' a'
              end
        end
      else String c <$> GoValue_sprintf rest a
  end.

#[export] Program Instance GoValue_payload : Payload GoValue := {|
  DeepEqual := GoValue_DeepEqual;
  any_nil := VNil;
  any_string := VString;
  fmt_v := GoValue_fmt;
  Sprintf format a := default "" (GoValue_sprintf format a);
|}.
Next Obligation. done. Qed.
Next Obligation. done. Qed.
Next Obligation. intros x. simpl. apply string_app_nil_r. Qed.

(** ** Lemmas *)

Section payload.
Context `{Payload any}.

(** The text of the bracketed prefix and the value, as [Writer] and
    [printValues] format them: ["[%v]  %v"]. *)
Definition fmt_meta_value (meta val : any) : string :=
  "[" +:+ fmt_v meta +:+ "]  " +:+ fmt_v val.

Lemma any_string_inj (s1 s2 : string) : any_string s1 = any_string s2 → s1 = s2.
Proof. intros Heq. by rewrite <- (fmt_v_string s1), Heq, fmt_v_string. Qed.

End payload.

(** On the instance [reflect.DeepEqual] is symmetric, and holds of
    identical values only; it holds of a value and itself unless the value
    is NaN. *)
Lemma GoValue_DeepEqual_spec (x y : GoValue) :
  GoValue_DeepEqual x y ↔ x = y ∧ x ≠ VNaN.
Proof.
  destruct x, y; simpl; rewrite ?bool_decide_spec; naive_solver.
Qed.

#[export] Instance GoValue_DeepEqual_sym : Symmetric (λ x y, GoValue_DeepEqual x y).
Proof. intros x y. rewrite !GoValue_DeepEqual_spec. naive_solver. Qed.

Example GoValue_fmt_examples :
  fmt_v (VInt 1) = "1" ∧ fmt_v (VInt (-12)) = "-12" ∧ fmt_v VNil = "<nil>" ∧
  fmt_v (VBool true) = "true" ∧ fmt_v (VString "x") = "x".
Proof. repeat split. Qed.

(** The forms of [fmt.Sprintf]: operands in order, a wrong verb, a missing
    operand, an operand too many, a percent sign, and a format outside the
    fragment. *)
Example GoValue_sprintf_examples :
  GoValue_sprintf "%s has %d" [VString "A"; VInt 2] = Some "A has 2" ∧
  GoValue_sprintf "%d" [VString "hi"] = Some "%!d(string=hi)" ∧
  GoValue_sprintf "%s" [VNil] = Some "%!s(<nil>)" ∧
  GoValue_sprintf "hi%d" [] = Some "hi%!d(MISSING)" ∧
  GoValue_sprintf "hi" [VString "guys"; VNil] = Some "hi%!(EXTRA string=guys, <nil>)" ∧
  GoValue_sprintf "100%%" [] = Some "100%" ∧
  GoValue_sprintf "%" [] = Some "%!(NOVERB)" ∧
  GoValue_sprintf "%5d" [VInt 1] = None.
Proof. repeat split. Qed.
