(* ===== verification/Sink.v ===== *)
(** * Sinks: the [io.Writer] the renderer writes to

    The renderer calls [fmt.Fprintf], [fmt.Fprint] and [io.WriteString] on
    an [io.Writer] and drops what they return; each call hands the sink one
    chunk of bytes.  The class [Sink] is that interface.  [Bytes] renders
    into a [bytes.Buffer], the instance [Buffer_sink]; the instance
    [Trace_sink] records the chunks one by one. *)

From S2P Require Import Prelude.

(** ** The interface *)

(** [Write s w]: the sink [w] after [s] was written to it. *)
Class Sink (W : Type) := Write : string → W → W.

(** One call of [fmt.Fprint], [fmt.Fprintf] or [io.WriteString] with the
    formatted text [s]. *)
Definition Fprint `{Sink W} (s : string) : M W () := λ w, (Ok (), Write s w).

(** A map between sinks that commutes with writing. *)
Class SinkHom `{Sink W1, Sink W2} (φ : W1 → W2) :=
  sink_hom : ∀ s w, φ (Write s w) = Write s (φ w).

(** ** Two sinks *)

(** A [bytes.Buffer]: writing appends. *)
#[export] Instance Buffer_sink : Sink string := λ s buf, buf +:+ s.

(** The sequence of chunks written, oldest first. *)
#[export] Instance Trace_sink : Sink (list string) := λ s t, t ++ [s].

(** The bytes of a trace. *)
Definition flatten (t : list string) : string := foldr String.app "" t.

(** ** Lemmas *)

Lemma flatten_app (t1 t2 : list string) :
  flatten (t1 ++ t2) = flatten t1 +:+ flatten t2.
Proof.
  unfold flatten. induction t1 as [|s t1 IH]; simpl; [done|].
  by rewrite IH, string_app_assoc.
Qed.

#[export] Instance flatten_hom : SinkHom flatten.
Proof.
  intros s t. unfold Write, Trace_sink, Buffer_sink.
  rewrite flatten_app. unfold flatten. simpl. by rewrite string_app_nil_r.
Qed.

Lemma Buffer_write (s buf : string) : Write s buf = buf +:+ s.
Proof. reflexivity. Qed.

Lemma Fprint_run `{Sink W} (s : string) (w : W) : Fprint s w = (Ok (), Write s w).
Proof. reflexivity. Qed.

(** Two writes to a buffer are one write of the two texts. *)
Lemma Buffer_write_write (s1 s2 buf : string) :
  Write s2 (Write s1 buf) = Write (s1 +:+ s2) buf.
Proof. unfold Write, Buffer_sink. by rewrite string_app_assoc. Qed.

#[export] Hint Rewrite Buffer_write : go.
