(* ===== verification/Heap.v ===== *)
(** * The heap of [Node] objects

    The struct [Node] and the part of the Go heap that holds the nodes, as
    an arena: the address of a node is its index in the list, a new node is
    appended, nothing is freed.  [load] dereferences a pointer, [store]
    assigns through it, [alloc] is [&Node{...}]. *)

From S2P Require Import Prelude.

(** ** Definitions *)

(** A non-nil [*Node]. *)
Definition ptr := nat.

(** The struct [Node]. *)
Record Node (any : Type) : Type := mkNode {
  Root : option ptr;
  Meta : any;
  Value : any;
  Nodes : list ptr;
}.
Arguments mkNode {any} _ _ _ _.
Arguments Root {any} _.
Arguments Meta {any} _.
Arguments Value {any} _.
Arguments Nodes {any} _.

Abbreviation heap any := (list (Node any)).

Section heap.
Context {any : Type}.
Implicit Types (h : heap any) (p : ptr) (nd : Node any).

(** The assignments [n.Root = r], [n.Meta = m], [n.Value = v] and
    [n.Nodes = ns] on a copy of the struct. *)
Definition set_Root (r : option ptr) nd : Node any :=
  mkNode r (Meta nd) (Value nd) (Nodes nd).

Definition set_Meta (m : any) nd : Node any :=
  mkNode (Root nd) m (Value nd) (Nodes nd).

Definition set_Value (v : any) nd : Node any :=
  mkNode (Root nd) (Meta nd) v (Nodes nd).

Definition set_Nodes (ns : list ptr) nd : Node any :=
  mkNode (Root nd) (Meta nd) (Value nd) ns.

(** Reading through a pointer. *)
Definition load h p : res (Node any) :=
  match h !! p with
  | Some nd => Ok nd
  | None => Panic NilDereference
  end.

Definition loadM p : M (heap any) (Node any) := λ h, (load h p, h).

(** Reading through a pointer that the caller held before the object at
    [fresh] was allocated.  An address at which nothing was allocated
    when the pointer was made stands for nil, and stays nil: it is not
    the address of an object allocated since. *)
Definition loadM_before (fresh : ptr) p : M (heap any) (Node any) :=
  if decide (p < fresh) then loadM p else lift (Panic NilDereference).

(** Writing through a pointer. *)
Definition store p nd : M (heap any) () := λ h,
  if decide (p < length h) then (Ok (), <[p:=nd]> h)
  else (Panic NilDereference, h).

(** [&Node{...}]: a fresh object, at the next address. *)
Definition alloc nd : M (heap any) ptr := λ h, (Ok (length h), h ++ [nd]).

(** ** Lemmas *)

Lemma load_Ok h p nd : load h p = Ok nd ↔ h !! p = Some nd.
Proof. unfold load. destruct (h !! p); naive_solver. Qed.

Lemma load_Some h p nd : h !! p = Some nd → load h p = Ok nd.
Proof. apply load_Ok. Qed.

Lemma load_None h p : h !! p = None → load h p = Panic NilDereference.
Proof. unfold load. by intros ->. Qed.

Lemma load_cases h p :
  (∃ nd, h !! p = Some nd ∧ load h p = Ok nd) ∨
  (h !! p = None ∧ load h p = Panic NilDereference).
Proof. unfold load. destruct (h !! p); eauto. Qed.

Lemma load_not_OutOfFuel h p : load h p ≠ OutOfFuel.
Proof. unfold load. by destruct (h !! p). Qed.

Lemma loadM_run h p : loadM p h = (load h p, h).
Proof. reflexivity. Qed.

(** A method that starts by reading its receiver panics on nil. *)
Lemma loadM_bind_nil {B} h p (k : Node any → M (heap any) B) :
  h !! p = None → (loadM p ≫= k) h = (Panic NilDereference, h).
Proof. intros Hp. eapply M_bind_Panic. by rewrite loadM_run, (load_None _ _ Hp). Qed.

Lemma loadM_before_old h nd fresh p :
  p < fresh → loadM_before fresh p (h ++ [nd]) = (load (h ++ [nd]) p, h ++ [nd]).
Proof. intros. unfold loadM_before. by rewrite decide_True. Qed.

Lemma loadM_before_nil h fresh p :
  fresh ≤ p → loadM_before fresh p h = (Panic NilDereference, h).
Proof. intros. unfold loadM_before. by rewrite decide_False by lia. Qed.

Lemma store_Ok h p nd nd0 :
  h !! p = Some nd0 → store p nd h = (Ok (), <[p:=nd]> h).
Proof.
  intros Hp%lookup_lt_Some. unfold store. by rewrite decide_True.
Qed.

Lemma alloc_run h nd : alloc nd h = (Ok (length h), h ++ [nd]).
Proof. reflexivity. Qed.

Lemma lookup_alloc_old h nd p nd0 :
  h !! p = Some nd0 → (h ++ [nd]) !! p = Some nd0.
Proof. apply lookup_app_l_Some. Qed.

Lemma lookup_alloc_new h nd : (h ++ [nd]) !! length h = Some nd.
Proof. by rewrite lookup_app_r, Nat.sub_diag by lia. Qed.

Lemma set_Nodes_fields ns nd :
  Root (set_Nodes ns nd) = Root nd ∧ Meta (set_Nodes ns nd) = Meta nd ∧
  Value (set_Nodes ns nd) = Value nd ∧ Nodes (set_Nodes ns nd) = ns.
Proof. done. Qed.

End heap.

#[export] Hint Rewrite @loadM_run @alloc_run : go.
#[export] Hint Resolve lookup_alloc_old lookup_alloc_new : go.
