(* ===== verification/Slices.v ===== *)
(** * Go slices

    A slice is a view of an array: the array, and how many of its
    elements the slice holds.  [append] writes the new element into the
    array when the array has room past the length of the slice, and only
    then: two slices of one array see each other's writes.  When the
    array is full, [append] allocates a larger one and copies.

    The arrays live in a store; the slices of the program all start at
    the first element of their array, so a slice is the address of its
    array and a length, and its capacity is the size of the array.  How
    much larger a new array is than what is needed depends on the
    run-time system: it is the parameter [grow].

    [modifies s] relates two stores when the elements of [s] and all
    arrays but the one of [s] are the same in both: what a callee that
    was handed [s] may have done to the store.  An [append] to [s],
    followed by anything that modifies the new slice only, modifies [s]
    only ([append_frame]). *)

From S2P Require Import Prelude.

Module Slice.

(** The arrays allocated so far. *)
Abbreviation store A := (list (list A)).

(** The capacity [append] gives the array it allocates for [n] small
    elements: twice the capacity of the array that was full. *)
Definition double_grow (n : nat) : nat := n `max` (2 * (n - 1)).

Section slice.
Context {A : Type}.
Variable zero : A.
Variable grow : nat → nat.

(** ** Definitions *)

(** A slice header: the array, if there is one, and the length.  The nil
    slice has no array. *)
Record slice : Type := mkSlice { sarr : option nat; slen : nat }.

Definition nil_slice : slice := mkSlice None 0.

(** The array of a slice. *)
Definition backing (σ : store A) (s : slice) : list A :=
  default [] (a ← sarr s; σ !! a).

(** [cap(s)]. *)
Definition cap (σ : store A) (s : slice) : nat := length (backing σ s).

(** The elements of a slice, as [range] reads them. *)
Definition elems (σ : store A) (s : slice) : list A := take (slen s) (backing σ s).

(** The array [append] allocates when the old one is full: the elements,
    the new one, and zero values up to the new capacity. *)
Definition fresh (σ : store A) (s : slice) (x : A) : list A :=
  elems σ s ++ x :: replicate (grow (S (slen s)) - S (slen s)) zero.

(** [append(s, x)]. *)
Definition append (s : slice) (x : A) : M (store A) slice := λ σ,
  match sarr s with
  | Some a =>
      if decide (slen s < cap σ s) then
        (Ok (mkSlice (Some a) (S (slen s))), <[a := <[slen s := x]> (backing σ s)]> σ)
      else
        (Ok (mkSlice (Some (length σ)) (S (slen s))), σ ++ [fresh σ s x])
  | None => (Ok (mkSlice (Some (length σ)) (S (slen s))), σ ++ [fresh σ s x])
  end.

(** [s[i] = x]: the element is written into the array; the index has to
    be below the length. *)
Definition assign (s : slice) (i : nat) (x : A) : M (store A) () := λ σ,
  match sarr s with
  | Some a =>
      if decide (i < slen s) then (Ok (), <[a := <[i := x]> (backing σ s)]> σ)
      else (Panic IndexOutOfRange, σ)
  | None => (Panic IndexOutOfRange, σ)
  end.

(** The length of a slice is within its array. *)
Definition valid (σ : store A) (s : slice) : Prop := slen s ≤ cap σ s.

(** What may have happened to the store while [s] was lent: arrays were
    added, and the array of [s] was written past the length of [s]. *)
Definition modifies (s : slice) (σ σ' : store A) : Prop :=
  ∀ a arr, σ !! a = Some arr →
    ∃ arr', σ' !! a = Some arr' ∧ length arr' = length arr ∧
      if decide (sarr s = Some a) then take (slen s) arr' = take (slen s) arr
      else arr' = arr.

(** ** The relation [modifies] *)

#[export] Instance modifies_refl s : Reflexive (modifies s).
Proof. intros σ a arr Ha. exists arr. by case_decide. Qed.

#[export] Instance modifies_trans s : Transitive (modifies s).
Proof.
  intros σ1 σ2 σ3 H12 H23 a arr1 Ha1.
  destruct (H12 a arr1 Ha1) as (arr2 & Ha2 & Hlen2 & H2).
  destruct (H23 a arr2 Ha2) as (arr3 & Ha3 & Hlen3 & H3).
  exists arr3. split_and!; [done|congruence|].
  case_decide; congruence.
Qed.

Lemma backing_lookup σ s a : sarr s = Some a → backing σ s = default [] (σ !! a).
Proof. unfold backing. by intros ->. Qed.

(** A slice of the array of [s] that is no longer than [s], and a slice
    of another array, still hold their elements. *)
Lemma modifies_prefix s t σ σ' :
  modifies s σ σ' → valid σ t →
  (∀ a, sarr t = Some a → sarr s = Some a → slen t ≤ slen s) →
  elems σ' t = elems σ t ∧ valid σ' t.
Proof.
  unfold valid, elems, cap. intros Hmod Hv Hle.
  destruct (sarr t) as [a|] eqn:Ht;
    [|unfold backing in *; rewrite Ht in *; simpl in *; split; [done|lia]].
  rewrite !(backing_lookup _ _ _ Ht) in *.
  destruct (σ !! a) as [arr|] eqn:Ha; simpl in *;
    [|assert (slen t = 0) as -> by lia; split; [done|lia]].
  destruct (Hmod a arr Ha) as (arr' & -> & Hlen & Harr). simpl.
  split; [|lia]. case_decide as Hs; [|by rewrite Harr].
  apply (f_equal (take (slen t))) in Harr.
  by rewrite !take_take, Nat.min_l in Harr by eauto.
Qed.

(** The slice that was lent still holds its elements. *)
Lemma modifies_elems s σ σ' :
  valid σ s → modifies s σ σ' → elems σ' s = elems σ s ∧ valid σ' s.
Proof. intros Hv Hmod. by apply (modifies_prefix s). Qed.

(** ** [append] *)

Lemma append_len σ s x s' σ' : append s x σ = (Ok s', σ') → slen s' = S (slen s).
Proof.
  unfold append. destruct (sarr s); [case_decide|]; by intros [= <- _].
Qed.

Lemma backing_array σ s : 0 < cap σ s →
  ∃ a, sarr s = Some a ∧ σ !! a = Some (backing σ s).
Proof.
  unfold cap, backing. destruct (sarr s) as [a|]; simpl; [|lia].
  destruct (σ !! a) eqn:Ha; simpl; [by eauto|lia].
Qed.

Lemma backing_Some σ s : slen s < cap σ s →
  ∃ a, sarr s = Some a ∧ σ !! a = Some (backing σ s).
Proof. intros. apply backing_array. lia. Qed.

Lemma length_elems σ s : valid σ s → length (elems σ s) = slen s.
Proof. unfold valid, cap, elems. intros. rewrite length_take. lia. Qed.

(** [append] in place. *)
Lemma append_room σ s x a :
  sarr s = Some a → slen s < cap σ s →
  append s x σ = (Ok (mkSlice (Some a) (S (slen s))),
                  <[a := <[slen s := x]> (backing σ s)]> σ).
Proof. intros Hs Hc. unfold append. by rewrite Hs, decide_True. Qed.

(** [append] to a full array. *)
Lemma append_full σ s x :
  cap σ s ≤ slen s →
  append s x σ = (Ok (mkSlice (Some (length σ)) (S (slen s))), σ ++ [fresh σ s x]).
Proof.
  intros Hc. unfold append. destruct (sarr s); [|done].
  by rewrite decide_False by lia.
Qed.

Lemma backing_insert σ a arr s :
  sarr s = Some a → a < length σ → backing (<[a := arr]> σ) s = arr.
Proof. intros Hs Ha. by rewrite (backing_lookup _ _ _ Hs), list_lookup_insert_eq. Qed.

Lemma backing_fresh σ arr s :
  sarr s = Some (length σ) → backing (σ ++ [arr]) s = arr.
Proof.
  intros Hs. by rewrite (backing_lookup _ _ _ Hs), lookup_app_r, Nat.sub_diag.
Qed.

(** [append] returns a slice that holds the elements and the new one. *)
Lemma append_elems σ s x :
  valid σ s →
  ∃ s' σ', append s x σ = (Ok s', σ') ∧ slen s' = S (slen s) ∧
           elems σ' s' = elems σ s ++ [x] ∧ valid σ' s'.
Proof.
  intros Hv. destruct (decide (slen s < cap σ s)) as [Hc|Hc].
  - destruct (backing_Some _ _ Hc) as (a & Hs & Ha).
    pose proof (lookup_lt_Some _ _ _ Ha) as Hlt.
    eexists _, _. split; [by apply append_room|].
    unfold elems at 1, valid, cap. rewrite backing_insert by done.
    rewrite length_insert. simpl. split_and!; [done| |done].
    erewrite take_S_r by (by apply list_lookup_insert_eq).
    by rewrite take_insert_ge.
  - eexists _, _. split; [apply append_full; lia|].
    unfold elems at 1, valid, cap. rewrite backing_fresh by done.
    unfold fresh. rewrite length_app, (length_elems _ _ Hv). simpl.
    split_and!; [done| |lia].
    rewrite cons_middle, app_assoc. apply take_app_length'.
    rewrite length_app, length_elems by done. simpl. lia.
Qed.

Lemma append_spec σ s x s' σ' :
  valid σ s → append s x σ = (Ok s', σ') →
  elems σ' s' = elems σ s ++ [x] ∧ valid σ' s'.
Proof.
  intros Hv Happ. destruct (append_elems σ s x Hv) as (? & ? & Happ' & _ & ? & ?).
  rewrite Happ in Happ'. by simplify_eq.
Qed.

(** An append to a slice, and then anything that leaves the slice it
    returned as it is, leaves the slice as it is. *)
Lemma append_frame σ s x s' σ1 σ2 :
  append s x σ = (Ok s', σ1) → modifies s' σ1 σ2 → modifies s σ σ2.
Proof.
  intros Happ Hmod a0 arr0 Ha0.
  destruct (decide (slen s < cap σ s)) as [Hc|Hc].
  - destruct (backing_Some _ _ Hc) as (a & Hs & Ha).
    rewrite (append_room _ _ _ _ Hs Hc) in Happ. simplify_eq.
    destruct (decide (a0 = a)) as [->|Hne].
    + rewrite Ha in Ha0. simplify_eq.
      destruct (Hmod a (<[slen s := x]> (backing σ s))) as (arr' & ? & Hlen & Htake).
      { apply list_lookup_insert_eq. by eapply lookup_lt_Some. }
      rewrite decide_True in Htake by done. simpl in Htake.
      exists arr'. rewrite length_insert in Hlen. split_and!; [done..|].
      rewrite decide_True by done.
      apply (f_equal (take (slen s))) in Htake.
      by rewrite !take_take, Nat.min_l, take_insert_ge in Htake by lia.
    + destruct (Hmod a0 arr0) as (arr' & ? & Hlen & Harr).
      { by rewrite list_lookup_insert_ne. }
      rewrite decide_False in Harr by (simpl; congruence).
      exists arr'. split_and!; [done..|]. rewrite Harr. by case_decide.
  - rewrite append_full in Happ by lia. simplify_eq.
    destruct (Hmod a0 arr0) as (arr' & ? & Hlen & Harr).
    { by apply lookup_app_l_Some. }
    rewrite decide_False in Harr
      by (simpl; intros [= <-]; apply lookup_lt_Some in Ha0; lia).
    exists arr'. split_and!; [done..|]. rewrite Harr. by case_decide.
Qed.

(** [append] itself leaves the slice it is given as it is. *)
Lemma append_modifies σ s x s' σ' :
  append s x σ = (Ok s', σ') → modifies s σ σ'.
Proof. intros Happ. by eapply append_frame. Qed.

(** The array of the slice [append] returns: the one of the slice it was
    given, or a new one. *)
Lemma append_array σ s x s' σ' :
  append s x σ = (Ok s', σ') →
  length σ ≤ length σ' ∧
  ∃ a', sarr s' = Some a' ∧ a' < length σ' ∧ (sarr s = Some a' ∨ a' = length σ).
Proof.
  intros Happ. destruct (decide (slen s < cap σ s)) as [Hc|Hc].
  - destruct (backing_Some _ _ Hc) as (a & Hs & Ha%lookup_lt_Some).
    rewrite (append_room _ _ _ _ Hs Hc) in Happ. simplify_eq.
    rewrite length_insert. split; [done|]. exists a. by eauto.
  - rewrite append_full in Happ by lia. simplify_eq.
    rewrite length_app. simpl. split; [lia|]. exists (length σ).
    split_and!; [done|lia|by right].
Qed.

(** A slice of another array is left as it is. *)
Lemma modifies_other s t σ σ' :
  modifies s σ σ' →
  (∀ a, sarr t = Some a → a < length σ ∧ sarr s ≠ Some a) →
  backing σ' t = backing σ t.
Proof.
  intros Hmod Ht. destruct (sarr t) as [a|] eqn:Hta;
    [|by unfold backing; rewrite Hta].
  destruct (Ht a eq_refl) as [[arr Ha]%lookup_lt_is_Some_2 Hne].
  destruct (Hmod a arr Ha) as (arr' & Ha' & _ & Harr).
  rewrite decide_False in Harr by done.
  by rewrite !(backing_lookup _ _ _ Hta), Ha, Ha', Harr.
Qed.

(** ** [assign] *)

Lemma assign_spec σ s i x :
  valid σ s → i < slen s →
  ∃ σ', assign s i x σ = (Ok (), σ') ∧ elems σ' s = <[i := x]> (elems σ s) ∧
        valid σ' s.
Proof.
  intros Hv Hi. assert (slen s ≤ cap σ s) as Hc by done.
  destruct (backing_array σ s) as (a & Hs & Ha); [lia|].
  pose proof (lookup_lt_Some _ _ _ Ha) as Hlt.
  eexists. unfold assign. rewrite Hs, decide_True by done. split; [done|].
  unfold elems, valid, cap. rewrite backing_insert by done.
  rewrite length_insert. split; [|done]. by rewrite take_insert_lt.
Qed.

Lemma assign_out σ s i x : slen s ≤ i → assign s i x σ = (Panic IndexOutOfRange, σ).
Proof.
  intros Hi. unfold assign. destruct (sarr s); [|done]. by rewrite decide_False by lia.
Qed.

End slice.

End Slice.
