(* ===== verification/Node.v ===== *)
(** * The tree model: the methods of [*Node] that build and change a tree

    [New], [NewWithRoot], [AddNode], [AddMetaNode], [AddBranch],
    [AddMetaBranch], [Branch], [SetValue], [SetMetaValue] and the [...f]
    variants are computations on the heap; [FindLastNode] reads it.  A
    method called on an address that holds no node panics, as a method
    called on a nil [*Node] does when it reads a field. *)

From S2P Require Import Prelude Payload Heap.

Section node.
Context `{Payload any}.
Implicit Types (h : heap any) (n c : ptr) (nd : Node any) (a meta : any).

(** ** Definitions *)

(** [FindLastNode]: the last child, or nil. *)
Definition FindLastNode h n : res (option ptr) :=
  nd ← load h n;
  let ns := Nodes nd in
  if decide (length ns = 0) then Ok None
  else c ← index ns (length ns - 1); Ok (Some c).

(** [AddNode]: appends a leaf and returns the receiver. *)
Definition AddNode n a : M (heap any) ptr :=
  nd ← loadM n;
  c ← alloc (mkNode (Some n) any_nil a []);
  store n (set_Nodes (Nodes nd ++ [c]) nd);;
  mret n.

(** [AddMetaNode]: appends a leaf with a meta value and returns the
    receiver. *)
Definition AddMetaNode n meta a : M (heap any) ptr :=
  nd ← loadM n;
  c ← alloc (mkNode (Some n) meta a []);
  store n (set_Nodes (Nodes nd ++ [c]) nd);;
  mret n.

(** [AddBranch]: appends a node and returns that node.  The node is
    allocated before the receiver is read; the receiver was a pointer
    before, so it is not the new node. *)
Definition AddBranch n a : M (heap any) ptr :=
  branch ← alloc (mkNode (Some n) any_nil a []);
  nd ← loadM_before branch n;
  store n (set_Nodes (Nodes nd ++ [branch]) nd);;
  mret branch.

(** [AddMetaBranch]: appends a node with a meta value and returns that
    node. *)
Definition AddMetaBranch n meta a : M (heap any) ptr :=
  branch ← alloc (mkNode (Some n) meta a []);
  nd ← loadM_before branch n;
  store n (set_Nodes (Nodes nd ++ [branch]) nd);;
  mret branch.

(** The [...f] variants: the value is the text of
    [fmt.Sprintf(format, a...)]. *)
Definition AddNodef n (format : string) (args : list any) : M (heap any) ptr :=
  AddNode n (any_string (Sprintf format args)).

Definition AddMetaNodef n meta (format : string) (args : list any)
    : M (heap any) ptr :=
  AddMetaNode n meta (any_string (Sprintf format args)).

Definition AddBranchf n (format : string) (args : list any) : M (heap any) ptr :=
  AddBranch n (any_string (Sprintf format args)).

Definition AddMetaBranchf n meta (format : string) (args : list any)
    : M (heap any) ptr :=
  AddMetaBranch n meta (any_string (Sprintf format args)).

(** [Branch]: clears the parent pointer and returns the receiver. *)
Definition Branch n : M (heap any) ptr :=
  nd ← loadM n;
  store n (set_Root None nd);;
  mret n.

(** [SetValue], [SetValuef] and [SetMetaValue]. *)
Definition SetValue n a : M (heap any) () :=
  nd ← loadM n;
  store n (set_Value a nd).

Definition SetValuef n (format : string) (args : list any) : M (heap any) () :=
  nd ← loadM n;
  store n (set_Value (any_string (Sprintf format args)) nd).

Definition SetMetaValue n meta : M (heap any) () :=
  nd ← loadM n;
  store n (set_Meta meta nd).

(** [New], [NewWithRoot] and [NewWithRootf]. *)
Definition New : M (heap any) ptr :=
  alloc (mkNode None any_nil (any_string ".") []).

Definition NewWithRoot (root : any) : M (heap any) ptr :=
  alloc (mkNode None any_nil root []).

Definition NewWithRootf (format : string) (args : list any) : M (heap any) ptr :=
  alloc (mkNode None any_nil (any_string (Sprintf format args)) []).

(** The heap after a child with [meta] and [a] was appended to the node
    [nd] at [n]. *)
Definition add_child_heap h n nd meta a : heap any :=
  <[n := set_Nodes (Nodes nd ++ [length h]) nd]>
    (h ++ [mkNode (Some n) meta a []]).

(** ** [FindLastNode] *)

Lemma FindLastNode_last h n nd :
  h !! n = Some nd → FindLastNode h n = Ok (last (Nodes nd)).
Proof.
  intros Hn. unfold FindLastNode. rewrite (load_Some _ _ _ Hn). simpl.
  destruct (Nodes nd) as [|c ns] using rev_ind; [done|].
  rewrite length_app, last_snoc. simpl.
  rewrite decide_False by lia. unfold index.
  replace (length ns + 1 - 1) with (length ns + 0) by lia.
  by rewrite lookup_app_r, Nat.add_0_r, Nat.sub_diag by lia.
Qed.

Lemma FindLastNode_nil h n : h !! n = None → FindLastNode h n = Panic NilDereference.
Proof. intros Hn. unfold FindLastNode. by rewrite (load_None _ _ Hn). Qed.

(** ** The heap after an insertion *)

Lemma add_child_heap_length h n nd meta a :
  length (add_child_heap h n nd meta a) = S (length h).
Proof. unfold add_child_heap. rewrite length_insert, length_app. simpl. lia. Qed.

Lemma add_child_heap_parent h n nd meta a :
  h !! n = Some nd →
  add_child_heap h n nd meta a !! n = Some (set_Nodes (Nodes nd ++ [length h]) nd).
Proof.
  intros Hn%lookup_lt_Some. unfold add_child_heap.
  apply list_lookup_insert_eq. rewrite length_app. lia.
Qed.

Lemma add_child_heap_child h n nd meta a :
  h !! n = Some nd →
  add_child_heap h n nd meta a !! length h = Some (mkNode (Some n) meta a []).
Proof.
  intros Hn%lookup_lt_Some. unfold add_child_heap.
  rewrite list_lookup_insert_ne by lia. apply lookup_alloc_new.
Qed.

Lemma add_child_heap_other h n nd meta a p :
  p ≠ n → p ≠ length h → add_child_heap h n nd meta a !! p = h !! p.
Proof.
  intros Hn Hp. unfold add_child_heap.
  rewrite list_lookup_insert_ne by done.
  destruct (decide (p < length h)).
  - by rewrite lookup_app_l.
  - rewrite !lookup_ge_None_2; [done|lia|rewrite length_app; simpl; lia].
Qed.

(** ** What each method does *)

Lemma AddMetaNode_run h n nd meta a :
  h !! n = Some nd →
  AddMetaNode n meta a h = (Ok n, add_child_heap h n nd meta a).
Proof.
  intros Hn. unfold AddMetaNode, add_child_heap. unfold_M. simpl.
  rewrite (load_Some _ _ _ Hn).
  erewrite store_Ok; [done|by apply lookup_alloc_old].
Qed.

Lemma AddNode_run h n nd a :
  h !! n = Some nd →
  AddNode n a h = (Ok n, add_child_heap h n nd any_nil a).
Proof. apply AddMetaNode_run. Qed.

Lemma AddMetaBranch_run h n nd meta a :
  h !! n = Some nd →
  AddMetaBranch n meta a h = (Ok (length h), add_child_heap h n nd meta a).
Proof.
  intros Hn. unfold AddMetaBranch, add_child_heap, alloc.
  erewrite M_bind_Ok by reflexivity.
  erewrite M_bind_Ok
    by (rewrite loadM_before_old by (by eapply lookup_lt_Some);
        by rewrite (load_Some _ _ _ (lookup_alloc_old _ _ _ _ Hn))).
  unfold_M. erewrite store_Ok; [done|by apply lookup_alloc_old].
Qed.

(** On nil it panics, after the node was allocated. *)
Lemma AddMetaBranch_nil h n meta a :
  h !! n = None →
  AddMetaBranch n meta a h = (Panic NilDereference, h ++ [mkNode (Some n) meta a []]).
Proof.
  intros Hn%lookup_ge_None_1. unfold AddMetaBranch, alloc.
  erewrite M_bind_Ok by reflexivity.
  eapply M_bind_Panic. by apply loadM_before_nil.
Qed.

Lemma AddBranch_run h n nd a :
  h !! n = Some nd →
  AddBranch n a h = (Ok (length h), add_child_heap h n nd any_nil a).
Proof. apply AddMetaBranch_run. Qed.

Lemma AddMetaNode_nil h n meta a :
  h !! n = None → AddMetaNode n meta a h = (Panic NilDereference, h).
Proof. apply loadM_bind_nil. Qed.

Lemma AddNode_nil h n a : h !! n = None → AddNode n a h = (Panic NilDereference, h).
Proof. apply loadM_bind_nil. Qed.

Lemma AddBranch_nil h n a :
  h !! n = None →
  AddBranch n a h = (Panic NilDereference, h ++ [mkNode (Some n) any_nil a []]).
Proof. apply AddMetaBranch_nil. Qed.

Lemma Branch_nil h n : h !! n = None → Branch n h = (Panic NilDereference, h).
Proof. apply loadM_bind_nil. Qed.

Lemma SetValue_nil h n a : h !! n = None → SetValue n a h = (Panic NilDereference, h).
Proof. apply loadM_bind_nil. Qed.

Lemma SetMetaValue_nil h n meta :
  h !! n = None → SetMetaValue n meta h = (Panic NilDereference, h).
Proof. apply loadM_bind_nil. Qed.

Lemma Branch_run h n nd :
  h !! n = Some nd → Branch n h = (Ok n, <[n := set_Root None nd]> h).
Proof.
  intros Hn. unfold Branch. unfold_M. simpl. rewrite (load_Some _ _ _ Hn).
  by erewrite store_Ok.
Qed.

Lemma SetValue_run h n nd a :
  h !! n = Some nd → SetValue n a h = (Ok (), <[n := set_Value a nd]> h).
Proof.
  intros Hn. unfold SetValue. unfold_M. simpl. rewrite (load_Some _ _ _ Hn).
  by erewrite store_Ok.
Qed.

Lemma SetMetaValue_run h n nd meta :
  h !! n = Some nd → SetMetaValue n meta h = (Ok (), <[n := set_Meta meta nd]> h).
Proof.
  intros Hn. unfold SetMetaValue. unfold_M. simpl. rewrite (load_Some _ _ _ Hn).
  by erewrite store_Ok.
Qed.

Lemma New_run h : New h = (Ok (length h), h ++ [mkNode None any_nil (any_string ".") []]).
Proof. reflexivity. Qed.

(** ** Properties *)

(** [FindLastNode] returns nil exactly when the node has no children,
    and otherwise the child at the highest index. *)
Theorem FindLastNode_spec h n nd :
  h !! n = Some nd →
  FindLastNode h n = Ok (Nodes nd !! (length (Nodes nd) - 1)) ∧
  (FindLastNode h n = Ok None ↔ Nodes nd = []).
Proof.
  intros Hn. rewrite (FindLastNode_last _ _ _ Hn). split.
  - by rewrite last_lookup, Nat.sub_1_r.
  - split; [intros [= Hl]; by apply last_None|by intros ->].
Qed.

(** C14: [AddMetaNode] on a node returns that node; afterwards the node has
    one more child, at the end, which is a new leaf with the given meta
    and value whose parent pointer is the node; all other nodes are
    unchanged. *)
Theorem AddMetaNode_appends h n nd meta a :
  h !! n = Some nd →
  ∃ h', AddMetaNode n meta a h = (Ok n, h') ∧
    length h' = S (length h) ∧
    h' !! n = Some (set_Nodes (Nodes nd ++ [length h]) nd) ∧
    h' !! length h = Some (mkNode (Some n) meta a []) ∧
    ∀ p, p ≠ n → p ≠ length h → h' !! p = h !! p.
Proof.
  intros Hn. exists (add_child_heap h n nd meta a).
  split_and!; eauto using AddMetaNode_run, add_child_heap_length,
    add_child_heap_parent, add_child_heap_child, add_child_heap_other.
Qed.

(** C20: [AddBranch] returns the node it appended, which is then the last
    child of the receiver. *)
Theorem AddBranch_returns_last h n nd a :
  h !! n = Some nd →
  ∃ branch h', AddBranch n a h = (Ok branch, h') ∧
    h' !! branch = Some (mkNode (Some n) any_nil a []) ∧
    FindLastNode h' n = Ok (Some branch).
Proof.
  intros Hn. exists (length h), (add_child_heap h n nd any_nil a).
  split_and!; eauto using AddBranch_run, add_child_heap_child.
  erewrite FindLastNode_last by (by apply add_child_heap_parent).
  simpl. by rewrite last_snoc.
Qed.

(** C34: [Branch] clears the parent pointer of the receiver and changes
    nothing else, and calling it again changes nothing. *)
Theorem Branch_idempotent h n nd :
  h !! n = Some nd →
  ∃ h', Branch n h = (Ok n, h') ∧
    h' !! n = Some (set_Root None nd) ∧
    (∀ p, p ≠ n → h' !! p = h !! p) ∧
    Branch n h' = (Ok n, h').
Proof.
  intros Hn. pose proof (lookup_lt_Some _ _ _ Hn) as Hlt.
  exists (<[n := set_Root None nd]> h).
  assert (<[n:=set_Root None nd]> h !! n = Some (set_Root None nd)) as Hn'
    by (by apply list_lookup_insert_eq).
  split_and!; [by apply Branch_run|done| |].
  - intros p Hp. by rewrite list_lookup_insert_ne.
  - rewrite (Branch_run _ _ _ Hn'). by rewrite list_insert_insert_eq.
Qed.

(** After [SetValue] and [SetMetaValue] the node holds the new value
    and meta; its parent pointer and children are unchanged. *)
Theorem SetValue_SetMetaValue h n nd a meta :
  h !! n = Some nd →
  ∃ h1 h2, SetValue n a h = (Ok (), h1) ∧ SetMetaValue n meta h1 = (Ok (), h2) ∧
    h2 !! n = Some (mkNode (Root nd) meta a (Nodes nd)) ∧
    ∀ p, p ≠ n → h2 !! p = h !! p.
Proof.
  intros Hn. pose proof (lookup_lt_Some _ _ _ Hn) as Hlt.
  assert (<[n:=set_Value a nd]> h !! n = Some (set_Value a nd)) as Hn'
    by (by apply list_lookup_insert_eq).
  eexists _, _. split_and!; [by apply SetValue_run|by apply SetMetaValue_run| |].
  - rewrite list_lookup_insert_eq; [done|by rewrite length_insert].
  - intros p Hp. by rewrite !list_lookup_insert_ne.
Qed.

End node.

(** ** Witnesses *)

(** A heap with a root that has one child. *)
Definition heap1 : heap GoValue :=
  [mkNode None VNil (VString ".") [1]; mkNode (Some 0) VNil (VString "A") []].

Lemma FindLastNode_spec_witness :
  FindLastNode heap1 0 = Ok (Some 1) ∧ (FindLastNode heap1 0 = Ok None ↔ [1] = []).
Proof. exact (FindLastNode_spec heap1 0 _ eq_refl). Defined.

Lemma AddMetaNode_appends_witness :
  ∃ h', AddMetaNode 0 (VInt 1) (VString "x") heap1 = (Ok 0, h') ∧
    length h' = 3 ∧
    h' !! 0 = Some (mkNode None VNil (VString ".") [1; 2]) ∧
    h' !! 2 = Some (mkNode (Some 0) (VInt 1) (VString "x") []) ∧
    ∀ p, p ≠ 0 → p ≠ 2 → h' !! p = heap1 !! p.
Proof. exact (AddMetaNode_appends heap1 0 _ (VInt 1) (VString "x") eq_refl). Defined.

Lemma AddBranch_returns_last_witness :
  ∃ branch h', AddBranch 1 (VString "B") heap1 = (Ok branch, h') ∧
    h' !! branch = Some (mkNode (Some 1) VNil (VString "B") []) ∧
    FindLastNode h' 1 = Ok (Some branch).
Proof. exact (AddBranch_returns_last heap1 1 _ (VString "B") eq_refl). Defined.

Lemma Branch_idempotent_witness :
  ∃ h', Branch 1 heap1 = (Ok 1, h') ∧
    h' !! 1 = Some (mkNode None VNil (VString "A") []) ∧
    (∀ p, p ≠ 1 → h' !! p = heap1 !! p) ∧
    Branch 1 h' = (Ok 1, h').
Proof. exact (Branch_idempotent heap1 1 _ eq_refl). Defined.

Lemma SetValue_SetMetaValue_witness :
  ∃ h1 h2, SetValue 1 (VString "Z") heap1 = (Ok (), h1) ∧
    SetMetaValue 1 (VInt 7) h1 = (Ok (), h2) ∧
    h2 !! 1 = Some (mkNode (Some 0) (VInt 7) (VString "Z") []) ∧
    ∀ p, p ≠ 1 → h2 !! p = heap1 !! p.
Proof. exact (SetValue_SetMetaValue heap1 1 _ (VString "Z") (VInt 7) eq_refl). Defined.
