(* ===== verification/Invariant.v ===== *)
(** * The invariant of the tree model

    [wf_heap]: in a heap built by the public operations, every child was
    created after its parent and is allocated, points back to its parent
    or was detached by [Branch], every parent pointer leads to a node that
    lists the node among its children, and no node is listed twice, in one
    list of children or in two.

    The public operations are the constructors of [call]; [exec] runs one,
    [reachable] is the set of heaps a sequence of successful calls builds
    from the empty heap.  Every reachable heap is well formed. *)

From S2P Require Import Prelude Payload Heap Node.

Section invariant.
Context `{Payload any}.
Implicit Types (h : heap any) (n c p r : ptr) (nd : Node any) (a meta : any).

(** ** The invariant *)

(** [c], a child of the node at [n], is younger than [n], allocated, and
    points back to [n] unless it was detached. *)
Definition wf_child h n c : Prop :=
  n < c ∧
  match h !! c with
  | Some cd => Root cd = Some n ∨ Root cd = None
  | None => False
  end.

(** The parent of the node at [n] lists [n] among its children. *)
Definition wf_root h n nd : Prop :=
  match Root nd with
  | None => True
  | Some r =>
      match h !! r with
      | Some rd => n ∈ Nodes rd
      | None => False
      end
  end.

Definition wf_node h n nd : Prop :=
  Forall (wf_child h n) (Nodes nd) ∧ wf_root h n nd.

(** Every pointer held in a list of children, in address order. *)
Definition all_children h : list ptr := h ≫= Nodes.

Definition wf_heap h : Prop :=
  Forall (λ x, wf_node h x.1 x.2) (imap pair h) ∧ NoDup (all_children h).

#[export] Instance wf_child_dec h n c : Decision (wf_child h n c).
Proof. unfold wf_child. destruct (h !! c); apply _. Defined.

#[export] Instance wf_root_dec h n nd : Decision (wf_root h n nd).
Proof. unfold wf_root. destruct (Root nd) as [r|]; [destruct (h !! r)|]; apply _. Defined.

#[export] Instance wf_node_dec h n nd : Decision (wf_node h n nd).
Proof. unfold wf_node. apply _. Defined.

#[export] Instance wf_heap_dec h : Decision (wf_heap h).
Proof. unfold wf_heap. apply _. Defined.

(** ** The public operations as a transition system *)

Inductive call : Type :=
| CNew
| CNewWithRoot (root : any)
| CNewWithRootf (format : string) (args : list any)
| CAddNode (n : ptr) (a : any)
| CAddNodef (n : ptr) (format : string) (args : list any)
| CAddMetaNode (n : ptr) (meta a : any)
| CAddMetaNodef (n : ptr) (meta : any) (format : string) (args : list any)
| CAddBranch (n : ptr) (a : any)
| CAddBranchf (n : ptr) (format : string) (args : list any)
| CAddMetaBranch (n : ptr) (meta a : any)
| CAddMetaBranchf (n : ptr) (meta : any) (format : string) (args : list any)
| CBranch (n : ptr)
| CSetValue (n : ptr) (a : any)
| CSetValuef (n : ptr) (format : string) (args : list any)
| CSetMetaValue (n : ptr) (meta : any).

(** The heap after a call, and the pointer it returns, if any. *)
Definition exec (cl : call) : M (heap any) (option ptr) :=
  match cl with
  | CNew => Some <$> New
  | CNewWithRoot root => Some <$> NewWithRoot root
  | CNewWithRootf format args => Some <$> NewWithRootf format args
  | CAddNode n a => Some <$> AddNode n a
  | CAddNodef n format args => Some <$> AddNodef n format args
  | CAddMetaNode n meta a => Some <$> AddMetaNode n meta a
  | CAddMetaNodef n meta format args => Some <$> AddMetaNodef n meta format args
  | CAddBranch n a => Some <$> AddBranch n a
  | CAddBranchf n format args => Some <$> AddBranchf n format args
  | CAddMetaBranch n meta a => Some <$> AddMetaBranch n meta a
  | CAddMetaBranchf n meta format args =>
      Some <$> AddMetaBranchf n meta format args
  | CBranch n => Some <$> Branch n
  | CSetValue n a => SetValue n a;; mret None
  | CSetValuef n format args => SetValuef n format args;; mret None
  | CSetMetaValue n meta => SetMetaValue n meta;; mret None
  end.

(** The node a method is called on. *)
Definition receiver (cl : call) : option ptr :=
  match cl with
  | CNew | CNewWithRoot _ | CNewWithRootf _ _ => None
  | CAddNode n _ | CAddNodef n _ _ | CAddMetaNode n _ _ | CAddMetaNodef n _ _ _
  | CAddBranch n _ | CAddBranchf n _ _ | CAddMetaBranch n _ _
  | CAddMetaBranchf n _ _ _ | CBranch n | CSetValue n _ | CSetValuef n _ _
  | CSetMetaValue n _ => Some n
  end.

(** One call that returns. *)
Definition api_step h h' : Prop :=
  ∃ (cl : call) (ret : option ptr), exec cl h = (Ok ret, h').

(** The heaps a program can build. *)
Inductive reachable : heap any → Prop :=
| reachable_empty : reachable []
| reachable_step h h' : reachable h → api_step h h' → reachable h'.

(** Runs a list of calls, stopping at the first that panics. *)
Fixpoint run_calls (cls : list call) : M (heap any) () :=
  match cls with
  | [] => mret ()
  | cl :: cls' => exec cl;; run_calls cls'
  end.

(** The heap a list of calls builds from [h], when every call returns. *)
Fixpoint build (cls : list call) h : option (heap any) :=
  match cls with
  | [] => Some h
  | cl :: cls' =>
      match exec cl h with
      | (Ok _, h') => build cls' h'
      | _ => None
      end
  end.

(** ** What the invariant gives *)

Lemma wf_heap_lookup h n nd : wf_heap h → h !! n = Some nd → wf_node h n nd.
Proof.
  intros [Hall _] Hn. rewrite Forall_forall in Hall.
  apply (Hall (n, nd)), elem_of_lookup_imap. eauto.
Qed.

Lemma wf_heap_intro h :
  (∀ n nd, h !! n = Some nd → wf_node h n nd) → NoDup (all_children h) → wf_heap h.
Proof.
  intros Hn Hd. split; [|done]. apply Forall_forall.
  intros [n nd] (i & x & [= -> ->] & Hx)%elem_of_lookup_imap. by apply Hn.
Qed.

Lemma wf_heap_child h n nd c :
  wf_heap h → h !! n = Some nd → c ∈ Nodes nd →
  n < c ∧ ∃ cd, h !! c = Some cd ∧ (Root cd = Some n ∨ Root cd = None).
Proof.
  intros Hwf Hn Hc. destruct (wf_heap_lookup _ _ _ Hwf Hn) as [Hch _].
  rewrite Forall_forall in Hch. destruct (Hch c Hc) as [Hlt Hcd].
  split; [done|]. destruct (h !! c); [eauto|done].
Qed.

Lemma wf_heap_child_lt h n nd c :
  wf_heap h → h !! n = Some nd → c ∈ Nodes nd → n < c < length h.
Proof.
  intros Hwf Hn Hc. destruct (wf_heap_child _ _ _ _ Hwf Hn Hc) as (? & cd & Hcd & _).
  split; [done|]. by eapply lookup_lt_Some.
Qed.

Lemma wf_heap_parent h n nd r :
  wf_heap h → h !! n = Some nd → Root nd = Some r →
  ∃ rd, h !! r = Some rd ∧ n ∈ Nodes rd ∧ r < n.
Proof.
  intros Hwf Hn Hr. destruct (wf_heap_lookup _ _ _ Hwf Hn) as [_ Hroot].
  unfold wf_root in Hroot. rewrite Hr in Hroot.
  destruct (h !! r) as [rd|] eqn:Hrd; [|done].
  exists rd. split_and!; [done..|]. by eapply wf_heap_child_lt.
Qed.

Lemma elem_of_all_children h c :
  c ∈ all_children h ↔ ∃ n nd, h !! n = Some nd ∧ c ∈ Nodes nd.
Proof.
  unfold all_children. rewrite list_elem_of_bind. split.
  - intros (nd & Hc & [n Hn]%list_elem_of_lookup). eauto.
  - intros (n & nd & Hn & Hc). exists nd. split; [done|].
    by eapply list_elem_of_lookup_2.
Qed.

Lemma all_children_lt h c : wf_heap h → c ∈ all_children h → c < length h.
Proof.
  intros Hwf (n & nd & Hn & Hc)%elem_of_all_children.
  by eapply wf_heap_child_lt.
Qed.

Lemma all_children_middle h n nd :
  h !! n = Some nd →
  all_children h =
    all_children (take n h) ++ Nodes nd ++ all_children (drop (S n) h).
Proof.
  intros Hn. unfold all_children.
  rewrite <- (take_drop_middle _ _ _ Hn) at 1. by rewrite bind_app, bind_cons.
Qed.

Lemma all_children_insert h n nd nd' :
  h !! n = Some nd →
  all_children (<[n:=nd']> h) =
    all_children (take n h) ++ Nodes nd' ++ all_children (drop (S n) h).
Proof.
  intros Hn. unfold all_children.
  rewrite insert_take_drop by (by eapply lookup_lt_Some).
  by rewrite bind_app, bind_cons.
Qed.

(** The children of a node are pairwise distinct. *)
Lemma wf_heap_NoDup h n nd : wf_heap h → h !! n = Some nd → NoDup (Nodes nd).
Proof.
  intros [_ Hnd] Hn. rewrite (all_children_middle _ _ _ Hn) in Hnd.
  apply NoDup_app in Hnd as (_ & _ & Hnd). by apply NoDup_app in Hnd as (? & _).
Qed.

(** ** Allocation of a root preserves the invariant *)

Lemma wf_child_alloc h x n c : wf_child h n c → wf_child (h ++ [x]) n c.
Proof.
  unfold wf_child. intros [Hlt Hc]. split; [done|].
  destruct (h !! c) as [cd|] eqn:Hcd; [|done].
  by rewrite (lookup_alloc_old _ _ _ _ Hcd).
Qed.

Lemma wf_root_alloc h x n nd : wf_root h n nd → wf_root (h ++ [x]) n nd.
Proof.
  unfold wf_root. destruct (Root nd) as [r|]; [|done].
  destruct (h !! r) as [rd|] eqn:Hrd; [|done].
  by rewrite (lookup_alloc_old _ _ _ _ Hrd).
Qed.

Lemma wf_alloc_root h meta a :
  wf_heap h → wf_heap (h ++ [mkNode None meta a []]).
Proof.
  intros Hwf. apply wf_heap_intro.
  - intros n nd [[Hn Hnd]|[Hn <-]]%lookup_snoc_Some.
    + destruct (wf_heap_lookup _ _ _ Hwf Hnd) as [Hch Hroot]. split.
      * eapply Forall_impl; [done|]. intros c. apply wf_child_alloc.
      * by apply wf_root_alloc.
    + by split.
  - unfold all_children. rewrite bind_app. simpl. rewrite app_nil_r. apply Hwf.
Qed.

(** ** An update that keeps the children and keeps or clears the parent
    pointer preserves the invariant *)

Lemma wf_update h n nd nd' :
  wf_heap h → h !! n = Some nd →
  Nodes nd' = Nodes nd → (Root nd' = Root nd ∨ Root nd' = None) →
  wf_heap (<[n:=nd']> h).
Proof.
  intros Hwf Hn Hnodes Hroot. pose proof (lookup_lt_Some _ _ _ Hn) as Hlt.
  assert (∀ p pd, h !! p = Some pd →
    ∃ pd', <[n:=nd']> h !! p = Some pd' ∧ Nodes pd' = Nodes pd ∧
           (Root pd' = Root pd ∨ Root pd' = None)) as Hlook.
  { intros p pd Hp. destruct (decide (p = n)) as [->|Hne].
    - exists nd'. rewrite list_lookup_insert_eq by done. by simplify_eq.
    - exists pd. rewrite list_lookup_insert_ne by done. auto. }
  apply wf_heap_intro.
  - intros p pd' Hp'.
    assert (∃ pd, h !! p = Some pd ∧ Nodes pd' = Nodes pd ∧
              (Root pd' = Root pd ∨ Root pd' = None)) as (pd & Hp & HN & HR).
    { destruct (decide (p = n)) as [->|Hne].
      - rewrite list_lookup_insert_eq in Hp' by done. simplify_eq. eauto.
      - rewrite list_lookup_insert_ne in Hp' by done. eauto. }
    split.
    + rewrite HN. apply Forall_forall. intros c Hc.
      destruct (wf_heap_child _ _ _ _ Hwf Hp Hc) as (? & cd & Hcd & Hcr).
      destruct (Hlook _ _ Hcd) as (cd' & Hcd' & _ & Hcr').
      split; [done|]. rewrite Hcd'. destruct Hcr' as [->|]; auto.
    + unfold wf_root. destruct (Root pd') as [r|] eqn:Hr; [|done].
      destruct HR as [HR|]; [|done].
      destruct (wf_heap_parent h p pd r Hwf Hp) as (rd & Hrd & Hin & _);
        [congruence|].
      destruct (Hlook _ _ Hrd) as (rd' & -> & -> & _). done.
  - rewrite (all_children_insert _ _ _ _ Hn), Hnodes.
    rewrite <- (all_children_middle _ _ _ Hn). apply Hwf.
Qed.

(** ** Appending a child preserves the invariant *)

Lemma add_child_heap_lookup h n nd meta a p x :
  h !! n = Some nd →
  add_child_heap h n nd meta a !! p = Some x →
  (p = n ∧ x = set_Nodes (Nodes nd ++ [length h]) nd) ∨
  (p = length h ∧ x = mkNode (Some n) meta a []) ∨
  (p ≠ n ∧ p ≠ length h ∧ h !! p = Some x).
Proof.
  intros Hn Hp. destruct (decide (p = n)) as [->|Hne].
  { left. rewrite (add_child_heap_parent _ _ _ _ _ Hn) in Hp. by simplify_eq. }
  destruct (decide (p = length h)) as [->|Hne'].
  { right; left. rewrite (add_child_heap_child _ _ _ _ _ Hn) in Hp. by simplify_eq. }
  right; right. by rewrite add_child_heap_other in Hp.
Qed.

Lemma wf_child_add h n nd meta a p c :
  h !! n = Some nd → wf_child h p c → wf_child (add_child_heap h n nd meta a) p c.
Proof.
  intros Hn [Hlt Hc]. split; [done|].
  destruct (h !! c) as [cd|] eqn:Hcd; [|done].
  destruct (decide (c = n)) as [->|Hne].
  - rewrite (add_child_heap_parent _ _ _ _ _ Hn). by simplify_eq.
  - rewrite add_child_heap_other, Hcd; [done..|].
    apply lookup_lt_Some in Hcd. lia.
Qed.

Lemma wf_root_add h n nd meta a p pd :
  h !! n = Some nd → wf_root h p pd → wf_root (add_child_heap h n nd meta a) p pd.
Proof.
  intros Hn. unfold wf_root. destruct (Root pd) as [r|]; [|done].
  destruct (h !! r) as [rd|] eqn:Hrd; [|done]. intros Hin.
  destruct (decide (r = n)) as [->|Hne].
  - rewrite (add_child_heap_parent _ _ _ _ _ Hn). simplify_eq. simpl.
    apply elem_of_app. by left.
  - rewrite add_child_heap_other, Hrd; [done..|].
    apply lookup_lt_Some in Hrd. lia.
Qed.

Lemma all_children_add h n nd meta a :
  h !! n = Some nd →
  all_children (add_child_heap h n nd meta a) ≡ₚ length h :: all_children h.
Proof.
  intros Hn. pose proof (lookup_lt_Some _ _ _ Hn) as Hlt.
  unfold add_child_heap. rewrite insert_app_l by done.
  unfold all_children at 1. rewrite bind_app. simpl. rewrite app_nil_r.
  fold (all_children (<[n:=set_Nodes (Nodes nd ++ [length h]) nd]> h)).
  rewrite (all_children_insert _ _ _ _ Hn), (all_children_middle _ _ _ Hn).
  simpl. solve_Permutation.
Qed.

Lemma wf_add_child h n nd meta a :
  wf_heap h → h !! n = Some nd → wf_heap (add_child_heap h n nd meta a).
Proof.
  intros Hwf Hn. pose proof (lookup_lt_Some _ _ _ Hn) as Hlt.
  apply wf_heap_intro.
  - intros p x [[-> ->]|[[-> ->]|(Hp1 & Hp2 & Hp)]]%add_child_heap_lookup; [|..|done].
    + destruct (wf_heap_lookup _ _ _ Hwf Hn) as [Hch Hroot]. split.
      * simpl. apply Forall_app. split.
        -- eapply Forall_impl; [done|]. intros c. by apply wf_child_add.
        -- repeat constructor; [done|].
           by rewrite (add_child_heap_child _ _ _ _ _ Hn); left.
      * exact (wf_root_add h n nd meta a n nd Hn Hroot).
    + split; [by constructor|]. unfold wf_root. simpl.
      rewrite (add_child_heap_parent _ _ _ _ _ Hn). simpl.
      apply elem_of_app. right. by left.
    + destruct (wf_heap_lookup _ _ _ Hwf Hp) as [Hch Hroot]. split.
      * eapply Forall_impl; [done|]. intros c. by apply wf_child_add.
      * by apply wf_root_add.
  - rewrite (all_children_add _ _ _ _ _ Hn). apply NoDup_cons. split; [|apply Hwf].
    intros Hin%all_children_lt; [lia|done].
Qed.

(** ** Every operation preserves the invariant *)

(** A method called on nil, that is on an address at which no node was
    allocated, panics: each of them reads or writes a field of its
    receiver.  The heap is then as it was, but for the node [AddBranch]
    and [AddMetaBranch] allocate before they read the receiver. *)
Lemma exec_nil cl h n :
  receiver cl = Some n → h !! n = None →
  ∃ h', exec cl h = (Panic NilDereference, h') ∧
        (h' = h ∨ ∃ meta a, h' = h ++ [mkNode (Some n) meta a []]).
Proof.
  intros Hr Hn.
  destruct cl; simplify_eq/=;
    unfold AddNodef, AddMetaNodef, AddBranchf, AddMetaBranchf, SetValuef,
      fmap, M_fmap;
    first [ rewrite AddNode_nil by done | rewrite AddMetaNode_nil by done
          | rewrite AddBranch_nil by done | rewrite AddMetaBranch_nil by done
          | rewrite Branch_nil by done
          | erewrite M_bind_Panic by (by apply SetValue_nil)
          | erewrite M_bind_Panic by (by apply SetMetaValue_nil) ];
    (eexists; split; [reflexivity|]); first [by left|right; by eexists _, _].
Qed.

(** So a call that returns was made on a node of the heap. *)
Lemma exec_receiver cl h ret h' :
  exec cl h = (Ok ret, h') → ∀ n, receiver cl = Some n → n < length h.
Proof.
  intros Hexec n Hr. apply lookup_lt_is_Some.
  destruct (h !! n) eqn:Hn; [by eauto|].
  destruct (exec_nil cl h n Hr Hn) as (h1 & Hnil & _). by rewrite Hexec in Hnil.
Qed.

(** C18: a method called on nil panics with a nil dereference, and
    changes no node: [AddBranch] and [AddMetaBranch] have allocated the
    node they meant to append, which no node points to; the other methods
    leave the heap as it is. *)
Theorem exec_on_nil cl h n :
  receiver cl = Some n → h !! n = None →
  ∃ h', exec cl h = (Panic NilDereference, h') ∧
        (h' = h ∨ ∃ meta a, h' = h ++ [mkNode (Some n) meta a []]).
Proof. apply exec_nil. Qed.

Lemma exec_heap h cl ret h' :
  exec cl h = (Ok ret, h') →
  (∃ meta a, h' = h ++ [mkNode None meta a []]) ∨
  (∃ n nd meta a, h !! n = Some nd ∧ h' = add_child_heap h n nd meta a) ∨
  (∃ n nd nd', h !! n = Some nd ∧ h' = <[n:=nd']> h ∧ Nodes nd' = Nodes nd ∧
     (Root nd' = Root nd ∨ Root nd' = None)).
Proof.
  intros Hexec. pose proof (exec_receiver _ _ _ _ Hexec) as Hrecv.
  destruct cl as [| | |n ?|n ? ?|n ? ?|n ? ? ?|n ?|n ? ?|n ? ?|n ? ? ?|n|n ?|n ? ?|n ?];
    simpl in Hexec;
    try (left; unfold fmap, M_fmap in Hexec; simpl in Hexec; simplify_eq;
         by eexists _, _);
    destruct (lookup_lt_is_Some_2 h n (Hrecv n eq_refl)) as [nd Hn];
    right.
  1-4: left; exists n, nd; unfold AddNodef, AddMetaNodef, fmap, M_fmap in Hexec;
    first [rewrite (AddNode_run _ _ _ _ Hn) in Hexec
          |rewrite (AddMetaNode_run _ _ _ _ _ Hn) in Hexec];
    simplify_eq; by eexists _, _.
  1-4: left; exists n, nd; unfold AddBranchf, AddMetaBranchf, fmap, M_fmap in Hexec;
    first [rewrite (AddBranch_run _ _ _ _ Hn) in Hexec
          |rewrite (AddMetaBranch_run _ _ _ _ _ Hn) in Hexec];
    simplify_eq; by eexists _, _.
  - right. exists n, nd. unfold fmap, M_fmap in Hexec.
    rewrite (Branch_run _ _ _ Hn) in Hexec. simplify_eq.
    eexists; split_and!; [done|reflexivity|done|auto].
  - right. exists n, nd. erewrite M_bind_Ok in Hexec by (by apply SetValue_run).
    unfold mret, M_ret in Hexec. simplify_eq.
    eexists; split_and!; [done|reflexivity|done|auto].
  - right. exists n, nd.
    erewrite M_bind_Ok in Hexec by exact (SetValue_run h n nd (any_string (Sprintf _ _)) Hn).
    unfold mret, M_ret in Hexec. simplify_eq.
    eexists; split_and!; [done|reflexivity|done|auto].
  - right. exists n, nd. erewrite M_bind_Ok in Hexec by (by apply SetMetaValue_run).
    unfold mret, M_ret in Hexec. simplify_eq.
    eexists; split_and!; [done|reflexivity|done|auto].
Qed.

Lemma exec_returns h cl :
  (∀ n, receiver cl = Some n → n < length h) →
  ∃ ret h', exec cl h = (Ok ret, h') ∧ length h ≤ length h' ∧
            ∀ p, ret = Some p → p < length h'.
Proof.
  intros Hrecv.
  destruct cl as [| | |n ?|n ? ?|n ? ?|n ? ? ?|n ?|n ? ?|n ? ?|n ? ? ?|n|n ?|n ? ?|n ?];
    simpl;
    try (eexists _, _; split; [reflexivity|]; rewrite length_app; simpl;
         split; [lia|intros p [= <-]; lia]);
    pose proof (Hrecv n eq_refl) as Hlt;
    destruct (lookup_lt_is_Some_2 h n Hlt) as [nd Hn];
    unfold AddNodef, AddMetaNodef, AddBranchf, AddMetaBranchf, fmap, M_fmap;
    first [rewrite (AddNode_run _ _ _ _ Hn)
          |rewrite (AddMetaNode_run _ _ _ _ _ Hn)
          |rewrite (AddBranch_run _ _ _ _ Hn)
          |rewrite (AddMetaBranch_run _ _ _ _ _ Hn)
          |rewrite (Branch_run _ _ _ Hn)
          |erewrite M_bind_Ok by exact (SetValue_run h n nd _ Hn)
          |erewrite M_bind_Ok by exact (SetMetaValue_run h n nd _ Hn)];
    eexists _, _; (split; [reflexivity|]);
    rewrite ?add_child_heap_length, ?length_insert;
    (split; [lia|intros p [= <-]; lia]).
Qed.

(** C30: no public operation fails: called on a node of the heap, every
    constructor and method returns, no node is lost, and the pointer
    returned, if any, is a node of the heap. *)
Theorem exec_total h cl :
  (∀ n, receiver cl = Some n → n < length h) →
  ∃ ret h', exec cl h = (Ok ret, h') ∧ length h ≤ length h' ∧
            ∀ p, ret = Some p → p < length h'.
Proof. apply exec_returns. Qed.

Lemma api_step_wf h h' : wf_heap h → api_step h h' → wf_heap h'.
Proof.
  intros Hwf (cl & ret & Hexec).
  destruct (exec_heap _ _ _ _ Hexec)
    as [(meta & a & ->)|[(n & nd & meta & a & Hn & ->)|(n & nd & nd' & Hn & -> & HN & HR)]].
  - by apply wf_alloc_root.
  - by apply wf_add_child.
  - by eapply wf_update.
Qed.

(** Every heap built from the empty heap by the public operations
    satisfies the invariant. *)
Lemma reachable_wf h : reachable h → wf_heap h.
Proof.
  induction 1 as [|h h' _ IH Hstep].
  - split; [constructor|apply NoDup_nil_2].
  - by eapply api_step_wf.
Qed.

(** Two elements of a list without duplicates after [≫=] share nothing. *)
Lemma NoDup_bind_disjoint {A B} (f : A → list B) (l : list A) i j x y z :
  NoDup (l ≫= f) → l !! i = Some x → l !! j = Some y → i ≠ j →
  z ∈ f x → z ∉ f y.
Proof.
  revert i j. induction l as [|a l IH]; intros i j Hnd Hi Hj Hij Hx Hy; [done|].
  rewrite bind_cons in Hnd. apply NoDup_app in Hnd as (_ & Hdisj & Hnd).
  destruct i as [|i], j as [|j]; simplify_eq/=.
  - apply (Hdisj z Hx), list_elem_of_bind. exists y. eauto using list_elem_of_lookup_2.
  - apply (Hdisj z Hy), list_elem_of_bind. exists x. eauto using list_elem_of_lookup_2.
  - apply (IH i j); (done || lia).
Qed.

(** C3: in every heap built by the public operations the nodes form a
    forest.  The children of a node are allocated after it and are
    pairwise distinct; no other node holds one of them; and the parent
    pointer of a node, when set, leads to an older node that holds it
    among its children. *)
Theorem reachable_forest h n nd :
  reachable h → h !! n = Some nd →
  Forall (λ c, n < c < length h) (Nodes nd) ∧ NoDup (Nodes nd) ∧
  (∀ m md c, h !! m = Some md → m ≠ n → c ∈ Nodes nd → c ∉ Nodes md) ∧
  (∀ r, Root nd = Some r → r < n ∧ ∃ rd, h !! r = Some rd ∧ n ∈ Nodes rd).
Proof.
  intros Hwf%reachable_wf Hn. split_and!.
  - apply Forall_forall. intros c Hc. by eapply wf_heap_child_lt.
  - by eapply wf_heap_NoDup.
  - intros m md c Hm Hmn Hc. destruct Hwf as [_ Hnd].
    by eapply (NoDup_bind_disjoint Nodes h n m).
  - intros r Hr. destruct (wf_heap_parent _ _ _ _ Hwf Hn Hr) as (rd & ? & ? & ?).
    eauto.
Qed.

Lemma build_reachable cls : ∀ h h',
  reachable h → build cls h = Some h' → reachable h'.
Proof.
  induction cls as [|cl cls IH]; intros h h' Hh Hbuild; simpl in Hbuild;
    [by simplify_eq|].
  destruct (exec cl h) as [[ret| |] h1] eqn:Hexec; try done.
  apply (IH h1); [|done]. apply (reachable_step h); [done|]. by exists cl, ret.
Qed.

End invariant.

(** ** A sample program *)

(** A root with the leaf A, the branch B, which holds a leaf whose value
    has two lines and a leaf with a meta value, and the leaf E. *)
Definition sample_calls : list (call (any:=GoValue)) :=
  [CNew; CAddNode 0 (VString "A"); CAddBranch 0 (VString "B");
   CAddNode 2 (VString ("C" +:+ nl +:+ "D")); CAddMetaNode 2 (VInt 1) (VString "x");
   CAddNode 0 (VString "E")].

Definition sample_heap : heap GoValue :=
  [mkNode None VNil (VString ".") [1; 2; 5];
   mkNode (Some 0) VNil (VString "A") [];
   mkNode (Some 0) VNil (VString "B") [3; 4];
   mkNode (Some 2) VNil (VString ("C" +:+ nl +:+ "D")) [];
   mkNode (Some 2) (VInt 1) (VString "x") [];
   mkNode (Some 0) VNil (VString "E") []].

Lemma sample_heap_built : build sample_calls [] = Some sample_heap.
Proof. reflexivity. Qed.

Lemma sample_heap_reachable : reachable sample_heap.
Proof. exact (build_reachable _ _ _ reachable_empty sample_heap_built). Qed.

Lemma reachable_forest_witness :
  Forall (λ c, 2 < c < 6) [3; 4] ∧ NoDup [3; 4] ∧
  (∀ m md c, sample_heap !! m = Some md → m ≠ 2 → c ∈ [3; 4] → c ∉ Nodes md) ∧
  (∀ r, Some 0 = Some r →
     r < 2 ∧ ∃ rd, sample_heap !! r = Some rd ∧ 2 ∈ Nodes rd).
Proof. exact (reachable_forest sample_heap 2 _ sample_heap_reachable eq_refl). Defined.

(** [AddBranch] on the empty heap: the receiver is nil. *)
Lemma exec_on_nil_witness :
  ∃ h', exec (CAddBranch 0 (VString "x")) [] = (Panic NilDereference, h') ∧
        (h' = [] ∨ ∃ meta a, h' = [] ++ [mkNode (Some 0) meta a []]).
Proof. exact (exec_on_nil (CAddBranch 0 (VString "x")) [] 0 eq_refl eq_refl). Defined.

Lemma exec_total_witness :
  ∃ ret h', exec (CAddBranch 2 (VString "F")) sample_heap = (Ok ret, h') ∧
            length sample_heap ≤ length h' ∧ ∀ p, ret = Some p → p < length h'.
Proof.
  apply (exec_total sample_heap (CAddBranch 2 (VString "F"))).
  intros n [= <-]. simpl. lia.
Defined.
