(* ===== verification/NodeSlices.v ===== *)
(** * The tree model on Go slices

    The field [Nodes] of a node is a slice, and the methods that add a
    child assign [append(n.Nodes, child)] to it.  In [Node] the field is
    a list.  Here it is a Go slice of nullable pointers ([Slices]), and
    the arrays of all nodes live in one store beside the heap.

    [exec_sl_refines] shows that the lists are a sound view: every
    public operation on the heap with slices does what the operation of
    [Node] does on the heap with lists that [abs_heap] reads off it, and
    returns what it returns, panics included.  The invariant [sep] is
    that no two nodes hold a slice of the same array, so that an [append]
    in place shows in one node only, and that the elements of a slice are
    not nil.

    The operations are shown to simulate those of [Node]
    ([Prelude.simulates]) under the invariant [inv ts], which adds to
    [sep] that the slices [ts] a caller holds keep their elements
    ([held]): a loop that ranges over [n.Nodes] and calls a method in its
    body still reads the children it started with ([VisitSlices]). *)

From S2P Require Import Prelude Payload Heap Node Invariant Slices.

Import Slice.

(** ** Definitions *)

(** The struct [Node]. *)
Record NodeS (any : Type) : Type := mkNodeS {
  RootS : option ptr;
  MetaS : any;
  ValueS : any;
  NodesS : slice;
}.
Arguments mkNodeS {any} _ _ _ _.
Arguments RootS {any} _.
Arguments MetaS {any} _.
Arguments ValueS {any} _.
Arguments NodesS {any} _.

(** The heap of nodes, and the arrays of their slices. *)
Abbreviation heapS any := (list (NodeS any)).
Abbreviation arrays := (store (option ptr)).

Section node_slices.
Context `{Payload any}.
Variable grow : nat → nat.
Implicit Types (hs : heapS any) (σ : arrays) (n c p q : ptr) (nd : NodeS any).
Implicit Types (a meta : any).

Definition set_RootS (r : option ptr) nd : NodeS any :=
  mkNodeS r (MetaS nd) (ValueS nd) (NodesS nd).

Definition set_MetaS (m : any) nd : NodeS any :=
  mkNodeS (RootS nd) m (ValueS nd) (NodesS nd).

Definition set_ValueS (v : any) nd : NodeS any :=
  mkNodeS (RootS nd) (MetaS nd) v (NodesS nd).

Definition set_NodesS (ns : slice) nd : NodeS any :=
  mkNodeS (RootS nd) (MetaS nd) (ValueS nd) ns.

(** Reading and writing through a pointer, and [&Node{...}]. *)
Definition loadS p : M (heapS any * arrays) (NodeS any) := λ s,
  (match s.1 !! p with Some nd => Ok nd | None => Panic NilDereference end, s).

Definition storeS p nd : M (heapS any * arrays) () := λ s,
  if decide (p < length s.1) then (Ok (), (<[p := nd]> s.1, s.2))
  else (Panic NilDereference, s).

Definition allocS nd : M (heapS any * arrays) ptr := λ s,
  (Ok (length s.1), (s.1 ++ [nd], s.2)).

(** Reading through a pointer the caller held before the object at
    [fresh] was allocated ([Heap.loadM_before]). *)
Definition loadS_before (fresh : ptr) p : M (heapS any * arrays) (NodeS any) :=
  if decide (p < fresh) then loadS p else lift (Panic NilDereference).

(** [*p], for a pointer that may be nil. *)
Definition derefS (hs : heapS any) (p : option ptr) : res (NodeS any) :=
  match p ≫= (hs !!.) with
  | Some nd => Ok nd
  | None => Panic NilDereference
  end.

(** [append(ns, c)] for a slice of pointers: the zero value is nil. *)
Definition append_node (ns : slice) c : M (heapS any * arrays) slice := λ s,
  ((append None grow ns (Some c) s.2).1, (s.1, (append None grow ns (Some c) s.2).2)).

(** [FindLastNode]: [ns[len(ns)-1]], or nil.  A nil element would be
    returned as a [Tree] that holds a nil [*Node], which Go tells from
    the nil [Tree] the method returns for an empty slice; both are [None]
    here, and [sep] excludes the first. *)
Definition FindLastNode_sl hs σ n : res (option ptr) :=
  nd ← match hs !! n with Some nd => Ok nd | None => Panic NilDereference end;
  let ns := elems σ (NodesS nd) in
  if decide (length ns = 0) then Ok None
  else index ns (length ns - 1).

Definition AddNode_sl n a : M (heapS any * arrays) ptr :=
  nd ← loadS n;
  c ← allocS (mkNodeS (Some n) any_nil a nil_slice);
  ns ← append_node (NodesS nd) c;
  storeS n (set_NodesS ns nd);;
  mret n.

Definition AddMetaNode_sl n meta a : M (heapS any * arrays) ptr :=
  nd ← loadS n;
  c ← allocS (mkNodeS (Some n) meta a nil_slice);
  ns ← append_node (NodesS nd) c;
  storeS n (set_NodesS ns nd);;
  mret n.

Definition AddBranch_sl n a : M (heapS any * arrays) ptr :=
  branch ← allocS (mkNodeS (Some n) any_nil a nil_slice);
  nd ← loadS_before branch n;
  ns ← append_node (NodesS nd) branch;
  storeS n (set_NodesS ns nd);;
  mret branch.

Definition AddMetaBranch_sl n meta a : M (heapS any * arrays) ptr :=
  branch ← allocS (mkNodeS (Some n) meta a nil_slice);
  nd ← loadS_before branch n;
  ns ← append_node (NodesS nd) branch;
  storeS n (set_NodesS ns nd);;
  mret branch.

Definition AddNodef_sl n (format : string) (args : list any)
    : M (heapS any * arrays) ptr :=
  AddNode_sl n (any_string (Sprintf format args)).

Definition AddMetaNodef_sl n meta (format : string) (args : list any)
    : M (heapS any * arrays) ptr :=
  AddMetaNode_sl n meta (any_string (Sprintf format args)).

Definition AddBranchf_sl n (format : string) (args : list any)
    : M (heapS any * arrays) ptr :=
  AddBranch_sl n (any_string (Sprintf format args)).

Definition AddMetaBranchf_sl n meta (format : string) (args : list any)
    : M (heapS any * arrays) ptr :=
  AddMetaBranch_sl n meta (any_string (Sprintf format args)).

Definition Branch_sl n : M (heapS any * arrays) ptr :=
  nd ← loadS n;
  storeS n (set_RootS None nd);;
  mret n.

Definition SetValue_sl n a : M (heapS any * arrays) () :=
  nd ← loadS n;
  storeS n (set_ValueS a nd).

Definition SetValuef_sl n (format : string) (args : list any)
    : M (heapS any * arrays) () :=
  nd ← loadS n;
  storeS n (set_ValueS (any_string (Sprintf format args)) nd).

Definition SetMetaValue_sl n meta : M (heapS any * arrays) () :=
  nd ← loadS n;
  storeS n (set_MetaS meta nd).

Definition New_sl : M (heapS any * arrays) ptr :=
  allocS (mkNodeS None any_nil (any_string ".") nil_slice).

Definition NewWithRoot_sl (root : any) : M (heapS any * arrays) ptr :=
  allocS (mkNodeS None any_nil root nil_slice).

Definition NewWithRootf_sl (format : string) (args : list any)
    : M (heapS any * arrays) ptr :=
  allocS (mkNodeS None any_nil (any_string (Sprintf format args)) nil_slice).

(** A call, on the heap with slices. *)
Definition exec_sl (cl : call) : M (heapS any * arrays) (option ptr) :=
  match cl with
  | CNew => Some <$> New_sl
  | CNewWithRoot root => Some <$> NewWithRoot_sl root
  | CNewWithRootf format args => Some <$> NewWithRootf_sl format args
  | CAddNode n a => Some <$> AddNode_sl n a
  | CAddNodef n format args => Some <$> AddNodef_sl n format args
  | CAddMetaNode n meta a => Some <$> AddMetaNode_sl n meta a
  | CAddMetaNodef n meta format args => Some <$> AddMetaNodef_sl n meta format args
  | CAddBranch n a => Some <$> AddBranch_sl n a
  | CAddBranchf n format args => Some <$> AddBranchf_sl n format args
  | CAddMetaBranch n meta a => Some <$> AddMetaBranch_sl n meta a
  | CAddMetaBranchf n meta format args =>
      Some <$> AddMetaBranchf_sl n meta format args
  | CBranch n => Some <$> Branch_sl n
  | CSetValue n a => SetValue_sl n a;; mret None
  | CSetValuef n format args => SetValuef_sl n format args;; mret None
  | CSetMetaValue n meta => SetMetaValue_sl n meta;; mret None
  end.

(** A list of calls, stopped by the first that panics. *)
Fixpoint run_calls_sl (cls : list call) : M (heapS any * arrays) () :=
  match cls with
  | [] => mret ()
  | cl :: cls' => exec_sl cl;; run_calls_sl cls'
  end.

(** *** The view as lists *)

(** The children a slice holds. *)
Definition children σ (ns : slice) : list ptr := omap id (elems σ ns).

Definition abs_node σ nd : Node any :=
  mkNode (RootS nd) (MetaS nd) (ValueS nd) (children σ (NodesS nd)).

Definition abs_heap σ hs : heap any := abs_node σ <$> hs.

(** The node at [p] is the only one that holds a slice of its array, the
    slice is within the array, and none of its elements is nil. *)
Definition owns hs σ p nd : Prop :=
  valid σ (NodesS nd) ∧ Forall is_Some (elems σ (NodesS nd)) ∧
  ∀ arr, sarr (NodesS nd) = Some arr →
    arr < length σ ∧
    ∀ q nd', hs !! q = Some nd' → sarr (NodesS nd') = Some arr → q = p.

Definition sep hs σ : Prop := ∀ p nd, hs !! p = Some nd → owns hs σ p nd.

(** A slice a caller holds (the slice a [range] loop in progress has
    read, say) and the elements it had when the caller read it: it still
    has them, and a node that has a slice of its array has one at least
    as long. *)
Definition safe hs (t : slice) : Prop :=
  ∀ arr q ndq, sarr t = Some arr → hs !! q = Some ndq →
    sarr (NodesS ndq) = Some arr → slen t ≤ slen (NodesS ndq).

Definition held (t : slice) (l : list (option ptr)) (s : heapS any * arrays) : Prop :=
  valid s.2 t ∧ safe s.1 t ∧ elems s.2 t = l.

(** The heap with lists that a heap with slices stands for, and the
    invariant, on a state: no two nodes share an array, and the slices
    [ts] that callers hold have their elements. *)
Definition view (s : heapS any * arrays) : heap any := abs_heap s.2 s.1.

Definition inv (ts : list (slice * list (option ptr))) (s : heapS any * arrays) : Prop :=
  sep s.1 s.2 ∧ Forall (λ tl, held tl.1 tl.2 s) ts.

(** ** The view *)

Lemma abs_heap_lookup σ hs p : abs_heap σ hs !! p = abs_node σ <$> hs !! p.
Proof. apply list_lookup_fmap. Qed.

Lemma length_abs_heap σ hs : length (abs_heap σ hs) = length hs.
Proof. apply length_fmap. Qed.

Lemma derefS_Some hs p nd : hs !! p = Some nd → derefS hs (Some p) = Ok nd.
Proof. unfold derefS. simpl. by intros ->. Qed.

Lemma derefS_None hs p : hs !! p = None → derefS hs (Some p) = Panic NilDereference.
Proof. unfold derefS. simpl. by intros ->. Qed.

Lemma abs_heap_Some σ hs p nd :
  hs !! p = Some nd → abs_heap σ hs !! p = Some (abs_node σ nd).
Proof. intros Hp. by rewrite abs_heap_lookup, Hp. Qed.

Lemma abs_heap_None σ hs p : hs !! p = None → abs_heap σ hs !! p = None.
Proof. intros Hp. by rewrite abs_heap_lookup, Hp. Qed.

(** Two lists that differ at [n] only are the same after an assignment
    at [n]. *)
Lemma insert_agree {B} (l l' : list B) n (y : B) :
  length l' = length l → (∀ i, i ≠ n → l' !! i = l !! i) →
  <[n := y]> l' = <[n := y]> l.
Proof.
  intros Hlen Hi. apply list_eq. intros i.
  destruct (decide (i = n)) as [->|Hne];
    [|rewrite !list_lookup_insert_ne by done; by apply Hi].
  destruct (decide (n < length l)).
  - by rewrite !list_lookup_insert_eq by lia.
  - by rewrite !lookup_ge_None_2 by (rewrite length_insert; lia).
Qed.

Lemma fmap_lookup_agree {B C} (f g : B → C) (l : list B) i :
  (∀ x, l !! i = Some x → f x = g x) → (f <$> l) !! i = (g <$> l) !! i.
Proof.
  intros Hfg. rewrite !list_lookup_fmap.
  destruct (l !! i) as [x|]; simpl; [|done]. f_equal. by apply Hfg.
Qed.

(** ** A child is appended *)

Section append_child.
Variables (hs : heapS any) (σ σ' : arrays) (n c : ptr) (nd : NodeS any) (ns : slice).
Hypothesis Hsep : sep hs σ.
Hypothesis Hn : hs !! n = Some nd.
Hypothesis Happ : append None grow (NodesS nd) (@Some ptr c) σ = (Ok ns, σ').

Let hs' : heapS any := <[n := set_NodesS ns nd]> hs.

Lemma append_child_lookup p ndp :
  hs' !! p = Some ndp →
  (p = n ∧ ndp = set_NodesS ns nd) ∨ (p ≠ n ∧ hs !! p = Some ndp).
Proof.
  unfold hs'. pose proof (lookup_lt_Some _ _ _ Hn).
  destruct (decide (p = n)) as [->|Hne].
  - rewrite list_lookup_insert_eq by done. intros [= <-]. by left.
  - rewrite list_lookup_insert_ne by done. by right.
Qed.

(** The array of the slice of [n] after the call is not the array of
    another node. *)
Lemma append_child_array :
  length σ ≤ length σ' ∧
  ∃ arr, sarr ns = Some arr ∧ arr < length σ' ∧
    ∀ q ndq, q ≠ n → hs !! q = Some ndq → sarr (NodesS ndq) ≠ Some arr.
Proof.
  destruct (append_array _ _ _ _ _ _ _ Happ) as (Hlen & arr & Hns & Hlt & Harr).
  split; [done|]. exists arr. split_and!; [done..|].
  intros q ndq Hq Hndq Hsame.
  destruct (Hsep q ndq Hndq) as (_ & _ & Hown).
  destruct (Hown arr Hsame) as [Hlt' _].
  destruct Harr as [Hold| ->]; [|by apply Nat.lt_irrefl in Hlt'].
  destruct (Hsep n nd Hn) as (_ & _ & Hown').
  destruct (Hown' arr Hold) as [_ Hone]. by apply Hq, (Hone q ndq).
Qed.

(** The slices of the other nodes are as they were. *)
Lemma append_child_other q ndq :
  q ≠ n → hs !! q = Some ndq →
  backing σ' (NodesS ndq) = backing σ (NodesS ndq).
Proof.
  intros Hq Hndq.
  apply (modifies_other (NodesS nd)); [by eapply append_modifies|].
  intros arr Harr. destruct (Hsep q ndq Hndq) as (_ & _ & Hown).
  destruct (Hown arr Harr) as [Hlt Hone]. split; [done|]. intros Hsame.
  by apply Hq; symmetry; apply (Hone n nd).
Qed.

Lemma append_child_owns_other p ndp :
  p ≠ n → hs !! p = Some ndp → owns hs' σ' p ndp.
Proof.
  intros Hp Hndp. destruct (Hsep p ndp Hndp) as (Hv & Hall & Hown).
  destruct append_child_array as (Hlen & arr & Hns & _ & Hfresh).
  unfold owns, valid, cap, elems. rewrite (append_child_other p ndp) by done.
  split_and!; [done..|]. intros arr' Harr'.
  destruct (Hown arr' Harr') as [Hlt Hone]. split; [lia|].
  intros q ndq [[-> ->]|[Hq Hndq]]%append_child_lookup Hsame; [|by eapply Hone].
  simpl in Hsame. destruct (Hfresh p ndp Hp Hndp). congruence.
Qed.

Lemma append_child_owns_parent : owns hs' σ' n (set_NodesS ns nd).
Proof.
  destruct (Hsep n nd Hn) as (Hv & Hall & _).
  destruct (append_spec _ _ _ _ _ _ _ Hv Happ) as [Hel Hv'].
  destruct append_child_array as (_ & arr & Hns & Hlt & Hfresh).
  split_and!; simpl;
    [done|rewrite Hel; by apply Forall_app; split; [|repeat constructor]|].
  intros arr' Harr'. assert (arr' = arr) as -> by congruence. split; [done|].
  intros q ndq [[-> ->]|[Hq Hndq]]%append_child_lookup Hsame; [done|].
  by destruct (Hfresh q ndq Hq Hndq).
Qed.

Lemma append_child_sep : sep hs' σ'.
Proof.
  intros p ndp [[-> ->]|[Hp Hndp]]%append_child_lookup.
  - apply append_child_owns_parent.
  - by apply append_child_owns_other.
Qed.

Lemma append_child_abs :
  abs_heap σ' hs' =
    <[n := set_Nodes (Nodes (abs_node σ nd) ++ [c]) (abs_node σ nd)]> (abs_heap σ hs).
Proof.
  destruct (Hsep n nd Hn) as (Hv & _ & _).
  destruct (append_spec _ _ _ _ _ _ _ Hv Happ) as [Hel _].
  unfold abs_heap, hs'. rewrite list_fmap_insert.
  assert (abs_node σ' (set_NodesS ns nd) =
          set_Nodes (Nodes (abs_node σ nd) ++ [c]) (abs_node σ nd)) as ->.
  { unfold abs_node, set_Nodes, children. simpl. by rewrite Hel, omap_app. }
  apply insert_agree; [by rewrite !length_fmap|].
  intros i Hi. apply fmap_lookup_agree. intros ndi Hndi.
  unfold abs_node, children, elems. by rewrite (append_child_other i ndi).
Qed.

(** A slice a caller holds keeps its elements: the array is written past
    the length of the slice of [n], which is no shorter. *)
Lemma append_child_held t l : held t l (hs, σ) → held t l (hs', σ').
Proof.
  intros (Hv & Hsafe & Hel). pose proof (append_len _ _ _ _ _ _ _ Happ) as Hlen.
  destruct (modifies_prefix (NodesS nd) t σ σ') as [Hel' Hv'];
    [by eapply append_modifies|done|by intros arr Ht Hs; eapply Hsafe|].
  split_and!; [done| |by rewrite <- Hel].
  intros arr q ndq Ht [[-> ->]|[Hq Hndq]]%append_child_lookup Hsame;
    [|by eapply Hsafe].
  destruct (append_array _ _ _ _ _ _ _ Happ) as (_ & arr' & Hns & _ & Hold).
  simpl in *. assert (arr' = arr) as -> by congruence.
  destruct Hold as [Hold| ->]; [specialize (Hsafe arr n nd Ht Hn Hold); lia|].
  unfold valid, cap in Hv. rewrite (backing_lookup _ _ _ Ht) in Hv.
  rewrite lookup_ge_None_2 in Hv by done. simpl in Hv. lia.
Qed.

End append_child.

(** ** The invariant under the other assignments *)

Lemma sep_update hs σ n nd nd' :
  sep hs σ → hs !! n = Some nd → NodesS nd' = NodesS nd → sep (<[n := nd']> hs) σ.
Proof.
  intros Hsep Hn Hns.
  assert (∀ p ndp, <[n := nd']> hs !! p = Some ndp →
            ∃ ndp', hs !! p = Some ndp' ∧ NodesS ndp = NodesS ndp') as Hold.
  { intros p ndp. destruct (decide (p = n)) as [->|Hne].
    - rewrite list_lookup_insert_eq by (by eapply lookup_lt_Some).
      intros [= <-]. by exists nd.
    - rewrite list_lookup_insert_ne by done. by exists ndp. }
  intros p ndp (ndp' & Hp & Heq)%Hold. destruct (Hsep p ndp' Hp) as (Hv & Hall & Hown).
  unfold owns. rewrite Heq. split_and!; [done..|]. intros arr Harr.
  destruct (Hown arr Harr) as [Hlt Hone]. split; [done|].
  intros q ndq (ndq' & Hq & Heq')%Hold. rewrite Heq'. by apply Hone.
Qed.

Lemma sep_alloc hs σ nd : sep hs σ → NodesS nd = nil_slice → sep (hs ++ [nd]) σ.
Proof.
  intros Hsep Hns.
  assert (∀ p ndp, (hs ++ [nd]) !! p = Some ndp →
            hs !! p = Some ndp ∨ NodesS ndp = nil_slice) as Hold.
  { intros p ndp [?|[_ [_ <-]%list_lookup_singleton_Some]]%lookup_app_Some; auto. }
  intros p ndp [Hp|Hnil]%Hold;
    [|unfold owns; rewrite Hnil;
      split_and!; [unfold valid; simpl; lia|by constructor|done]].
  destruct (Hsep p ndp Hp) as (Hv & Hall & Hown). split_and!; [done..|].
  intros arr Harr. destruct (Hown arr Harr) as [Hlt Hone]. split; [done|].
  intros q ndq [Hq|Hq]%Hold; [by apply Hone|]. by rewrite Hq.
Qed.

Lemma held_update hs σ n nd nd' t l :
  hs !! n = Some nd → NodesS nd' = NodesS nd →
  held t l (hs, σ) → held t l (<[n := nd']> hs, σ).
Proof.
  intros Hn Hns (Hv & Hsafe & Hel). split_and!; [done| |done].
  intros arr q ndq Ht Hq Hsame. simpl in *. destruct (decide (q = n)) as [->|Hne].
  - rewrite list_lookup_insert_eq in Hq by (by eapply lookup_lt_Some).
    simplify_eq. rewrite Hns in *. by eapply Hsafe.
  - rewrite list_lookup_insert_ne in Hq by done. by eapply Hsafe.
Qed.

Lemma held_alloc hs σ nd t l :
  NodesS nd = nil_slice → held t l (hs, σ) → held t l (hs ++ [nd], σ).
Proof.
  intros Hns (Hv & Hsafe & Hel). split_and!; [done| |done].
  intros arr q ndq Ht [?|[_ [_ <-]%list_lookup_singleton_Some]]%lookup_app_Some Hsame;
    [by eapply Hsafe|by rewrite Hns in Hsame].
Qed.

Lemma abs_heap_alloc σ hs r meta a :
  abs_heap σ (hs ++ [mkNodeS r meta a nil_slice]) = abs_heap σ hs ++ [mkNode r meta a []].
Proof. unfold abs_heap. by rewrite fmap_app. Qed.

(** ** What each method does *)

Section methods.
Variable ts : list (slice * list (option ptr)).

(** A computation on slices does what a computation on lists does. *)
Local Abbreviation refines := (simulates view (inv ts)).

(** The invariant after a step that keeps what callers hold. *)
Lemma inv_step hs σ hs' σ' :
  inv ts (hs, σ) → sep hs' σ' →
  (∀ t l, held t l (hs, σ) → held t l (hs', σ')) → inv ts (hs', σ').
Proof.
  intros [_ Hall] Hsep Hheld. split; [done|].
  eapply Forall_impl; [done|]. intros [t l]. apply Hheld.
Qed.

(** The assignment [n.Nodes = append(n.Nodes, c)], the node [nd] having
    been read from [n]. *)
Lemma append_store_refines hs σ n nd c :
  sep hs σ → hs !! n = Some nd →
  ∃ ns σ',
    append None grow (NodesS nd) (@Some ptr c) σ = (Ok ns, σ') ∧
    abs_heap σ' (<[n := set_NodesS ns nd]> hs) =
      <[n := set_Nodes (Nodes (abs_node σ nd) ++ [c]) (abs_node σ nd)]> (abs_heap σ hs) ∧
    sep (<[n := set_NodesS ns nd]> hs) σ' ∧
    ∀ t l, held t l (hs, σ) → held t l (<[n := set_NodesS ns nd]> hs, σ').
Proof.
  intros Hsep Hn. destruct (Hsep n nd Hn) as (Hv & _).
  destruct (append_elems None grow σ _ (@Some ptr c) Hv) as (ns & σ' & Happ & _).
  exists ns, σ'.
  split_and!; [done|by eapply append_child_abs|by eapply append_child_sep|].
  intros t l. by eapply append_child_held.
Qed.

Lemma AddMetaNode_sl_refines n meta a :
  refines (AddMetaNode_sl n meta a) (AddMetaNode n meta a).
Proof.
  intros [hs σ] Hinv. pose proof Hinv as [Hsep _]. unfold view in *. simpl in *.
  unfold AddMetaNode_sl, loadS, allocS, append_node, storeS. unfold_M. simpl.
  destruct (hs !! n) as [nd|] eqn:Hn; simpl.
  - destruct (append_store_refines (hs ++ [mkNodeS (Some n) meta a nil_slice]) σ
                n nd (length hs)) as (ns & σ' & Happ & Habs & Hsep' & Hheld);
      [by apply sep_alloc|by apply lookup_app_l_Some|].
    pose proof (lookup_lt_Some _ _ _ Hn).
    rewrite Happ. simpl. rewrite decide_True by (rewrite length_app; lia).
    rewrite (AddMetaNode_run _ _ _ _ _ (abs_heap_Some σ _ _ _ Hn)). simpl.
    eexists (_, _). split_and!; [done|simpl|].
    + by rewrite Habs, abs_heap_alloc; unfold add_child_heap; rewrite length_abs_heap.
    + apply (inv_step _ _ _ _ Hinv Hsep'). intros t l Ht. by apply Hheld, held_alloc.
  - rewrite (AddMetaNode_nil _ _ _ _ (abs_heap_None σ _ _ Hn)). by exists (hs, σ).
Qed.

Lemma AddMetaBranch_sl_refines n meta a :
  refines (AddMetaBranch_sl n meta a) (AddMetaBranch n meta a).
Proof.
  intros [hs σ] Hinv. pose proof Hinv as [Hsep _]. unfold view in *. simpl in *.
  unfold AddMetaBranch_sl, loadS_before, loadS, allocS, append_node, storeS.
  unfold_M. simpl.
  pose proof (sep_alloc _ _ (mkNodeS (Some n) meta a nil_slice) Hsep eq_refl) as Hsep1.
  assert (∀ t l, held t l (hs, σ) →
            held t l (hs ++ [mkNodeS (Some n) meta a nil_slice], σ)) as Hheld1
    by (intros t l; by apply held_alloc).
  destruct (decide (n < length hs)) as [Hlt|Hge]; simpl.
  - destruct (lookup_lt_is_Some_2 hs n Hlt) as [nd Hn].
    pose proof (lookup_app_l_Some _ [mkNodeS (Some n) meta a nil_slice] _ _ Hn) as Hn1.
    rewrite (AddMetaBranch_run _ _ _ _ _ (abs_heap_Some σ _ _ _ Hn)).
    destruct (append_store_refines _ σ n nd (length hs) Hsep1 Hn1)
      as (ns & σ' & Happ & Habs & Hsep' & Hheld).
    destruct (_ !! n) as [nd1|] eqn:Hn1'; [|by pose proof (eq_trans (eq_sym Hn1') Hn1)].
    injection (eq_trans (eq_sym Hn1') Hn1) as ->. simpl.
    rewrite Happ. simpl. rewrite decide_True by (by eapply lookup_lt_Some).
    eexists (_, _). split_and!; [by rewrite length_abs_heap|simpl|].
    + by rewrite Habs, abs_heap_alloc; unfold add_child_heap; rewrite length_abs_heap.
    + apply (inv_step _ _ _ _ Hinv Hsep'). intros t l Ht. by apply Hheld, Hheld1.
  - assert (hs !! n = None) as Hn by (apply lookup_ge_None_2; lia).
    rewrite (AddMetaBranch_nil _ _ _ _ (abs_heap_None σ _ _ Hn)).
    eexists (_, _). split_and!; [done|apply abs_heap_alloc|].
    by apply (inv_step _ _ _ _ Hinv).
Qed.

(** An assignment to a field other than [Nodes]: the proof of the two
    shapes the methods have. *)
Lemma abs_heap_update σ hs n nd (g_sl : NodeS any → NodeS any) (g : Node any → Node any) :
  (∀ σ nd, abs_node σ (g_sl nd) = g (abs_node σ nd)) →
  abs_heap σ (<[n := g_sl nd]> hs) = <[n := g (abs_node σ nd)]> (abs_heap σ hs).
Proof. intros Hg. unfold abs_heap. by rewrite list_fmap_insert, Hg. Qed.

Ltac solve_update :=
  let hs := fresh "hs" in let σ := fresh "σ" in let Hsep := fresh "Hsep" in
  let nd := fresh "nd" in let Hn := fresh "Hn" in
  intros [hs σ] Hinv; pose proof Hinv as [Hsep _]; unfold view in *;
  unfold loadS, storeS, loadM, Heap.store, load; unfold_M; simpl in *;
  rewrite abs_heap_lookup; destruct (hs !! _) as [nd|] eqn:Hn; simpl;
  [|by exists (hs, σ)];
  pose proof (lookup_lt_Some _ _ _ Hn);
  rewrite !decide_True by (by rewrite ?length_abs_heap); simpl;
  eexists (_, _); split_and!;
  [done|by apply abs_heap_update|];
  apply (inv_step _ _ _ _ Hinv); [by eapply sep_update|];
  intros t l; by eapply held_update.

Lemma update_refines {B} n (g_sl : NodeS any → NodeS any) (g : Node any → Node any)
    (b : B) :
  (∀ σ nd, abs_node σ (g_sl nd) = g (abs_node σ nd)) →
  (∀ nd, NodesS (g_sl nd) = NodesS nd) →
  refines (nd ← loadS n; storeS n (g_sl nd);; mret b)
          (nd ← loadM n; Heap.store n (g nd);; mret b).
Proof. intros Hg Hns. solve_update. Qed.

Lemma set_refines n (g_sl : NodeS any → NodeS any) (g : Node any → Node any) :
  (∀ σ nd, abs_node σ (g_sl nd) = g (abs_node σ nd)) →
  (∀ nd, NodesS (g_sl nd) = NodesS nd) →
  refines (nd ← loadS n; storeS n (g_sl nd)) (nd ← loadM n; Heap.store n (g nd)).
Proof. intros Hg Hns. solve_update. Qed.

Lemma alloc_refines r meta a :
  refines (allocS (mkNodeS r meta a nil_slice)) (alloc (mkNode r meta a [])).
Proof.
  intros [hs σ] Hinv. pose proof Hinv as [Hsep _].
  eexists (_, _). unfold view, allocS, alloc in *. simpl in *.
  rewrite length_abs_heap. split_and!; [done|apply abs_heap_alloc|].
  apply (inv_step _ _ _ _ Hinv); [by apply sep_alloc|]. intros t l. by apply held_alloc.
Qed.

(** ** Refinement *)

(** Every call keeps the invariant and does what it does on lists. *)
Lemma exec_sl_sim cl : refines (exec_sl cl) (exec cl).
Proof.
  destruct cl; simpl;
    first [ apply simulates_fmap | apply simulates_bind; [|intros; apply simulates_ret] ];
    first [ apply alloc_refines | apply AddMetaNode_sl_refines
          | apply AddMetaBranch_sl_refines
          | by apply (update_refines _ (set_RootS None) (set_Root None))
          | by apply (set_refines _ (set_ValueS _) (set_Value _))
          | by apply (set_refines _ (set_MetaS _) (set_Meta _)) ].
Qed.

End methods.

(** C5: every public operation on the heap with slices does what it
    does on the heap with lists that [abs_heap] reads off it: it returns
    the same value or the same panic, leaves a heap with the same view,
    and no two nodes share an array afterwards.  This holds for every
    growth policy of [append] and also when the receiver is not a node of
    the heap. *)
Theorem exec_sl_refines cl hs σ :
  sep hs σ →
  ∃ hs' σ', exec_sl cl (hs, σ) = ((exec cl (abs_heap σ hs)).1, (hs', σ')) ∧
            abs_heap σ' hs' = (exec cl (abs_heap σ hs)).2 ∧ sep hs' σ'.
Proof.
  intros Hsep.
  destruct (exec_sl_sim [] cl (hs, σ)) as ([hs' σ'] & ? & ? & [? _]); [by split|].
  by exists hs', σ'.
Qed.

(** A program of calls, from the empty heap. *)
Theorem run_calls_sl_refines cls :
  ∃ hs σ, run_calls_sl cls ([], []) = ((run_calls cls []).1, (hs, σ)) ∧
          abs_heap σ hs = (run_calls cls []).2 ∧ sep hs σ.
Proof.
  assert (simulates view (inv []) (run_calls_sl cls) (run_calls cls)) as Href.
  { induction cls as [|cl cls IH]; [apply simulates_ret|].
    apply simulates_bind; [apply exec_sl_sim|by intros _]. }
  destruct (Href ([], [])) as ([hs σ] & ? & ? & [? _]); [by split; [intros p nd|]|].
  by exists hs, σ.
Qed.

(** ** [FindLastNode] *)

Lemma all_Some {B} (l : list (option B)) :
  Forall is_Some l → l = Some <$> omap id l.
Proof. induction 1 as [|? l [x ->] _ IH]; [done|]. simpl. by f_equal. Qed.

Lemma index_fmap_Some {B} (l : list B) i :
  index (Some <$> l) i = (c ← index l i; Ok (Some c)).
Proof. unfold index. rewrite list_lookup_fmap. by destruct (l !! i). Qed.

(** [ns[len(ns)-1]] is the last child of the view. *)
Theorem FindLastNode_sl_view hs σ n :
  sep hs σ → FindLastNode_sl hs σ n = FindLastNode (abs_heap σ hs) n.
Proof.
  intros Hsep. unfold FindLastNode_sl, FindLastNode, load.
  rewrite abs_heap_lookup. destruct (hs !! n) as [nd|] eqn:Hn; simpl; [|done].
  destruct (Hsep n nd Hn) as (_ & Hall%all_Some & _). fold (children σ (NodesS nd)) in Hall.
  rewrite Hall, length_fmap. case_decide; [done|].
  apply index_fmap_Some.
Qed.

End node_slices.

(** ** Witnesses *)

(** A root and three leaves: the array of the root has four elements, of
    which the slice holds three. *)
Definition three_leaves : heapS GoValue * arrays :=
  (run_calls_sl double_grow
     [CNew; CAddNode 0 (VString "a"); CAddNode 0 (VString "b");
      CAddNode 0 (VString "c")] ([], [])).2.

Lemma three_leaves_sep : sep three_leaves.1 three_leaves.2.
Proof.
  destruct (run_calls_sl_refines double_grow
              [CNew; CAddNode 0 (VString "a"); CAddNode 0 (VString "b");
               CAddNode 0 (VString "c")])
    as (hs & σ & Hrun & _ & Hsep).
  unfold three_leaves. by rewrite Hrun.
Qed.

(** A fourth leaf, which [append] writes into the array in place. *)
Lemma exec_sl_refines_witness :
  ∃ hs' σ',
    exec_sl double_grow (CAddNode 0 (VString "d")) (three_leaves.1, three_leaves.2) =
      ((exec (CAddNode 0 (VString "d"))
          (abs_heap three_leaves.2 three_leaves.1)).1, (hs', σ')) ∧
    abs_heap σ' hs' =
      (exec (CAddNode 0 (VString "d")) (abs_heap three_leaves.2 three_leaves.1)).2 ∧
    sep hs' σ'.
Proof.
  exact (exec_sl_refines double_grow (CAddNode 0 (VString "d"))
           three_leaves.1 three_leaves.2 three_leaves_sep).
Defined.

(** A root and four leaves: the first three calls of [AddNode] each
    allocate an array, of one, two and four elements; the fourth writes
    into the array of four. *)
Example four_leaves_share :
  run_calls_sl double_grow
    [CNew; CAddNode 0 (VString "a"); CAddNode 0 (VString "b");
     CAddNode 0 (VString "c"); CAddNode 0 (VString "d")] ([], []) =
  (Ok (),
   ([mkNodeS None VNil (VString ".") (mkSlice (Some 2) 4);
     mkNodeS (Some 0) VNil (VString "a") nil_slice;
     mkNodeS (Some 0) VNil (VString "b") nil_slice;
     mkNodeS (Some 0) VNil (VString "c") nil_slice;
     mkNodeS (Some 0) VNil (VString "d") nil_slice],
    [[Some 1]; [Some 1; Some 2]; [Some 1; Some 2; Some 3; Some 4]])).
Proof. by vm_compute. Qed.
