(* ===== verification/Tree.v ===== *)
(** * The tree a heap holds

    The abstract view of the tree model: a rose tree whose nodes carry the
    address, the meta and the value of a [Node] and whether its parent
    pointer is set.  [abs] reads the tree below an address off the heap;
    on a well-formed heap it succeeds with [length h] units of fuel, and
    the height of the tree it reads is bounded by the number of addresses
    above the root. *)

From S2P Require Import Prelude Payload Heap Node Invariant.

(** ** Definitions *)

#[warnings="-register-all"]
Inductive tree (any : Type) : Type :=
| TNode (addr : ptr) (attached : bool) (meta value : any) (kids : list (tree any)).
Arguments TNode {any} addr attached meta value kids.

Section tree.
Context {any : Type}.
Implicit Types (t k : tree any) (ks : list (tree any)) (h : heap any) (p c : ptr)
  (nd : Node any).

Definition addr t : ptr := match t with TNode a _ _ _ _ => a end.

Definition attached t : bool := match t with TNode _ b _ _ _ => b end.

Definition tmeta t : any := match t with TNode _ _ m _ _ => m end.

Definition tvalue t : any := match t with TNode _ _ _ v _ => v end.

Definition kids t : list (tree any) := match t with TNode _ _ _ _ ks => ks end.

(** The number of levels of a tree; of a forest, that of its tallest
    tree. *)
Fixpoint height t : nat :=
  match t with
  | TNode _ _ _ _ ks => S (foldr (λ k n, height k `max` n) 0 ks)
  end.

Definition forest_height ks : nat := foldr (λ k n, height k `max` n) 0 ks.

(** The number of nodes. *)
Fixpoint size t : nat :=
  match t with
  | TNode _ _ _ _ ks => S (foldr (λ k n, size k + n) 0 ks)
  end.

(** The addresses of the nodes under the root, in pre-order. *)
Fixpoint under t : list ptr :=
  match t with
  | TNode _ _ _ _ ks => foldr (λ k acc, addr k :: under k ++ acc) [] ks
  end.

(** The view of the node [nd] at [p], given the views of its children. *)
Definition node_of p nd ks : tree any :=
  TNode p (bool_decide (is_Some (Root nd))) (Meta nd) (Value nd) ks.

(** The tree below the address [p]. *)
Fixpoint abs (fuel : nat) h p : option (tree any) :=
  match fuel with
  | 0 => None
  | S fuel' =>
      nd ← h !! p;
      ks ← mapM (abs fuel' h) (Nodes nd);
      Some (node_of p nd ks)
  end.

(** ** Induction on trees *)

Lemma tree_ind' (P : tree any → Prop) :
  (∀ a b m v ks, Forall P ks → P (TNode a b m v ks)) → ∀ t, P t.
Proof.
  intros Hnode. fix IH 1. intros [a b m v ks]. apply Hnode.
  induction ks as [|k ks IHks]; constructor; [apply IH|apply IHks].
Qed.

(** ** Height *)

Lemma height_TNode a b m v ks : height (TNode a b m v ks) = S (forest_height ks).
Proof. reflexivity. Qed.

Lemma forest_height_cons k ks :
  forest_height (k :: ks) = height k `max` forest_height ks.
Proof. reflexivity. Qed.

Lemma forest_height_le ks n :
  forest_height ks ≤ n ↔ Forall (λ k, height k ≤ n) ks.
Proof.
  induction ks as [|k ks IH]; [split; [constructor|simpl; lia]|].
  rewrite forest_height_cons, Forall_cons, <- IH. lia.
Qed.

Lemma height_pos t : 0 < height t.
Proof. destruct t. simpl. lia. Qed.

(** ** The addresses under the root *)

Lemma under_TNode a b m v ks :
  under (TNode a b m v ks) = ks ≫= λ k, addr k :: under k.
Proof.
  simpl. induction ks as [|k ks IH]; [done|].
  by rewrite bind_cons, <- IH.
Qed.

(** ** Reading a tree off the heap *)

Lemma abs_S fuel h p nd :
  h !! p = Some nd →
  abs (S fuel) h p = (ks ← mapM (abs fuel h) (Nodes nd); Some (node_of p nd ks)).
Proof. intros Hp. simpl. by rewrite Hp. Qed.

Lemma abs_Some fuel h p t :
  abs fuel h p = Some t →
  ∃ fuel' nd ks, fuel = S fuel' ∧ h !! p = Some nd ∧
    mapM (abs fuel' h) (Nodes nd) = Some ks ∧ t = node_of p nd ks.
Proof.
  destruct fuel as [|fuel']; [done|]. simpl.
  destruct (h !! p) as [nd|]; [|done]. simpl.
  destruct (mapM _ _) as [ks|] eqn:Hks; [|done]. simpl. intros [= <-].
  by exists fuel', nd, ks.
Qed.

Lemma abs_addr fuel h p t : abs fuel h p = Some t → addr t = p.
Proof. by intros (? & ? & ? & _ & _ & _ & ->)%abs_Some. Qed.

(** More fuel reads the same tree. *)
Lemma abs_fuel_S fuel h : ∀ p t, abs fuel h p = Some t → abs (S fuel) h p = Some t.
Proof.
  induction fuel as [|fuel IH]; intros p t Habs; [done|].
  apply abs_Some in Habs as (? & nd & ks & [= <-] & Hp & Hks & ->).
  rewrite (abs_S _ _ _ _ Hp).
  enough (mapM (abs (S fuel) h) (Nodes nd) = Some ks) as -> by done.
  apply mapM_Some. apply mapM_Some in Hks.
  eapply Forall2_impl; [done|]. apply IH.
Qed.

End tree.

Section tree_wf.
Context `{Payload any}.
Implicit Types (t k : tree any) (ks : list (tree any)) (h : heap any) (p c : ptr).

(** On a well-formed heap, [abs] succeeds when the fuel covers the
    addresses from [p] on. *)
Lemma abs_total h fuel p :
  wf_heap h → p < length h → length h - p ≤ fuel → is_Some (abs fuel h p).
Proof.
  intros Hwf. revert p. induction fuel as [|fuel IH]; intros p Hp Hfuel; [lia|].
  destruct (lookup_lt_is_Some_2 h p Hp) as [nd Hnd].
  rewrite (abs_S _ _ _ _ Hnd).
  destruct (mapM_is_Some_2 (abs fuel h) (Nodes nd)) as [ks ->]; [|done].
  apply Forall_forall. intros c Hc.
  destruct (wf_heap_child_lt _ _ _ _ Hwf Hnd Hc). apply IH; lia.
Qed.

(** The tree below [p] has at most as many levels as there are addresses
    from [p] on. *)
Lemma abs_height h fuel p t :
  wf_heap h → abs fuel h p = Some t → height t ≤ length h - p.
Proof.
  intros Hwf. revert p t. induction fuel as [|fuel IH]; intros p t Habs; [done|].
  apply abs_Some in Habs as (fuel' & nd & ks & [= <-] & Hnd & Hks & ->).
  pose proof (lookup_lt_Some _ _ _ Hnd) as Hp.
  unfold node_of. rewrite height_TNode. apply mapM_Some_1 in Hks.
  enough (forest_height ks ≤ length h - p - 1) by lia.
  apply forest_height_le.
  assert (Forall (λ c, p < c < length h) (Nodes nd)) as Hlt
    by (apply Forall_forall; intros c Hc; by eapply wf_heap_child_lt).
  induction Hks as [|c k l ks' Hk _ IHks]; [constructor|].
  apply Forall_cons in Hlt as [Hc Hlt]. constructor; [|by apply IHks].
  specialize (IH c k Hk). lia.
Qed.

Lemma abs_fuel_le h fuel fuel' p t :
  fuel ≤ fuel' → abs fuel h p = Some t → abs fuel' h p = Some t.
Proof. induction 1; [done|]. intros Ht. by apply abs_fuel_S, IHle. Qed.

(** On a well-formed heap the fuel does not matter, once it covers the
    addresses from [p] on. *)
Lemma abs_fuel_wf h fuel fuel' p t :
  wf_heap h → abs fuel h p = Some t → length h - p ≤ fuel' →
  abs fuel' h p = Some t.
Proof.
  intros Hwf Ht Hfuel.
  pose proof Ht as (_ & nd & _ & _ & Hp%lookup_lt_Some & _)%abs_Some.
  destruct (abs_total h fuel' p Hwf Hp Hfuel) as [t' Ht']. rewrite Ht'.
  apply (abs_fuel_le h _ (fuel `max` fuel')) in Ht, Ht'; [|lia..]. congruence.
Qed.

End tree_wf.
