(* ===== verification/TreeOps.v ===== *)
(** * The operations, on the tree

    What the constructors and the methods that change a node do to the
    tree seen from any address: a new root leaves every tree as it is;
    [AddNode], [AddMetaNode], [AddBranch] and [AddMetaBranch] append a leaf
    to the children of the node with the address of the receiver;
    [SetValue], [SetMetaValue] and [Branch] change one field of that node.
    [spec] is this abstract operation and [exec_spec] the refinement: the
    tree [abs] reads after the call is [spec] of the tree it read before.
    [build_refines] is the same for a program of calls. *)

From S2P Require Import Prelude Payload Heap Node Invariant Tree.

Section ops.
Context `{Payload any}.
Implicit Types (t k : tree any) (ks : list (tree any)) (h : heap any)
  (p c n : ptr) (nd : Node any) (g : tree any → tree any).

(** ** Definitions *)

(** [g] applied at the node with address [n]. *)
Fixpoint at_addr (n : ptr) g t : tree any :=
  match t with
  | TNode a b m v ks =>
      let t' := TNode a b m v (at_addr n g <$> ks) in
      if decide (a = n) then g t' else t'
  end.

Definition leaf c (meta a : any) : tree any := TNode c true meta a [].

Definition add_kid k t : tree any :=
  TNode (addr t) (attached t) (tmeta t) (tvalue t) (kids t ++ [k]).

Definition set_tvalue (a : any) t : tree any :=
  TNode (addr t) (attached t) (tmeta t) a (kids t).

Definition set_tmeta (meta : any) t : tree any :=
  TNode (addr t) (attached t) meta (tvalue t) (kids t).

Definition detach t : tree any :=
  TNode (addr t) false (tmeta t) (tvalue t) (kids t).

(** What a call does to a tree, [c] being the next free address. *)
Definition spec (cl : call) (c : ptr) : tree any → tree any :=
  match cl with
  | CNew | CNewWithRoot _ | CNewWithRootf _ _ => id
  | CAddNode n a | CAddBranch n a => at_addr n (add_kid (leaf c any_nil a))
  | CAddNodef n format args | CAddBranchf n format args =>
      at_addr n (add_kid (leaf c any_nil (any_string (Sprintf format args))))
  | CAddMetaNode n meta a | CAddMetaBranch n meta a =>
      at_addr n (add_kid (leaf c meta a))
  | CAddMetaNodef n meta format args | CAddMetaBranchf n meta format args =>
      at_addr n (add_kid (leaf c meta (any_string (Sprintf format args))))
  | CBranch n => at_addr n detach
  | CSetValue n a => at_addr n (set_tvalue a)
  | CSetValuef n format args =>
      at_addr n (set_tvalue (any_string (Sprintf format args)))
  | CSetMetaValue n meta => at_addr n (set_tmeta meta)
  end.

(** What it returns. *)
Definition spec_ret (cl : call (any:=any)) (c : ptr) : option ptr :=
  match cl with
  | CNew | CNewWithRoot _ | CNewWithRootf _ _ => Some c
  | CAddNode n _ | CAddNodef n _ _ | CAddMetaNode n _ _ | CAddMetaNodef n _ _ _
  | CBranch n => Some n
  | CAddBranch _ _ | CAddBranchf _ _ _ | CAddMetaBranch _ _ _
  | CAddMetaBranchf _ _ _ _ => Some c
  | CSetValue _ _ | CSetValuef _ _ _ | CSetMetaValue _ _ => None
  end.

(** Whether a call allocates a node. *)
Definition allocates (cl : call (any:=any)) : bool :=
  match cl with
  | CBranch _ | CSetValue _ _ | CSetValuef _ _ _ | CSetMetaValue _ _ => false
  | _ => true
  end.

(** The next free address after a call. *)
Definition next (cl : call (any:=any)) (c : ptr) : ptr :=
  if allocates cl then S c else c.

(** Whether the receiver of a call is one of the first [c] nodes. *)
Definition valid (cl : call (any:=any)) (c : ptr) : bool :=
  from_option (λ n, bool_decide (n < c)) true (receiver cl).

(** Whether every call of a program is made on a node that exists when
    the call is made. *)
Fixpoint valid_calls (cls : list (call (any:=any))) (c : ptr) : bool :=
  match cls with
  | [] => true
  | cl :: cls' => valid cl c && valid_calls cls' (next cl c)
  end.

(** What a program of calls does to a tree. *)
Fixpoint specs (cls : list call) (c : ptr) t : tree any :=
  match cls with
  | [] => t
  | cl :: cls' => specs cls' (next cl c) (spec cl c t)
  end.

(** The tree of a root a constructor makes. *)
Definition spec_new (cl : call) (c : ptr) : option (tree any) :=
  match cl with
  | CNew => Some (TNode c false any_nil (any_string ".") [])
  | CNewWithRoot root => Some (TNode c false any_nil root [])
  | CNewWithRootf format args =>
      Some (TNode c false any_nil (any_string (Sprintf format args)) [])
  | _ => None
  end.

(** ** Lists *)

Lemma mapM_Some_impl {A B} (f f' : A → option B) (φ : B → B) (l : list A)
    (ys : list B) :
  (∀ x y, f x = Some y → f' x = Some (φ y)) →
  mapM f l = Some ys → mapM f' l = Some (φ <$> ys).
Proof.
  intros Hf Hys%mapM_Some. apply mapM_Some, Forall2_fmap_r.
  eapply Forall2_impl; [done|]. apply Hf.
Qed.

Lemma mapM_snoc {A B} (f : A → option B) (l : list A) (x : A)
    (ys : list B) (y : B) :
  mapM f l = Some ys → f x = Some y → mapM f (l ++ [x]) = Some (ys ++ [y]).
Proof.
  intros Hys%mapM_Some Hy. apply mapM_Some, Forall2_app; [done|].
  by repeat constructor.
Qed.

(** ** [at_addr] *)

Lemma at_addr_node_of n g p nd ks :
  at_addr n g (node_of p nd ks) =
    if decide (p = n) then g (node_of p nd (at_addr n g <$> ks))
    else node_of p nd (at_addr n g <$> ks).
Proof. reflexivity. Qed.

(** ** The heap operations, on the tree *)

(** An allocation changes no tree. *)
Lemma abs_alloc h x fuel : ∀ p t,
  abs fuel h p = Some t → abs fuel (h ++ [x]) p = Some t.
Proof.
  induction fuel as [|fuel IH]; intros p t Habs; [done|].
  apply abs_Some in Habs as (? & nd & ks & [= <-] & Hp & Hks & ->).
  rewrite (abs_S _ (h ++ [x]) p nd) by (by apply lookup_app_l_Some).
  enough (mapM (abs fuel (h ++ [x])) (Nodes nd) = Some ks) as -> by done.
  rewrite <- (list_fmap_id ks). by eapply mapM_Some_impl.
Qed.

(** A store that keeps the children of the node changes the node. *)
Lemma abs_insert h n nd nd' g fuel :
  h !! n = Some nd → Nodes nd' = Nodes nd →
  (∀ ks, g (node_of n nd ks) = node_of n nd' ks) →
  ∀ p t, abs fuel h p = Some t →
    abs fuel (<[n:=nd']> h) p = Some (at_addr n g t).
Proof.
  intros Hn Hnodes Hg. induction fuel as [|fuel IH]; intros p t Habs; [done|].
  apply abs_Some in Habs as (? & pd & ks & [= <-] & Hp & Hks & ->).
  apply (mapM_Some_impl _ _ _ _ _ IH) in Hks.
  pose proof (lookup_lt_Some _ _ _ Hn) as Hlt.
  rewrite at_addr_node_of. destruct (decide (p = n)) as [->|Hne].
  - rewrite (abs_S _ _ n nd') by (by apply list_lookup_insert_eq).
    simplify_eq. by rewrite Hnodes, Hks, Hg.
  - rewrite (abs_S _ _ p pd) by (by rewrite list_lookup_insert_ne).
    by rewrite Hks.
Qed.

(** An insertion appends a leaf to the children of the node. *)
Lemma abs_add_child h n nd meta a fuel :
  h !! n = Some nd →
  ∀ p t, abs fuel h p = Some t →
    abs (S fuel) (add_child_heap h n nd meta a) p =
      Some (at_addr n (add_kid (leaf (length h) meta a)) t).
Proof.
  intros Hn. induction fuel as [|fuel IH]; intros p t Habs; [done|].
  apply abs_Some in Habs as (? & pd & ks & [= <-] & Hp & Hks & ->).
  apply (mapM_Some_impl _ _ _ _ _ IH) in Hks.
  pose proof (lookup_lt_Some _ _ _ Hp) as Hlt.
  rewrite at_addr_node_of. destruct (decide (p = n)) as [->|Hne].
  - rewrite (abs_S _ _ n _ (add_child_heap_parent _ _ _ meta a Hn)).
    simplify_eq. cbn [Nodes set_Nodes].
    erewrite mapM_snoc; [done..|].
    by rewrite (abs_S _ _ _ _ (add_child_heap_child _ _ _ meta a Hn)).
  - rewrite (abs_S _ _ p pd) by (rewrite add_child_heap_other; (done || lia)).
    by rewrite Hks.
Qed.

(** ** The public operations *)

(** What a call promises: what it returns, the size of the heap after it,
    and the tree under any address. *)
Definition refines (cl : call) h (ret : option ptr) h' : Prop :=
  ret = spec_ret cl (length h) ∧
  length h' = next cl (length h) ∧
  ∀ fuel p t, abs fuel h p = Some t →
    abs (S fuel) h' p = Some (spec cl (length h) t).

(** The three kinds of calls. *)
Lemma exec_new h x ret h' (cl : call (any:=any)) :
  (Ok ret, h') = (Ok (Some (length h)), h ++ [x]) → spec cl (length h) = id →
  spec_ret cl (length h) = Some (length h) → allocates cl = true →
  refines cl h ret h'.
Proof.
  intros [= -> ->] Hspec Hret Halloc. unfold refines, next.
  rewrite Hspec, Hret, Halloc, length_app.
  split_and!; [done|simpl; lia|]. intros fuel p t Ht.
  by apply abs_fuel_S, abs_alloc.
Qed.

Lemma exec_add h n nd meta a ret r h' (cl : call (any:=any)) :
  h !! n = Some nd →
  (Ok ret, h') = (Ok (Some r), add_child_heap h n nd meta a) →
  spec cl (length h) = at_addr n (add_kid (leaf (length h) meta a)) →
  spec_ret cl (length h) = Some r → allocates cl = true →
  refines cl h ret h'.
Proof.
  intros Hn [= -> ->] Hspec Hret Halloc. unfold refines, next.
  rewrite Hspec, Hret, Halloc, add_child_heap_length.
  split_and!; [done..|]. intros fuel p t Ht. by apply abs_add_child.
Qed.

Lemma exec_set h n nd nd' g ret r h' (cl : call (any:=any)) :
  h !! n = Some nd → Nodes nd' = Nodes nd →
  (∀ ks, g (node_of n nd ks) = node_of n nd' ks) →
  (Ok ret, h') = (Ok r, <[n:=nd']> h) →
  spec cl (length h) = at_addr n g → spec_ret cl (length h) = r →
  allocates cl = false →
  refines cl h ret h'.
Proof.
  intros Hn Hnodes Hg [= -> ->] Hspec Hret Halloc. unfold refines, next.
  rewrite Hspec, Hret, Halloc, length_insert.
  split_and!; [done..|]. intros fuel p t Ht.
  by apply abs_fuel_S, (abs_insert h n nd).
Qed.

(** Every call refines its specification. *)
Lemma exec_spec cl h ret h' :
  (∀ n, receiver cl = Some n → n < length h) →
  exec cl h = (Ok ret, h') → refines cl h ret h'.
Proof.
  intros Hrecv Hexec. symmetry in Hexec.
  destruct cl as [| | |n ?|n ? ?|n ? ?|n ? ? ?|n ?|n ? ?|n ? ?|n ? ? ?|n|n ?|n ? ?|n ?];
    simpl in Hexec.
  1-3: unfold fmap, M_fmap in Hexec; simpl in Hexec; by eapply exec_new.
  all: destruct (lookup_lt_is_Some_2 h n (Hrecv n eq_refl)) as [nd Hn].
  all: unfold fmap, M_fmap, AddNodef, AddMetaNodef, AddBranchf, AddMetaBranchf in Hexec.
  1-2: rewrite (AddNode_run _ _ _ _ Hn) in Hexec; by eapply exec_add.
  1-2: rewrite (AddMetaNode_run _ _ _ _ _ Hn) in Hexec; by eapply exec_add.
  1-2: rewrite (AddBranch_run _ _ _ _ Hn) in Hexec; by eapply exec_add.
  1-2: rewrite (AddMetaBranch_run _ _ _ _ _ Hn) in Hexec; by eapply exec_add.
  - rewrite (Branch_run _ _ _ Hn) in Hexec.
    by eapply (exec_set h n nd (set_Root None nd) detach).
  - erewrite M_bind_Ok in Hexec by exact (SetValue_run h n nd _ Hn).
    by eapply (exec_set h n nd (set_Value _ nd) (set_tvalue _)).
  - erewrite M_bind_Ok in Hexec by exact (SetValue_run h n nd (any_string _) Hn).
    by eapply (exec_set h n nd (set_Value _ nd) (set_tvalue _)).
  - erewrite M_bind_Ok in Hexec by exact (SetMetaValue_run h n nd _ Hn).
    by eapply (exec_set h n nd (set_Meta _ nd) (set_tmeta _)).
Qed.

Lemma build_specs cls : ∀ h h' fuel p t,
  build cls h = Some h' → abs fuel h p = Some t →
  abs (length cls + fuel) h' p = Some (specs cls (length h) t).
Proof.
  induction cls as [|cl cls IH]; intros h h' fuel p t Hbuild Ht;
    simpl in Hbuild; [by simplify_eq|].
  destruct (exec cl h) as [[ret| |] h1] eqn:Hexec; try done.
  pose proof (exec_receiver _ _ _ _ Hexec) as Hrecv.
  apply exec_spec in Hexec as (_ & Hlen & Habs); [|done].
  cbn [specs length]. rewrite <- Hlen, Nat.add_succ_comm. by apply IH, Habs.
Qed.

(** C4: a program of calls refines the sequence of their specifications:
    the tree under any address after the calls is what [specs] makes of
    the tree under that address before them. *)
Theorem build_refines cls h h' fuel p t :
  build cls h = Some h' → abs fuel h p = Some t →
  abs (length cls + fuel) h' p = Some (specs cls (length h) t).
Proof. apply build_specs. Qed.

(** A constructor makes a root without children, at the next free
    address. *)
Theorem exec_new_root cl h ret h' t :
  exec cl h = (Ok ret, h') → spec_new cl (length h) = Some t →
  ret = Some (length h) ∧ abs 1 h' (length h) = Some t.
Proof.
  intros Hexec Hnew.
  destruct cl; simplify_eq/=; unfold fmap, M_fmap in Hexec; simplify_eq/=;
    (split; [done|]); by rewrite lookup_alloc_new.
Qed.

Lemma valid_receiver cl c : valid cl c → ∀ n, receiver cl = Some n → n < c.
Proof.
  unfold valid. intros Hv n Hn. rewrite Hn in Hv. by apply bool_decide_unpack in Hv.
Qed.

Lemma receiver_valid cl c : (∀ n, receiver cl = Some n → n < c) → valid cl c = true.
Proof.
  unfold valid. intros Hr. destruct (receiver cl) as [n|]; [|done].
  by apply bool_decide_eq_true, Hr.
Qed.

(** C17: a program of calls runs to its end exactly when each call is
    made on a node that exists when it is made: no call fails for another
    reason, and whatever the heap holds before. *)
Theorem build_total cls : ∀ h,
  is_Some (build cls h) ↔ valid_calls cls (length h).
Proof.
  induction cls as [|cl cls IH]; intros h; simpl; [by split; [|eauto]|].
  destruct (valid cl (length h)) eqn:Hv; simpl.
  - assert (∀ n, receiver cl = Some n → n < length h) as Hrecv
      by (by apply valid_receiver; rewrite Hv).
    destruct (exec_returns h cl Hrecv) as (ret & h1 & Hexec & _). rewrite Hexec.
    apply exec_spec in Hexec as (_ & <- & _); [apply IH|done].
  - split; [|done]. destruct (exec cl h) as [[ret| |] h1] eqn:Hexec; [|by intros []..].
    rewrite (receiver_valid _ _ (exec_receiver _ _ _ _ Hexec)) in Hv. done.
Qed.

End ops.

(** ** Witnesses *)

(** The sample program, after its root was made. *)
Lemma build_refines_witness :
  abs 6 sample_heap 0 =
    Some (TNode 0 false VNil (VString ".")
            [TNode 1 true VNil (VString "A") [];
             TNode 2 true VNil (VString "B")
               [TNode 3 true VNil (VString ("C" +:+ nl +:+ "D")) [];
                TNode 4 true (VInt 1) (VString "x") []];
             TNode 5 true VNil (VString "E") []]).
Proof.
  exact (build_refines (tail sample_calls)
           [mkNode None VNil (VString ".") []] sample_heap 1 0 _ eq_refl eq_refl).
Defined.

Lemma exec_new_root_witness :
  Some 6 = Some 6 ∧
  abs 1 (sample_heap ++ [mkNode None VNil (VString ".") []]) 6 =
    Some (TNode 6 false VNil (VString ".") []).
Proof. exact (exec_new_root CNew sample_heap _ _ _ eq_refl eq_refl). Defined.
