(* ===== verification/Search.v ===== *)
(** * Searching and visiting

    [FindByMeta], [FindByValue] and [VisitAll] of [src/treeprint.go], on
    the heap.  The three recurse on pointers and take fuel; on a
    well-formed heap the addresses grow from a node to its children, so
    [length h] units are enough.

    Their specification is stated on [below h n], the nodes under [n] in
    pre-order: [FindByMeta] returns the first of them with the given meta;
    [VisitAll] calls the visitor on each of them, in that order.
    [FindByValue] compares the value of the children of [n] only: under a
    child it calls [FindByMeta], and so looks for a node whose _meta_ is
    the value sought. *)

From S2P Require Import Prelude Payload Heap Node Invariant Tree.

Section search.
Context `{Payload any}.
Implicit Types (h : heap any) (n p c node : ptr) (nd cd : Node any)
  (x meta value : any) (nodes : list ptr).

(** ** Definitions *)

(** The loop of [FindByMeta] and [FindByValue]: [field] is the field
    compared with [x], [rec] the call made on a node that does not
    match. *)
Fixpoint find_loop h (field : Node any → any) (rec : ptr → res (option ptr))
    x nodes : res (option ptr) :=
  match nodes with
  | [] => Ok None
  | node :: rest =>
      nd ← load h node;
      if DeepEqual (field nd) x then Ok (Some node)
      else
        v ← rec node;
        match v with
        | Some _ => Ok v
        | None => find_loop h field rec x rest
        end
  end.

Fixpoint FindByMeta (fuel : nat) h n meta : res (option ptr) :=
  match fuel with
  | 0 => OutOfFuel
  | S fuel' =>
      nd ← load h n;
      find_loop h Meta (λ node, FindByMeta fuel' h node meta) meta (Nodes nd)
  end.

Definition FindByValue (fuel : nat) h n value : res (option ptr) :=
  match fuel with
  | 0 => OutOfFuel
  | S fuel' =>
      nd ← load h n;
      find_loop h Value (λ node, FindByMeta fuel' h node value) value (Nodes nd)
  end.

(** [NodeVisitor]: the visitor is a Go closure that receives a [*Node]; it
    may change the heap and has a state [V] of its own. *)
Definition NodeVisitor (V : Type) : Type := ptr → M (heap any * V) ().

Fixpoint VisitAll {V} (fuel : nat) (fn : NodeVisitor V) n
    : M (heap any * V) () :=
  match fuel with
  | 0 => lift OutOfFuel
  | S fuel' =>
      s ← get_state;
      nd ← lift (load s.1 n);
      forM_ (Nodes nd) (λ node,
        fn node;;
        s' ← get_state;
        cd ← lift (load s'.1 node);
        if decide (0 < length (Nodes cd)) then VisitAll fuel' fn node
        else mret ())
  end.

(** *** Specification *)

(** The nodes under [n], in pre-order. *)
Fixpoint descendants (fuel : nat) h n : list ptr :=
  match fuel with
  | 0 => []
  | S fuel' =>
      match h !! n with
      | None => []
      | Some nd => Nodes nd ≫= λ c, c :: descendants fuel' h c
      end
  end.

Definition below h n : list ptr := descendants (length h) h n.

(** The node at [p] has a field that [reflect.DeepEqual] finds equal to
    [x]. *)
Definition has_field (field : Node any → any) h x p : Prop :=
  (λ nd, DeepEqual (field nd) x) <$> h !! p = Some true.

Definition has_meta h meta p : Prop := has_field Meta h meta p.

Definition has_value h value p : Prop := has_field Value h value p.

#[export] Instance has_field_dec field h x p : Decision (has_field field h x p).
Proof. unfold has_field. apply _. Defined.

#[export] Instance has_meta_dec h meta p : Decision (has_meta h meta p).
Proof. unfold has_meta. apply _. Defined.

#[export] Instance has_value_dec h value p : Decision (has_value h value p).
Proof. unfold has_value. apply _. Defined.

(** The first match of a search that tries a node, then what is under
    it. *)
Definition first_of (P : ptr → Prop) `{∀ p, Decision (P p)}
    (under : ptr → option ptr) nodes : option ptr :=
  head (omap (λ c, if decide (P c) then Some c else under c) nodes).

(** ** Lists *)

Lemma first_of_cons (P : ptr → Prop) `{∀ p, Decision (P p)} under c nodes :
  first_of P under (c :: nodes) =
    if decide (P c) then Some c
    else match under c with Some p => Some p | None => first_of P under nodes end.
Proof. unfold first_of. simpl. case_decide; [done|]. by destruct (under c). Qed.

Lemma first_of_Some (P : ptr → Prop) `{∀ p, Decision (P p)} under nodes p :
  first_of P under nodes = Some p →
  (p ∈ nodes ∧ P p) ∨ ∃ c, c ∈ nodes ∧ under c = Some p.
Proof.
  induction nodes as [|c nodes IH]; [done|]. rewrite first_of_cons.
  destruct (decide (P c)); [intros [= <-]; left; split; [left|done]|].
  destruct (under c) as [q|] eqn:Hc.
  - intros [= <-]. right. exists c. split; [left|done].
  - intros [[? ?]|(c' & ? & ?)]%IH; [left|right; exists c']; split;
      by (done || right).
Qed.

Lemma head_filter_Some {A} (P : A → Prop) `{∀ a, Decision (P a)} (l : list A) (y : A) :
  head (filter P l) = Some y → P y ∧ y ∈ l.
Proof. intros Hy%head_Some_elem_of. by apply list_elem_of_filter in Hy. Qed.

Lemma head_app_filter {A} (P : A → Prop) `{∀ a, Decision (P a)} (l1 l2 : list A) :
  head (filter P (l1 ++ l2)) =
    match head (filter P l1) with Some y => Some y | None => head (filter P l2) end.
Proof. rewrite filter_app. by destruct (filter P l1). Qed.

(** The first match in pre-order is the first match of the loop. *)
Lemma head_filter_bind (P : ptr → Prop) `{∀ p, Decision (P p)}
    (D : ptr → list ptr) nodes :
  head (filter P (nodes ≫= λ c, c :: D c)) =
    first_of P (λ c, head (filter P (D c))) nodes.
Proof.
  induction nodes as [|c nodes IH]; [done|].
  rewrite first_of_cons, bind_cons, <- IH. simpl.
  rewrite filter_cons. case_decide; [done|]. apply head_app_filter.
Qed.

(** ** The nodes under a node *)

Lemma descendants_S fuel h n nd :
  h !! n = Some nd →
  descendants (S fuel) h n = Nodes nd ≫= λ c, c :: descendants fuel h c.
Proof. intros Hn. simpl. by rewrite Hn. Qed.

Lemma bind_ext_Forall {A B} (f g : A → list B) (l : list A) :
  Forall (λ a, f a = g a) l → l ≫= f = l ≫= g.
Proof. induction 1 as [|a l Ha _ IH]; [done|]. by rewrite !bind_cons, Ha, IH. Qed.

(** On a well-formed heap the fuel does not matter, once it covers the
    addresses from [n] on. *)
Lemma descendants_fuel h fuel n :
  wf_heap h → length h - n ≤ fuel → descendants fuel h n = below h n.
Proof.
  intros Hwf. unfold below.
  enough (∀ f1 f2 n, length h - n ≤ f1 → length h - n ≤ f2 →
            descendants f1 h n = descendants f2 h n) as Hfuel
    by (intros; apply Hfuel; lia).
  induction f1 as [|f1 IH]; intros f2 n' H1 H2.
  - destruct f2; simpl; [done|]. rewrite lookup_ge_None_2; [done|lia].
  - destruct f2 as [|f2]; simpl.
    { rewrite lookup_ge_None_2; [done|lia]. }
    destruct (h !! n') as [nd|] eqn:Hn; [|done].
    apply bind_ext_Forall, Forall_forall. intros c Hc.
    destruct (wf_heap_child_lt _ _ _ _ Hwf Hn Hc). f_equal. apply IH; lia.
Qed.

Lemma below_eq h n nd :
  wf_heap h → h !! n = Some nd → below h n = Nodes nd ≫= λ c, c :: below h c.
Proof.
  intros Hwf Hn. pose proof (lookup_lt_Some _ _ _ Hn).
  by rewrite <- (descendants_fuel h (S (length h)) n), (descendants_S _ _ _ _ Hn) by (done || lia).
Qed.

(** The nodes under [n] are the nodes of the tree under [n], in
    pre-order. *)
Lemma below_under h fuel :
  wf_heap h → ∀ n t, abs fuel h n = Some t → below h n = under t.
Proof.
  intros Hwf. induction fuel as [|fuel IH]; intros n t Habs; [done|].
  apply abs_Some in Habs as (? & nd & ks & [= <-] & Hn & Hks%mapM_Some & ->).
  unfold node_of. rewrite (below_eq _ _ _ Hwf Hn), under_TNode.
  induction Hks as [|c k cs ks Hk _ IHks]; [done|].
  by rewrite !bind_cons, IHks, (IH _ _ Hk), (abs_addr _ _ _ _ Hk).
Qed.

(** ** The loop *)

Lemma has_field_lookup field h x p nd :
  h !! p = Some nd → has_field field h x p ↔ DeepEqual (field nd) x.
Proof.
  intros Hp. unfold has_field. rewrite Hp. simpl.
  split; [by intros [= ->]|by intros ->%Is_true_eq_true].
Qed.

Lemma find_loop_first h field rec x (under : ptr → option ptr) nodes :
  Forall (λ c, is_Some (h !! c) ∧ rec c = Ok (under c)) nodes →
  find_loop h field rec x nodes =
    Ok (first_of (has_field field h x) under nodes).
Proof.
  induction 1 as [|c nodes [[cd Hc] Hrec] _ IH]; [done|].
  rewrite first_of_cons. simpl. rewrite (load_Some _ _ _ Hc), res_bind_Ok.
  destruct (DeepEqual (field cd) x) eqn:Heq.
  - by rewrite decide_True by (by rewrite (has_field_lookup _ _ _ _ _ Hc), Heq).
  - rewrite decide_False by (rewrite (has_field_lookup _ _ _ _ _ Hc), Heq; by intros []).
    rewrite Hrec, res_bind_Ok. by destruct (under c).
Qed.

(** ** [FindByMeta] *)

Lemma FindByMeta_descendants h meta fuel n :
  wf_heap h → n < length h → length h - n ≤ fuel →
  FindByMeta fuel h n meta = Ok (head (filter (has_meta h meta) (below h n))).
Proof.
  intros Hwf. revert n. induction fuel as [|fuel IH]; intros n Hn Hfuel; [lia|].
  destruct (lookup_lt_is_Some_2 h n Hn) as [nd Hnd].
  simpl. rewrite (load_Some _ _ _ Hnd), res_bind_Ok, (below_eq _ _ _ Hwf Hnd).
  rewrite head_filter_bind. apply find_loop_first, Forall_forall. intros c Hc.
  destruct (wf_heap_child_lt _ _ _ _ Hwf Hnd Hc).
  split; [by apply lookup_lt_is_Some_2|apply IH; lia].
Qed.

(** C8: on a well-formed heap, [FindByMeta] with [length h] units of fuel
    returns the first node under [n], in pre-order, whose meta is the one
    sought, and nil when there is none. *)
Theorem FindByMeta_first h n meta fuel :
  wf_heap h → n < length h → length h ≤ fuel →
  FindByMeta fuel h n meta = Ok (head (filter (has_meta h meta) (below h n))).
Proof. intros. apply FindByMeta_descendants; [done..|lia]. Qed.

(** ** [FindByValue] *)

Lemma FindByValue_children h n nd value fuel :
  wf_heap h → h !! n = Some nd → length h ≤ fuel →
  FindByValue fuel h n value =
    Ok (first_of (has_value h value)
          (λ c, head (filter (has_meta h value) (below h c))) (Nodes nd)).
Proof.
  intros Hwf Hnd Hfuel. pose proof (lookup_lt_Some _ _ _ Hnd).
  destruct fuel as [|fuel]; [lia|].
  simpl. rewrite (load_Some _ _ _ Hnd), res_bind_Ok.
  apply find_loop_first, Forall_forall. intros c Hc.
  destruct (wf_heap_child_lt _ _ _ _ Hwf Hnd Hc).
  split; [by apply lookup_lt_is_Some_2|apply FindByMeta_descendants; (done || lia)].
Qed.

(** C9: [FindByValue] returns the first child of [n] whose value is the
    one sought or under which a node has it as its _meta_: the values of
    the nodes under the children are not compared. *)
Theorem FindByValue_first h n nd value fuel :
  wf_heap h → h !! n = Some nd → length h ≤ fuel →
  FindByValue fuel h n value =
    Ok (first_of (has_value h value)
          (λ c, head (filter (has_meta h value) (below h c))) (Nodes nd)).
Proof. apply FindByValue_children. Qed.

(** ** [VisitAll] *)

Section visit.
Context {V : Type}.
Variable h : heap any.
Variable fn : ptr → M (heap any * V) ().
Variable g : ptr → V → V.
Hypothesis Hwf : wf_heap h.
Hypothesis Hfn : ∀ p v, fn p (h, v) = (Ok (), (h, g p v)).

Lemma forM_visit (body : ptr → M (heap any * V) ()) (D : ptr → list ptr) nodes :
  Forall (λ c, ∀ v, body c (h, v) = (Ok (), (h, foldl (flip g) v (c :: D c)))) nodes →
  ∀ v, forM_ nodes body (h, v) =
         (Ok (), (h, foldl (flip g) v (nodes ≫= λ c, c :: D c))).
Proof.
  induction 1 as [|c nodes Hc _ IH]; intros v; [done|].
  rewrite bind_cons, foldl_app. simpl.
  erewrite M_bind_Ok by apply Hc. apply IH.
Qed.

Lemma VisitAll_descendants fuel n v :
  n < length h → length h - n ≤ fuel →
  VisitAll fuel fn n (h, v) = (Ok (), (h, foldl (flip g) v (below h n))).
Proof.
  revert n v. induction fuel as [|fuel IH]; intros n v Hn Hfuel; [lia|].
  destruct (lookup_lt_is_Some_2 h n Hn) as [nd Hnd].
  cbn [VisitAll]. unfold get_state.
  erewrite M_bind_Ok by reflexivity. cbn [fst].
  rewrite (load_Some _ _ _ Hnd), M_bind_lift_Ok, (below_eq _ _ _ Hwf Hnd).
  apply forM_visit, Forall_forall. intros c Hc v'.
  destruct (wf_heap_child_lt _ _ _ _ Hwf Hnd Hc) as [Hlt Hlen].
  destruct (lookup_lt_is_Some_2 h c Hlen) as [cd Hcd].
  erewrite M_bind_Ok by apply Hfn.
  erewrite M_bind_Ok by reflexivity. cbn [fst].
  rewrite (load_Some _ _ _ Hcd), M_bind_lift_Ok. simpl.
  case_decide as Hkids; [apply IH; lia|].
  rewrite (below_eq _ _ _ Hwf Hcd).
  by destruct (Nodes cd); [|simpl in Hkids; lia].
Qed.

(** C10: on a well-formed heap, [VisitAll] with a visitor that leaves the
    heap as it is calls it once on every node under [n], in pre-order, and
    returns. *)
Theorem VisitAll_preorder fuel n v :
  n < length h → length h ≤ fuel →
  VisitAll fuel fn n (h, v) = (Ok (), (h, foldl (flip g) v (below h n))).
Proof. intros. apply VisitAll_descendants; [done|lia]. Qed.

End visit.

End search.

(** ** Witnesses *)

Lemma FindByMeta_first_witness : FindByMeta 6 sample_heap 0 (VInt 1) = Ok (Some 4).
Proof.
  exact (FindByMeta_first sample_heap 0 (VInt 1) 6 ltac:(by_compute)
           ltac:(simpl; lia) (le_n _)).
Defined.

Lemma FindByValue_first_witness : FindByValue 6 sample_heap 0 (VInt 1) = Ok (Some 4).
Proof.
  exact (FindByValue_first sample_heap 0 _ (VInt 1) 6 ltac:(by_compute)
           eq_refl (le_n _)).
Defined.

(** A visitor that records the nodes it is called on. *)
Definition record_visit (p : ptr) : M (heap GoValue * list ptr) () :=
  λ s, (Ok (), (s.1, s.2 ++ [p])).

Lemma VisitAll_preorder_witness :
  VisitAll 6 record_visit 0 (sample_heap, []) = (Ok (), (sample_heap, [1; 2; 3; 4; 5])).
Proof.
  exact (VisitAll_preorder sample_heap record_visit (λ p v, v ++ [p])
           ltac:(by_compute) (λ _ _, eq_refl) 6 0 [] ltac:(simpl; lia) (le_n _)).
Defined.
