(* ===== verification/SearchSlices.v ===== *)
(** * The searches on Go slices

    [FindByMeta] and [FindByValue] on the heap with slices
    ([NodeSlices]): the loop ranges over the elements of [n.Nodes], which
    are pointers that may be nil.  The searches write nothing, so the
    elements are those the slice had when the loop started; under the
    invariant [sep] they return what the searches of [Search] return on
    the heap with lists ([searches_sl_view]). *)

From S2P Require Import Prelude Payload Heap Slices Node Invariant NodeSlices Tree Search.

Import Slice.

Section search_slices.
Context `{Payload any}.
Implicit Types (hs : heapS any) (σ : arrays) (n c : ptr) (x meta value : any).

(** ** Definitions *)

(** The loop of [FindByMeta] and [FindByValue]. *)
Fixpoint find_loop_sl hs (field : NodeS any → any)
    (rec : option ptr → res (option ptr)) x (nodes : list (option ptr))
    : res (option ptr) :=
  match nodes with
  | [] => Ok None
  | node :: rest =>
      nd ← derefS hs node;
      if DeepEqual (field nd) x then Ok node
      else
        v ← rec node;
        match v with
        | Some _ => Ok v
        | None => find_loop_sl hs field rec x rest
        end
  end.

Fixpoint FindByMeta_sl (fuel : nat) hs σ (n : option ptr) meta : res (option ptr) :=
  match fuel with
  | 0 => OutOfFuel
  | S fuel' =>
      nd ← derefS hs n;
      find_loop_sl hs MetaS (λ node, FindByMeta_sl fuel' hs σ node meta) meta
        (elems σ (NodesS nd))
  end.

Definition FindByValue_sl (fuel : nat) hs σ (n : option ptr) value
    : res (option ptr) :=
  match fuel with
  | 0 => OutOfFuel
  | S fuel' =>
      nd ← derefS hs n;
      find_loop_sl hs ValueS (λ node, FindByMeta_sl fuel' hs σ node value) value
        (elems σ (NodesS nd))
  end.

(** ** The searches on slices and on lists *)

Lemma derefS_view hs σ p :
  load (abs_heap σ hs) p = abs_node σ <$> derefS hs (Some p).
Proof.
  unfold load, derefS. rewrite abs_heap_lookup. simpl. by destruct (hs !! p).
Qed.

Lemma find_loop_sl_view hs σ (field_sl : NodeS any → any) (field : Node any → any)
    (rec_sl : option ptr → res (option ptr)) (rec : ptr → res (option ptr)) x cs :
  (∀ nd, field (abs_node σ nd) = field_sl nd) →
  (∀ c, rec_sl (Some c) = rec c) →
  find_loop_sl hs field_sl rec_sl x (Some <$> cs) =
    find_loop (abs_heap σ hs) field rec x cs.
Proof.
  intros Hfield Hrec. induction cs as [|c cs IH]; [done|].
  cbn [fmap list_fmap find_loop_sl find_loop]. rewrite derefS_view.
  destruct (derefS hs (Some c)) as [nd| |]; simpl; [|done..].
  rewrite Hfield, Hrec, IH. done.
Qed.

(** The elements of the slice of a node are its children. *)
Lemma elems_children hs σ p nd :
  sep hs σ → hs !! p = Some nd →
  elems σ (NodesS nd) = Some <$> Nodes (abs_node σ nd).
Proof. intros Hsep Hp. destruct (Hsep p nd Hp) as (_ & Hall & _). by apply all_Some. Qed.

Section view.
Variables (hs : heapS any) (σ : arrays).
Hypothesis Hsep : sep hs σ.

Lemma search_sl_view (field_sl : NodeS any → any) (field : Node any → any)
    (rec_sl : option ptr → res (option ptr)) (rec : ptr → res (option ptr)) x n :
  (∀ nd, field (abs_node σ nd) = field_sl nd) →
  (∀ c, rec_sl (Some c) = rec c) →
  (nd ← derefS hs (Some n); find_loop_sl hs field_sl rec_sl x (elems σ (NodesS nd))) =
  (nd ← load (abs_heap σ hs) n; find_loop (abs_heap σ hs) field rec x (Nodes nd)).
Proof.
  intros Hfield Hrec. rewrite derefS_view.
  destruct (derefS hs (Some n)) as [nd| |] eqn:Hn; simpl; [|done..].
  unfold derefS in Hn. simpl in Hn. destruct (hs !! n) as [nd'|] eqn:Hn'; [|done].
  simplify_eq. rewrite (elems_children hs σ n nd Hsep Hn').
  by apply find_loop_sl_view.
Qed.

Lemma FindByMeta_sl_view fuel : ∀ n meta,
  FindByMeta_sl fuel hs σ (Some n) meta = FindByMeta fuel (abs_heap σ hs) n meta.
Proof.
  induction fuel as [|fuel IH]; intros n meta; [done|].
  cbn [FindByMeta_sl FindByMeta]. apply search_sl_view; [done|]. intros c. apply IH.
Qed.

Lemma FindByValue_sl_view fuel n value :
  FindByValue_sl fuel hs σ (Some n) value = FindByValue fuel (abs_heap σ hs) n value.
Proof.
  destruct fuel as [|fuel]; [done|].
  cbn [FindByValue_sl FindByValue]. apply search_sl_view; [done|].
  intros c. apply FindByMeta_sl_view.
Qed.

(** C26: The searches that range over the elements of the slices, which are
    pointers that may be nil, return what the searches over the lists of
    children return, nil, a node, a panic or the end of the fuel: in a
    state in which no two nodes share an array, and so no element is
    nil. *)
Theorem searches_sl_view fuel n x :
  FindByMeta_sl fuel hs σ (Some n) x = FindByMeta fuel (abs_heap σ hs) n x ∧
  FindByValue_sl fuel hs σ (Some n) x = FindByValue fuel (abs_heap σ hs) n x.
Proof. split; [apply FindByMeta_sl_view|apply FindByValue_sl_view]. Qed.

End view.

End search_slices.

(** ** Witnesses *)

(** The sample program, run on the heap with slices. *)
Definition sample_slices : heapS GoValue * arrays :=
  (run_calls_sl double_grow sample_calls ([], [])).2.

Lemma sample_slices_sep : sep sample_slices.1 sample_slices.2.
Proof.
  destruct (run_calls_sl_refines double_grow sample_calls)
    as (hs & σ & Hrun & _ & Hsep).
  unfold sample_slices. by rewrite Hrun.
Qed.

Lemma searches_sl_view_witness :
  FindByMeta_sl 6 sample_slices.1 sample_slices.2 (Some 0) (VInt 1) =
    FindByMeta 6 (abs_heap sample_slices.2 sample_slices.1) 0 (VInt 1) ∧
  FindByValue_sl 6 sample_slices.1 sample_slices.2 (Some 0) (VInt 1) =
    FindByValue 6 (abs_heap sample_slices.2 sample_slices.1) 0 (VInt 1).
Proof.
  exact (searches_sl_view sample_slices.1 sample_slices.2 sample_slices_sep
           6 0 (VInt 1)).
Defined.

(** It is the node the search on lists finds. *)
Example FindByMeta_sl_sample :
  FindByMeta_sl 6 sample_slices.1 sample_slices.2 (Some 0) (VInt 1) = Ok (Some 4).
Proof. by vm_compute. Qed.
