(* ===== verification/Forest.v ===== *)
(** * A well-formed heap is a forest

    The invariant is local: it speaks of a node, its children and its
    parent.  What the walks of the package rely on is global: the nodes
    under a node are younger than it, each of them has one parent, and none
    of them is met twice.  This file derives the second from the first.
    [VisitAll] therefore calls its visitor once on a node, and a search
    never returns to a node it has left. *)

From S2P Require Import Prelude Payload Heap Node Invariant Tree Search.

Section forest.
Context `{Payload any}.
Variable h : heap any.
Hypothesis Hwf : wf_heap h.
Implicit Types (n m c y : ptr) (nd md : Node any).

(** ** Definitions *)

(** [c] and the nodes under it. *)
Definition subtree (fuel : nat) c : list ptr := c :: descendants fuel h c.

(** ** Parents *)

(** A node is held by one node. *)
Lemma parent_unique c n m nd md :
  h !! n = Some nd → h !! m = Some md → c ∈ Nodes nd → c ∈ Nodes md → n = m.
Proof.
  intros Hn Hm Hc Hc'. destruct Hwf as [_ Hnd].
  destruct (decide (n = m)) as [|Hne]; [done|].
  by destruct (NoDup_bind_disjoint Nodes h n m nd md c).
Qed.

Lemma elem_of_descendants fuel n y :
  y ∈ descendants fuel h n ↔
    ∃ fuel' nd c, fuel = S fuel' ∧ h !! n = Some nd ∧ c ∈ Nodes nd ∧
                  y ∈ subtree fuel' c.
Proof.
  destruct fuel as [|fuel]; simpl.
  { split; [by intros ?%elem_of_nil|by intros (? & ? & ? & ? & _)]. }
  destruct (h !! n) as [nd|]; [rewrite list_elem_of_bind|]; split.
  - intros (c & Hy & Hc). by exists fuel, nd, c.
  - intros (? & ? & c & ? & ? & Hc & Hy). simplify_eq. eauto.
  - by intros ?%elem_of_nil.
  - by intros (? & ? & ? & _ & ? & _).
Qed.

(** ** Bounds *)

(** The nodes under a node are younger than it. *)
Lemma descendants_lt fuel : ∀ n y,
  y ∈ descendants fuel h n → n < y < length h.
Proof.
  induction fuel as [|fuel IH]; intros n y;
    intros (? & nd & c & ? & Hn & Hc & Hy)%elem_of_descendants; simplify_eq.
  destruct (wf_heap_child_lt _ _ _ _ Hwf Hn Hc).
  apply elem_of_cons in Hy as [->|Hy%IH]; lia.
Qed.

Lemma subtree_le fuel c y : c < length h → y ∈ subtree fuel c → c ≤ y < length h.
Proof. intros Hc [->|Hy%descendants_lt]%elem_of_cons; lia. Qed.

(** ** One path to a node *)

(** A node under [c] is [c] or has its parent under [c]. *)
Lemma subtree_parent fuel : ∀ c y,
  y ∈ subtree fuel c →
  y = c ∨ ∃ m md, m ∈ subtree fuel c ∧ h !! m = Some md ∧ y ∈ Nodes md.
Proof.
  unfold subtree. induction fuel as [|fuel IH]; intros c y;
    intros [->|Hy]%elem_of_cons; [by left|by apply elem_of_nil in Hy|by left|].
  right. pose proof Hy as (? & cd & k & ? & Hc & Hk & Hyk)%elem_of_descendants.
  simplify_eq. destruct (IH _ _ Hyk) as [->|(m & md & Hm & Hmd & Hym)].
  - exists c, cd. split_and!; [left|done..].
  - exists m, md. split_and!; [|done..]. right.
    apply elem_of_descendants. by eexists _, cd, k.
Qed.

(** Two children of a node have no node in common under them. *)
Lemma subtree_disjoint n nd f1 f2 : h !! n = Some nd →
  ∀ y c1 c2, c1 ∈ Nodes nd → c2 ∈ Nodes nd →
    y ∈ subtree f1 c1 → y ∈ subtree f2 c2 → c1 = c2.
Proof.
  intros Hn y. induction (lt_wf y) as [y _ IH]. intros c1 c2 Hc1 Hc2 Hy1 Hy2.
  destruct (wf_heap_child_lt _ _ _ _ Hwf Hn Hc1), (wf_heap_child_lt _ _ _ _ Hwf Hn Hc2).
  destruct (subtree_parent _ _ _ Hy1) as [->|(m1 & md1 & Hm1 & Hmd1 & Hym1)],
    (subtree_parent _ _ _ Hy2) as [Heq|(m2 & md2 & Hm2 & Hmd2 & Hym2)]; [done|..].
  - assert (m2 = n) as -> by eauto using parent_unique.
    apply subtree_le in Hm2; lia.
  - subst y. assert (m1 = n) as -> by eauto using parent_unique.
    apply subtree_le in Hm1; lia.
  - assert (m1 = m2) as -> by eauto using parent_unique.
    apply (IH m2); [|done..]. by destruct (wf_heap_child_lt _ _ _ _ Hwf Hmd2 Hym2).
Qed.

Lemma descendants_NoDup fuel : ∀ n, NoDup (descendants fuel h n).
Proof.
  induction fuel as [|fuel IH]; intros n; simpl; [constructor|].
  destruct (h !! n) as [nd|] eqn:Hn; [|constructor].
  apply NoDup_bind; [|intros c _|by eapply wf_heap_NoDup].
  - intros c1 c2 y Hc1 Hc2. by apply (subtree_disjoint n nd).
  - constructor; [|done]. intros ?%descendants_lt. lia.
Qed.

End forest.

(** In a heap built by the public operations the nodes under a node
    are younger than it and allocated, and none of them is under it
    twice. *)
Theorem below_forest `{Payload any} (h : heap any) (n : ptr) :
  reachable h →
  NoDup (below h n) ∧ Forall (λ c, n < c < length h) (below h n).
Proof.
  intros Hwf%reachable_wf. split; [by apply descendants_NoDup|].
  apply Forall_forall. intros c. by apply descendants_lt.
Qed.

(** ** Witnesses *)

Lemma below_forest_witness :
  NoDup (below sample_heap 0) ∧
  Forall (λ c, 0 < c < length sample_heap) (below sample_heap 0).
Proof. exact (below_forest sample_heap 0 sample_heap_reachable). Defined.
