(* ===== verification/Visit.v ===== *)
(** * Visitors that change the nodes

    The visitor handed to [VisitAll] is a closure that receives a pointer:
    it may assign to the fields of the node.  As long as it leaves the
    parent pointers and the lists of children alone the walk is the one of
    the heap at the start, whatever the visitor writes: [same_shape]
    relates the heaps that differ in the values and the meta values only,
    the walk is stated up to it, and the invariant respects it.

    A well-formed heap is a forest: no node is under a node twice
    ([descendants_NoDup]).  So a visitor that replaces the value of the node it
    receives by a function of it is applied once to every node under the
    receiver, and the tree afterwards is the tree before with the function
    mapped over the values of the nodes under its root
    ([VisitAll_map_values]).

    The walk reads the children of the receiver once, at the start, and
    the children of a node under it after the visitor returned from that
    node ([VisitAll_walk], stated for any property of the heap the visitor
    keeps).  So a visitor may append leaves to the receiver, or to any node
    that is not under it: they are not visited, and the walk returns
    ([VisitAll_add_outside]).  A visitor that appends a leaf to the node it
    receives is called on that leaf next, and the walk has no end
    ([VisitAll_grow_diverges]). *)

From S2P Require Import Prelude Payload Heap Node Invariant Tree TreeOps Search Forest.

Section shape.
Context `{Payload any}.
Implicit Types (h : heap any) (n p c : ptr) (nd cd : Node any).

(** ** Definitions *)

(** What the walk reads of a node. *)
Definition links nd : option ptr * list ptr := (Root nd, Nodes nd).

Definition shape h : list (option ptr * list ptr) := links <$> h.

(** Heaps that differ in the values and the meta values only. *)
Definition same_shape h h' : Prop := shape h = shape h'.

#[export] Instance same_shape_dec h h' : Decision (same_shape h h').
Proof. unfold same_shape. apply _. Defined.

(** A computation on the heap, run by a visitor with a state of its
    own. *)
Definition on_heap {V A} (m : M (heap any) A) : M (heap any * V) A :=
  λ s, let (r, h') := m s.1 in (r, (h', s.2)).

(** The state after the visitor [fn] was called on [p]. *)
Definition visit {V} (fn : ptr → M (heap any * V) ()) (s : heap any * V) p
    : heap any * V :=
  (fn p s).2.

(** A visitor that replaces the value of the node it receives by [f] of
    it: the closure [func(item *Node) { item.SetValue(f(item.Value)) }]. *)
Definition set_values {V} (f : any → any) p : M (heap any * V) () :=
  on_heap (nd ← loadM p; SetValue p (f (Value nd))).

(** A visitor that appends a leaf to the node it receives: the closure
    [func(item *Node) { item.AddNode(a) }]. *)
Definition add_leaf {V} (a : any) p : M (heap any * V) () :=
  on_heap (AddNode p a;; mret ()).

(** A visitor that appends a leaf to the node [r], whatever node it
    receives, and keeps a record of the nodes it received: the closure
    [func(item *Node) { r.AddNode(a); seen = append(seen, item) }]. *)
Definition seen p : M (heap any * list ptr) () :=
  λ s, (Ok (), (s.1, s.2 ++ [p])).

Definition add_to (r : ptr) (a : any) p : M (heap any * list ptr) () :=
  on_heap (AddNode r a);; seen p.

(** The heap after [k] calls of [r.AddNode(a)]. *)
Fixpoint add_leaves (r : ptr) (a : any) (k : nat) h : heap any :=
  match k with
  | 0 => h
  | S k' => add_leaves r a k' (AddNode r a h).2
  end.

(** [h'] has the node [r], and the other nodes of [h] as they are in
    [h]. *)
Definition kept_but (r : ptr) h h' : Prop :=
  is_Some (h' !! r) ∧ ∀ p nd, p ≠ r → h !! p = Some nd → h' !! p = Some nd.

(** Every pointer held in a list of children is a node of the heap. *)
Definition closed h : Prop :=
  ∀ n nd c, h !! n = Some nd → c ∈ Nodes nd → c < length h.

(** *** Specification *)

Definition map_value (f : any → any) nd : Node any := set_Value (f (Value nd)) nd.

(** The heap with [f] applied to the values of the nodes [L]. *)
Definition map_values (f : any → any) (L : list ptr) h : heap any :=
  imap (λ i nd, if decide (i ∈ L) then map_value f nd else nd) h.

(** The tree with [f] applied to the values of its nodes at the addresses
    [L], of all its nodes, and of the nodes under its root. *)
Fixpoint tmap_on (L : list ptr) (f : any → any) (t : tree any) : tree any :=
  match t with
  | TNode a b m v ks =>
      TNode a b m (if decide (a ∈ L) then f v else v) (tmap_on L f <$> ks)
  end.

Fixpoint tmap (f : any → any) (t : tree any) : tree any :=
  match t with
  | TNode a b m v ks => TNode a b m (f v) (tmap f <$> ks)
  end.

Definition map_kids (f : any → any) (t : tree any) : tree any :=
  match t with
  | TNode a b m v ks => TNode a b m v (tmap f <$> ks)
  end.

(** ** Heaps of one shape *)

#[export] Instance same_shape_equivalence : Equivalence same_shape.
Proof.
  unfold same_shape. split; [by intros h|by intros h h'|].
  intros h1 h2 h3. apply eq_trans.
Qed.

#[export] Instance same_shape_length : Proper (same_shape ==> (=)) (@length (Node any)).
Proof.
  intros h h' Hs. unfold same_shape, shape in Hs.
  by rewrite <- (length_fmap links h), <- (length_fmap links h'), Hs.
Qed.

Lemma same_shape_lookup h h' n nd :
  same_shape h h' → h !! n = Some nd →
  ∃ nd', h' !! n = Some nd' ∧ Root nd' = Root nd ∧ Nodes nd' = Nodes nd.
Proof.
  intros Hs Hn. apply (f_equal (.!! n)) in Hs.
  unfold shape, ptr in *. rewrite !list_lookup_fmap, Hn in Hs.
  destruct (h' !! n) as [nd'|]; [|done]. exists nd'. by simplify_eq/=.
Qed.

#[export] Instance same_shape_descendants fuel :
  Proper (same_shape ==> (=) ==> (=)) (descendants fuel).
Proof.
  intros h h' Hs n ? <-. revert n.
  induction fuel as [|fuel IH]; intros n; [done|]. simpl.
  destruct (h !! n) as [nd|] eqn:Hn.
  - destruct (same_shape_lookup _ _ _ _ Hs Hn) as (nd' & -> & _ & ->).
    apply bind_ext_Forall, Forall_forall. intros c _. by rewrite IH.
  - symmetry in Hs. destruct (h' !! n) as [nd'|] eqn:Hn'; [|done].
    destruct (same_shape_lookup _ _ _ _ Hs Hn') as (? & ? & _); congruence.
Qed.

#[export] Instance same_shape_below : Proper (same_shape ==> (=) ==> (=)) below.
Proof.
  intros h h' Hs n ? <-. unfold below.
  rewrite (same_shape_length h h' Hs). by apply same_shape_descendants.
Qed.

(** Writing a node with the links it had keeps the shape. *)
Lemma same_shape_insert h n nd nd' :
  h !! n = Some nd → links nd' = links nd → same_shape h (<[n:=nd']> h).
Proof.
  intros Hn Hl. unfold same_shape, shape, ptr in *.
  by rewrite list_fmap_insert, Hl, list_insert_id by (by rewrite list_lookup_fmap, Hn).
Qed.

(** The invariant speaks of the shape only. *)
Lemma all_children_shape h : all_children h = shape h ≫= snd.
Proof.
  unfold all_children, shape. induction h as [|nd h IH]; [done|].
  by rewrite fmap_cons, !bind_cons, IH.
Qed.

Lemma same_shape_wf h h' : same_shape h h' → wf_heap h → wf_heap h'.
Proof.
  intros Hs Hwf. apply wf_heap_intro.
  - intros p pd' Hp'.
    destruct (same_shape_lookup h' h p pd' (symmetry Hs) Hp') as (pd & Hp & HR & HN).
    split.
    + rewrite <- HN. apply Forall_forall. intros c Hc.
      destruct (wf_heap_child _ _ _ _ Hwf Hp Hc) as (? & cd & Hcd & Hcr).
      destruct (same_shape_lookup _ _ _ _ Hs Hcd) as (cd' & Hcd' & HR' & _).
      split; [done|]. by rewrite Hcd', HR'.
    + unfold wf_root. destruct (Root pd') as [r|] eqn:Hr; [|done].
      destruct (wf_heap_parent h p pd r Hwf Hp) as (rd & Hrd & Hin & _);
        [congruence|].
      by destruct (same_shape_lookup _ _ _ _ Hs Hrd) as (rd' & -> & _ & ->).
  - rewrite all_children_shape, <- Hs, <- all_children_shape. apply Hwf.
Qed.

#[export] Instance same_shape_wf_heap : Proper (same_shape ==> iff) wf_heap.
Proof. intros h h' Hs. split; apply same_shape_wf; [done|by symmetry]. Qed.

(** ** The walk *)

Section walk.
Context {V : Type}.
Variable h : heap any.
Variable fn : ptr → M (heap any * V) ().
Variable Inv : heap any → Prop.
Variable Dom : ptr → Prop.
Hypothesis Hwf : wf_heap h.
Hypothesis Hkids : ∀ h' p nd, Inv h' → Dom p → h !! p = Some nd →
  ∃ nd', h' !! p = Some nd' ∧ Nodes nd' = Nodes nd.
Hypothesis Hfn : ∀ p s, Dom p → Inv s.1 → (fn p s).1 = Ok () ∧ Inv (fn p s).2.1.

(** [m] returns, after the calls of the visitor on the nodes [l] in that
    order, and the heap is one the visitor keeps. *)
Definition visits (m : M (heap any * V) ()) (s : heap any * V) (l : list ptr) : Prop :=
  m s = (Ok (), foldl (visit fn) s l) ∧ Inv (foldl (visit fn) s l).1.

Lemma visits_ext (m m' : M (heap any * V) ()) s l :
  m s = m' s → visits m' s l → visits m s l.
Proof. unfold visits. by intros ->. Qed.

Lemma fn_visits p s : Dom p → Inv s.1 → visits (fn p) s [p].
Proof.
  intros Hp Hs. destruct (Hfn p s Hp Hs) as [Hr Hs']. split; [|done].
  simpl. unfold visit. destruct (fn p s) as [r s']. simpl in *. by subst.
Qed.

Lemma visits_nil s : Inv s.1 → visits (mret ()) s [].
Proof. by split. Qed.

Lemma visits_bind (m m' : M (heap any * V) ()) s l l' :
  visits m s l → visits m' (foldl (visit fn) s l) l' → visits (m;; m') s (l ++ l').
Proof.
  intros [Hm _] [Hm' Hs]. unfold visits. rewrite foldl_app. split; [|done].
  by erewrite M_bind_Ok by apply Hm.
Qed.

Lemma forM_visits (body : ptr → M (heap any * V) ()) (D : ptr → list ptr) nodes :
  Forall (λ c, ∀ s, Inv s.1 → visits (body c) s (c :: D c)) nodes →
  ∀ s, Inv s.1 → visits (forM_ nodes body) s (nodes ≫= λ c, c :: D c).
Proof.
  induction 1 as [|c nodes Hc _ IH]; intros s Hs; [by apply visits_nil|].
  rewrite bind_cons. apply visits_bind; [by apply Hc|]. apply IH, (Hc s Hs).
Qed.

(** The body of the loop of [VisitAll]: the visitor, then the nodes under
    the child when it has children. *)
Lemma visit_child (rec : M (heap any * V) ()) c cd s :
  h !! c = Some cd → Dom c → Inv s.1 →
  (0 < length (Nodes cd) → ∀ s', Inv s'.1 → visits rec s' (below h c)) →
  visits (fn c;; s' ← get_state; cd' ← lift (load s'.1 c);
          if decide (0 < length (Nodes cd')) then rec else mret ())
    s (c :: below h c).
Proof.
  intros Hcd Hc Hs Hrec.
  destruct (fn_visits c s Hc Hs) as [Hrun Hs'].
  destruct (Hkids _ _ _ Hs' Hc Hcd) as (cd' & Hcd' & Hnodes).
  apply (visits_bind _ _ _ [c]); [by apply fn_visits|]. eapply visits_ext.
  { unfold get_state. erewrite M_bind_Ok by reflexivity.
    by rewrite (load_Some _ _ _ Hcd'), M_bind_lift_Ok, Hnodes. }
  destruct (decide (0 < length (Nodes cd))) as [Hk|Hk]; [by apply Hrec|].
  rewrite (below_eq _ _ _ Hwf Hcd).
  destruct (Nodes cd); [by apply visits_nil|simpl in Hk; lia].
Qed.

(** The walk from [n], started in a state in which [n] has the children
    it has in [h]: the visitor is called on the nodes under [n] in [h]. *)
Lemma VisitAll_walk fuel : ∀ n s nd nd',
  h !! n = Some nd → s.1 !! n = Some nd' → Nodes nd' = Nodes nd → Inv s.1 →
  (∀ c, c ∈ below h n → Dom c) → length h - n ≤ fuel →
  visits (VisitAll fuel fn n) s (below h n).
Proof.
  induction fuel as [|fuel IH]; intros n s nd nd' Hnd Hnd' Hnodes Hs Hdom Hfuel.
  { apply lookup_lt_Some in Hnd. lia. }
  eapply visits_ext.
  { cbn [VisitAll]. unfold get_state. erewrite M_bind_Ok by reflexivity.
    by rewrite (load_Some _ _ _ Hnd'), M_bind_lift_Ok, Hnodes. }
  rewrite (below_eq _ _ _ Hwf Hnd) in Hdom |- *.
  apply forM_visits; [|done]. apply Forall_forall. intros c Hc s1 Hs1.
  destruct (wf_heap_child_lt _ _ _ _ Hwf Hnd Hc) as [Hlt Hlen].
  destruct (lookup_lt_is_Some_2 h c Hlen) as [cd Hcd].
  assert (∀ c', c' ∈ c :: below h c → Dom c') as Hsub.
  { intros c' Hc'. apply Hdom, list_elem_of_bind. by exists c. }
  apply (visit_child _ c cd); [done|apply Hsub; left|done|]. intros _ s2 Hs2.
  destruct (Hkids _ _ _ Hs2 (Hsub c ltac:(left)) Hcd) as (cd2 & Hcd2 & Hnodes2).
  eapply IH; [done..| |lia]. intros c' Hc'. apply Hsub. by right.
Qed.

End walk.

(** *** Visitors that keep the shape *)

Section walk_shape.
Context {V : Type}.
Variable h : heap any.
Variable fn : ptr → M (heap any * V) ().
Hypothesis Hwf : wf_heap h.
Hypothesis Hfn : ∀ p s, p < length h → same_shape h s.1 →
  (fn p s).1 = Ok () ∧ same_shape h (fn p s).2.1.

Lemma VisitAll_visits fuel n s :
  same_shape h s.1 → n < length h → length h - n ≤ fuel →
  visits fn (same_shape h) (VisitAll fuel fn n) s (below h n).
Proof.
  intros Hs Hn Hfuel. destruct (lookup_lt_is_Some_2 h n Hn) as [nd Hnd].
  destruct (same_shape_lookup _ _ _ _ Hs Hnd) as (nd' & Hnd' & _ & Hnodes).
  apply (VisitAll_walk h fn (same_shape h) (λ p, p < length h) Hwf) with nd nd';
    [|done..| |done].
  - intros h' p pd Hs' _ Hp.
    destruct (same_shape_lookup _ _ _ _ Hs' Hp) as (pd' & ? & _ & ?). by exists pd'.
  - intros c Hc. by apply (descendants_lt h Hwf) in Hc as [_ ?].
Qed.

(** C22: [VisitAll] with a visitor that returns and leaves the parent
    pointers and the lists of children as they are calls it once on every
    node under [n], in pre-order, each call on the state the one before
    left, and returns; the heap has the shape it had, and satisfies the
    invariant. *)
Theorem VisitAll_shape fuel n s :
  same_shape h s.1 → n < length h → length h ≤ fuel →
  VisitAll fuel fn n s = (Ok (), foldl (visit fn) s (below h n)) ∧
  same_shape h (foldl (visit fn) s (below h n)).1 ∧
  wf_heap (foldl (visit fn) s (below h n)).1.
Proof.
  intros Hs Hn Hfuel.
  destruct (VisitAll_visits fuel n s Hs Hn) as [Hrun Hs']; [lia|].
  split_and!; [done..|]. by eapply same_shape_wf.
Qed.

End walk_shape.

(** ** Mapping a function over the values *)

Section map.
Context {V : Type}.
Variable f : any → any.
Implicit Types (L : list ptr) (t k : tree any) (v : V).

Lemma set_values_run p (s : heap any * V) nd :
  s.1 !! p = Some nd →
  set_values f p s = (Ok (), (<[p:=map_value f nd]> s.1, s.2)).
Proof.
  intros Hp. unfold set_values, on_heap.
  erewrite M_bind_Ok by (by rewrite loadM_run, (load_Some _ _ _ Hp)).
  by rewrite (SetValue_run _ _ _ _ Hp).
Qed.

Lemma set_values_shape h p (s : heap any * V) :
  p < length h → same_shape h s.1 →
  (set_values f p s).1 = Ok () ∧ same_shape h (set_values f p s).2.1.
Proof.
  intros Hp Hs. rewrite (same_shape_length _ _ Hs) in Hp.
  destruct (lookup_lt_is_Some_2 _ _ Hp) as [nd Hnd].
  rewrite (set_values_run _ _ _ Hnd). split; [done|].
  etrans; [done|]. by eapply same_shape_insert.
Qed.

Lemma map_values_cons L h p nd :
  p ∉ L → h !! p = Some nd →
  map_values f L (<[p:=map_value f nd]> h) = map_values f (p :: L) h.
Proof.
  intros HL Hp. pose proof (lookup_lt_Some _ _ _ Hp).
  apply list_eq. intros i. unfold map_values, ptr in *. rewrite !list_lookup_imap.
  destruct (decide (i = p)) as [->|Hne].
  - rewrite list_lookup_insert_eq, Hp by done. simpl.
    by rewrite decide_False, decide_True by (done || by left).
  - rewrite list_lookup_insert_ne by done. destruct (h !! i); [simpl|done].
    destruct (decide (i ∈ L)); [by rewrite decide_True by (by right)|].
    by rewrite decide_False by (by intros [?|?]%elem_of_cons).
Qed.

Lemma map_values_nil h : map_values f [] h = h.
Proof.
  apply list_eq. intros i. unfold map_values. rewrite list_lookup_imap.
  by destruct (h !! i).
Qed.

(** The calls of the visitor on nodes that are pairwise distinct. *)
Lemma foldl_set_values L v : ∀ h,
  NoDup L → Forall (λ p, p < length h) L →
  foldl (visit (set_values f)) (h, v) L = (map_values f L h, v).
Proof.
  induction L as [|p L IH]; intros h HL Hlt; [by rewrite map_values_nil|].
  apply NoDup_cons in HL as [Hp HL]. apply Forall_cons in Hlt as [Hlen Hlt].
  destruct (lookup_lt_is_Some_2 _ _ Hlen) as [nd Hnd].
  simpl. unfold visit at 2. rewrite (set_values_run p (h, v) nd Hnd). simpl.
  rewrite IH, (map_values_cons _ _ _ _ Hp Hnd); [done..|].
  by rewrite length_insert.
Qed.

Lemma abs_map_values L h fuel : ∀ p t,
  abs fuel h p = Some t → abs fuel (map_values f L h) p = Some (tmap_on L f t).
Proof.
  induction fuel as [|fuel IH]; intros p t Habs; [done|].
  apply abs_Some in Habs as (? & nd & ks & [= <-] & Hp & Hks & ->).
  apply (mapM_Some_impl _ _ _ _ _ IH) in Hks.
  rewrite (abs_S _ _ p (if decide (p ∈ L) then map_value f nd else nd))
    by (unfold map_values, ptr in *; rewrite list_lookup_imap, Hp; reflexivity).
  unfold node_of.
  destruct (decide (p ∈ L)); simpl; rewrite Hks; simpl;
    by rewrite ?decide_True, ?decide_False by done.
Qed.

Lemma under_kid a b m x ks k :
  k ∈ ks → addr k :: under k ⊆ under (TNode a b m x ks).
Proof.
  intros Hk y Hy. rewrite under_TNode. apply list_elem_of_bind. by exists k.
Qed.

Lemma tmap_on_sub L : ∀ t, addr t :: under t ⊆ L → tmap_on L f t = tmap f t.
Proof.
  induction t as [a b m x ks IH] using tree_ind'. intros Hsub.
  cbn [tmap_on tmap]. rewrite decide_True by (apply Hsub; left). f_equal.
  apply Forall_fmap_ext_1, Forall_forall. intros k Hk.
  apply (proj1 (Forall_forall _ _) IH k Hk). etrans; [|done].
  etrans; [by apply (under_kid a b m x)|]. by apply list_subseteq_cons.
Qed.

Lemma tmap_on_kids L t :
  addr t ∉ L → under t ⊆ L → tmap_on L f t = map_kids f t.
Proof.
  destruct t as [a b m x ks]. intros Ha Hsub.
  cbn [tmap_on map_kids]. rewrite decide_False by done. f_equal.
  apply Forall_fmap_ext_1, Forall_forall. intros k Hk.
  apply tmap_on_sub. etrans; [by apply (under_kid a b m x)|done].
Qed.

Lemma map_values_lookup L h p nd :
  h !! p = Some nd →
  map_values f L h !! p = Some (if decide (p ∈ L) then map_value f nd else nd).
Proof. intros Hp. unfold map_values, ptr in *. by rewrite list_lookup_imap, Hp. Qed.

(** Only values are written: the heap keeps its shape. *)
Lemma map_values_shape L h : same_shape h (map_values f L h).
Proof.
  apply list_eq. intros i. unfold shape, map_values.
  rewrite !list_lookup_fmap, list_lookup_imap.
  destruct (h !! i) as [nd|]; [|done]. simpl. by case_decide.
Qed.

Lemma VisitAll_set_values h (fuel depth : nat) n t v :
  wf_heap h → abs depth h n = Some t → length h ≤ fuel →
  VisitAll fuel (set_values f) n (h, v) = (Ok (), (map_values f (below h n) h, v)) ∧
  abs depth (map_values f (below h n) h) n = Some (map_kids f t).
Proof.
  intros Hwf Habs Hfuel.
  pose proof Habs as (_ & nd & _ & _ & Hn%lookup_lt_Some & _)%abs_Some.
  destruct (VisitAll_visits h _ Hwf (set_values_shape h) fuel n (h, v))
    as [-> _]; [reflexivity|done|lia|].
  rewrite foldl_set_values, (abs_map_values _ _ _ _ _ Habs);
    [|apply (descendants_NoDup h Hwf)
     |apply Forall_forall; intros c Hc; apply (descendants_lt h Hwf) in Hc; lia].
  split; [done|]. f_equal. rewrite (below_under _ _ Hwf _ _ Habs).
  apply tmap_on_kids; [|done].
  rewrite <- (below_under _ _ Hwf _ _ Habs), (abs_addr _ _ _ _ Habs).
  intros Hc. apply (descendants_lt h Hwf) in Hc. lia.
Qed.

(** C21: [VisitAll] with the visitor that sets the value of a node to
    [f] of it returns, and the tree under the receiver is then the tree it
    was with [f] applied once to the value of every node under the root. *)
Theorem VisitAll_map_values h (fuel depth : nat) n t v :
  wf_heap h → abs depth h n = Some t → length h ≤ fuel →
  VisitAll fuel (set_values f) n (h, v) = (Ok (), (map_values f (below h n) h, v)) ∧
  abs depth (map_values f (below h n) h) n = Some (map_kids f t).
Proof. apply VisitAll_set_values. Qed.

End map.

(** ** A visitor that adds nodes *)

Section grow.
Context {V : Type}.
Variable a : any.
Implicit Types (s : heap any * V).

Lemma M_bind_diverges {St A B} (m : M St A) (f : A → M St B) (st : St) :
  (m st).1 = OutOfFuel → ((m ≫= f) st).1 = OutOfFuel.
Proof. unfold mbind, M_bind. by destruct (m st) as [[?|?|] ?]. Qed.

Lemma wf_closed h : wf_heap h → closed h.
Proof. intros Hwf n nd c Hn Hc. by destruct (wf_heap_child_lt _ _ _ _ Hwf Hn Hc). Qed.

Lemma closed_add_child h p pd meta x :
  closed h → h !! p = Some pd → closed (add_child_heap h p pd meta x).
Proof.
  intros Hcl Hp n nd c Hn Hc. rewrite add_child_heap_length.
  pose proof (lookup_lt_Some _ _ _ Hp).
  destruct (decide (n = p)) as [->|Hnp].
  - rewrite (add_child_heap_parent _ _ _ _ _ Hp) in Hn. simplify_eq/=.
    apply elem_of_app in Hc as [Hc|Hc%list_elem_of_singleton]; [|lia].
    specialize (Hcl _ _ _ Hp Hc). lia.
  - destruct (decide (n = length h)) as [->|Hnl].
    + rewrite (add_child_heap_child _ _ _ _ _ Hp) in Hn. simplify_eq/=.
      by apply elem_of_nil in Hc.
    + rewrite add_child_heap_other in Hn by done. specialize (Hcl _ _ _ Hn Hc). lia.
Qed.

Lemma add_leaf_run p s pd :
  s.1 !! p = Some pd →
  add_leaf a p s = (Ok (), (add_child_heap s.1 p pd any_nil a, s.2)).
Proof. intros Hp. unfold add_leaf, on_heap. by rewrite (M_bind_Ok _ _ _ _ _ (AddNode_run _ _ _ a Hp)). Qed.

(** The call on a child that has children after the visitor ran. *)
Lemma VisitAll_add_leaf fuel : ∀ n s nd,
  closed s.1 → s.1 !! n = Some nd → Nodes nd ≠ [] →
  (VisitAll fuel (add_leaf a) n s).1 = OutOfFuel.
Proof.
  induction fuel as [|fuel IH]; intros n s nd Hcl Hn Hne; [done|].
  destruct (Nodes nd) as [|c rest] eqn:Hnodes; [done|].
  assert (c < length s.1) as Hc by (eapply Hcl; [done|]; rewrite Hnodes; left).
  destruct (lookup_lt_is_Some_2 _ _ Hc) as [cd Hcd].
  cbn [VisitAll]. unfold get_state. erewrite M_bind_Ok by reflexivity.
  rewrite (load_Some _ _ _ Hn), M_bind_lift_Ok, Hnodes. cbn [forM_].
  apply M_bind_diverges.
  erewrite M_bind_Ok by (by apply add_leaf_run).
  erewrite M_bind_Ok by reflexivity. cbn [fst].
  rewrite (load_Some _ _ _ (add_child_heap_parent _ _ _ any_nil a Hcd)), M_bind_lift_Ok.
  cbn [Nodes set_Nodes]. rewrite decide_True by (rewrite length_app; simpl; lia).
  eapply IH; [by apply closed_add_child|by apply add_child_heap_parent|].
  cbn [Nodes set_Nodes]. by destruct (Nodes cd).
Qed.

(** C23: [VisitAll] does not return when the visitor appends a child to
    the node it receives: that node has children when the visitor is back,
    the walk goes down to the new child, and so on for ever.  Whatever the
    fuel, it runs out. *)
Theorem VisitAll_grow_diverges h n nd fuel (v : V) :
  wf_heap h → h !! n = Some nd → Nodes nd ≠ [] →
  (VisitAll fuel (add_leaf a) n (h, v)).1 = OutOfFuel.
Proof. intros Hwf%wf_closed Hn Hne. by apply (VisitAll_add_leaf fuel n (h, v) nd). Qed.

End grow.

(** ** A visitor that adds nodes elsewhere *)

Section add_outside.
Variables (r : ptr) (a : any).
Implicit Types (s : heap any * list ptr) (l : list ptr).

Lemma add_to_run p s rd :
  s.1 !! r = Some rd →
  add_to r a p s = (Ok (), (add_child_heap s.1 r rd any_nil a, s.2 ++ [p])).
Proof.
  intros Hr. unfold add_to.
  by erewrite M_bind_Ok by (unfold on_heap; by rewrite (AddNode_run _ _ _ a Hr)).
Qed.

Lemma kept_but_add h h' rd :
  kept_but r h h' → h' !! r = Some rd →
  kept_but r h (add_child_heap h' r rd any_nil a).
Proof.
  intros [_ Hk] Hr. split; [by rewrite (add_child_heap_parent _ _ _ _ _ Hr)|].
  intros p nd Hp Hnd. pose proof (lookup_lt_Some _ _ _ (Hk p nd Hp Hnd)).
  rewrite add_child_heap_other by (done || lia). by apply Hk.
Qed.

Lemma add_to_kept h p s :
  kept_but r h s.1 → (add_to r a p s).1 = Ok () ∧ kept_but r h (add_to r a p s).2.1.
Proof.
  intros Hs. destruct (Hs) as [[rd Hr] _]. rewrite (add_to_run _ _ _ Hr).
  split; [done|]. by apply kept_but_add.
Qed.

Lemma add_leaves_S h rd k :
  h !! r = Some rd →
  add_leaves r a (S k) h = add_leaves r a k (add_child_heap h r rd any_nil a).
Proof. intros Hr. simpl. by rewrite (AddNode_run _ _ _ a Hr). Qed.

Lemma foldl_add_to l : ∀ s,
  is_Some (s.1 !! r) →
  foldl (visit (add_to r a)) s l = (add_leaves r a (length l) s.1, s.2 ++ l).
Proof.
  induction l as [|p l IH]; intros s [rd Hr].
  { simpl. rewrite app_nil_r. by destruct s. }
  cbn [foldl length]. unfold visit at 2. rewrite (add_to_run p s rd Hr).
  rewrite IH by (simpl; by rewrite (add_child_heap_parent _ _ _ _ _ Hr)).
  simpl. by rewrite (AddNode_run _ _ _ a Hr), <- app_assoc.
Qed.

Lemma add_leaves_spec k : ∀ h rd,
  wf_heap h → h !! r = Some rd →
  wf_heap (add_leaves r a k h) ∧ length (add_leaves r a k h) = length h + k ∧
  add_leaves r a k h !! r = Some (set_Nodes (Nodes rd ++ seq (length h) k) rd).
Proof.
  induction k as [|k IH]; intros h rd Hwf Hr.
  { simpl. rewrite app_nil_r, Nat.add_0_r. by destruct rd. }
  rewrite (add_leaves_S _ _ _ Hr).
  destruct (IH _ _ (wf_add_child _ _ _ any_nil a Hwf Hr)
              (add_child_heap_parent _ _ _ any_nil a Hr)) as (Hwf' & -> & ->).
  rewrite add_child_heap_length. split_and!; [done|lia|].
  destruct rd. simpl. by rewrite <- app_assoc.
Qed.

(** C27: [VisitAll] with a visitor that appends a leaf to a node that is
    not under the receiver (the receiver itself, for one) returns: the
    children of the receiver are read once, before the first call of the
    visitor, and the nodes under them do not change.  The visitor is called
    on the nodes that were under the receiver at the start, in pre-order,
    and on none of the leaves it adds; the heap is then the one before with
    one leaf more for each of these nodes, and is well formed. *)
Theorem VisitAll_add_outside h n rd fuel l :
  wf_heap h → n < length h → h !! r = Some rd → r ∉ below h n →
  length h ≤ fuel →
  let k := length (below h n) in
  VisitAll fuel (add_to r a) n (h, l) =
    (Ok (), (add_leaves r a k h, l ++ below h n)) ∧
  wf_heap (add_leaves r a k h) ∧
  length (add_leaves r a k h) = length h + k ∧
  add_leaves r a k h !! r = Some (set_Nodes (Nodes rd ++ seq (length h) k) rd).
Proof.
  intros Hwf Hn Hr Hout Hfuel k. split; [|by apply add_leaves_spec].
  destruct (lookup_lt_is_Some_2 h n Hn) as [nd Hnd].
  destruct (VisitAll_walk h (add_to r a) (kept_but r h) (λ p, p ≠ r) Hwf)
    with (fuel:=fuel) (n:=n) (s:=(h, l)) (nd:=nd) (nd':=nd) as [-> _];
    [|by intros; apply add_to_kept|done..|by split; eauto| |lia|].
  - intros h' p pd [_ Hk] Hp Hpd. exists pd. split; [by apply Hk|done].
  - by intros c Hc ->.
  - f_equal. apply foldl_add_to. simpl. eauto.
Qed.

End add_outside.

End shape.

(** ** Witnesses *)

Definition upper (x : GoValue) : GoValue :=
  match x with
  | VString "x" => VString "X"
  | _ => x
  end.

Lemma VisitAll_map_values_witness :
  VisitAll 6 (set_values upper) 0 (sample_heap, ()) =
    (Ok (), (map_values upper (below sample_heap 0) sample_heap, ())) ∧
  abs 6 (map_values upper (below sample_heap 0) sample_heap) 0 =
    (map_kids upper <$> abs 6 sample_heap 0).
Proof.
  exact (VisitAll_map_values upper sample_heap 6 6 0 _ ()
           ltac:(by_compute) eq_refl (le_n _)).
Defined.


Lemma VisitAll_shape_witness :
  VisitAll 6 (set_values upper) 0 (sample_heap, ()) =
    (Ok (), foldl (visit (set_values upper)) (sample_heap, ()) (below sample_heap 0)) ∧
  same_shape sample_heap
    (foldl (visit (set_values upper)) (sample_heap, ()) (below sample_heap 0)).1 ∧
  wf_heap
    (foldl (visit (set_values upper)) (sample_heap, ()) (below sample_heap 0)).1.
Proof.
  exact (VisitAll_shape sample_heap (set_values upper) ltac:(by_compute)
           (set_values_shape upper sample_heap) 6 0 (sample_heap, ())
           ltac:(reflexivity) ltac:(simpl; lia) (le_n _)).
Defined.

Lemma VisitAll_grow_diverges_witness :
  (VisitAll 100 (add_leaf (VString "n")) 0 (sample_heap, ())).1 = OutOfFuel.
Proof.
  exact (VisitAll_grow_diverges (VString "n") sample_heap 0 _ 100 ()
           ltac:(by_compute) eq_refl ltac:(discriminate)).
Defined.

Lemma VisitAll_add_outside_witness :
  VisitAll 6 (add_to 0 (VString "n")) 0 (sample_heap, []) =
    (Ok (), (add_leaves 0 (VString "n") 5 sample_heap, [1; 2; 3; 4; 5])) ∧
  wf_heap (add_leaves 0 (VString "n") 5 sample_heap) ∧
  length (add_leaves 0 (VString "n") 5 sample_heap) = 11 ∧
  add_leaves 0 (VString "n") 5 sample_heap !! 0 =
    Some (mkNode None VNil (VString ".") [1; 2; 5; 6; 7; 8; 9; 10]).
Proof.
  exact (VisitAll_add_outside 0 (VString "n") sample_heap 0 _ 6 []
           ltac:(by_compute) ltac:(simpl; lia) eq_refl ltac:(by_compute) (le_n _)).
Defined.
