(* ===== verification/VisitSlices.v ===== *)
(** * [VisitAll] on Go slices

    [VisitAll] ranges over [n.Nodes].  A [range] reads the slice once,
    before the first iteration, and its elements one by one, each when
    its turn comes: the loop does not see that the visitor gave the node
    another slice or a longer one, and it does see what the visitor wrote
    into the array.  In [Search] the loop runs over the list of children
    read before the first iteration.

    [VisitAll_sl] is the walk on the heap with slices ([NodeSlices]).  It
    does what [VisitAll] does on the heap with lists for every visitor
    that keeps the slices the loops in progress hold
    ([VisitAll_sl_VisitAll]); the visitors that call the methods of the
    package are such visitors, since [append] writes a shared array past
    the length of the slices that share it.  A visitor that assigns to an
    element of a slice, which only code with access to the field [Nodes]
    can do, is seen by the walk on slices and not by the walk on lists
    ([overwrite_seen]). *)

From S2P Require Import Prelude Payload Heap Slices Node Invariant NodeSlices Search Visit.

Import Slice.

Section visit_slices.
Context `{Payload any}.
Variable grow : nat → nat.
Implicit Types (hs : heapS any) (σ : arrays) (n c : ptr) (t : slice).

(** ** Definitions *)

(** A visitor on the heap with slices; the [*Node] it receives is an
    element of a slice, and may be nil. *)
Definition NodeVisitor_sl (V : Type) : Type :=
  option ptr → M (heapS any * arrays * V) ().

(** The body of the loop of [VisitAll], once the element [node] is
    read. *)
Definition visit_node {V} (fn : NodeVisitor_sl V)
    (rec : option ptr → M (heapS any * arrays * V) ()) (node : option ptr)
    : M (heapS any * arrays * V) () :=
  fn node;;
  s ← get_state;
  cd ← lift (derefS s.1.1 node);
  if decide (0 < slen (NodesS cd)) then rec node else mret ().

(** [VisitAll]: the slice [n.Nodes] is read once, the element [i] at the
    iteration [i]. *)
Fixpoint VisitAll_sl {V} (fuel : nat) (fn : NodeVisitor_sl V) (n : option ptr)
    : M (heapS any * arrays * V) () :=
  match fuel with
  | 0 => lift OutOfFuel
  | S fuel' =>
      s ← get_state;
      nd ← lift (derefS s.1.1 n);
      let nodes := NodesS nd in
      forM_ (seq 0 (slen nodes)) (λ i,
        s ← get_state;
        node ← lift (index (backing s.1.2 nodes) i);
        visit_node fn (VisitAll_sl fuel' fn) node)
  end.

(** A computation on the heap with slices, run by a visitor with a state
    of its own. *)
Definition on_heapS {V A} (m : M (heapS any * arrays) A)
    : M (heapS any * arrays * V) A :=
  λ s, ((m s.1).1, ((m s.1).2, s.2)).

(** The view and the invariant, with the state of the visitor, of which
    [g] is the view. *)
Definition viewV {V1 V2} (g : V1 → V2) (s : heapS any * arrays * V1)
    : heap any * V2 :=
  (view s.1, g s.2).

Definition invV {V} ts (s : heapS any * arrays * V) : Prop := inv ts s.1.

(** *** Visitors *)

(** The closure [func(item *Node) { item.AddNode(a) }]. *)
Definition add_leaf_sl {V} (a : any) : NodeVisitor_sl V := λ item,
  match item with
  | Some p => on_heapS (AddNode_sl grow p a;; mret ())
  | None => lift (Panic NilDereference)
  end.

(** [seen = append(seen, item)], for a variable [seen] of the closure. *)
Definition seen_sl (item : option ptr)
    : M (heapS any * arrays * list (option ptr)) () :=
  λ s, (Ok (), (s.1, s.2 ++ [item])).

(** The closure
    [func(item *Node) { r.AddNode(a); seen = append(seen, item) }]. *)
Definition add_to_sl (r : ptr) (a : any) : NodeVisitor_sl (list (option ptr)) :=
  λ item, on_heapS (AddNode_sl grow r a);; seen_sl item.

(** [ns[i] = x] for a slice of pointers. *)
Definition assign_node t (i : nat) (x : option ptr) : M (heapS any * arrays) () :=
  λ s, ((assign t i x s.2).1, (s.1, (assign t i x s.2).2)).

(** The closure
    [func(item *Node) { seen = append(seen, item); r.Nodes[i] = x }],
    which assigns to an element of the slice of [r], on slices and on
    lists. *)
Definition overwrite_sl (r : ptr) (i : nat) (x : option ptr)
    : NodeVisitor_sl (list (option ptr)) :=
  λ item,
    seen_sl item;;
    on_heapS (nd ← loadS r; assign_node (NodesS nd) i x).

Definition overwrite (r : ptr) (i : nat) (x : ptr)
    : NodeVisitor (any:=any) (list ptr) :=
  λ item,
    seen item;;
    on_heap (nd ← loadM r;
             ns ← lift (set_index (Nodes nd) (Z.of_nat i) x);
             Heap.store r (set_Nodes ns nd)).

(** ** The loop *)

Lemma length_children hs σ p nd :
  sep hs σ → hs !! p = Some nd →
  length (children σ (NodesS nd)) = slen (NodesS nd).
Proof.
  intros Hsep Hp. destruct (Hsep p nd Hp) as (Hv & Hall & _).
  unfold children. rewrite <- (length_elems _ _ Hv).
  rewrite (all_Some _ Hall) at 2. by rewrite length_fmap.
Qed.

(** The indexes of a slice and the children it holds. *)
Lemma range_children hs σ p nd :
  sep hs σ → hs !! p = Some nd →
  Forall2 (λ i c, elems σ (NodesS nd) !! i = Some (Some c))
    (seq 0 (slen (NodesS nd))) (children σ (NodesS nd)).
Proof.
  intros Hsep Hp. pose proof (length_children hs σ p nd Hsep Hp) as Hlen.
  destruct (Hsep p nd Hp) as (_ & Hall%all_Some & _).
  unfold children in *. rewrite <- Hlen.
  revert Hall. generalize (omap id (elems σ (NodesS nd))). intros cs ->.
  apply Forall2_same_length_lookup_2; [by rewrite length_seq|].
  intros i j c [-> _]%lookup_seq Hc. simpl. by rewrite list_lookup_fmap, Hc.
Qed.

(** The slice of a node has its elements, and no other node has a slice
    of its array. *)
Lemma sep_held hs σ p nd :
  sep hs σ → hs !! p = Some nd →
  held (NodesS nd) (elems σ (NodesS nd)) (hs, σ).
Proof.
  intros Hsep Hp. destruct (Hsep p nd Hp) as (Hv & _ & Hown).
  split_and!; simpl; [done| |done]. intros arr q ndq Harr Hq Hsame. simpl in *.
  destruct (Hown arr Harr) as [_ Hone]. specialize (Hone q ndq Hq Hsame).
  subst q. by injection (eq_trans (eq_sym Hp) Hq) as ->.
Qed.

Section walk.
Context {V1 V2 : Type}.
Variable g : V1 → V2.
Variable fn_sl : NodeVisitor_sl V1.
Variable fn : NodeVisitor (any:=any) V2.
Hypothesis Hfn : ∀ ts p, simulates (viewV g) (invV ts) (fn_sl (Some p)) (fn p).

(** The call of the visitor, the test [len(node.Nodes) > 0] and the
    recursive call. *)
Lemma visit_node_sim ts (rec_sl : option ptr → M (heapS any * arrays * V1) ())
    (rec : ptr → M (heap any * V2) ()) c :
  (∀ ts, simulates (viewV g) (invV ts) (rec_sl (Some c)) (rec c)) →
  simulates (viewV g) (invV ts) (visit_node fn_sl rec_sl (Some c))
    (fn c;; s' ← get_state; cd ← lift (load s'.1 c);
     if decide (0 < length (Nodes cd)) then rec c else mret ()).
Proof.
  intros Hrec. apply simulates_bind; [apply Hfn|]. intros _.
  intros [[hs σ] v] Hinv. pose proof Hinv as [Hsep _].
  rewrite !M_bind_get_state. unfold viewV, view. cbn [fst snd].
  destruct (hs !! c) as [cd|] eqn:Hc.
  - rewrite (derefS_Some _ _ _ Hc), (load_Some _ _ _ (abs_heap_Some σ _ _ _ Hc)).
    rewrite !M_bind_lift_Ok. cbn [Nodes abs_node].
    rewrite (length_children hs σ c cd Hsep Hc).
    case_decide; [by apply Hrec|by eexists].
  - rewrite (derefS_None _ _ Hc), (load_None _ _ (abs_heap_None σ _ _ Hc)).
    by eexists.
Qed.

(** The element [i] of a slice the loop holds is the child it was. *)
Lemma elem_sim ts t l i c (k_sl : option ptr → M (heapS any * arrays * V1) ())
    (k : M (heap any * V2) ()) :
  l !! i = Some (Some c) →
  simulates (viewV g) (invV ((t, l) :: ts)) (k_sl (Some c)) k →
  simulates (viewV g) (invV ((t, l) :: ts))
    (s ← get_state; node ← lift (index (backing s.1.2 t) i); k_sl node) k.
Proof.
  intros Hi Hk [[hs σ] v] Hinv.
  pose proof Hinv as [_ [(_ & _ & Hel) _]%Forall_cons]. simpl in Hel.
  unfold get_state. unfold_M. simpl.
  rewrite <- Hel in Hi. apply lookup_take_Some in Hi as [Hi _].
  unfold index. rewrite Hi. by apply Hk.
Qed.

Lemma VisitAll_sl_sim fuel : ∀ ts n,
  simulates (viewV g) (invV ts) (VisitAll_sl fuel fn_sl (Some n)) (VisitAll fuel fn n).
Proof.
  induction fuel as [|fuel IH]; intros ts n; [apply simulates_lift|].
  intros [[hs σ] v] Hinv. pose proof Hinv as [Hsep Hts].
  cbn [VisitAll_sl VisitAll]. rewrite !M_bind_get_state.
  unfold viewV, view. cbn [fst snd].
  destruct (hs !! n) as [nd|] eqn:Hn.
  2: { rewrite (derefS_None _ _ Hn), (load_None _ _ (abs_heap_None σ _ _ Hn)).
       by eexists. }
  rewrite (derefS_Some _ _ _ Hn), (load_Some _ _ _ (abs_heap_Some σ _ _ _ Hn)).
  rewrite !M_bind_lift_Ok. cbn [Nodes abs_node].
  apply (simulates_run (viewV g) _
           (invV ((NodesS nd, elems σ (NodesS nd)) :: ts))).
  - apply (simulates_forM_ _ _ _ _ _ _ _ (range_children hs σ n nd Hsep Hn)).
    intros i c Hi.
    apply (elem_sim ts _ _ i c (visit_node fn_sl (VisitAll_sl fuel fn_sl)));
      [done|].
    apply visit_node_sim. intros ts'. apply IH.
  - split; [done|]. constructor; [by eapply sep_held|done].
  - by intros s' [Hsep' [_ Hts']%Forall_cons].
Qed.

(** C7: [VisitAll] on the heap with slices, where the loop reads
    [n.Nodes] once and its elements one by one, does what [VisitAll] does
    on the heap with lists, where the loop runs over the children read
    before the first iteration: it returns the same result, leaves a heap
    with the same view and the state of the visitor with the same view;
    for every visitor that, called on a node, does on slices what it does
    on lists and keeps the elements of the slices that loops in progress
    hold. *)
Theorem VisitAll_sl_VisitAll fuel n hs σ v :
  sep hs σ →
  ∃ hs' σ' v',
    VisitAll_sl fuel fn_sl (Some n) (hs, σ, v) =
      ((VisitAll fuel fn n (abs_heap σ hs, g v)).1, (hs', σ', v')) ∧
    (abs_heap σ' hs', g v') = (VisitAll fuel fn n (abs_heap σ hs, g v)).2 ∧
    sep hs' σ'.
Proof.
  intros Hsep.
  destruct (VisitAll_sl_sim fuel [] n (hs, σ, v))
    as ([[hs' σ'] v'] & ? & ? & [? _]); [by split|].
  by exists hs', σ', v'.
Qed.

End walk.

(** ** Visitors that call methods *)

Lemma on_heapS_sim {V1 V2 B} (g : V1 → V2) ts (m_sl : M (heapS any * arrays) B)
    (m : M (heap any) B) :
  simulates view (inv ts) m_sl m →
  simulates (viewV g) (invV ts) (on_heapS m_sl) (on_heap m).
Proof.
  intros Hm [s v] Hinv. destruct (Hm s Hinv) as (s' & Hrun & Hview & Hinv').
  exists (s', v). unfold on_heapS, on_heap, viewV. simpl. rewrite Hrun.
  destruct (m (view s)) as [r h']. simpl in *. by subst h'.
Qed.

Lemma add_leaf_sl_sim {V1 V2} (g : V1 → V2) a ts p :
  simulates (viewV g) (invV ts) (add_leaf_sl a (Some p)) (add_leaf a p).
Proof.
  apply on_heapS_sim, simulates_bind; [apply AddMetaNode_sl_refines|].
  intros _. apply simulates_ret.
Qed.

Lemma add_to_sl_sim r a ts p :
  simulates (viewV (omap id)) (invV ts) (add_to_sl r a (Some p)) (add_to r a p).
Proof.
  apply simulates_bind; [apply on_heapS_sim, AddMetaNode_sl_refines|].
  intros _ [s v] Hinv. exists (s, v ++ [Some p]).
  unfold viewV, seen_sl, seen. simpl. by rewrite omap_app.
Qed.

End visit_slices.

(** ** Witnesses *)

(** A root with two leaves, and a second root. *)
Definition two_leaves : heapS GoValue * arrays :=
  (run_calls_sl double_grow
     [CNew; CAddNode 0 (VString "a"); CAddNode 0 (VString "b"); CNew] ([], [])).2.

Lemma two_leaves_sep : sep two_leaves.1 two_leaves.2.
Proof.
  destruct (run_calls_sl_refines double_grow
              [CNew; CAddNode 0 (VString "a"); CAddNode 0 (VString "b"); CNew])
    as (hs & σ & Hrun & _ & Hsep).
  unfold two_leaves. by rewrite Hrun.
Qed.

Lemma VisitAll_sl_VisitAll_witness :
  ∃ hs' σ' v',
    VisitAll_sl 4 (add_to_sl double_grow 0 (VString "c")) (Some 0)
      (two_leaves.1, two_leaves.2, []) =
      ((VisitAll 4 (add_to 0 (VString "c")) 0
          (abs_heap two_leaves.2 two_leaves.1, [])).1, (hs', σ', v')) ∧
    (abs_heap σ' hs', omap id v') =
      (VisitAll 4 (add_to 0 (VString "c")) 0
         (abs_heap two_leaves.2 two_leaves.1, [])).2 ∧
    sep hs' σ'.
Proof.
  exact (VisitAll_sl_VisitAll (omap id) _ _ (add_to_sl_sim double_grow 0 (VString "c"))
           4 0 two_leaves.1 two_leaves.2 [] two_leaves_sep).
Defined.

(** The walk on slices with the visitor that appends to the receiver
    visits the two leaves and none of the leaves it adds. *)
Example add_to_seen :
  (VisitAll_sl 4 (add_to_sl double_grow 0 (VString "c")) (Some 0)
     (two_leaves, [])).2.2 = [Some 1; Some 2].
Proof. by vm_compute. Qed.

(** A visitor that assigns to the second element of the slice of the
    receiver while the first is visited: the walk on slices goes on with
    the node assigned, the walk on lists with the node that was there. *)
Example overwrite_seen :
  (VisitAll_sl 4 (overwrite_sl 0 1 (Some 3)) (Some 0) (two_leaves, [])).2.2
    = [Some 1; Some 3] ∧
  (VisitAll 4 (overwrite 0 1 3) 0 (view two_leaves, [])).2.2 = [1; 2].
Proof. by vm_compute. Qed.
