(* ===== verification/Roundtrip.v ===== *)
(** * What is added is found

    The round trip of the tree model: a node appended by [AddMetaNode] (or
    by [AddNode], whose meta is nil) is what [FindByMeta] returns for its
    meta, unless a node that was under the receiver before has that meta:
    the search is in pre-order and the new node is the last of it.  The
    meta has to be one that [reflect.DeepEqual] finds equal to itself: a
    node added with the meta NaN is never found ([AddMetaNode_NaN_lost]).

    The walk under a node reads the nodes from it on: a change of the heap
    at older addresses, or past its end, does not change it
    ([descendants_frame]). *)

From S2P Require Import Prelude Payload Heap Node Invariant Tree Search Forest.

Section roundtrip.
Context `{Payload any}.
Implicit Types (h : heap any) (n p c : ptr) (nd : Node any) (meta a x : any).

(** ** Definitions *)

(** What [FindByMeta] returns after a node with [meta] was appended at
    the address [c], from what it returned before. *)
Definition found_after (old : option ptr) (c : ptr) meta x : option ptr :=
  match old with
  | Some p => Some p
  | None => if DeepEqual meta x then Some c else None
  end.

(** ** The walk reads the nodes under its start *)

Lemma filter_ext_Forall {A} (P Q : A → Prop) `{∀ y, Decision (P y)}
    `{∀ y, Decision (Q y)} (l : list A) :
  Forall (λ y, P y ↔ Q y) l → filter P l = filter Q l.
Proof.
  induction 1 as [|y l Hy _ IH]; [done|]. rewrite !filter_cons, IH.
  destruct (decide (P y)), (decide (Q y)); (done || tauto).
Qed.

Lemma descendants_frame h h' fuel : ∀ n,
  wf_heap h → n < length h →
  (∀ p, n ≤ p < length h → h' !! p = h !! p) →
  descendants fuel h' n = descendants fuel h n.
Proof.
  induction fuel as [|fuel IH]; intros n Hwf Hn Hsame; [done|].
  destruct (lookup_lt_is_Some_2 h n Hn) as [nd Hnd].
  rewrite (descendants_S fuel h n nd Hnd),
    (descendants_S fuel h' n nd) by (by rewrite Hsame by lia).
  apply bind_ext_Forall, Forall_forall. intros c Hc.
  destruct (wf_heap_child_lt _ _ _ _ Hwf Hnd Hc).
  f_equal. apply IH; [done..|]. intros p Hp. apply Hsame. lia.
Qed.

(** ** Appending a child *)

Section add.
Variables (h : heap any) (n : ptr) (nd : Node any) (meta a : any).
Hypothesis Hwf : wf_heap h.
Hypothesis Hn : h !! n = Some nd.

Let h' := add_child_heap h n nd meta a.

Lemma below_old c : c ∈ Nodes nd → below h' c = below h c.
Proof.
  intros Hc. destruct (wf_heap_child_lt _ _ _ _ Hwf Hn Hc).
  unfold below at 1. rewrite descendants_frame with (h:=h); [|done..|].
  - apply descendants_fuel; [done|]. unfold h'. rewrite add_child_heap_length. lia.
  - intros p Hp. apply add_child_heap_other; lia.
Qed.

(** The new node is the last of the walk under the receiver. *)
Lemma below_add_child : below h' n = below h n ++ [length h].
Proof.
  pose proof (wf_add_child _ _ _ meta a Hwf Hn) as Hwf'. fold h' in Hwf'.
  rewrite (below_eq _ _ _ Hwf' (add_child_heap_parent _ _ _ meta a Hn)).
  cbn [Nodes set_Nodes]. rewrite (below_eq _ _ _ Hwf Hn), bind_app. f_equal.
  - apply bind_ext_Forall, Forall_forall. intros c Hc. by rewrite below_old.
  - by rewrite bind_cons, (below_eq _ _ _ Hwf' (add_child_heap_child _ _ _ meta a Hn)).
Qed.

Lemma has_meta_old x p :
  p ∈ below h n → has_meta h' x p ↔ has_meta h x p.
Proof.
  intros Hp%(descendants_lt h Hwf). unfold has_meta, has_field, h'.
  by rewrite add_child_heap_other by lia.
Qed.

Lemma has_meta_new x : has_meta h' x (length h) ↔ DeepEqual meta x.
Proof. apply (has_field_lookup Meta _ x _ _ (add_child_heap_child _ _ _ meta a Hn)). Qed.

Lemma FindByMeta_add_child x :
  FindByMeta (length h') h' n x =
    Ok (found_after (head (filter (has_meta h x) (below h n))) (length h) meta x).
Proof.
  pose proof (wf_add_child _ _ _ meta a Hwf Hn) as Hwf'. fold h' in Hwf'.
  pose proof (lookup_lt_Some _ _ _ Hn) as Hlt.
  rewrite FindByMeta_descendants, below_add_child, head_app_filter;
    [|done|unfold h'; rewrite add_child_heap_length; lia|lia].
  rewrite (filter_ext_Forall (has_meta h' x) (has_meta h x) (below h n))
    by (apply Forall_forall; intros p Hp; by apply has_meta_old).
  unfold found_after. destruct (head _); [done|].
  rewrite filter_cons, filter_nil.
  destruct (DeepEqual meta x) eqn:Heq.
  - by rewrite decide_True by (by rewrite has_meta_new, Heq).
  - by rewrite decide_False by (rewrite has_meta_new, Heq; by intros []).
Qed.

End add.

(** C19: after [AddMetaNode], [FindByMeta] on the receiver returns what
    it returned before if that was a node, and otherwise the new node when
    its meta is the one sought. *)
Theorem FindByMeta_AddMetaNode h n nd meta a x h' :
  wf_heap h → h !! n = Some nd → AddMetaNode n meta a h = (Ok n, h') →
  FindByMeta (length h') h' n x =
    Ok (found_after (head (filter (has_meta h x) (below h n))) (length h) meta x).
Proof.
  intros Hwf Hn. rewrite (AddMetaNode_run _ _ _ _ _ Hn). intros [= <-].
  by apply FindByMeta_add_child.
Qed.

(** The round trip: a node added with a meta that no node under the
    receiver has, and that [reflect.DeepEqual] finds equal to itself, is
    the node [FindByMeta] returns for that meta. *)
Corollary AddMetaNode_found h n nd meta a h' :
  wf_heap h → h !! n = Some nd → FindByMeta (length h) h n meta = Ok None →
  DeepEqual meta meta →
  AddMetaNode n meta a h = (Ok n, h') →
  FindByMeta (length h') h' n meta = Ok (Some (length h)) ∧
  h' !! length h = Some (mkNode (Some n) meta a []).
Proof.
  intros Hwf Hn Hnone Hrefl. rewrite (AddMetaNode_run _ _ _ _ _ Hn). intros [= <-].
  pose proof (lookup_lt_Some _ _ _ Hn).
  rewrite FindByMeta_descendants in Hnone by (done || lia).
  rewrite (FindByMeta_add_child h n nd meta a Hwf Hn meta).
  injection Hnone as ->. unfold found_after.
  apply Is_true_eq_true in Hrefl as ->.
  split; [done|]. by apply add_child_heap_child.
Qed.

End roundtrip.

(** ** Witnesses *)

Lemma FindByMeta_AddMetaNode_witness :
  FindByMeta 7 (add_child_heap sample_heap 2 (mkNode (Some 0) VNil (VString "B") [3; 4])
                  (VInt 1) (VString "y")) 2 (VInt 1) = Ok (Some 4).
Proof.
  exact (FindByMeta_AddMetaNode sample_heap 2 _ (VInt 1) (VString "y") (VInt 1) _
           ltac:(by_compute) eq_refl eq_refl).
Defined.

Lemma AddMetaNode_found_witness :
  FindByMeta 7 (add_child_heap sample_heap 2 (mkNode (Some 0) VNil (VString "B") [3; 4])
                  (VInt 7) (VString "y")) 2 (VInt 7) = Ok (Some 6) ∧
  add_child_heap sample_heap 2 (mkNode (Some 0) VNil (VString "B") [3; 4])
    (VInt 7) (VString "y") !! 6 = Some (mkNode (Some 2) (VInt 7) (VString "y") []).
Proof.
  exact (AddMetaNode_found sample_heap 2 _ (VInt 7) (VString "y") _
           ltac:(by_compute) eq_refl eq_refl I eq_refl).
Defined.

(** A node added with the meta NaN is not found by that meta: on the
    sample heap [FindByMeta] returns nil before and after the call. *)
Example AddMetaNode_NaN_lost :
  ∃ h', AddMetaNode 2 VNaN (VString "y") sample_heap = (Ok 2, h') ∧
    Meta <$> h' !! 6 = Some VNaN ∧ 6 ∈ below h' 2 ∧
    FindByMeta (length h') h' 2 VNaN = Ok None.
Proof. eexists. split_and!; [reflexivity..|by_compute|reflexivity]. Qed.
