(* ===== verification/SearchSpec.v ===== *)
(** * The searches on the abstract tree

    [FindByMeta] and [FindByValue] are specified in [Search] on the heap:
    they return the first node of a list of addresses.  This file states
    what they return on the tree [abs] reads off the heap: [find_by_meta]
    is the first node under the root, in pre-order, whose meta
    [reflect.DeepEqual] finds equal to the one sought; [find_by_value]
    is what the code does for a value (the children by their value, the
    nodes under them by their meta).  Both methods refine them
    ([FindByMeta_find], [FindByValue_tree]), so a search after a program
    of calls is a search in the tree the specifications of the calls
    yield ([FindByMeta_after_build]), and a call that writes no meta and
    adds no node leaves every search by meta as it was
    ([FindByMeta_kept]). *)

From S2P Require Import Prelude Payload Heap Node Invariant Tree TreeOps Search.

Section search_spec.
Context `{Payload any}.
Implicit Types (h : heap any) (n p c : ptr) (nd : Node any).
Implicit Types (t k : tree any) (ks : list (tree any)) (x meta value : any).

(** ** Definitions *)

(** The nodes under the root, in pre-order. *)
Fixpoint nodes_under t : list (tree any) :=
  match t with
  | TNode _ _ _ _ ks => foldr (λ k acc, k :: nodes_under k ++ acc) [] ks
  end.

(** The first node under the root of which [field] is found equal to
    [x]. *)
Definition find_tree (field : tree any → any) x t : option ptr :=
  addr <$> head (filter (λ k, DeepEqual (field k) x) (nodes_under t)).

Definition find_by_meta meta t : option ptr := find_tree tmeta meta t.

(** What [FindByValue] returns: the first child that has the value, or
    under which a node has it as its meta. *)
Definition find_by_value value t : option ptr :=
  head (omap (λ k, if DeepEqual (tvalue k) value then Some (addr k)
                   else find_by_meta value k) (kids t)).

(** The node of the heap at the address of [k] has the meta and the
    value of [k]. *)
Definition views h k : Prop :=
  ∃ nd, h !! addr k = Some nd ∧ Meta nd = tmeta k ∧ Value nd = tvalue k.

(** Two nodes with the same address and the same meta. *)
Definition same_meta k k' : Prop := addr k = addr k' ∧ tmeta k = tmeta k'.

(** A change of a node that keeps its address, its meta and its
    children. *)
Definition keeps_meta (g : tree any → tree any) : Prop :=
  ∀ t, addr (g t) = addr t ∧ tmeta (g t) = tmeta t ∧ kids (g t) = kids t.

(** The calls that write no meta and add no node under a node of the
    heap. *)
Definition keeps_metas (cl : call (any:=any)) : bool :=
  match cl with
  | CBranch _ | CSetValue _ _ | CSetValuef _ _ _ => true
  | _ => false
  end.

(** ** The nodes under the root *)

Lemma nodes_under_TNode a b m v ks :
  nodes_under (TNode a b m v ks) = ks ≫= λ k, k :: nodes_under k.
Proof.
  simpl. induction ks as [|k ks IH]; [done|].
  by rewrite bind_cons, <- IH.
Qed.

Lemma under_nodes_under t : under t = addr <$> nodes_under t.
Proof.
  induction t as [a b m v ks IH] using tree_ind'.
  rewrite under_TNode, nodes_under_TNode.
  induction IH as [|k ks Hk _ IHks]; [done|].
  by rewrite !bind_cons, fmap_app, fmap_cons, IHks, Hk.
Qed.

Lemma abs_views h fuel : ∀ n t,
  abs fuel h n = Some t → views h t ∧ Forall (views h) (nodes_under t).
Proof.
  induction fuel as [|fuel IH]; intros n t Habs; [done|].
  apply abs_Some in Habs as (? & nd & ks & [= <-] & Hn & Hks%mapM_Some & ->).
  split; [by exists nd|]. unfold node_of. rewrite nodes_under_TNode.
  induction Hks as [|c k cs ks Hk _ IHks]; [done|].
  rewrite bind_cons. destruct (IH _ _ Hk).
  apply Forall_cons; split; [done|]. by apply Forall_app.
Qed.

(** ** The fields *)

Lemma has_meta_views h meta k :
  views h k → has_meta h meta (addr k) ↔ DeepEqual (tmeta k) meta.
Proof. intros (nd & Hk & <- & _). by apply has_field_lookup. Qed.

Lemma has_value_views h value k :
  views h k → has_value h value (addr k) ↔ DeepEqual (tvalue k) value.
Proof. intros (nd & Hk & _ & <-). by apply has_field_lookup. Qed.

Lemma filter_views (P : ptr → Prop) (Q : tree any → Prop)
    `{∀ p, Decision (P p), ∀ k, Decision (Q k)} ks :
  Forall (λ k, P (addr k) ↔ Q k) ks →
  head (filter P (addr <$> ks)) = addr <$> head (filter Q ks).
Proof.
  induction 1 as [|k ks Hk _ IH]; [done|].
  rewrite fmap_cons, !filter_cons.
  destruct (decide (P (addr k))), (decide (Q k)); (done || tauto).
Qed.

Lemma below_find_by_meta h fuel n t meta :
  wf_heap h → abs fuel h n = Some t →
  head (filter (has_meta h meta) (below h n)) = find_by_meta meta t.
Proof.
  intros Hwf Habs.
  rewrite (below_under _ _ Hwf _ _ Habs), under_nodes_under.
  apply filter_views. destruct (abs_views _ _ _ _ Habs) as [_ Hks].
  eapply Forall_impl; [done|]. intros k. apply has_meta_views.
Qed.

(** ** The first match *)

Lemma find_tree_Some field x t p :
  find_tree field x t = Some p →
  ∃ k, k ∈ nodes_under t ∧ addr k = p ∧ DeepEqual (field k) x.
Proof.
  unfold find_tree. intros (k & [? ?]%head_filter_Some & ->)%fmap_Some.
  by exists k.
Qed.

Lemma find_tree_None field x t :
  find_tree field x t = None ↔
  Forall (λ k, ¬ DeepEqual (field k) x) (nodes_under t).
Proof.
  unfold find_tree. rewrite fmap_None, head_None. split.
  - intros Hnil. apply Forall_forall. intros k Hk Hx.
    exact (filter_nil_not_elem_of (λ k, DeepEqual (field k) x : Prop) _ k Hnil Hx Hk).
  - induction 1 as [|k ks Hk _ IH]; [done|]. by rewrite filter_cons_False.
Qed.

(** ** Refinement *)

(** [FindByMeta] returns what [find_by_meta] finds in the tree under its
    receiver. *)
Lemma FindByMeta_find h fuel fa n t meta :
  wf_heap h → abs fa h n = Some t → length h ≤ fuel →
  FindByMeta fuel h n meta = Ok (find_by_meta meta t).
Proof.
  intros Hwf Habs Hfuel.
  pose proof Habs as (? & nd & _ & _ & Hn%lookup_lt_Some & _)%abs_Some.
  rewrite (FindByMeta_descendants _ _ _ _ Hwf Hn) by lia.
  by erewrite below_find_by_meta.
Qed.

Lemma first_of_kids h fa value cs ks :
  wf_heap h → Forall2 (λ c k, abs fa h c = Some k) cs ks →
  first_of (has_value h value)
    (λ c, head (filter (has_meta h value) (below h c))) cs =
  head (omap (λ k, if DeepEqual (tvalue k) value then Some (addr k)
                   else find_by_meta value k) ks).
Proof.
  intros Hwf. induction 1 as [|c k cs ks Hk _ IH]; [done|].
  destruct (abs_views _ _ _ _ Hk) as [Hv%(has_value_views _ value) _].
  rewrite first_of_cons, IH, (below_find_by_meta _ _ _ _ _ Hwf Hk).
  cbn [omap list_omap]. rewrite (abs_addr _ _ _ _ Hk) in *.
  case_decide as Hc; destruct (DeepEqual (tvalue k) value); simpl in *;
    [done|tauto|tauto|].
  by destruct (find_by_meta value k).
Qed.

(** [FindByValue] refines [find_by_value]: the children of the receiver
    are compared by their value, the nodes under them by their meta. *)
Theorem FindByValue_tree h fuel fa n t value :
  wf_heap h → abs fa h n = Some t → length h ≤ fuel →
  FindByValue fuel h n value = Ok (find_by_value value t).
Proof.
  intros Hwf (? & nd & ks & _ & Hn & Hks%mapM_Some & ->)%abs_Some Hfuel.
  rewrite (FindByValue_children _ _ _ _ _ Hwf Hn Hfuel). f_equal.
  by eapply first_of_kids.
Qed.

(** ** What a search by meta does not see *)

Lemma nodes_under_kids t : nodes_under t = kids t ≫= λ k, k :: nodes_under k.
Proof. destruct t. apply nodes_under_TNode. Qed.

Lemma find_by_meta_same meta (l l' : list (tree any)) :
  Forall2 same_meta l l' →
  addr <$> head (filter (λ k, DeepEqual (tmeta k) meta) l) =
    addr <$> head (filter (λ k, DeepEqual (tmeta k) meta) l').
Proof.
  induction 1 as [|k k' l l' [Ha Hm] _ IH]; [done|].
  rewrite !filter_cons, Hm. case_decide; simpl; [by rewrite Ha|done].
Qed.

Lemma at_addr_same n g : keeps_meta g → ∀ t,
  same_meta (at_addr n g t) t ∧
  Forall2 same_meta (nodes_under (at_addr n g t)) (nodes_under t).
Proof.
  intros Hg. induction t as [a b m v ks IH] using tree_ind'.
  assert (Forall2 same_meta
            (nodes_under (TNode a b m v (at_addr n g <$> ks)))
            (nodes_under (TNode a b m v ks))) as Hks.
  { rewrite !nodes_under_TNode.
    induction IH as [|k ks [Hk Hu] _ IHks]; [constructor|].
    rewrite fmap_cons, !bind_cons. constructor; [done|]. by apply Forall2_app. }
  cbn [at_addr]. case_decide; [|done].
  destruct (Hg (TNode a b m v (at_addr n g <$> ks))) as (Ha & Hm & Hk).
  split; [by split|]. by rewrite nodes_under_kids, Hk, <- nodes_under_kids.
Qed.

Lemma find_by_meta_at_addr meta n g t :
  keeps_meta g → find_by_meta meta (at_addr n g t) = find_by_meta meta t.
Proof. intros Hg. by apply find_by_meta_same, at_addr_same. Qed.

Lemma spec_keeps_metas cl c t meta :
  keeps_metas cl → find_by_meta meta (spec cl c t) = find_by_meta meta t.
Proof.
  destruct cl; try done; intros _; simpl; apply find_by_meta_at_addr;
    by intros [].
Qed.

(** C25: a call of [Branch], [SetValue] or [SetValuef] on a heap built
    by the public operations does not change what [FindByMeta] returns,
    on any node and for any meta. *)
Theorem FindByMeta_kept cl h ret h' p meta :
  reachable h → (∀ n, receiver cl = Some n → n < length h) →
  exec cl h = (Ok ret, h') → keeps_metas cl → p < length h →
  FindByMeta (length h') h' p meta = FindByMeta (length h) h p meta.
Proof.
  intros Hreach Hrecv Hexec Hcl Hp.
  pose proof (reachable_wf _ Hreach) as Hwf.
  assert (wf_heap h') as Hwf' by (eapply api_step_wf; [done|by exists cl, ret]).
  destruct (abs_total h (length h) p Hwf Hp) as [t Ht]; [lia|].
  destruct (exec_spec _ _ _ _ Hrecv Hexec) as (_ & _ & Habs).
  rewrite (FindByMeta_find _ _ _ _ _ meta Hwf' (Habs _ _ _ Ht) (le_n _)).
  rewrite (FindByMeta_find _ _ _ _ _ meta Hwf Ht (le_n _)).
  by rewrite spec_keeps_metas.
Qed.

(** A search after a program of calls is a search in the tree the
    specifications of the calls make of the tree before them. *)
Theorem FindByMeta_after_build cls h h' p t meta :
  reachable h → build cls h = Some h' → abs (length h) h p = Some t →
  FindByMeta (length h') h' p meta =
    Ok (find_by_meta meta (specs cls (length h) t)).
Proof.
  intros Hreach Hbuild Habs.
  eapply FindByMeta_find; [|by eapply build_specs|done].
  by eapply reachable_wf, build_reachable.
Qed.

End search_spec.

(** ** Witnesses *)

Lemma FindByValue_tree_witness :
  FindByValue 6 sample_heap 0 (VInt 1) = Ok (Some 4).
Proof.
  exact (FindByValue_tree sample_heap 6 6 0 _ (VInt 1) ltac:(by_compute)
           eq_refl (le_n _)).
Defined.

Lemma FindByMeta_kept_witness :
  FindByMeta 6 (<[4 := mkNode (Some 2) (VInt 1) (VString "y") []]> sample_heap)
    0 (VInt 1) = FindByMeta 6 sample_heap 0 (VInt 1).
Proof.
  exact (FindByMeta_kept (CSetValue 4 (VString "y")) sample_heap None _ 0 (VInt 1)
           sample_heap_reachable ltac:(intros n [= <-]; simpl; lia) eq_refl I
           ltac:(simpl; lia)).
Defined.

Lemma FindByMeta_after_build_witness :
  FindByMeta 6 sample_heap 0 (VInt 1) =
    Ok (find_by_meta (VInt 1)
          (specs (tail sample_calls) 1
             (TNode 0 false VNil (VString ".") []))).
Proof.
  exact (FindByMeta_after_build (tail sample_calls) [mkNode None VNil (VString ".") []]
           sample_heap 0 _ (VInt 1)
           (build_reachable (take 1 sample_calls) [] _ reachable_empty eq_refl)
           eq_refl eq_refl).
Defined.

(** The search by value of the sample tree, on the tree: the value [x] of
    the node 4 is not found, the meta [1] of that node is. *)
Example find_by_value_sample :
  ∃ t, abs 6 sample_heap 0 = Some t ∧
       find_by_value (VString "x") t = None ∧
       find_tree tvalue (VString "x") t = Some 4 ∧
       find_by_value (VInt 1) t = Some 4.
Proof. eexists. split; [reflexivity|]. by vm_compute. Qed.
