(* ===== verification/Render.v ===== *)
(** * The renderer

    [Writer] prints the line of the node it is called on and hands the
    children to [printNodes]; [printNodes] walks a list of siblings, picks
    the connector of each, prints its line with [printValues] and descends;
    [printValues] prints one column per level and then the connector and the
    text that [renderValue] returns; [renderValue] prefixes the continuation
    lines of a text of several lines with the string [padding] builds by
    walking to the root and asking [isLast] at each node.

    The package variables are the fields of [Config].  The heap is read,
    never written; the output goes to a sink. *)

From S2P Require Import Prelude GoStrings Payload Sink Heap Node.

(** ** Package variables *)

(** [EdgeTypeLink], [EdgeTypeMid], [EdgeTypeEnd] and [IndentSize]. *)
Record Config : Type := mkConfig {
  EdgeTypeLink : string;
  EdgeTypeMid : string;
  EdgeTypeEnd : string;
  IndentSize : Z;
}.

(** Their initial values. *)
Definition default_config : Config := mkConfig "│" "├─" "└─" 3.

(** ** Functions that read the tree *)

Section read.
Context `{Payload any}.
Variable cfg : Config.
Variable h : heap any.

(** [isEnded]: the level is one of [levelsEnded]. *)
Fixpoint isEnded (levelsEnded : list nat) (level : nat) : bool :=
  match levelsEnded with
  | [] => false
  | l :: levelsEnded' => if decide (l = level) then true else isEnded levelsEnded' level
  end.

(** [isLast]: the node is the last child of its parent. *)
Definition isLast (n : ptr) : res bool :=
  nd ← load h n;
  match Root nd with
  | None => Panic NilDereference
  | Some r => l ← FindLastNode h r; Ok (bool_decide (l = Some n))
  end.

(** The column of an ended level: [strings.Repeat(" ", IndentSize+1)]. *)
Definition blank_segment : res string :=
  Repeat " " (int_add (IndentSize cfg) 1).

(** The column of a level that goes on: the link and
    [strings.Repeat(" ", IndentSize)]. *)
Definition link_segment : res string :=
  s ← Repeat " " (IndentSize cfg); Ok (EdgeTypeLink cfg +:+ s).

(** The loop of [padding]: from [node] towards the root, one column per
    node that has a parent, written at [links[level]]. *)
Fixpoint padding_loop (fuel : nat) (links : list string) (level : Z) (node : ptr)
    : res (list string) :=
  match fuel with
  | 0 => OutOfFuel
  | S fuel' =>
      nd ← load h node;
      match Root nd with
      | None => Ok links
      | Some r =>
          b ← isLast node;
          seg ← (if (b : bool) then blank_segment else link_segment);
          links' ← set_index links level seg;
          padding_loop fuel' links' (level - 1) r
      end
  end.

(** [padding].  The loop stops by itself: after [level + 1] assignments
    the index is negative. *)
Definition padding (level : nat) (node : ptr) : res string :=
  links ← padding_loop (level + 2) (replicate (level + 1) "") (Z.of_nat level) node;
  Ok (Join links "").

(** The loop of [renderValue]: every line but the first gets the prefix. *)
Definition prefix_lines (pad : string) (lines : list string) : list string :=
  foldl (λ ls i, match ls !! i with
                 | Some x => <[i := pad +:+ x]> ls
                 | None => ls
                 end)
    lines (seq 1 (length lines - 1)).

(** [renderValue]: the value itself when its text is one line, and else
    the text with its continuation lines padded. *)
Definition renderValue (level : nat) (node : ptr) : res any :=
  nd ← load h node;
  let lines := Split (fmt_v (Value nd)) "010"%char in
  if decide (length lines < 2) then Ok (Value nd)
  else
    pad ← padding level node;
    Ok (any_string (Join (prefix_lines pad lines) nl)).

End read.

(** ** Functions that write *)

Section write.
Context `{Payload any} `{Sink W}.
Variable cfg : Config.
Variable h : heap any.

(** [printValues]: the line of one node. *)
Definition printValues (level : nat) (levelsEnded : list nat) (edge : string)
    (node : ptr) : M W () :=
  forM_ (seq 0 level) (λ i,
    if isEnded levelsEnded i then s ← lift (blank_segment cfg); Fprint s
    else s ← lift (link_segment cfg); Fprint s);;
  val ← lift (renderValue cfg h level node);
  nd ← lift (load h node);
  let meta := Meta nd in
  if decide (meta ≠ any_nil) then
    Fprint (edge +:+ " " +:+ fmt_meta_value meta val +:+ nl)
  else
    Fprint (edge +:+ " " +:+ fmt_v val +:+ nl).

(** The loop of [printNodes] from index [i] on, over the remaining
    [nodes] of a list of [total] siblings; [rec] is [printNodes] itself. *)
Fixpoint range_nodes (rec : nat → list nat → list ptr → M W ())
    (level total i : nat) (levelsEnded : list nat) (nodes : list ptr) : M W () :=
  match nodes with
  | [] => mret ()
  | node :: rest =>
      let last := bool_decide (i = total - 1) in
      let levelsEnded := if last then levelsEnded ++ [level] else levelsEnded in
      let edge := if last then EdgeTypeEnd cfg else EdgeTypeMid cfg in
      printValues level levelsEnded edge node;;
      nd ← lift (load h node);
      (if decide (0 < length (Nodes nd)) then rec (level + 1) levelsEnded (Nodes nd)
       else mret ());;
      range_nodes rec level total (S i) levelsEnded rest
  end.

(** [printNodes]. *)
Fixpoint printNodes (fuel : nat) (level : nat) (levelsEnded : list nat)
    (nodes : list ptr) : M W () :=
  match fuel with
  | 0 => lift OutOfFuel
  | S fuel' =>
      range_nodes (printNodes fuel') level (length nodes) 0 levelsEnded nodes
  end.

(** [Writer]. *)
Definition Writer (fuel : nat) (n : ptr) : M W () :=
  nd ← lift (load h n);
  let level := 0 in
  levelsEnded ←
    match Root nd with
    | None =>
        (if decide (Meta nd ≠ any_nil) then
           Fprint (fmt_meta_value (Meta nd) (Value nd))
         else Fprint (fmt_v (Value nd)));;
        Fprint nl;;
        mret []
    | Some _ =>
        let '(edge, levelsEnded) :=
          if decide (length (Nodes nd) = 0) then (EdgeTypeEnd cfg, [level])
          else (EdgeTypeMid cfg, []) in
        printValues level levelsEnded edge n;;
        mret levelsEnded
    end;
  if decide (0 < length (Nodes nd)) then printNodes fuel level levelsEnded (Nodes nd)
  else mret ().

End write.

(** ** Rendering to bytes and to a string *)

Section bytes.
Context `{Payload any}.
Variable cfg : Config.
Variable h : heap any.

(** [Bytes]: [Writer] on an empty [bytes.Buffer]. *)
Definition Bytes (fuel : nat) (n : ptr) : res string :=
  match Writer (W:=string) cfg h fuel n "" with
  | (Ok _, buf) => Ok buf
  | (Panic p, _) => Panic p
  | (OutOfFuel, _) => OutOfFuel
  end.

(** [String]: the bytes as a string. *)
Definition String_ (fuel : nat) (n : ptr) : res string := Bytes fuel n.

End bytes.
