(* ===== verification/RenderSlices.v ===== *)
(** * The renderer on Go slices

    [printNodes] hands its slice [levelsEnded] to the calls it makes and
    appends to it in its loop.  In [Render] the slice is a list, passed
    by value.  Here it is a Go slice ([Slices]): an [append] writes into
    the array the caller's slice shares when the array has room, so the
    array of a caller is written by the calls it makes.

    [Bytes_sl_Bytes] shows that this makes no difference: for every
    growth policy of [append] and every store, the renderer on slices
    writes what the renderer on lists writes, and fails when it fails.
    The invariant is that a call leaves the slice it was handed as it is
    ([Slice.modifies]): it writes the shared array past the length of that
    slice only, and the caller appends after the call has returned. *)

From S2P Require Import Prelude GoStrings Payload Sink Heap Node Invariant Render Slices.

Import Slice.

Section render_slices.
Context `{Payload any} `{Sink W}.
Variable cfg : Config.
Variable h : heap any.
Variable grow : nat → nat.

(** ** Definitions *)

(** A computation on the sink, and one on the store of arrays, in the
    state of the renderer. *)
Definition on_sink {B} (m : M W B) : M (store nat * W) B :=
  λ s, ((m s.2).1, (s.1, (m s.2).2)).

Definition on_store {B} (m : M (store nat) B) : M (store nat * W) B :=
  λ s, ((m s.1).1, ((m s.1).2, s.2)).

(** [printValues]: [isEnded] ranges over the elements of the slice. *)
Definition printValues_sl (level : nat) (levelsEnded : slice) (edge : string)
    (node : ptr) : M (store nat * W) () :=
  s ← get_state;
  on_sink (printValues cfg h level (elems s.1 levelsEnded) edge node).

(** The loop of [printNodes]. *)
Fixpoint range_nodes_sl (rec : nat → slice → list ptr → M (store nat * W) ())
    (level total i : nat) (levelsEnded : slice) (nodes : list ptr)
    : M (store nat * W) () :=
  match nodes with
  | [] => mret ()
  | node :: rest =>
      let last := bool_decide (i = total - 1) in
      levelsEnded ←
        (if last then on_store (append 0 grow levelsEnded level)
         else mret levelsEnded);
      let edge := if last then EdgeTypeEnd cfg else EdgeTypeMid cfg in
      printValues_sl level levelsEnded edge node;;
      nd ← lift (load h node);
      (if decide (0 < length (Nodes nd)) then rec (level + 1) levelsEnded (Nodes nd)
       else mret ());;
      range_nodes_sl rec level total (S i) levelsEnded rest
  end.

(** [printNodes]. *)
Fixpoint printNodes_sl (fuel : nat) (level : nat) (levelsEnded : slice)
    (nodes : list ptr) : M (store nat * W) () :=
  match fuel with
  | 0 => lift OutOfFuel
  | S fuel' =>
      range_nodes_sl (printNodes_sl fuel') level (length nodes) 0 levelsEnded nodes
  end.

(** [Writer]: [levelsEnded] starts as the nil slice. *)
Definition Writer_sl (fuel : nat) (n : ptr) : M (store nat * W) () :=
  nd ← lift (load h n);
  let level := 0 in
  levelsEnded ←
    match Root nd with
    | None =>
        on_sink (if decide (Meta nd ≠ any_nil) then
                   Fprint (fmt_meta_value (Meta nd) (Value nd))
                 else Fprint (fmt_v (Value nd)));;
        on_sink (Fprint nl);;
        mret nil_slice
    | Some _ =>
        if decide (length (Nodes nd) = 0) then
          levelsEnded ← on_store (append 0 grow nil_slice level);
          printValues_sl level levelsEnded (EdgeTypeEnd cfg) n;;
          mret levelsEnded
        else
          printValues_sl level nil_slice (EdgeTypeMid cfg) n;;
          mret nil_slice
    end;
  if decide (0 < length (Nodes nd)) then
    printNodes_sl fuel level levelsEnded (Nodes nd)
  else mret ().

(** A computation on slices does what a computation on lists does, when
    the slice [s] holds the list [l], and leaves [s] as it is. *)
Definition sim {B} (s : slice) (l : list nat) (m_sl : M (store nat * W) B)
    (m : M W B) : Prop :=
  ∀ σ w, valid σ s → elems σ s = l →
    ∃ σ', m_sl (σ, w) = ((m w).1, (σ', (m w).2)) ∧ modifies s σ σ'.

(** ** The monad *)

Lemma sim_ret {B} s l (b : B) : sim s l (mret b) (mret b).
Proof. intros σ w _ _. by exists σ. Qed.

Lemma sim_lift {B} s l (r : res B) : sim s l (lift r) (lift r).
Proof. intros σ w _ _. by exists σ. Qed.

Lemma sim_on_sink {B} s l (m : M W B) : sim s l (on_sink m) m.
Proof. intros σ w _ _. by exists σ. Qed.

Lemma sim_bind {B C} s l (m_sl : M (store nat * W) B) (m : M W B)
    (f_sl : B → M (store nat * W) C) (f : B → M W C) :
  sim s l m_sl m → (∀ b, sim s l (f_sl b) (f b)) → sim s l (m_sl ≫= f_sl) (m ≫= f).
Proof.
  intros Hm Hf σ w Hv Hl. destruct (Hm σ w Hv Hl) as (σ1 & Hrun & Hmod1).
  unfold mbind, M_bind. rewrite Hrun.
  destruct (m w) as [[b|p|] w1]; simpl; [|by exists σ1..].
  destruct (modifies_elems _ _ _ Hv Hmod1) as [Hel Hv1].
  destruct (Hf b σ1 w1 Hv1) as (σ2 & Hrun2 & Hmod2); [congruence|].
  exists σ2. split; [done|by etrans].
Qed.

Lemma sim_assoc_l {B B2 C} s l (m_sl : M (store nat * W) B)
    (f_sl : B → M (store nat * W) B2) (g_sl : B2 → M (store nat * W) C) (m : M W C) :
  sim s l (m_sl ≫= λ b, f_sl b ≫= g_sl) m → sim s l ((m_sl ≫= f_sl) ≫= g_sl) m.
Proof.
  intros Hs σ w Hv Hl. destruct (Hs σ w Hv Hl) as (σ' & Hrun & Hmod).
  exists σ'. by rewrite M_bind_assoc.
Qed.

Lemma sim_assoc {B B2 B2' C} s l (m_sl : M (store nat * W) B) (m : M W B)
    (f_sl : B → M (store nat * W) B2) (f : B → M W B2')
    (g_sl : B2 → M (store nat * W) C) (g : B2' → M W C) :
  sim s l (m_sl ≫= λ b, f_sl b ≫= g_sl) (m ≫= λ b, f b ≫= g) →
  sim s l ((m_sl ≫= f_sl) ≫= g_sl) ((m ≫= f) ≫= g).
Proof.
  intros Hs. apply sim_assoc_l. intros σ w Hv Hl.
  destruct (Hs σ w Hv Hl) as (σ' & Hrun & Hmod).
  exists σ'. by rewrite M_bind_assoc.
Qed.

Lemma sim_decide {B} s l (P : Prop) `{Decision P} (m_sl m_sl' : M (store nat * W) B)
    (m m' : M W B) :
  sim s l m_sl m → sim s l m_sl' m' →
  sim s l (if decide P then m_sl else m_sl') (if decide P then m else m').
Proof. by destruct (decide P). Qed.

(** An [append], and then a computation on the slice it returns. *)
Lemma sim_append {B} s l x (k_sl : slice → M (store nat * W) B) (k : M W B) :
  (∀ s', sim s' (l ++ [x]) (k_sl s') k) →
  sim s l (on_store (append 0 grow s x) ≫= k_sl) k.
Proof.
  intros Hk σ w Hv Hl.
  destruct (append_elems 0 grow σ s x Hv) as (s' & σ1 & Happ & _ & Hel & Hv').
  erewrite M_bind_Ok by (unfold on_store; simpl; by rewrite Happ).
  destruct (Hk s' σ1 w Hv') as (σ' & Hrun & Hmod); [by rewrite Hel, Hl|].
  exists σ'. split; [done|]. by eapply append_frame.
Qed.

(** ** The renderer *)

Lemma sim_printValues s l level edge node :
  sim s l (printValues_sl level s edge node) (printValues cfg h level l edge node).
Proof. intros σ w _ <-. by exists σ. Qed.

Lemma range_nodes_sim rec_sl rec :
  (∀ level nodes s l, sim s l (rec_sl level s nodes) (rec level l nodes)) →
  ∀ nodes level total i s l,
    sim s l (range_nodes_sl rec_sl level total i s nodes)
            (range_nodes cfg h rec level total i l nodes).
Proof.
  intros Hrec. induction nodes as [|node rest IH]; intros level total i s l;
    [apply sim_ret|].
  cbn [range_nodes_sl range_nodes].
  assert (∀ s l edge,
    sim s l
      (printValues_sl level s edge node;;
       nd ← lift (load h node);
       (if decide (0 < length (Nodes nd)) then rec_sl (level + 1) s (Nodes nd)
        else mret ());;
       range_nodes_sl rec_sl level total (S i) s rest)
      (printValues cfg h level l edge node;;
       nd ← lift (load h node);
       (if decide (0 < length (Nodes nd)) then rec (level + 1) l (Nodes nd)
        else mret ());;
       range_nodes cfg h rec level total (S i) l rest)) as Hbody.
  { intros. repeat first
      [ apply sim_bind | apply sim_printValues | apply sim_lift | apply sim_decide
      | apply Hrec | apply IH | apply sim_ret | intros ? ]. }
  destruct (bool_decide (i = total - 1)).
  - apply sim_append. intros s'. apply Hbody.
  - intros σ w. apply Hbody.
Qed.

Lemma printNodes_sim fuel : ∀ level nodes s l,
  sim s l (printNodes_sl fuel level s nodes) (printNodes cfg h fuel level l nodes).
Proof.
  induction fuel as [|fuel IH]; intros level nodes s l; [apply sim_lift|].
  cbn [printNodes_sl printNodes]. by apply range_nodes_sim.
Qed.

(** The part of [Writer] after the line of the receiver. *)
Lemma Writer_tail_sim fuel (nd : Node any) s l :
  sim s l
    (if decide (0 < length (Nodes nd)) then printNodes_sl fuel 0 s (Nodes nd)
     else mret ())
    (if decide (0 < length (Nodes nd)) then printNodes cfg h fuel 0 l (Nodes nd)
     else mret ()).
Proof. apply sim_decide; [apply printNodes_sim|apply sim_ret]. Qed.

Lemma Writer_sim fuel n :
  sim nil_slice [] (Writer_sl fuel n) (Writer cfg h fuel n).
Proof.
  unfold Writer_sl, Writer. apply sim_bind; [apply sim_lift|]. intros nd.
  destruct (Root nd) as [r|].
  - destruct (decide (length (Nodes nd) = 0)) as [Hleaf|Hleaf]; cbv beta iota.
    + apply sim_assoc_l, sim_append. intros s'.
      apply sim_assoc, sim_bind; [apply sim_printValues|]. intros _.
      apply Writer_tail_sim.
    + apply sim_assoc, sim_bind; [apply sim_printValues|]. intros _.
      apply Writer_tail_sim.
  - apply sim_assoc, sim_bind; [apply sim_on_sink|]. intros _.
    apply sim_assoc, sim_bind; [apply sim_on_sink|]. intros _.
    apply Writer_tail_sim.
Qed.

(** C6: With Go's slices for [levelsEnded], [Writer] leaves in the sink what
    it leaves there with lists, and returns or fails as it does with
    lists: for every growth policy of [append], every store of arrays it
    starts in, and every heap. *)
Theorem Writer_sl_Writer fuel n σ w :
  ∃ σ', Writer_sl fuel n (σ, w) =
          ((Writer cfg h fuel n w).1, (σ', (Writer cfg h fuel n w).2)).
Proof.
  destruct (Writer_sim fuel n σ w) as (σ' & Hrun & _); [unfold valid; simpl; lia|done|].
  by exists σ'.
Qed.

End render_slices.

Section bytes_slices.
Context `{Payload any}.
Variable cfg : Config.
Variable h : heap any.
Variable grow : nat → nat.

(** [Bytes]: [Writer] on an empty buffer, and no array yet. *)
Definition Bytes_sl (fuel : nat) (n : ptr) : res string :=
  match Writer_sl (W:=string) cfg h grow fuel n ([], "") with
  | (Ok _, (_, buf)) => Ok buf
  | (Panic p, _) => Panic p
  | (OutOfFuel, _) => OutOfFuel
  end.

(** With Go's slices for [levelsEnded], [Bytes] returns the bytes it
    returns with lists, and fails when it fails with lists: for every
    growth policy of [append] and every heap. *)
Theorem Bytes_sl_Bytes fuel n : Bytes_sl fuel n = Bytes cfg h fuel n.
Proof.
  unfold Bytes_sl, Bytes.
  destruct (Writer_sim cfg h grow fuel n [] "") as (σ' & -> & _);
    [unfold valid; simpl; lia|done|].
  by destruct (Writer cfg h fuel n "") as [[[]|p|] buf].
Qed.

End bytes_slices.

(** ** A tree on which arrays are shared *)

(** A root, three levels of only children, and under the third a node
    with a child and a leaf after it. *)
Definition deep_calls : list (call (any:=GoValue)) :=
  [CNew; CAddBranch 0 (VString "a"); CAddBranch 1 (VString "b");
   CAddBranch 2 (VString "c"); CAddBranch 3 (VString "d");
   CAddNode 4 (VString "e"); CAddNode 3 (VString "f")].

Definition deep_heap : heap GoValue := default [] (build deep_calls []).

(** The call of [printNodes] on the children of c holds the slice
    [0 1 2] in an array of four.  The call on the child of d appends the
    level 4 in place, and the loop appends the level 3 over it when it
    comes to f: the array ends as [0 1 2 3], and the lines of e and f are
    what they are with lists. *)
Example deep_shares :
  Writer_sl default_config deep_heap double_grow 7 0 ([], "") =
    (Ok (), ([[0]; [0; 1]; [0; 1; 2; 3]],
             "." +:+ nl +:+
             "└─ a" +:+ nl +:+
             "    └─ b" +:+ nl +:+
             "        └─ c" +:+ nl +:+
             "            ├─ d" +:+ nl +:+
             "            │   └─ e" +:+ nl +:+
             "            └─ f" +:+ nl)).
Proof. by vm_compute. Qed.
