(* ===== verification/RenderSpec.v ===== *)
(** * What the diagram of a tree is

    The specification of the renderer, on the abstract tree: [render t] is
    the text of the diagram of a tree whose root has no parent.  A node is
    drawn by [render_tree] under a [prefix] (the columns of its ancestors),
    with the connector of its position among its siblings, and its
    children under the prefix extended by one column: blank when the node
    is the last sibling, a link otherwise.  The continuation lines of a
    value of several lines start with [pad], the columns from the nearest
    detached ancestor down to the node itself. *)

From S2P Require Import Prelude GoStrings Payload Heap Node Render Tree.

Section spec.
Context `{Payload any}.
Variable cfg : Config.
Implicit Types (t k : tree any) (ks : list (tree any)) (prefix pad : string).

(** ** Definitions *)

(** The indent sizes for which no column panics: [IndentSize] is not
    negative and [IndentSize + 1] does not overflow. *)
Definition cfg_ok : Prop := (0 ≤ IndentSize cfg < int_max)%Z.

Definition spaces (n : Z) : string :=
  foldr String.app "" (replicate (Z.to_nat n) " ").

(** The column of a level whose node was the last sibling. *)
Definition blank : string := spaces (IndentSize cfg + 1).

(** The column of a level whose node has siblings below. *)
Definition link : string := EdgeTypeLink cfg +:+ spaces (IndentSize cfg).

Definition segment (last : bool) : string := if last then blank else link.

Definition connector (last : bool) : string :=
  if last then EdgeTypeEnd cfg else EdgeTypeMid cfg.

(** The columns printed before the connector at [level], given the levels
    that ended. *)
Definition columns (levelsEnded : list nat) (level : nat) : string :=
  foldr (λ i acc, segment (isEnded levelsEnded i) +:+ acc) "" (seq 0 level).

(** The lines of a text, every line but the first prefixed with [pad]. *)
Definition pad_tail pad (lines : list string) : list string :=
  match lines with
  | [] => []
  | x :: xs => x :: (String.app pad <$> xs)
  end.

(** The text of a value as it is drawn. *)
Definition text pad (value : any) : string :=
  Join (pad_tail pad (Split (fmt_v value) "010"%char)) nl.

(** The text after the connector: the bracketed meta, if any, and the
    value. *)
Definition label pad (meta value : any) : string :=
  if decide (meta ≠ any_nil) then "[" +:+ fmt_v meta +:+ "]  " +:+ text pad value
  else text pad value.

(** The line of a node. *)
Definition line prefix pad (last : bool) (meta value : any) : string :=
  prefix +:+ connector last +:+ " " +:+ label pad meta value +:+ nl.

(** The padding of the continuation lines of a node, from that of its
    parent. *)
Definition pad_of pad (att last : bool) : string :=
  if att then pad +:+ segment last else "".

(** The diagram of a node that is not the root, and of its descendants. *)
Fixpoint render_tree prefix pad (last : bool) t : string :=
  match t with
  | TNode _ att meta value ks =>
      line prefix (pad_of pad att last) last meta value +:+
      (fix forest ks : string :=
         match ks with
         | [] => ""
         | k :: ks' =>
             render_tree (prefix +:+ segment last) (pad_of pad att last)
               (bool_decide (ks' = [])) k +:+ forest ks'
         end) ks
  end.

(** The diagram of a list of siblings. *)
Fixpoint render_forest prefix pad ks : string :=
  match ks with
  | [] => ""
  | k :: ks' => render_tree prefix pad (bool_decide (ks' = [])) k +:+ render_forest prefix pad ks'
  end.

(** The line of the root: no connector, and the value as it is. *)
Definition root_line (meta value : any) : string :=
  (if decide (meta ≠ any_nil) then fmt_meta_value meta value else fmt_v value) +:+ nl.

(** The diagram of a tree. *)
Definition render t : string :=
  root_line (tmeta t) (tvalue t) +:+ render_forest "" "" (kids t).

(** The values of a tree, in pre-order. *)
Fixpoint values t : list any :=
  match t with
  | TNode _ _ _ v ks => v :: foldr (λ k acc, values k ++ acc) [] ks
  end.

(** Every value of the tree is a text of one line. *)
Definition one_line t : Prop :=
  Forall (λ v, ¬ contains "010"%char (fmt_v v)) (values t).

(** A value of several lines is met on a path from the root of the
    tree through nodes that have a parent: the walk of [padding] from it
    does not stop before the root of the tree. *)
Fixpoint exposed t : bool :=
  match t with
  | TNode _ att _ v ks =>
      att && (bool_decide (contains "010"%char (fmt_v v)) || existsb exposed ks)
  end.

(** ** Unfolding *)

Lemma one_line_TNode a b m v ks :
  one_line (TNode a b m v ks) ↔
    ¬ contains "010"%char (fmt_v v) ∧ Forall one_line ks.
Proof.
  unfold one_line. simpl. rewrite Forall_cons.
  enough (Forall (λ v, ¬ contains "010"%char (fmt_v v))
            (foldr (λ k acc, values k ++ acc) [] ks) ↔
          Forall (λ t, Forall (λ v, ¬ contains "010"%char (fmt_v v)) (values t)) ks)
    as -> by done.
  induction ks as [|k ks IH]; simpl; [by split; constructor|].
  by rewrite Forall_app, Forall_cons, IH.
Qed.

(** The text of a value of one line is that line. *)
Lemma text_one_line pad v : ¬ contains "010"%char (fmt_v v) → text pad v = fmt_v v.
Proof. intros Hv%Split_no_sep. unfold text. by rewrite Hv. Qed.

Lemma exposed_TNode a (att : bool) m v ks :
  exposed (TNode a att m v ks) ↔
    att ∧ (contains "010"%char (fmt_v v) ∨ Exists exposed ks).
Proof.
  simpl. by rewrite andb_True, orb_True, bool_decide_spec, existb_True.
Qed.

(** A tree without a value of several lines has none that is exposed. *)
Lemma one_line_not_exposed t : one_line t → ¬ exposed t.
Proof.
  induction t as [a att m v ks IH] using tree_ind'.
  rewrite one_line_TNode, exposed_TNode. intros [Hv Hks] [_ [?|Hex]]; [done|].
  apply Exists_exists in Hex as (k & Hk & Hex).
  rewrite Forall_forall in IH, Hks. by apply (IH k Hk (Hks k Hk)).
Qed.

Lemma render_tree_eq prefix pad last a att meta value ks :
  render_tree prefix pad last (TNode a att meta value ks) =
    line prefix (pad_of pad att last) last meta value +:+
    render_forest (prefix +:+ segment last) (pad_of pad att last) ks.
Proof.
  simpl. f_equal. induction ks as [|k ks IH]; [done|]. simpl. by rewrite IH.
Qed.

Lemma render_forest_cons prefix pad k ks :
  render_forest prefix pad (k :: ks) =
    render_tree prefix pad (bool_decide (ks = [])) k +:+ render_forest prefix pad ks.
Proof. reflexivity. Qed.

(** ** Columns *)

Lemma columns_S levelsEnded level :
  columns levelsEnded (S level) =
    columns levelsEnded level +:+ segment (isEnded levelsEnded level).
Proof.
  unfold columns. rewrite seq_S, foldr_app. simpl.
  generalize (segment (isEnded levelsEnded level)). intros s.
  induction (seq 0 level) as [|i l IH]; simpl.
  - by rewrite string_app_nil_r.
  - by rewrite IH, string_app_assoc.
Qed.

Lemma isEnded_elem_of levelsEnded level :
  isEnded levelsEnded level = bool_decide (level ∈ levelsEnded).
Proof.
  induction levelsEnded as [|l ls IH]; simpl; [done|].
  destruct (decide (l = level)) as [->|Hne].
  - symmetry. apply bool_decide_eq_true_2. by left.
  - rewrite IH. apply bool_decide_ext. rewrite elem_of_cons.
    split; [by right|intros [?|?]; [by subst|done]].
Qed.

Lemma isEnded_app levelsEnded1 levelsEnded2 level :
  isEnded (levelsEnded1 ++ levelsEnded2) level =
    isEnded levelsEnded1 level || isEnded levelsEnded2 level.
Proof.
  induction levelsEnded1 as [|l ls IH]; simpl; [done|]. by case_decide.
Qed.

(** Ending a level does not change the columns before it. *)
Lemma columns_snoc levelsEnded level l :
  level ≤ l → columns (levelsEnded ++ [l]) level = columns levelsEnded level.
Proof.
  induction level as [|level IH]; intros Hl; [done|].
  rewrite !columns_S, IH by lia. rewrite isEnded_app. simpl.
  rewrite decide_False by lia. by rewrite orb_false_r.
Qed.

(** The columns of the children of a node at [level]: those of the node
    and one more, blank when the node is the last sibling. *)
Lemma columns_child levelsEnded level (last : bool) :
  Forall (λ l, l < level) levelsEnded →
  columns (if last then levelsEnded ++ [level] else levelsEnded) (S level) =
    columns levelsEnded level +:+ segment last.
Proof.
  intros Hlt. rewrite columns_S. destruct last.
  - rewrite columns_snoc by done. rewrite isEnded_app. simpl.
    rewrite decide_True by done. by rewrite orb_true_r.
  - rewrite isEnded_elem_of, bool_decide_eq_false_2; [done|].
    rewrite Forall_forall in Hlt. intros Hin%Hlt. lia.
Qed.

End spec.

Lemma default_config_ok : cfg_ok default_config.
Proof. unfold cfg_ok, int_max. simpl. lia. Qed.
