(* ===== verification/RenderProps.v ===== *)
(** * The functions of the renderer, one by one

    What each function of [Render] computes, stated with the definitions of
    [RenderSpec]: the columns [printValues] writes, the answer of [isLast]
    on a well-formed heap, the loop of [renderValue], the string [padding]
    builds, the line [printValues] writes; and that the loop of [padding]
    always ends. *)

From S2P Require Import Prelude GoStrings Payload Sink Heap Node Invariant.
From S2P Require Import Render Tree RenderSpec.

Section props.
Context `{Payload any}.
Variable cfg : Config.
Variable h : heap any.
Implicit Types (p c n : ptr) (nd cd pd : Node any) (buf pad : string)
  (level : nat) (levelsEnded : list nat) (segs links : list string).

(** ** Definitions *)

(** What [padding] finds above the node at [p], a node of level
    [level - 1]: its loop, entered at [p] with index [level - 1], fills the
    first [level] entries of [links] with [segs] and leaves the others. *)
Definition pad_inv p level segs : Prop :=
  length segs = level ∧
  ∀ fuel rest, level < fuel →
    padding_loop cfg h fuel (replicate level "" ++ rest) (Z.of_nat level - 1) p
      = Ok (segs ++ rest).

(** [pad] stands for the padding of the node at [c], of level [level]:
    [padding] returns it, or is not called, the value being one line. *)
Definition pads level c cd pad : Prop :=
  padding cfg h level c = Ok pad ∨ ¬ contains "010"%char (fmt_v (Value cd)).

(** ** Columns *)

Section columns.
Hypothesis Hcfg : cfg_ok cfg.

Lemma blank_segment_Ok : blank_segment cfg = Ok (blank cfg).
Proof.
  unfold blank_segment, blank, spaces. unfold cfg_ok, int_max in Hcfg.
  rewrite int_add_small by (unfold int_min, int_max; lia).
  by rewrite Repeat_nonneg by lia.
Qed.

Lemma link_segment_Ok : link_segment cfg = Ok (link cfg).
Proof.
  unfold link_segment, link, spaces. unfold cfg_ok in Hcfg.
  by rewrite Repeat_nonneg by lia.
Qed.

Lemma segment_Ok (last : bool) :
  (if last then blank_segment cfg else link_segment cfg) = Ok (segment cfg last).
Proof. destruct last; [apply blank_segment_Ok|apply link_segment_Ok]. Qed.

(** The loop of [printValues] writes the columns. *)
Lemma print_columns levelsEnded level buf :
  forM_ (seq 0 level) (λ i,
    if isEnded levelsEnded i then s ← lift (blank_segment cfg); Fprint s
    else s ← lift (link_segment cfg); Fprint s) buf
  = (Ok (), buf +:+ columns cfg levelsEnded level).
Proof.
  unfold columns. generalize (seq 0 level). intros l. revert buf.
  induction l as [|i l IH]; intros buf; simpl.
  - by rewrite string_app_nil_r.
  - erewrite M_bind_Ok; [rewrite IH; by rewrite string_app_assoc|].
    destruct (isEnded levelsEnded i); simpl;
      [rewrite blank_segment_Ok|rewrite link_segment_Ok]; reflexivity.
Qed.

End columns.

(** ** [isLast] *)

(** On a well-formed heap [isLast] answers by position: the child at index
    [i] is the last when [i] is the last index. *)
Lemma isLast_index p pd c cd i :
  wf_heap h → h !! p = Some pd → Nodes pd !! i = Some c →
  h !! c = Some cd → Root cd = Some p →
  isLast h c = Ok (bool_decide (i = length (Nodes pd) - 1)).
Proof.
  intros Hwf Hp Hi Hc Hroot. unfold isLast.
  rewrite (load_Some _ _ _ Hc). simpl. rewrite Hroot.
  rewrite (FindLastNode_last _ _ _ Hp). simpl. f_equal.
  apply bool_decide_ext. rewrite last_lookup, Nat.sub_1_r. split.
  - intros Hl.
    apply (NoDup_lookup (Nodes pd) _ _ c); [by apply (wf_heap_NoDup h p)|done..].
  - by intros <-.
Qed.

(** ** The loop of [renderValue] *)

Lemma prefix_lines_from pad (lines : list string) k n :
  k + n = length lines →
  foldl (λ ls i, match ls !! i with
                 | Some x => <[i := pad +:+ x]> ls
                 | None => ls
                 end) lines (seq k n)
  = take k lines ++ (String.app pad <$> drop k lines).
Proof.
  revert k lines. induction n as [|n IH]; intros k lines Hlen; simpl.
  - rewrite drop_ge, take_ge by lia. by rewrite app_nil_r.
  - destruct (lookup_lt_is_Some_2 lines k) as [x Hx]; [lia|]. rewrite Hx.
    rewrite IH by (rewrite length_insert; lia).
    rewrite (take_S_r _ _ (pad +:+ x))
      by (rewrite list_lookup_insert_eq; [done|lia]).
    rewrite take_insert_ge, drop_insert_lt by lia.
    rewrite (drop_S lines x k) by done. by rewrite <- app_assoc.
Qed.

(** The loop prefixes every line but the first. *)
Lemma prefix_lines_pad_tail pad (lines : list string) :
  prefix_lines pad lines = pad_tail pad lines.
Proof.
  destruct lines as [|x xs]; [done|].
  unfold prefix_lines. rewrite prefix_lines_from by (simpl; lia).
  simpl. by rewrite drop_0.
Qed.

(** ** [renderValue] *)

(** A value of one line is returned as it is, whatever [padding] does. *)
Lemma renderValue_one_line level c cd :
  h !! c = Some cd → ¬ contains "010"%char (fmt_v (Value cd)) →
  renderValue cfg h level c = Ok (Value cd).
Proof.
  intros Hc Hnl%Split_length_lt_2. unfold renderValue.
  rewrite (load_Some _ _ _ Hc). simpl. by rewrite decide_True.
Qed.

Lemma renderValue_text level c cd pad :
  h !! c = Some cd → pads level c cd pad →
  fmt_v <$> renderValue cfg h level c = Ok (text pad (Value cd)).
Proof.
  intros Hc [Hpad|Hone].
  - unfold renderValue, text.
    rewrite (load_Some _ _ _ Hc). simpl. case_decide as Hlen.
    + simpl. apply Split_length_lt_2, Split_no_sep in Hlen. by rewrite Hlen.
    + rewrite Hpad. simpl. by rewrite fmt_v_string, prefix_lines_pad_tail.
  - by rewrite (renderValue_one_line _ _ _ Hc Hone), text_one_line.
Qed.

(** ** The loop of [padding] ends *)

Lemma FindLastNode_not_OutOfFuel n : FindLastNode h n ≠ OutOfFuel.
Proof.
  unfold FindLastNode. destruct (load_cases h n) as [(nd & _ & ->)|[_ ->]]; [|done].
  simpl. case_decide; [done|]. unfold index. by destruct (_ !! _).
Qed.

Lemma isLast_not_OutOfFuel n : isLast h n ≠ OutOfFuel.
Proof.
  unfold isLast. destruct (load_cases h n) as [(nd & _ & ->)|[_ ->]]; [|done].
  simpl. destruct (Root nd) as [r|]; [|done].
  pose proof (FindLastNode_not_OutOfFuel r). by destruct (FindLastNode h r).
Qed.

Lemma Repeat_not_OutOfFuel s count : Repeat s count ≠ OutOfFuel.
Proof. unfold Repeat. by case_decide. Qed.

Lemma segment_not_OutOfFuel (b : bool) :
  (if b then blank_segment cfg else link_segment cfg) ≠ OutOfFuel.
Proof.
  destruct b; unfold blank_segment, link_segment;
    [apply Repeat_not_OutOfFuel|].
  pose proof (Repeat_not_OutOfFuel " " (IndentSize cfg)). by destruct (Repeat _ _).
Qed.

Lemma padding_loop_ends fuel links (level : Z) n :
  (-1 ≤ level < Z.of_nat fuel - 1)%Z →
  padding_loop cfg h fuel links level n ≠ OutOfFuel.
Proof.
  revert links level n. induction fuel as [|fuel IH]; intros links level n Hl; [lia|].
  simpl. destruct (load_cases h n) as [(nd & _ & ->)|[_ ->]]; [|done].
  simpl. destruct (Root nd) as [r|]; [|done].
  pose proof (isLast_not_OutOfFuel n). destruct (isLast h n) as [b| |]; [|done..].
  simpl. pose proof (segment_not_OutOfFuel b).
  destruct (if b then _ else _) as [seg| |]; [|done..].
  simpl. unfold set_index. case_decide; [|done]. simpl. apply IH. lia.
Qed.

(** C35: [padding] needs no fuel from outside: its loop stops after at most
    [level + 2] rounds on any heap, even one with a cycle of parent
    pointers, because the index it assigns to runs below zero. *)
Theorem padding_terminates level n : padding cfg h level n ≠ OutOfFuel.
Proof.
  unfold padding.
  pose proof (padding_loop_ends (level + 2) (replicate (level + 1) "")
                (Z.of_nat level) n ltac:(lia)).
  by destruct (padding_loop _ _ _ _ _ _).
Qed.

(** ** What [padding] builds *)

Lemma pad_inv_detached c cd level :
  h !! c = Some cd → Root cd = None → pad_inv c level (replicate level "").
Proof.
  intros Hc Hroot. split; [by rewrite length_replicate|].
  intros [|fuel] rest Hfuel; [lia|]. simpl.
  rewrite (load_Some _ _ _ Hc). simpl. by rewrite Hroot.
Qed.

Lemma padding_pad_inv c level segs :
  pad_inv c (S level) segs → padding cfg h level c = Ok (Join segs "").
Proof.
  intros [_ Hloop]. unfold padding.
  specialize (Hloop (level + 2) [] ltac:(lia)).
  rewrite !app_nil_r in Hloop.
  replace (Z.of_nat (S level) - 1)%Z with (Z.of_nat level) in Hloop by lia.
  by rewrite Nat.add_1_r, Hloop.
Qed.

Lemma Join_snoc_empty segs (s : string) : Join (segs ++ [s]) "" = Join segs "" +:+ s.
Proof.
  rewrite !Join_empty_sep, foldr_app. simpl. rewrite string_app_nil_r.
  induction segs as [|x segs IH]; simpl; [done|]. by rewrite IH, string_app_assoc.
Qed.

Lemma Join_replicate_empty n : Join (replicate n "") "" = "".
Proof. rewrite Join_empty_sep. by induction n. Qed.

Section padding.
Hypothesis Hcfg : cfg_ok cfg.
Hypothesis Hwf : wf_heap h.

Lemma pad_inv_attached p pd c cd i level segs :
  h !! p = Some pd → Nodes pd !! i = Some c →
  h !! c = Some cd → Root cd = Some p →
  pad_inv p level segs →
  pad_inv c (S level)
    (segs ++ [segment cfg (bool_decide (i = length (Nodes pd) - 1))]).
Proof.
  intros Hp Hi Hc Hroot [Hlen Hloop]. split; [rewrite length_app; simpl; lia|].
  intros [|fuel] rest Hfuel; [lia|].
  replace (Z.of_nat (S level) - 1)%Z with (Z.of_nat level) by lia.
  rewrite replicate_S_end, <- app_assoc. simpl.
  rewrite (load_Some _ _ _ Hc). simpl. rewrite Hroot.
  rewrite (isLast_index _ _ _ _ _ Hwf Hp Hi Hc Hroot). simpl.
  rewrite (segment_Ok Hcfg). simpl.
  rewrite set_index_Ok
    by (rewrite length_app, length_replicate; simpl; lia).
  simpl. rewrite Nat2Z.id.
  rewrite <- (length_replicate level "") at 1. rewrite insert_middle.
  rewrite (Hloop fuel) by lia. by rewrite <- app_assoc.
Qed.

(** The padding of a child, from what [padding] finds above its parent. *)
Definition segs_of segs level (att last : bool) : list string :=
  if att then segs ++ [segment cfg last] else replicate (S level) "".

Lemma pad_inv_child p pd c cd i level segs :
  h !! p = Some pd → Nodes pd !! i = Some c → h !! c = Some cd →
  pad_inv p level segs →
  pad_inv c (S level)
    (segs_of segs level (bool_decide (is_Some (Root cd)))
       (bool_decide (i = length (Nodes pd) - 1))).
Proof.
  intros Hp Hi Hc Hinv.
  destruct (wf_heap_child h p pd c Hwf Hp) as (_ & cd' & Hc' & Hroot);
    [by eapply list_elem_of_lookup_2|].
  simplify_eq. unfold segs_of. destruct Hroot as [Hroot|Hroot]; rewrite Hroot.
  - rewrite bool_decide_eq_true_2 by done. by eapply pad_inv_attached.
  - rewrite bool_decide_eq_false_2 by (by intros [? ?]).
    by eapply pad_inv_detached.
Qed.

Lemma Join_segs_of segs level att last :
  Join (segs_of segs level att last) "" = pad_of cfg (Join segs "") att last.
Proof.
  unfold segs_of, pad_of. destruct att.
  - apply Join_snoc_empty.
  - apply Join_replicate_empty.
Qed.

(** ** The line [printValues] writes *)

Lemma printValues_line level levelsEnded edge c cd pad buf :
  h !! c = Some cd → pads level c cd pad →
  printValues cfg h level levelsEnded edge c buf =
    (Ok (), buf +:+ columns cfg levelsEnded level +:+
              (edge +:+ " " +:+ label pad (Meta cd) (Value cd) +:+ nl)).
Proof.
  intros Hc Hpad. unfold printValues.
  erewrite M_bind_Ok by (by apply print_columns).
  pose proof (renderValue_text _ _ _ _ Hc Hpad) as Hval.
  destruct (renderValue cfg h level c) as [val| |]; [|done..].
  injection Hval as Hval. rewrite (load_Some _ _ _ Hc), !M_bind_lift_Ok.
  unfold label, Fprint, fmt_meta_value, Write, Buffer_sink.
  rewrite (string_app_assoc buf). by case_decide; rewrite Hval.
Qed.

End padding.

End props.
