(* ===== verification/Refinement.v ===== *)
(** * The renderer draws the diagram of the tree

    On a well-formed heap, with an indent size that is not negative,
    [Bytes] called on a node without parent returns [render t], where [t]
    is the tree below the node; [length h] units of fuel are enough.
    Called on a node that has a parent it returns the line of the node and
    the diagram of its children, both at level 0, provided that every
    value is a text of one line.

    The proof follows [printNodes]: the loop over a list of siblings
    ([range_nodes]) is related to [render_forest], given that the calls one
    level down are; the fuel is then consumed level by level. *)

From S2P Require Import Prelude GoStrings Payload Sink Heap Node Invariant.
From S2P Require Import Render Tree TreeOps RenderSpec RenderProps.

Section refinement.
Context `{Payload any}.
Variable cfg : Config.
Variable h : heap any.
Hypothesis Hcfg : cfg_ok cfg.
Hypothesis Hwf : wf_heap h.
Implicit Types (p c n : ptr) (nd cd pd : Node any) (buf : string)
  (level : nat) (levelsEnded : list nat) (segs : list string)
  (ks : list (tree any)).

(** ** Definitions *)

(** What is known of the padding when the children of the node at [p]
    are drawn: the walk of [padding] above [p] yields [segs], or no value
    of several lines is reached from the trees [ks] to draw through nodes
    that have a parent, so that the walk never comes to [p]. *)
Definition pad_ok p level segs ks : Prop :=
  pad_inv cfg h p level segs ∨ Forall (λ k, ¬ exposed k) ks.

(** [rec] draws every non-empty list of children whose trees have at most
    [bound] levels. *)
Definition draws (rec : nat → list nat → list ptr → M string ()) (bound : nat)
    : Prop :=
  ∀ fa level levelsEnded p pd segs ks buf,
    h !! p = Some pd → Nodes pd ≠ [] →
    pad_ok p level segs ks → Forall (λ l, l < level) levelsEnded →
    mapM (abs fa h) (Nodes pd) = Some ks → forest_height ks ≤ bound →
    rec level levelsEnded (Nodes pd) buf =
      (Ok (), buf +:+ render_forest cfg (columns cfg levelsEnded level)
                        (Join segs "") ks).

(** ** Lists *)

Lemma nonempty_length {A} (l : list A) : 0 < length l → l ≠ [].
Proof. destruct l; simpl; [lia|done]. Qed.

Lemma drop_cons_inv {A} (l : list A) i (x : A) rest :
  drop i l = x :: rest → l !! i = Some x ∧ rest = drop (S i) l.
Proof.
  intros Hdrop.
  assert (l !! i = Some x) as Hi
    by (by rewrite <- (Nat.add_0_r i), <- lookup_drop, Hdrop).
  split; [done|]. rewrite (drop_S _ _ _ Hi) in Hdrop. by simplify_eq.
Qed.

(** The node at index [i] is the last one when nothing follows it. *)
Lemma last_sibling {A B} (f : A → option B) (l : list A) i (x : A) (ys : list B) :
  l !! i = Some x → mapM f (drop (S i) l) = Some ys →
  bool_decide (ys = []) = bool_decide (i = length l - 1).
Proof.
  intros Hi Hys%length_mapM. apply bool_decide_ext.
  pose proof (lookup_lt_Some _ _ _ Hi). rewrite length_drop in Hys.
  destruct ys; simpl in Hys; split; (done || lia).
Qed.

(** ** The padding, from a node to its children *)

(** The padding of a node: known from the walk above its parent, or
    not needed, or empty because the node has no parent. *)
Definition pad_known p level segs (b : bool) (P : Prop) : Prop :=
  pad_inv cfg h p level segs ∨ P ∨ b = false.

Lemma pad_ok_cons p level segs a b m v kks ks :
  pad_ok p level segs (TNode a b m v kks :: ks) →
  pad_known p level segs b (¬ contains "010"%char (fmt_v v)) ∧
  pad_known p level segs b (Forall (λ k, ¬ exposed k) kks) ∧
  pad_ok p level segs ks.
Proof.
  intros [Hinv|[Hk Hks]%Forall_cons]; [by split_and!; left|].
  rewrite exposed_TNode in Hk. unfold pad_known.
  rewrite Forall_Exists_neg. split_and!; [..|by right];
    (destruct b; [right; left; intros ?; apply Hk; split; (done || tauto)|tauto]).
Qed.

(** The walk of [padding] from a child: from what it finds above the
    parent, or stopped at the child. *)
Lemma pad_inv_child_known p pd c cd i level segs (P : Prop) :
  h !! p = Some pd → Nodes pd !! i = Some c → h !! c = Some cd →
  pad_known p level segs (bool_decide (is_Some (Root cd))) P →
  pad_inv cfg h c (S level)
    (segs_of cfg segs level (bool_decide (is_Some (Root cd)))
       (bool_decide (i = length (Nodes pd) - 1))) ∨ P.
Proof.
  intros Hp Hi Hc [Hinv|[HP|Hdet]]; [left; by eapply pad_inv_child|by right|left].
  apply bool_decide_eq_false in Hdet. rewrite bool_decide_eq_false_2 by done.
  apply (pad_inv_detached cfg h c cd); [done|].
  destruct (Root cd); [by destruct Hdet|done].
Qed.

Lemma pad_ok_child p pd c cd i level segs kks :
  h !! p = Some pd → Nodes pd !! i = Some c → h !! c = Some cd →
  pad_known p level segs (bool_decide (is_Some (Root cd)))
    (Forall (λ k, ¬ exposed k) kks) →
  pad_ok c (S level)
    (segs_of cfg segs level (bool_decide (is_Some (Root cd)))
       (bool_decide (i = length (Nodes pd) - 1))) kks.
Proof. apply pad_inv_child_known. Qed.

(** ** One node of the loop *)

(** The line of the child at index [i]. *)
Lemma print_child level levelsEnded p pd segs c cd i buf :
  h !! p = Some pd → Nodes pd !! i = Some c → h !! c = Some cd →
  pad_known p level segs (bool_decide (is_Some (Root cd)))
    (¬ contains "010"%char (fmt_v (Value cd))) →
  let last := bool_decide (i = length (Nodes pd) - 1) in
  let att := bool_decide (is_Some (Root cd)) in
  printValues cfg h level
    (if last then levelsEnded ++ [level] else levelsEnded)
    (if last then EdgeTypeEnd cfg else EdgeTypeMid cfg) c buf =
  (Ok (), buf +:+ line cfg (columns cfg levelsEnded level)
                    (pad_of cfg (Join segs "") att last) last (Meta cd) (Value cd)).
Proof.
  intros Hp Hi Hc Hpad last att.
  rewrite (printValues_line cfg h Hcfg _ _ _ _ _
             (pad_of cfg (Join segs "") att last) _ Hc).
  - unfold line. do 3 f_equal. destruct last; [|done]. by rewrite columns_snoc.
  - destruct (pad_inv_child_known _ _ _ _ _ _ _ _ Hp Hi Hc Hpad) as [Hinv|Hone];
      [left|by right].
    rewrite <- (Join_segs_of cfg segs level). by apply padding_pad_inv.
Qed.

(** The children of the child at index [i], drawn by the call one level
    down. *)
Lemma print_kids rec bound fa level levelsEnded p pd segs c cd i kks buf :
  draws rec bound →
  h !! p = Some pd → Nodes pd !! i = Some c → h !! c = Some cd →
  pad_known p level segs (bool_decide (is_Some (Root cd)))
    (Forall (λ k, ¬ exposed k) kks) →
  Forall (λ l, l < level) levelsEnded →
  mapM (abs fa h) (Nodes cd) = Some kks → forest_height kks ≤ bound →
  let last := bool_decide (i = length (Nodes pd) - 1) in
  (if decide (0 < length (Nodes cd))
   then rec (level + 1) (if last then levelsEnded ++ [level] else levelsEnded)
          (Nodes cd)
   else mret ()) buf =
  (Ok (), buf +:+
          render_forest cfg (columns cfg levelsEnded level +:+ segment cfg last)
            (pad_of cfg (Join segs "") (bool_decide (is_Some (Root cd))) last) kks).
Proof.
  intros Hrec Hp Hi Hc Hpad Hle Hkks Hheight last.
  pose proof (pad_ok_child _ _ _ _ _ _ _ _ Hp Hi Hc Hpad) as Hpad'.
  destruct (decide (0 < length (Nodes cd))) as [Hlen|Hlen].
  - rewrite Nat.add_1_r, <- (columns_child cfg levelsEnded level last Hle).
    rewrite <- (Join_segs_of cfg segs level).
    apply (Hrec fa _ _ c cd); [done|by apply nonempty_length|done| |done..].
    destruct last; [apply Forall_app; split; [|by repeat constructor]|];
      (eapply Forall_impl; [done|simpl; lia]).
  - destruct (Nodes cd); [|simpl in Hlen; lia].
    apply length_mapM in Hkks. destruct kks; [|done].
    simpl. by rewrite string_app_nil_r.
Qed.

(** ** The loop over the siblings *)

Lemma range_nodes_forest rec bound :
  draws rec bound →
  ∀ ks fa level levelsEnded p pd segs i buf,
    h !! p = Some pd → pad_ok p level segs ks →
    Forall (λ l, l < level) levelsEnded →
    mapM (abs fa h) (drop i (Nodes pd)) = Some ks →
    forest_height ks ≤ S bound →
    range_nodes cfg h rec level (length (Nodes pd)) i levelsEnded
      (drop i (Nodes pd)) buf =
    (Ok (), buf +:+ render_forest cfg (columns cfg levelsEnded level)
                      (Join segs "") ks).
Proof.
  intros Hrec. induction ks as [|k ks IH];
    intros fa level levelsEnded p pd segs i buf Hp Hpad Hle Hks Hheight.
  { apply length_mapM in Hks. apply nil_length_inv in Hks. rewrite Hks.
    simpl. by rewrite string_app_nil_r. }
  destruct (drop i (Nodes pd)) as [|c rest] eqn:Hdrop;
    [by apply length_mapM in Hks|].
  apply drop_cons_inv in Hdrop as [Hi ->].
  apply mapM_Some in Hks. apply Forall2_cons in Hks as [Hk Hks].
  apply mapM_Some in Hks.
  apply abs_Some in Hk as (fa' & cd & kks & -> & Hc & Hkks & ->).
  unfold node_of in *.
  apply pad_ok_cons in Hpad as (Hpadv & Hpadk & Hpad).
  rewrite forest_height_cons, height_TNode in Hheight.
  rewrite render_forest_cons, render_tree_eq, (last_sibling _ _ _ _ _ Hi Hks).
  cbn [range_nodes].
  erewrite M_bind_Ok by (by eapply print_child).
  rewrite (load_Some _ _ _ Hc), M_bind_lift_Ok.
  erewrite M_bind_Ok
    by (eapply (print_kids rec bound fa' _ _ p pd segs c cd i kks); [done..|lia]).
  pose proof (lookup_lt_Some _ _ _ Hi) as Hlt. clear Hpadv Hpadk.
  case_bool_decide as Hlast.
  - rewrite drop_ge in Hks |- * by lia.
    apply length_mapM in Hks. destruct ks; [|done].
    simpl. by rewrite string_app_nil_r, !string_app_assoc.
  - rewrite (IH (S fa') level levelsEnded p pd segs (S i)); [|done..|lia].
    by rewrite !string_app_assoc.
Qed.

(** ** [printNodes] *)

Lemma printNodes_draws fuel : draws (printNodes cfg h fuel) fuel.
Proof.
  induction fuel as [|fuel IH];
    intros fa level levelsEnded p pd segs ks buf Hp Hne Hpad Hle Hks Hheight.
  - destruct ks as [|k ks].
    + apply length_mapM in Hks. by apply nil_length_inv in Hks.
    + rewrite forest_height_cons in Hheight. pose proof (height_pos k). lia.
  - cbn [printNodes]. rewrite <- (drop_0 (Nodes pd)) at 2.
    eapply range_nodes_forest; [done..|by rewrite drop_0|lia].
Qed.

(** The children of the node [Writer] is called on, if it has any. *)
Lemma Writer_kids fuel fa n nd ks levelsEnded buf :
  h !! n = Some nd → mapM (abs fa h) (Nodes nd) = Some ks →
  pad_ok n 0 [] ks → forest_height ks ≤ fuel →
  (0 < length (Nodes nd) → levelsEnded = []) →
  (if decide (0 < length (Nodes nd))
   then printNodes cfg h fuel 0 levelsEnded (Nodes nd) else mret ()) buf =
  (Ok (), buf +:+ render_forest cfg "" "" ks).
Proof.
  intros Hn Hks Hpad Hheight Hle. case_decide as Hlen.
  - rewrite (Hle Hlen).
    by apply (printNodes_draws fuel fa 0 [] n nd [] ks buf Hn);
      [apply nonempty_length|..].
  - destruct (Nodes nd); [|simpl in Hlen; lia].
    apply length_mapM in Hks. destruct ks; [|done].
    simpl. by rewrite string_app_nil_r.
Qed.

(** ** [Writer] and [Bytes] *)

Lemma Writer_render fuel fa n nd t buf :
  h !! n = Some nd → Root nd = None → abs fa h n = Some t →
  length h ≤ fuel →
  Writer cfg h fuel n buf = (Ok (), buf +:+ render cfg t).
Proof.
  intros Hn Hroot Habs Hfuel.
  pose proof (abs_height _ _ _ _ Hwf Habs) as Hheight.
  apply abs_Some in Habs as (fa' & nd' & ks & -> & Hn' & Hks & ->).
  unfold node_of in *.
  simplify_eq. rewrite height_TNode in Hheight.
  unfold Writer, render, root_line. simpl.
  rewrite (load_Some _ _ _ Hn), M_bind_lift_Ok, Hroot.
  assert (pad_ok n 0 [] ks) as Hpad by (left; by eapply pad_inv_detached).
  destruct (decide (Meta nd ≠ any_nil));
    (erewrite M_bind_Ok by reflexivity);
    (erewrite (Writer_kids fuel fa') by (done || lia));
    unfold Write, Buffer_sink; by rewrite !string_app_assoc.
Qed.

(** C2: on a well-formed heap and with [0 ≤ IndentSize < MaxInt],
    [Bytes] on a node without parent returns the diagram of the tree below
    it, when given at least [length h] units of fuel. *)
Theorem Bytes_render fuel fa n nd t :
  h !! n = Some nd → Root nd = None → abs fa h n = Some t →
  length h ≤ fuel →
  Bytes cfg h fuel n = Ok (render cfg t).
Proof.
  intros Hn Hroot Habs Hfuel. unfold Bytes.
  by rewrite (Writer_render fuel fa n nd t "" Hn Hroot Habs Hfuel).
Qed.

(** [Bytes] on a node that has a parent, when every value under it
    is a text of one line: the line of the node with the connector of a
    node without or with children, and the diagram of its children at the
    same level. *)
Theorem Bytes_attached fuel fa n nd r t :
  h !! n = Some nd → Root nd = Some r → abs fa h n = Some t →
  one_line t → length h ≤ fuel →
  Bytes cfg h fuel n =
    Ok (line cfg "" "" (bool_decide (kids t = [])) (tmeta t) (tvalue t) +:+
        render_forest cfg "" "" (kids t)).
Proof.
  intros Hn Hroot Habs Hone Hfuel.
  pose proof (abs_height _ _ _ _ Hwf Habs) as Hheight.
  apply abs_Some in Habs as (fa' & nd' & ks & -> & Hn' & Hks & ->).
  unfold node_of in *.
  simplify_eq. rewrite height_TNode in Hheight.
  apply one_line_TNode in Hone as [Hv Hone].
  unfold Bytes, Writer. rewrite (load_Some _ _ _ Hn), M_bind_lift_Ok, Hroot. simpl.
  assert (bool_decide (ks = []) = bool_decide (length (Nodes nd) = 0)) as ->.
  { apply bool_decide_ext. pose proof (length_mapM _ _ _ Hks) as Hl.
    destruct ks; simpl in Hl; split; intros; (done || lia). }
  assert (∀ le edge, printValues cfg h 0 le edge n "" =
            (Ok (), edge +:+ " " +:+ label "" (Meta nd) (Value nd) +:+ nl))
    as Hline by (intros; by erewrite printValues_line; [|done..|by right]).
  destruct (decide (length (Nodes nd) = 0)) as [Hlen|Hlen]; simpl;
    rewrite ?bool_decide_eq_true_2, ?bool_decide_eq_false_2 by done;
    (erewrite M_bind_Ok by (erewrite M_bind_Ok by apply Hline; reflexivity));
    (erewrite (Writer_kids fuel fa')
       by (done || lia || by right; eapply Forall_impl, one_line_not_exposed)); done.
Qed.

End refinement.

(** C1: a tree built by the public operations renders: [Bytes] on a root
    returns, without panic, the diagram of the tree the heap holds below
    it. *)
Theorem Bytes_reachable `{Payload any} cfg (h : heap any) n nd :
  reachable h → cfg_ok cfg → h !! n = Some nd → Root nd = None →
  ∃ t, abs (length h) h n = Some t ∧
       Bytes cfg h (length h) n = Ok (render cfg t).
Proof.
  intros Hwf%reachable_wf Hcfg Hn Hroot.
  pose proof (lookup_lt_Some _ _ _ Hn) as Hlt.
  destruct (abs_total h (length h) n Hwf Hlt ltac:(lia)) as [t Ht].
  exists t. split; [done|]. unfold Bytes.
  by rewrite (Writer_render cfg h Hcfg Hwf _ _ _ _ _ "" Hn Hroot Ht (le_n _)).
Qed.

(** C13: what a call changes shows in the next rendering: after a call
    on a heap built by the public operations, [Bytes] on a root returns
    the diagram of the tree the call's specification makes of the tree
    that was under the root before. *)
Theorem Bytes_after `{Payload any} cfg (h : heap any) cl ret h' p pd t :
  reachable h → cfg_ok cfg →
  (∀ n, receiver cl = Some n → n < length h) → exec cl h = (Ok ret, h') →
  abs (length h) h p = Some t → h' !! p = Some pd → Root pd = None →
  Bytes cfg h' (length h') p = Ok (render cfg (spec cl (length h) t)).
Proof.
  intros Hreach Hcfg Hrecv Hexec Ht Hp Hroot.
  assert (wf_heap h') as Hwf'
    by (eapply api_step_wf; [by apply reachable_wf|by exists cl, ret]).
  destruct (exec_spec _ _ _ _ Hrecv Hexec) as (_ & Hlen & Habs).
  unfold Bytes.
  rewrite (Writer_render cfg h' Hcfg Hwf' _ _ _ _ _ "" Hp Hroot (Habs _ _ _ Ht));
    [done|].
  rewrite Hlen. unfold next. destruct (allocates cl); lia.
Qed.

(** ** Witnesses *)

(** The value of the root of the sample program, changed. *)
Lemma Bytes_after_witness :
  Bytes default_config (<[0 := mkNode None VNil (VString "root") [1; 2; 5]]> sample_heap) 6 0 =
    Ok ("root" +:+ nl +:+
        "├─ A" +:+ nl +:+
        "├─ B" +:+ nl +:+
        "│   ├─ C" +:+ nl +:+
        "│   │   D" +:+ nl +:+
        "│   └─ [1]  x" +:+ nl +:+
        "└─ E" +:+ nl).
Proof.
  exact (Bytes_after default_config sample_heap (CSetValue 0 (VString "root")) None
           _ 0 _ _ sample_heap_reachable default_config_ok
           ltac:(intros n [= <-]; simpl; lia) eq_refl eq_refl eq_refl eq_refl).
Defined.

Lemma Bytes_render_witness :
  Bytes default_config sample_heap 6 0 =
    Ok ("." +:+ nl +:+
        "├─ A" +:+ nl +:+
        "├─ B" +:+ nl +:+
        "│   ├─ C" +:+ nl +:+
        "│   │   D" +:+ nl +:+
        "│   └─ [1]  x" +:+ nl +:+
        "└─ E" +:+ nl).
Proof.
  exact (Bytes_render default_config sample_heap default_config_ok
           ltac:(by_compute) 6 6 0 _ _ eq_refl eq_refl eq_refl (le_n _)).
Defined.

Lemma Bytes_reachable_witness :
  ∃ t, abs 6 sample_heap 0 = Some t ∧
       Bytes default_config sample_heap 6 0 = Ok (render default_config t).
Proof.
  exact (Bytes_reachable default_config sample_heap 0 _ sample_heap_reachable
           default_config_ok eq_refl eq_refl).
Defined.

(** The leaf x of the sample program, rendered by itself. *)
Lemma Bytes_attached_witness :
  Bytes default_config sample_heap 6 4 = Ok ("└─ [1]  x" +:+ nl).
Proof.
  exact (Bytes_attached default_config sample_heap default_config_ok
           ltac:(by_compute) 6 6 4 _ 2 _ eq_refl eq_refl eq_refl
           ltac:(by_compute) (le_n _)).
Defined.
