(* ===== verification/Lines.v ===== *)
(** * The diagram, line by line

    The diagram of a tree is a sequence of rows, one per node under the
    root: [rows_forest] lists them with what each is drawn from (the
    columns of the ancestors, the padding of the continuation lines, the
    position among the siblings, the meta and the value).  The rows come
    in pre-order, the order in which [VisitAll] calls its visitor and
    [FindByMeta] compares; when no text holds a line break the diagram has
    as many lines as the tree has nodes. *)

From S2P Require Import Prelude GoStrings Payload Sink Heap Node Invariant.
From S2P Require Import Render Tree RenderSpec Search RenderProps Refinement.

(** What a row of the diagram is drawn from. *)
Record row (any : Type) : Type := mkRow {
  row_addr : ptr;
  row_prefix : string;
  row_pad : string;
  row_last : bool;
  row_meta : any;
  row_value : any
}.
Arguments mkRow {_} _ _ _ _ _ _.
Arguments row_addr {_} _.
Arguments row_prefix {_} _.
Arguments row_pad {_} _.
Arguments row_last {_} _.
Arguments row_meta {_} _.
Arguments row_value {_} _.

Section lines.
Context `{Payload any}.
Variable cfg : Config.
Implicit Types (t k : tree any) (ks : list (tree any)) (prefix pad s : string)
  (r : row any).

(** ** Definitions *)

(** The rows of a node that is not the root and of its descendants, as
    [render_tree] draws them. *)
Fixpoint rows_tree prefix pad (last : bool) t : list (row any) :=
  match t with
  | TNode a att meta value ks =>
      mkRow a prefix (pad_of cfg pad att last) last meta value ::
      (fix forest ks : list (row any) :=
         match ks with
         | [] => []
         | k :: ks' =>
             rows_tree (prefix +:+ segment cfg last) (pad_of cfg pad att last)
               (bool_decide (ks' = [])) k ++ forest ks'
         end) ks
  end.

Fixpoint rows_forest prefix pad ks : list (row any) :=
  match ks with
  | [] => []
  | k :: ks' =>
      rows_tree prefix pad (bool_decide (ks' = [])) k ++ rows_forest prefix pad ks'
  end.

(** The rows of the diagram of a tree. *)
Definition rows t : list (row any) := rows_forest "" "" (kids t).

Definition row_line r : string :=
  line cfg (row_prefix r) (row_pad r) (row_last r) (row_meta r) (row_value r).

(** The number of line breaks of a text. *)
Definition count_nl s : nat := length (filter (λ c, c = "010"%char) (chars s)).

(** No glyph holds a line break. *)
Definition glyphs_ok : Prop :=
  count_nl (EdgeTypeLink cfg) = 0 ∧ count_nl (EdgeTypeMid cfg) = 0 ∧
  count_nl (EdgeTypeEnd cfg) = 0.

(** The meta and the value of a row are texts of one line. *)
Definition plain (meta value : any) : Prop :=
  count_nl (fmt_v meta) = 0 ∧ count_nl (fmt_v value) = 0.

Definition plain_tree t : Prop :=
  plain (tmeta t) (tvalue t) ∧
  Forall (λ r, plain (row_meta r) (row_value r)) (rows t).

#[export] Instance glyphs_ok_dec : Decision glyphs_ok.
Proof. unfold glyphs_ok. apply _. Defined.

#[export] Instance plain_dec meta value : Decision (plain meta value).
Proof. unfold plain. apply _. Defined.

#[export] Instance plain_tree_dec t : Decision (plain_tree t).
Proof. unfold plain_tree. apply _. Defined.

(** ** Rows *)

Lemma rows_tree_eq prefix pad last a att meta value ks :
  rows_tree prefix pad last (TNode a att meta value ks) =
    mkRow a prefix (pad_of cfg pad att last) last meta value ::
    rows_forest (prefix +:+ segment cfg last) (pad_of cfg pad att last) ks.
Proof.
  simpl. f_equal. induction ks as [|k ks IH]; [done|]. simpl. by rewrite IH.
Qed.

(** A property of the rows of a forest, from the property of the rows of
    its trees. *)
Lemma rows_forest_ind (P : string → string → list (tree any) → Prop)
    (Q : string → string → bool → tree any → Prop) :
  (∀ prefix pad, P prefix pad []) →
  (∀ prefix pad k ks, Q prefix pad (bool_decide (ks = [])) k →
     P prefix pad ks → P prefix pad (k :: ks)) →
  (∀ prefix pad last a att meta value ks,
     P (prefix +:+ segment cfg last) (pad_of cfg pad att last) ks →
     Q prefix pad last (TNode a att meta value ks)) →
  ∀ ks prefix pad, P prefix pad ks.
Proof.
  intros Hnil Hcons Hnode.
  enough (∀ t prefix pad last, Q prefix pad last t) as HQ.
  { induction ks as [|k ks IH]; intros prefix pad; auto. }
  induction t as [a att meta value ks IH] using tree_ind'.
  intros prefix pad last. apply Hnode. generalize (prefix +:+ segment cfg last).
  generalize (pad_of cfg pad att last).
  induction IH as [|k ks Hk _ IHks]; intros pad' prefix'; auto.
Qed.

(** The diagram is its rows, one after the other. *)
Lemma render_forest_rows ks : ∀ prefix pad,
  render_forest cfg prefix pad ks = flatten (row_line <$> rows_forest prefix pad ks).
Proof.
  apply (rows_forest_ind
    (λ prefix pad ks, render_forest cfg prefix pad ks =
                        flatten (row_line <$> rows_forest prefix pad ks))
    (λ prefix pad last t, render_tree cfg prefix pad last t =
                            flatten (row_line <$> rows_tree prefix pad last t))).
  - done.
  - intros prefix pad k ks' Hk Hks.
    by rewrite render_forest_cons, Hk, Hks; simpl; rewrite fmap_app, flatten_app.
  - intros prefix pad last a att meta value ks' Hks.
    by rewrite render_tree_eq, rows_tree_eq, Hks.
Qed.

(** The rows are those of the nodes under the root, in pre-order. *)
Lemma rows_forest_addr ks : ∀ prefix pad,
  row_addr <$> rows_forest prefix pad ks = ks ≫= λ k, addr k :: under k.
Proof.
  apply (rows_forest_ind
    (λ prefix pad ks, row_addr <$> rows_forest prefix pad ks =
                        ks ≫= λ k, addr k :: under k)
    (λ prefix pad last t, row_addr <$> rows_tree prefix pad last t =
                            addr t :: under t)).
  - done.
  - intros prefix pad k ks' Hk Hks.
    by rewrite bind_cons, <- Hk, <- Hks; simpl; rewrite fmap_app.
  - intros prefix pad last a att meta value ks' Hks.
    by rewrite rows_tree_eq, under_TNode, fmap_cons, Hks.
Qed.

(** ** Line breaks *)

Lemma count_nl_app s1 s2 : count_nl (s1 +:+ s2) = count_nl s1 + count_nl s2.
Proof. unfold count_nl. by rewrite chars_app, filter_app, length_app. Qed.

Lemma count_nl_0 s : count_nl s = 0 → ¬ contains "010"%char s.
Proof.
  unfold count_nl, contains. induction (chars s) as [|c l IH];
    [by intros _ ?%elem_of_nil|].
  rewrite filter_cons. case_decide; [done|].
  intros Hl [?|?]%elem_of_cons; [congruence|by apply IH].
Qed.

Lemma count_nl_spaces n : count_nl (spaces n) = 0.
Proof.
  unfold spaces. induction (Z.to_nat n) as [|k IH]; [done|].
  simpl. by rewrite count_nl_app, IH.
Qed.

Lemma count_nl_segment last : glyphs_ok → count_nl (segment cfg last) = 0.
Proof.
  intros (Hl & _ & _). destruct last; simpl; unfold blank, link;
    by rewrite ?count_nl_app, ?count_nl_spaces, ?Hl.
Qed.

Lemma count_nl_line prefix pad last meta value :
  glyphs_ok → count_nl prefix = 0 → plain meta value →
  count_nl (line cfg prefix pad last meta value) = 1.
Proof.
  intros (_ & Hm & He) Hp [Hmeta Hvalue]. unfold line, label, connector.
  rewrite (text_one_line _ _ (count_nl_0 _ Hvalue)).
  destruct last, (decide (meta ≠ any_nil));
    rewrite !count_nl_app, ?Hp, ?Hm, ?He, ?Hmeta, ?Hvalue; reflexivity.
Qed.

(** No column holds a line break. *)
Lemma rows_prefix ks : ∀ prefix pad,
  glyphs_ok → count_nl prefix = 0 →
  Forall (λ r, count_nl (row_prefix r) = 0) (rows_forest prefix pad ks).
Proof.
  apply (rows_forest_ind
    (λ prefix pad ks, glyphs_ok → count_nl prefix = 0 →
       Forall (λ r, count_nl (row_prefix r) = 0) (rows_forest prefix pad ks))
    (λ prefix pad last t, glyphs_ok → count_nl prefix = 0 →
       Forall (λ r, count_nl (row_prefix r) = 0) (rows_tree prefix pad last t))).
  - constructor.
  - intros prefix pad k ks' Hk Hks Hg Hp. apply Forall_app; auto.
  - intros prefix pad last a att meta value ks' Hks Hg Hp.
    rewrite rows_tree_eq. constructor; [done|]. apply Hks; [done|].
    by rewrite count_nl_app, Hp, count_nl_segment.
Qed.

Lemma count_nl_flatten (rs : list (row any)) :
  Forall (λ r, count_nl (row_line r) = 1) rs →
  count_nl (flatten (row_line <$> rs)) = length rs.
Proof.
  induction 1 as [|r rs Hr _ IH]; [done|].
  rewrite fmap_cons. change (flatten (?s :: ?l)) with (s +:+ flatten l).
  by rewrite count_nl_app, Hr, IH.
Qed.

(** A diagram without line breaks in its texts has one line per node. *)
Lemma count_nl_render t :
  glyphs_ok → plain_tree t → count_nl (render cfg t) = S (length (under t)).
Proof.
  intros Hg [[Hm Hv] Hrows]. unfold render, root_line, fmt_meta_value.
  rewrite render_forest_rows, count_nl_app, count_nl_flatten.
  - rewrite <- (length_fmap row_addr), rows_forest_addr.
    destruct t as [a b m v ks]. rewrite under_TNode. simpl in *.
    destruct (decide (m ≠ any_nil)); rewrite !count_nl_app, ?Hm, ?Hv; simpl; lia.
  - apply Forall_forall. intros r Hr. apply count_nl_line; [done|..].
    + by apply (proj1 (Forall_forall _ _) (rows_prefix (kids t) "" "" Hg eq_refl)).
    + by apply (proj1 (Forall_forall _ _) Hrows).
Qed.

(** ** The renderer *)

Section heap.
Variable h : heap any.
Hypothesis Hcfg : cfg_ok cfg.
Hypothesis Hwf : wf_heap h.

(** C31: the diagram [Bytes] returns for a node without parent is the
    line of the root and then one row per node under it, in pre-order:
    the order in which [VisitAll] visits and [FindByMeta] compares. *)
Theorem Bytes_rows fuel fa n nd t :
  h !! n = Some nd → Root nd = None → abs fa h n = Some t → length h ≤ fuel →
  Bytes cfg h fuel n =
    Ok (root_line (tmeta t) (tvalue t) +:+ flatten (row_line <$> rows t)) ∧
  row_addr <$> rows t = below h n.
Proof.
  intros Hn Hroot Habs Hfuel. split.
  - unfold Bytes.
    rewrite (Writer_render cfg h Hcfg Hwf fuel fa n nd t "" Hn Hroot Habs Hfuel).
    unfold render, rows. by rewrite render_forest_rows, string_app_nil_l.
  - rewrite (below_under _ _ Hwf _ _ Habs). unfold rows.
    rewrite rows_forest_addr. destruct t. by rewrite under_TNode.
Qed.

(** C32: when no glyph, no meta and no value holds a line break, the
    diagram has one line for the root and one for each node under it. *)
Theorem Bytes_line_count fuel fa n nd t :
  glyphs_ok → h !! n = Some nd → Root nd = None → abs fa h n = Some t →
  plain_tree t → length h ≤ fuel →
  ∃ out, Bytes cfg h fuel n = Ok out ∧ count_nl out = S (length (below h n)).
Proof.
  intros Hg Hn Hroot Habs Hplain Hfuel. exists (render cfg t). split.
  - unfold Bytes.
    by rewrite (Writer_render cfg h Hcfg Hwf fuel fa n nd t "" Hn Hroot Habs Hfuel),
      string_app_nil_l.
  - by rewrite (count_nl_render _ Hg Hplain), (below_under _ _ Hwf _ _ Habs).
Qed.

End heap.

End lines.

(** ** Witnesses *)

(** A root, the branch A with the leaf B under the meta 1, and the leaf
    C. *)
Definition branch_heap : heap GoValue :=
  [mkNode None VNil (VString ".") [1; 3];
   mkNode (Some 0) VNil (VString "A") [2];
   mkNode (Some 1) (VInt 1) (VString "B") [];
   mkNode (Some 0) VNil (VString "C") []].

Lemma Bytes_rows_witness :
  Bytes default_config sample_heap 6 0 =
    Ok ("." +:+ nl +:+
        flatten (row_line default_config <$>
          [mkRow 1 "" "│   " false VNil (VString "A");
           mkRow 2 "" "│   " false VNil (VString "B");
           mkRow 3 "│   " "│   │   " false VNil (VString ("C" +:+ nl +:+ "D"));
           mkRow 4 "│   " "│       " true (VInt 1) (VString "x");
           mkRow 5 "" "    " true VNil (VString "E")])) ∧
  [1; 2; 3; 4; 5] = below sample_heap 0.
Proof.
  exact (Bytes_rows default_config sample_heap default_config_ok
           ltac:(by_compute) 6 6 0 _ _ eq_refl eq_refl eq_refl (le_n _)).
Defined.

Lemma Bytes_line_count_witness :
  ∃ out, Bytes default_config branch_heap 4 0 = Ok out ∧
         count_nl out = S (length (below branch_heap 0)).
Proof.
  exact (Bytes_line_count default_config branch_heap default_config_ok
           ltac:(by_compute) 4 4 0 _ _ ltac:(by_compute) eq_refl eq_refl eq_refl
           ltac:(by_compute) (le_n _)).
Defined.
