(* ===== verification/Reader.v ===== *)
(** * Reading a diagram back

    The diagram shows a tree: from the text [Bytes] returns the tree can be
    read back, node by node, as far as the text tells.  [read] is a reader
    of diagrams: it splits the text into lines, counts the columns of each
    line to find the depth of its node, strips the connector and keeps the
    rest as the text of the node, and rebuilds the forest from the depths.
    What it returns for the diagram of a tree is the tree of the texts of
    its nodes ([read_render], [read_Bytes]), when no text holds a line
    break and the glyphs of the configuration can be told apart
    ([readable]).

    The text of a node is its meta in brackets and its value: the diagram
    does not tell a meta from a value that starts with a bracket, nor a
    number from the string of its digits ([same_diagram]). *)

From S2P Require Import Prelude GoStrings Payload Sink Heap Node Invariant.
From S2P Require Import Render Tree RenderSpec Search RenderProps Refinement Lines.

(** ** Definitions *)

(** A tree of texts: what a diagram shows of a tree. *)
Inductive ltree : Type := LNode (ltext : string) (lkids : list ltree).

(** [s] without its prefix [p]. *)
Fixpoint strip (p s : string) : option string :=
  match p, s with
  | "", _ => Some s
  | String a p', String b s' => if decide (a = b) then strip p' s' else None
  | String _ _, "" => None
  end.

(** The texts differ at a position both have: neither is a prefix of the
    other. *)
Fixpoint clash (p q : string) : bool :=
  match p, q with
  | String a p', String b q' => if decide (a = b) then clash p' q' else true
  | _, _ => false
  end.

(** The trees at depth [d] that lead a list of trees with their depths,
    and the rest of the list. *)
Fixpoint split_depth (d : nat) (acc : list (nat * ltree))
    : list ltree * list (nat * ltree) :=
  match acc with
  | (d', t) :: acc' =>
      if decide (d' = d) then
        let (ks, rest) := split_depth d acc' in (t :: ks, rest)
      else ([], acc)
  | [] => ([], [])
  end.

(** A line is put before the trees read from the lines after it: the
    trees one level down that follow it are its children. *)
Definition attach (r : nat * string) (acc : list (nat * ltree))
    : list (nat * ltree) :=
  let (ks, rest) := split_depth (S r.1) acc in (r.1, LNode r.2 ks) :: rest.

(** The lines of a tree at depth [d], in pre-order. *)
Fixpoint pre_tree (d : nat) (t : ltree) : list (nat * string) :=
  match t with
  | LNode l ks => (d, l) :: foldr (λ k acc, pre_tree (S d) k ++ acc) [] ks
  end.

Definition pre (d : nat) (ks : list ltree) : list (nat * string) :=
  foldr (λ k acc, pre_tree d k ++ acc) [] ks.

(** No tree of the list is deeper than [d] at its head. *)
Definition shallow (d : nat) (acc : list (nat * ltree)) : Prop :=
  match acc with
  | (d', _) :: _ => d' ≤ d
  | [] => True
  end.

(** ** Prefixes *)

Lemma strip_app (p s : string) : strip p (p +:+ s) = Some s.
Proof.
  induction p as [|a p IH]; [by destruct s|].
  rewrite string_app_cons. simpl. by rewrite decide_True.
Qed.

Lemma clash_strip (p q s : string) : clash p q → strip p (q +:+ s) = None.
Proof.
  revert q. induction p as [|a p IH]; intros [|b q]; try done.
  rewrite string_app_cons. simpl. case_decide; [apply IH|done].
Qed.

Lemma clash_length (p q : string) : clash p q → 0 < String.length p.
Proof. destruct p, q; simpl; (done || lia). Qed.

Lemma clash_sym (p q : string) : clash p q → clash q p.
Proof.
  revert q. induction p as [|a p IH]; intros [|b q]; try done. simpl.
  destruct (decide (a = b)) as [->|?]; [rewrite decide_True by done; apply IH|].
  by rewrite decide_False by done.
Qed.

(** ** Rebuilding the forest *)

Lemma ltree_ind' (P : ltree → Prop) :
  (∀ l ks, Forall P ks → P (LNode l ks)) → ∀ t, P t.
Proof.
  intros Hnode. fix IH 1. intros [l ks]. apply Hnode.
  induction ks as [|k ks IHks]; constructor; [apply IH|apply IHks].
Qed.

Lemma pre_tree_eq d l ks : pre_tree d (LNode l ks) = (d, l) :: pre (S d) ks.
Proof. reflexivity. Qed.

Lemma pre_cons d k ks : pre d (k :: ks) = pre_tree d k ++ pre d ks.
Proof. reflexivity. Qed.

Lemma split_depth_app d (ks : list ltree) acc :
  shallow d acc →
  split_depth (S d) (((λ k, (S d, k)) <$> ks) ++ acc) = (ks, acc).
Proof.
  intros Hacc. induction ks as [|k ks IH].
  - destruct acc as [|[d' t] acc]; [done|]. simpl in *.
    by rewrite decide_False by lia.
  - rewrite fmap_cons. cbn [app split_depth]. by rewrite decide_True, IH.
Qed.

Lemma shallow_app d (ks : list ltree) acc :
  shallow d acc → shallow d (((λ k, (d, k)) <$> ks) ++ acc).
Proof. intros Hacc. destruct ks as [|k ks]; [done|simpl; lia]. Qed.

Lemma shallow_le d d' acc : shallow d acc → d ≤ d' → shallow d' acc.
Proof. destruct acc as [|[? ?] ?]; simpl; [done|lia]. Qed.

(** The trees are rebuilt from their lines, read from the last line to
    the first. *)
Lemma foldr_attach_tree t : ∀ d acc,
  shallow d acc → foldr attach acc (pre_tree d t) = (d, t) :: acc.
Proof.
  induction t as [l ks IH] using ltree_ind'. intros d acc Hacc.
  rewrite pre_tree_eq. simpl.
  enough (foldr attach acc (pre (S d) ks) = ((λ k, (S d, k)) <$> ks) ++ acc) as ->.
  { unfold attach. simpl. by rewrite split_depth_app. }
  induction IH as [|k ks Hk _ IHks]; [done|].
  rewrite pre_cons, foldr_app, IHks. simpl. apply Hk.
  apply shallow_app, (shallow_le d); [done|lia].
Qed.

Lemma foldr_attach ks d acc :
  shallow d acc → foldr attach acc (pre d ks) = ((λ k, (d, k)) <$> ks) ++ acc.
Proof.
  intros Hacc. induction ks as [|k ks IH]; [done|].
  rewrite pre_cons, foldr_app, IH. simpl.
  by apply foldr_attach_tree, shallow_app.
Qed.

Lemma split_depth_all d (ks : list ltree) :
  split_depth d ((λ k, (d, k)) <$> ks) = (ks, []).
Proof.
  induction ks as [|k ks IH]; [done|].
  rewrite fmap_cons. cbn [split_depth]. by rewrite decide_True, IH.
Qed.

(** ** Lines and texts *)

Lemma flatten_lines (l : list string) :
  flatten ((λ x, x +:+ nl) <$> l) = Join (l ++ [""]) nl.
Proof.
  induction l as [|x l IH]; [done|]. rewrite fmap_cons.
  change (flatten (?a :: ?b)) with (a +:+ flatten b). rewrite IH.
  destruct l; simpl; by rewrite <- !string_app_assoc.
Qed.

Section reader.
Context `{Payload any}.
Variable cfg : Config.
Implicit Types (t k : tree any) (ks : list (tree any)) (s text prefix pad : string)
  (cols : list bool) (r : row any).

(** The columns of a line: a link or a blank each. *)
Fixpoint read_columns (fuel : nat) s : nat * string :=
  match fuel with
  | 0 => (0, s)
  | S fuel' =>
      match strip (link cfg) s with
      | Some s' => let (d, rest) := read_columns fuel' s' in (S d, rest)
      | None =>
          match strip (blank cfg) s with
          | Some s' => let (d, rest) := read_columns fuel' s' in (S d, rest)
          | None => (0, s)
          end
      end
  end.

(** A line: its columns, a connector and a space, and the text. *)
Definition read_line s : option (nat * string) :=
  let (d, rest) := read_columns (String.length s) s in
  match strip (EdgeTypeMid cfg +:+ " ") rest with
  | Some text => Some (d, text)
  | None => (λ text, (d, text)) <$> strip (EdgeTypeEnd cfg +:+ " ") rest
  end.

(** A diagram: the line of the root, the lines of the nodes under it, and
    nothing after the last line break. *)
Definition read s : option ltree :=
  match Split s "010"%char with
  | root :: rest =>
      if decide (last rest = Some "") then
        rs ← mapM read_line (take (length rest - 1) rest);
        match split_depth 0 (foldr attach [] rs) with
        | (ks, []) => Some (LNode root ks)
        | _ => None
        end
      else None
  | [] => None
  end.

(** The glyphs can be told apart: a link from a blank, a column from a
    connector, and the two connectors from each other. *)
Definition readable : Prop :=
  clash (link cfg) (blank cfg) ∧
  clash (link cfg) (EdgeTypeMid cfg +:+ " ") ∧
  clash (link cfg) (EdgeTypeEnd cfg +:+ " ") ∧
  clash (blank cfg) (EdgeTypeMid cfg +:+ " ") ∧
  clash (blank cfg) (EdgeTypeEnd cfg +:+ " ") ∧
  clash (EdgeTypeMid cfg +:+ " ") (EdgeTypeEnd cfg +:+ " ").

#[export] Instance readable_dec : Decision readable.
Proof. unfold readable. apply _. Defined.

(** The text of a node: the bracketed meta, if any, and the value. *)
Definition shown (meta value : any) : string :=
  if decide (meta ≠ any_nil) then fmt_meta_value meta value else fmt_v value.

(** What the diagram shows of a tree. *)
Fixpoint labels t : ltree :=
  match t with
  | TNode _ _ meta value ks => LNode (shown meta value) (labels <$> ks)
  end.

(** The columns of a node, from the positions of its ancestors. *)
Definition cols_text cols : string :=
  foldr (λ b acc, segment cfg b +:+ acc) "" cols.

(** The line of a row, without its line break. *)
Definition row_text r : string :=
  row_prefix r +:+ connector cfg (row_last r) +:+ " " +:+
  label (row_pad r) (row_meta r) (row_value r).

(** ** Columns *)

Section read.
Hypothesis Hread : readable.

Lemma cols_text_cons b cols :
  cols_text (b :: cols) = segment cfg b +:+ cols_text cols.
Proof. reflexivity. Qed.

Lemma cols_text_snoc cols b :
  cols_text (cols ++ [b]) = cols_text cols +:+ segment cfg b.
Proof.
  induction cols as [|b' cols IH]; [by rewrite string_app_nil_l; apply string_app_nil_r|].
  by rewrite <- app_comm_cons, !cols_text_cons, IH, string_app_assoc.
Qed.

Lemma segment_length b : 0 < String.length (segment cfg b).
Proof.
  destruct Hread as (Hc & _). destruct b; simpl.
  - by apply clash_sym, clash_length in Hc.
  - by apply clash_length in Hc.
Qed.

Lemma cols_text_length cols s : length cols ≤ String.length (cols_text cols +:+ s).
Proof.
  induction cols as [|b cols IH]; [simpl; lia|].
  rewrite cols_text_cons, <- string_app_assoc, string_length_app.
  pose proof (segment_length b). cbn [length]. lia.
Qed.

(** The columns of a line are counted, up to its connector. *)
Lemma read_columns_cols cols (last : bool) text : ∀ fuel,
  length cols ≤ fuel →
  read_columns fuel (cols_text cols +:+ (connector cfg last +:+ " ") +:+ text) =
    (length cols, (connector cfg last +:+ " ") +:+ text).
Proof.
  destruct Hread as (Hlb & Hlm & Hle & Hbm & Hbe & _).
  induction cols as [|b cols IH]; intros fuel Hfuel.
  - rewrite string_app_nil_l. destruct fuel as [|fuel]; [done|]. simpl.
    by destruct last; simpl; rewrite !clash_strip.
  - destruct fuel as [|fuel]; [simpl in Hfuel; lia|].
    rewrite cols_text_cons, <- string_app_assoc. cbn [read_columns length].
    destruct b; simpl segment.
    + rewrite clash_strip, strip_app, IH by (done || simpl in Hfuel; lia). done.
    + rewrite strip_app, IH by (simpl in Hfuel; lia). done.
Qed.

(** A line is read as its depth and its text. *)
Lemma read_line_text cols (last : bool) text :
  read_line (cols_text cols +:+ connector cfg last +:+ " " +:+ text) =
    Some (length cols, text).
Proof.
  destruct Hread as (_ & _ & _ & _ & _ & Hme).
  unfold read_line. rewrite (string_app_assoc (connector cfg last)).
  rewrite read_columns_cols by apply cols_text_length.
  destruct last; simpl connector.
  - by rewrite clash_strip, strip_app.
  - by rewrite strip_app.
Qed.

(** ** Rows *)

Lemma label_plain pad (meta value : any) :
  count_nl (fmt_v value) = 0 → label pad meta value = shown meta value.
Proof.
  intros Hv%count_nl_0. unfold label, shown, fmt_meta_value.
  by rewrite (text_one_line _ _ Hv).
Qed.

Lemma row_line_text r : row_line cfg r = row_text r +:+ nl.
Proof. unfold row_line, row_text, line. by rewrite !string_app_assoc. Qed.

Lemma read_row r cols :
  row_prefix r = cols_text cols → plain (row_meta r) (row_value r) →
  read_line (row_text r) = Some (length cols, shown (row_meta r) (row_value r)).
Proof.
  intros Hp [_ Hv]. unfold row_text.
  by rewrite Hp, read_line_text, (label_plain _ _ _ Hv).
Qed.

(** The rows of a forest are read as the lines of the texts of its trees,
    at the depth of their columns. *)
Lemma read_rows ks : ∀ prefix pad cols,
  prefix = cols_text cols →
  Forall (λ r, plain (row_meta r) (row_value r)) (rows_forest cfg prefix pad ks) →
  Forall2 (λ r x, read_line (row_text r) = Some x)
    (rows_forest cfg prefix pad ks) (pre (length cols) (labels <$> ks)).
Proof.
  apply (rows_forest_ind cfg
    (λ prefix pad ks, ∀ cols, prefix = cols_text cols →
       Forall (λ r, plain (row_meta r) (row_value r)) (rows_forest cfg prefix pad ks) →
       Forall2 (λ r x, read_line (row_text r) = Some x)
         (rows_forest cfg prefix pad ks) (pre (length cols) (labels <$> ks)))
    (λ prefix pad last t, ∀ cols, prefix = cols_text cols →
       Forall (λ r, plain (row_meta r) (row_value r)) (rows_tree cfg prefix pad last t) →
       Forall2 (λ r x, read_line (row_text r) = Some x)
         (rows_tree cfg prefix pad last t) (pre_tree (length cols) (labels t)))).
  - constructor.
  - intros prefix pad k ks' Hk Hks cols Hp [Hpk Hpks]%Forall_app.
    rewrite fmap_cons, pre_cons. apply Forall2_app; auto.
  - intros prefix pad last a att meta value ks' Hks cols Hp.
    rewrite rows_tree_eq. intros [Hr Hrs]%Forall_cons.
    cbn [labels]. rewrite pre_tree_eq. constructor; [by apply read_row|].
    replace (S (length cols)) with (length (cols ++ [last]))
      by (rewrite length_app; simpl; lia).
    apply Hks; [|done]. by rewrite cols_text_snoc, Hp.
Qed.

(** No line of the diagram holds a line break. *)
Lemma row_text_nl r :
  glyphs_ok cfg → count_nl (row_prefix r) = 0 → plain (row_meta r) (row_value r) →
  ¬ contains "010"%char (row_text r).
Proof.
  intros Hg Hp Hplain. apply count_nl_0.
  pose proof (count_nl_line cfg (row_prefix r) (row_pad r) (row_last r) _ _
                Hg Hp Hplain) as Hline.
  fold (row_line cfg r) in Hline. rewrite row_line_text, count_nl_app in Hline.
  change (count_nl nl) with 1 in Hline. lia.
Qed.

(** ** The diagram *)

(** The diagram is its lines, joined and closed by line breaks. *)
Lemma render_lines t :
  render cfg t =
    Join ((shown (tmeta t) (tvalue t) :: (row_text <$> rows cfg t)) ++ [""]) nl.
Proof.
  unfold render, rows. rewrite render_forest_rows, <- flatten_lines, fmap_cons.
  change (flatten (?a :: ?b)) with (a +:+ flatten b). f_equal.
  rewrite <- list_fmap_compose. f_equal. apply list_fmap_ext.
  intros i r _. apply row_line_text.
Qed.

Lemma lines_no_nl t :
  glyphs_ok cfg → plain_tree cfg t →
  Forall (λ x, ¬ contains "010"%char x)
    ((shown (tmeta t) (tvalue t) :: (row_text <$> rows cfg t)) ++ [""]).
Proof.
  intros Hg [[Hm Hv] Hrows]. apply Forall_app.
  split; [|apply Forall_singleton, not_elem_of_nil].
  constructor.
  - apply count_nl_0. unfold shown, fmt_meta_value.
    case_decide; by rewrite ?count_nl_app, ?Hm, ?Hv.
  - apply Forall_fmap, Forall_forall. intros r Hr. apply row_text_nl; [done|..].
    + by apply (proj1 (Forall_forall _ _) (rows_prefix cfg (kids t) "" "" Hg eq_refl)).
    + by apply (proj1 (Forall_forall _ _) Hrows).
Qed.

Lemma read_texts t :
  plain_tree cfg t →
  mapM read_line (row_text <$> rows cfg t) = Some (pre 0 (labels <$> kids t)).
Proof.
  intros [_ Hrows]. apply mapM_Some, Forall2_fmap_l.
  by apply (read_rows (kids t) "" "" []).
Qed.

Lemma read_render_plain t :
  glyphs_ok cfg → plain_tree cfg t → read (render cfg t) = Some (labels t).
Proof.
  intros Hg Hplain. unfold read.
  rewrite render_lines. unfold nl.
  rewrite Split_Join by (done || by apply lines_no_nl).
  rewrite <- app_comm_cons, last_snoc, decide_True by done.
  rewrite length_app, Nat.add_sub, take_app_length, (read_texts _ Hplain). simpl.
  rewrite (foldr_attach _ 0 []) by done. rewrite app_nil_r, split_depth_all.
  by destruct t.
Qed.

End read.

End reader.

(** ** The renderer and the reader *)

Section roundtrip.
Context `{Payload any}.
Variable cfg : Config.
Variable h : heap any.
Hypothesis Hcfg : cfg_ok cfg.
Hypothesis Hwf : wf_heap h.

(** The reader returns, for the diagram of a tree whose texts are
    one line each, the tree of the texts of its nodes, when the glyphs can
    be told apart: the diagram determines the shape of the tree and the
    text of every node. *)
Theorem read_render t :
  readable cfg → glyphs_ok cfg → plain_tree cfg t →
  read cfg (render cfg t) = Some (labels t).
Proof. intros Hread Hg Hplain. by apply read_render_plain. Qed.

(** C24: what [Bytes] returns for a node without parent is read back as
    the tree under that node: its shape, and the text of every node. *)
Theorem read_Bytes fuel fa n nd t :
  readable cfg → glyphs_ok cfg →
  h !! n = Some nd → Root nd = None → abs fa h n = Some t →
  plain_tree cfg t → length h ≤ fuel →
  read cfg <$> Bytes cfg h fuel n = Ok (Some (labels t)).
Proof.
  intros Hread Hg Hn Hroot Habs Hplain Hfuel. unfold Bytes.
  rewrite (Writer_render cfg h Hcfg Hwf fuel fa n nd t "" Hn Hroot Habs Hfuel).
  rewrite string_app_nil_l. simpl. by rewrite read_render_plain.
Qed.

End roundtrip.

(** ** Witnesses *)

Lemma default_config_readable : readable default_config.
Proof. by_compute. Qed.

Lemma read_Bytes_witness :
  read default_config <$> Bytes default_config branch_heap 4 0 =
    Ok (Some (LNode "." [LNode "A" [LNode "[1]  B" []]; LNode "C" []])).
Proof.
  exact (read_Bytes default_config branch_heap default_config_ok ltac:(by_compute)
           4 4 0 _ _ default_config_readable ltac:(by_compute) eq_refl eq_refl
           eq_refl ltac:(by_compute) (le_n _)).
Defined.

(** A root, the branch A with the leaf 7, and the leaf C under the meta
    true. *)
Definition small_tree : tree GoValue :=
  TNode 0 false VNil (VString ".")
    [TNode 1 true VNil (VString "A") [TNode 2 true VNil (VInt 7) []];
     TNode 3 true (VBool true) (VString "C") []].

Lemma read_render_witness :
  read default_config (render default_config small_tree) =
    Some (LNode "." [LNode "A" [LNode "7" []]; LNode "[true]  C" []]).
Proof.
  exact (read_render default_config small_tree default_config_readable
           ltac:(by_compute) ltac:(by_compute)).
Defined.

(** The diagram does not tell a meta from a value that starts with a
    bracket, nor a number from the string of its digits: the two trees
    have the same diagram. *)
Example same_diagram :
  render default_config
    (TNode 0 false VNil (VString ".") [TNode 1 true (VInt 1) (VString "x") []]) =
  render default_config
    (TNode 0 false VNil (VString ".") [TNode 1 true VNil (VString "[1]  x") []]) ∧
  render default_config (TNode 0 false VNil (VInt 7) []) =
  render default_config (TNode 0 false VNil (VString "7") []).
Proof. split; reflexivity. Qed.

(** A text of two lines is read as two lines, and the second is not the
    line of a node: the reader refuses the diagram. *)
Example read_two_lines :
  read default_config
    (render default_config
       (TNode 0 false VNil (VString ".")
          [TNode 1 true VNil (VString ("A" +:+ nl +:+ "B")) []])) = None.
Proof. reflexivity. Qed.
