(* ===== verification/Interface.v ===== *)
(** * The interface [Tree], and the package as a client sees it

    The package exports the interface [Tree] and three constructors that
    return it; [*Node] is the implementation.  A client holds values of
    the interface and calls its methods.

    - [Iface.Tree] is the method set of the interface, over a state [S]
      the client does not see; [Iface.Package] adds the constructors.
    - [Iface.Laws] is the contract: a representation invariant, the tree
      under a [Tree] value, and what a call does to that tree, in the
      terms of the abstract specification of the tree model ([spec]), of
      the searches ([find_by_meta], [find_by_value]) and of the renderer
      ([render]).
    - The theorems of a client are proved from the contract alone:
      [run_all_spec], [render_after_spec] and [program_finds] hold of a
      program of calls on any implementation that satisfies [Laws].
    - [Node_Tree], [Node_Package] and [Node_Laws] are the implementation:
      the methods of [*Node] on the heap, which satisfy the contract with
      [wf_heap] as the invariant and [abs] as the view.
    - [Slice_Tree], [Slice_Package] and [Slice_Laws] are the
      implementation with the slices of the source as Go slices
      ([NodeSlices], [SearchSlices], [VisitSlices], [RenderSlices]).  It
      satisfies the same contract, by the simulations of these files.
    - [program_renders] and [Slice_program_renders] are the client
      theorem at the two implementations: what a program of calls on
      [*Node] renders.

    A value of the interface is a pointer, [nil] or a [*Node]: a result
    that may be nil is an [option ptr].  The methods that search and render
    read the state and leave it as it is, which their types say.  The
    package variables the renderer reads are the [Config] of the
    implementation. *)

From S2P Require Import Prelude GoStrings Payload Sink Heap Node Invariant.
From S2P Require Import Tree TreeOps Search SearchSpec Forest Render RenderSpec RenderProps Refinement.
From S2P Require Import Slices NodeSlices SearchSlices VisitSlices RenderSlices.

Module Iface.

(** ** Definitions *)

(** The interface [Tree]. *)
Class Tree (any S : Type) : Type := {
  AddNode : ptr → any → M S ptr;
  AddNodef : ptr → string → list any → M S ptr;
  AddMetaNode : ptr → any → any → M S ptr;
  AddMetaNodef : ptr → any → string → list any → M S ptr;
  AddBranch : ptr → any → M S ptr;
  AddBranchf : ptr → string → list any → M S ptr;
  AddMetaBranch : ptr → any → any → M S ptr;
  AddMetaBranchf : ptr → any → string → list any → M S ptr;
  Branch : ptr → M S ptr;
  FindByMeta : ptr → any → S → res (option ptr);
  FindByValue : ptr → any → S → res (option ptr);
  FindLastNode : ptr → S → res (option ptr);
  String_ : ptr → S → res string;
  Bytes : ptr → S → res string;
  Writer : ∀ W, Sink W → ptr → S → M W ();
  SetValue : ptr → any → M S ();
  SetValuef : ptr → string → list any → M S ();
  SetMetaValue : ptr → any → M S ();
  VisitAll : ∀ V, ptr → (ptr → M (S * V) ()) → M (S * V) ();
}.

(** The constructors of the package. *)
Class Package (any S : Type) : Type := {
  methods :: Tree any S;
  New : M S ptr;
  NewWithRoot : any → M S ptr;
  NewWithRootf : string → list any → M S ptr;
}.

Section dispatch.
Context {any S : Type} `{!Package any S}.

(** A call, made through the interface. *)
Definition run (cl : call (any:=any)) : M S (option ptr) :=
  match cl with
  | CNew => Some <$> New
  | CNewWithRoot root => Some <$> NewWithRoot root
  | CNewWithRootf format args => Some <$> NewWithRootf format args
  | CAddNode n a => Some <$> AddNode n a
  | CAddNodef n format args => Some <$> AddNodef n format args
  | CAddMetaNode n meta a => Some <$> AddMetaNode n meta a
  | CAddMetaNodef n meta format args => Some <$> AddMetaNodef n meta format args
  | CAddBranch n a => Some <$> AddBranch n a
  | CAddBranchf n format args => Some <$> AddBranchf n format args
  | CAddMetaBranch n meta a => Some <$> AddMetaBranch n meta a
  | CAddMetaBranchf n meta format args =>
      Some <$> AddMetaBranchf n meta format args
  | CBranch n => Some <$> Branch n
  | CSetValue n a => SetValue n a;; mret None
  | CSetValuef n format args => SetValuef n format args;; mret None
  | CSetMetaValue n meta => SetMetaValue n meta;; mret None
  end.

(** A program of calls, stopped by the first that panics. *)
Fixpoint run_all (cls : list (call (any:=any))) : M S () :=
  match cls with
  | [] => mret ()
  | cl :: cls' => run cl;; run_all cls'
  end.

(** A program of calls, and then the diagram of the node [p]. *)
Definition render_after (cls : list (call (any:=any))) (p : ptr) : M S string :=
  run_all cls;; s ← get_state; lift (String_ p s).

(** A program of calls, and then a search by meta under the node [p]. *)
Definition find_after (cls : list (call (any:=any))) (p : ptr) (meta : any) :
    M S (option ptr) :=
  run_all cls;; s ← get_state; lift (FindByMeta p meta s).

End dispatch.

(** The contract of the package. *)
Class Laws `{Payload any} (cfg : Config) (S : Type) `{!Package any S} : Type := {
  (** the states the package makes *)
  inv : S → Prop;
  (** the number of nodes made so far: the next node is this one *)
  size : S → nat;
  (** the tree under a node *)
  view : S → ptr → option (tree any);
  (** a call on a node that exists returns what its specification says,
      and the tree under any node is then what the specification makes
      of it *)
  run_spec : ∀ cl s, inv s → valid cl (size s) →
    ∃ s', run cl s = (Ok (spec_ret cl (size s)), s') ∧ inv s' ∧
          size s' = next cl (size s) ∧
          ∀ p t, view s p = Some t → view s' p = Some (spec cl (size s) t);
  (** a constructor makes a root *)
  new_spec : ∀ cl s ret s' t,
    inv s → run cl s = (Ok ret, s') → spec_new cl (size s) = Some t →
    view s' (size s) = Some t;
  (** the searches return the first match in the tree under the
      receiver *)
  FindByMeta_spec : ∀ s p t meta,
    inv s → view s p = Some t → FindByMeta p meta s = Ok (find_by_meta meta t);
  FindByValue_spec : ∀ s p t value,
    inv s → view s p = Some t →
    FindByValue p value s = Ok (find_by_value value t);
  (** the diagram of a node without parent *)
  String_spec : ∀ s p t,
    inv s → view s p = Some t → attached t = false →
    String_ p s = Ok (render cfg t);
  (** [String] is [string(n.Bytes())] *)
  String_Bytes : ∀ s p, String_ p s = Bytes p s;
}.

(** ** A client of the interface *)

Section client.
Context `{Payload any} (cfg : Config) {S : Type} `{!Package any S} `{!Laws cfg S}.

Lemma run_all_spec cls : ∀ s,
  inv s → valid_calls cls (size s) →
  ∃ s', run_all cls s = (Ok (), s') ∧ inv s' ∧
        ∀ p t, view s p = Some t → view s' p = Some (specs cls (size s) t).
Proof.
  induction cls as [|cl cls IH]; intros s Hinv Hvalid; [by exists s|].
  apply andb_True in Hvalid as [Hcl Hcls].
  destruct (run_spec cl s Hinv Hcl) as (s1 & Hrun & Hinv1 & Hsize & Hview).
  rewrite <- Hsize in Hcls.
  destruct (IH s1 Hinv1 Hcls) as (s' & Hrest & Hinv' & Hview').
  exists s'. split_and!; [|done|].
  - cbn [run_all]. by erewrite M_bind_Ok by apply Hrun.
  - intros p t Ht. cbn [specs]. rewrite <- Hsize. by apply Hview', Hview.
Qed.

(** For every implementation of the interface that keeps the contract,
    a program of calls made on nodes that exist returns, and the diagram
    of a node without parent is then the diagram of the tree the
    specifications of the calls make of the tree under it. *)
Lemma render_after_spec cls s p t :
  inv s → valid_calls cls (size s) → view s p = Some t →
  attached (specs cls (size s) t) = false →
  ∃ s', render_after cls p s = (Ok (render cfg (specs cls (size s) t)), s').
Proof.
  intros Hinv Hvalid Ht Hroot.
  destruct (run_all_spec cls s Hinv Hvalid) as (s' & Hrun & Hinv' & Hview).
  exists s'. unfold render_after. erewrite M_bind_Ok by apply Hrun.
  unfold get_state. erewrite M_bind_Ok by reflexivity.
  by rewrite (String_spec s' p _ Hinv' (Hview p t Ht) Hroot).
Qed.

(** For every implementation that keeps the contract, a search by meta
    after a program of calls returns the first match in the tree the
    specifications of the calls make of the tree under the receiver. *)
Theorem program_finds cls s p t meta :
  inv s → valid_calls cls (size s) → view s p = Some t →
  ∃ s', find_after cls p meta s =
          (Ok (find_by_meta meta (specs cls (size s) t)), s').
Proof.
  intros Hinv Hvalid Ht.
  destruct (run_all_spec cls s Hinv Hvalid) as (s' & Hrun & Hinv' & Hview).
  exists s'. unfold find_after. erewrite M_bind_Ok by apply Hrun.
  unfold get_state. erewrite M_bind_Ok by reflexivity.
  by rewrite (FindByMeta_spec s' p _ meta Hinv' (Hview p t Ht)).
Qed.

End client.

(** ** The implementation: [*Node] on the heap *)

Section node.
Context `{Payload any} (cfg : Config).
Implicit Types (h : heap any) (cl : call (any:=any)).

(** The methods of [*Node].  The recursive ones get as much fuel as the
    heap has nodes. *)
Definition Node_Tree : Tree any (heap any) := {|
  AddNode := Node.AddNode;
  AddNodef := Node.AddNodef;
  AddMetaNode := Node.AddMetaNode;
  AddMetaNodef := Node.AddMetaNodef;
  AddBranch := Node.AddBranch;
  AddBranchf := Node.AddBranchf;
  AddMetaBranch := Node.AddMetaBranch;
  AddMetaBranchf := Node.AddMetaBranchf;
  Branch := Node.Branch;
  FindByMeta n meta h := Search.FindByMeta (length h) h n meta;
  FindByValue n value h := Search.FindByValue (length h) h n value;
  FindLastNode n h := Node.FindLastNode h n;
  String_ n h := Render.String_ cfg h (length h) n;
  Bytes n h := Render.Bytes cfg h (length h) n;
  Writer W HW n h := Render.Writer cfg h (length h) n;
  SetValue := Node.SetValue;
  SetValuef := Node.SetValuef;
  SetMetaValue := Node.SetMetaValue;
  VisitAll V n fn := λ s, Search.VisitAll (length s.1) fn n s;
|}.

Definition Node_Package : Package any (heap any) := {|
  methods := Node_Tree;
  New := Node.New;
  NewWithRoot := Node.NewWithRoot;
  NewWithRootf := Node.NewWithRootf;
|}.

(** A call through the interface is the call of the method. *)
Lemma run_exec cl : run (Package0:=Node_Package) cl = exec cl.
Proof. by destruct cl. Qed.

Section laws.
Hypothesis Hcfg : cfg_ok cfg.

Lemma Node_run_spec cl h :
  wf_heap h → valid cl (length h) →
  ∃ h', run (Package0:=Node_Package) cl h = (Ok (spec_ret cl (length h)), h') ∧
        wf_heap h' ∧ length h' = next cl (length h) ∧
        ∀ p t, abs (length h) h p = Some t →
               abs (length h') h' p = Some (spec cl (length h) t).
Proof.
  rewrite run_exec. intros Hwf Hvalid. pose proof (valid_receiver _ _ Hvalid) as Hrecv.
  destruct (exec_returns h cl Hrecv) as (ret & h' & Hexec & _).
  pose proof (exec_spec _ _ _ _ Hrecv Hexec) as (-> & Hlen & Habs).
  assert (wf_heap h') as Hwf'
    by (eapply api_step_wf; [done|]; by exists cl, (spec_ret cl (length h))).
  exists h'. split_and!; [done..|]. intros p t Ht.
  eapply abs_fuel_wf; [done|by apply Habs|lia].
Qed.

Lemma Node_new_spec cl h ret h' t :
  wf_heap h → run (Package0:=Node_Package) cl h = (Ok ret, h') →
  spec_new cl (length h) = Some t →
  abs (length h') h' (length h) = Some t.
Proof.
  rewrite run_exec. intros Hwf Hexec Hnew.
  assert (wf_heap h') as Hwf'.
  { eapply api_step_wf; [done|]. by exists cl, ret. }
  destruct (exec_new_root cl h ret h' t Hexec Hnew) as [_ Habs].
  eapply abs_fuel_wf; [done..|lia].
Qed.

Lemma Node_String_spec h p t :
  wf_heap h → abs (length h) h p = Some t → attached t = false →
  Render.String_ cfg h (length h) p = Ok (render cfg t).
Proof.
  intros Hwf Habs Hroot.
  pose proof Habs as (_ & nd & ks & _ & Hp & _ & ->)%abs_Some.
  assert (Root nd = None) as Hnone.
  { simpl in Hroot. apply bool_decide_eq_false in Hroot.
    destruct (Root nd); [by destruct Hroot|done]. }
  unfold Render.String_, Render.Bytes.
  by rewrite (Writer_render cfg h Hcfg Hwf _ _ p nd _ "" Hp Hnone Habs (le_n _)),
    string_app_nil_l.
Qed.

(** The methods of [*Node] keep the contract, with the invariant of the
    heap and the tree [abs] reads. *)
Definition Node_Laws : Laws cfg (heap any) (Package0:=Node_Package) := {|
  inv := wf_heap;
  size := length;
  view h p := abs (length h) h p;
  run_spec := Node_run_spec;
  new_spec := Node_new_spec;
  FindByMeta_spec h p t meta Hwf Ht :=
    FindByMeta_find h (length h) (length h) p t meta Hwf Ht (le_n _);
  FindByValue_spec h p t value Hwf Ht :=
    FindByValue_tree h (length h) (length h) p t value Hwf Ht (le_n _);
  String_spec := Node_String_spec;
  String_Bytes h p := eq_refl;
|}.

(** C15: a program of calls to the constructors and methods of [*Node],
    each made on a node that exists when it is made, returns; [String],
    called afterwards on a node without parent, returns the diagram of
    the tree that the specifications of the calls make of the tree that
    was under that node. *)
Theorem program_renders cls h p t :
  wf_heap h → valid_calls cls (length h) → abs (length h) h p = Some t →
  attached (specs cls (length h) t) = false →
  ∃ h', render_after (Package0:=Node_Package) cls p h =
          (Ok (render cfg (specs cls (length h) t)), h').
Proof. apply (render_after_spec cfg (Laws0:=Node_Laws)). Qed.

End laws.

End node.

(** ** The implementation: [*Node] with Go slices *)

Section slices.
Context `{Payload any} (cfg : Config) (grow : nat → nat).
Implicit Types (s : heapS any * arrays) (cl : call (any:=any)).

(** The methods of [*Node] on the heap with slices.  The renderer reads
    the nodes through [NodeSlices.view], element by element, and keeps
    [levelsEnded] in a store of its own, empty at the start; a visitor is
    called on the elements of the slices, and is taken to dereference the
    node it receives. *)
Definition Slice_Tree : Tree any (heapS any * arrays) := {|
  AddNode := AddNode_sl grow;
  AddNodef := AddNodef_sl grow;
  AddMetaNode := AddMetaNode_sl grow;
  AddMetaNodef := AddMetaNodef_sl grow;
  AddBranch := AddBranch_sl grow;
  AddBranchf := AddBranchf_sl grow;
  AddMetaBranch := AddMetaBranch_sl grow;
  AddMetaBranchf := AddMetaBranchf_sl grow;
  Branch := Branch_sl;
  FindByMeta n meta s := FindByMeta_sl (length s.1) s.1 s.2 (Some n) meta;
  FindByValue n value s := FindByValue_sl (length s.1) s.1 s.2 (Some n) value;
  FindLastNode n s := FindLastNode_sl s.1 s.2 n;
  String_ n s := Bytes_sl cfg (NodeSlices.view s) grow (length s.1) n;
  Bytes n s := Bytes_sl cfg (NodeSlices.view s) grow (length s.1) n;
  Writer W HW n s := λ w,
    let r := Writer_sl cfg (NodeSlices.view s) grow (length s.1) n ([], w) in
    (r.1, r.2.2);
  SetValue := SetValue_sl;
  SetValuef := SetValuef_sl;
  SetMetaValue := SetMetaValue_sl;
  VisitAll V n fn := λ st,
    VisitAll_sl (length st.1.1)
      (λ item, from_option fn (lift (Panic NilDereference)) item) (Some n) st;
|}.

Definition Slice_Package : Package any (heapS any * arrays) := {|
  methods := Slice_Tree;
  New := New_sl;
  NewWithRoot := NewWithRoot_sl;
  NewWithRootf := NewWithRootf_sl;
|}.

(** The invariant: no two nodes share an array, and the heap of lists
    the state stands for is well formed. *)
Definition slice_inv s : Prop := sep s.1 s.2 ∧ wf_heap (NodeSlices.view s).

Lemma run_exec_sl cl : run (Package0:=Slice_Package) cl = exec_sl grow cl.
Proof. by destruct cl. Qed.

(** A call on slices, from what it does on lists. *)
Lemma run_sl_view cl s :
  slice_inv s →
  ∃ s', run (Package0:=Slice_Package) cl s = ((exec cl (NodeSlices.view s)).1, s') ∧
        NodeSlices.view s' = (exec cl (NodeSlices.view s)).2 ∧ sep s'.1 s'.2.
Proof.
  intros [Hsep _]. rewrite run_exec_sl.
  destruct (exec_sl_sim grow [] cl s) as (s' & ? & ? & [? _]); [by split|].
  by exists s'.
Qed.

Section laws.
Hypothesis Hcfg : cfg_ok cfg.

Lemma Slice_run_spec cl s :
  slice_inv s → valid cl (length s.1) →
  ∃ s', run (Package0:=Slice_Package) cl s = (Ok (spec_ret cl (length s.1)), s') ∧
        slice_inv s' ∧ length s'.1 = next cl (length s.1) ∧
        ∀ p t, abs (length s.1) (NodeSlices.view s) p = Some t →
               abs (length s'.1) (NodeSlices.view s') p = Some (spec cl (length s.1) t).
Proof.
  intros Hinv Hvalid. pose proof Hinv as [_ Hwf].
  destruct (run_sl_view cl s Hinv) as (s' & Hrun & Hview & Hsep').
  rewrite <- (length_abs_heap s.2 s.1) in *.
  destruct (Node_run_spec cfg cl _ Hwf Hvalid) as (h' & Hexec & Hwf' & Hlen & Habs).
  rewrite (run_exec cfg) in Hexec. rewrite Hexec in Hrun, Hview. simpl in *. subst h'.
  exists s'. rewrite <- (length_abs_heap s'.2 s'.1). by split_and!.
Qed.

Lemma Slice_new_spec cl s ret s' t :
  slice_inv s → run (Package0:=Slice_Package) cl s = (Ok ret, s') →
  spec_new cl (length s.1) = Some t →
  abs (length s'.1) (NodeSlices.view s') (length s.1) = Some t.
Proof.
  intros Hinv Hrun. pose proof Hinv as [_ Hwf].
  destruct (run_sl_view cl s Hinv) as (s1 & Hrun1 & Hview & _).
  rewrite Hrun in Hrun1. injection Hrun1 as Hret <-.
  rewrite <- (length_abs_heap s.2 s.1), <- (length_abs_heap s'.2 s'.1).
  apply (Node_new_spec cfg cl _ ret); [done|].
  rewrite (run_exec cfg). unfold NodeSlices.view in *. rewrite Hview, Hret.
  by destruct (exec cl _).
Qed.

(** The methods on slices keep the contract. *)
Definition Slice_Laws : Laws cfg (heapS any * arrays) (Package0:=Slice_Package).
Proof.
  refine {|
    inv := slice_inv;
    size s := length s.1;
    view s p := abs (length s.1) (NodeSlices.view s) p;
    run_spec := Slice_run_spec;
    new_spec := Slice_new_spec;
  |}.
  - intros s p t meta [Hsep Hwf] Ht. simpl.
    rewrite (FindByMeta_sl_view _ _ Hsep).
    apply (FindByMeta_find _ _ (length s.1)); [done..|].
    by rewrite length_abs_heap.
  - intros s p t value [Hsep Hwf] Ht. simpl.
    rewrite (FindByValue_sl_view _ _ Hsep).
    apply (FindByValue_tree _ _ (length s.1)); [done..|].
    by rewrite length_abs_heap.
  - intros s p t [Hsep Hwf] Ht Hroot. simpl. rewrite Bytes_sl_Bytes.
    rewrite <- (length_abs_heap s.2 s.1) in *.
    by apply (Node_String_spec cfg Hcfg).
  - done.
Defined.

(** C16: the same program on the heap with Go slices, where the methods
    append to [n.Nodes] in place or into a new array and the renderer
    appends to [levelsEnded]: from a state in which no two nodes share an
    array and whose view is well formed, the calls return and [String]
    returns the diagram of the tree that their specifications make of the
    tree under the node; for every growth policy of [append]. *)
Theorem Slice_program_renders cls s p t :
  sep s.1 s.2 → wf_heap (NodeSlices.view s) → valid_calls cls (length s.1) →
  abs (length s.1) (NodeSlices.view s) p = Some t →
  attached (specs cls (length s.1) t) = false →
  ∃ s', render_after (Package0:=Slice_Package) cls p s =
          (Ok (render cfg (specs cls (length s.1) t)), s').
Proof.
  intros Hsep Hwf. by apply (render_after_spec cfg (Laws0:=Slice_Laws)).
Qed.

End laws.

End slices.

(** ** Witnesses *)

(** The sample program on the heap, through the interface. *)
Lemma program_renders_witness :
  ∃ h, render_after (Package0:=Node_Package default_config) (tail sample_calls) 0
         [mkNode None VNil (VString ".") []] =
       (Ok (render default_config
              (specs (tail sample_calls) 1 (TNode 0 false VNil (VString ".") []))), h).
Proof.
  exact (program_renders default_config default_config_ok
           (tail sample_calls) [mkNode None VNil (VString ".") []] 0 _
           ltac:(by_compute) I eq_refl eq_refl).
Defined.

(** A root, on the heap with slices. *)
Lemma root_sep :
  sep (any:=GoValue) [mkNodeS None VNil (VString ".") Slice.nil_slice] [].
Proof. by apply (sep_alloc [] []); [intros p nd|]. Qed.

(** The sample program on the heap with slices. *)
Lemma Slice_program_renders_witness :
  ∃ s, render_after (Package0:=Slice_Package default_config Slice.double_grow)
         (tail sample_calls) 0
         ([mkNodeS None VNil (VString ".") Slice.nil_slice], []) =
       (Ok (render default_config
              (specs (tail sample_calls) 1 (TNode 0 false VNil (VString ".") []))), s).
Proof.
  exact (Slice_program_renders default_config Slice.double_grow default_config_ok
           (tail sample_calls) ([mkNodeS None VNil (VString ".") Slice.nil_slice], [])
           0 _ root_sep ltac:(by_compute) I eq_refl eq_refl).
Defined.

Lemma program_finds_witness :
  ∃ h, find_after (Package0:=Node_Package default_config) (tail sample_calls) 0
         (VInt 1) [mkNode None VNil (VString ".") []] = (Ok (Some 4), h).
Proof.
  exact (program_finds default_config
           (Laws0:=Node_Laws default_config default_config_ok)
           (tail sample_calls) [mkNode None VNil (VString ".") []] 0 _ (VInt 1)
           ltac:(simpl; by_compute) I eq_refl).
Defined.

(** The sample program on the heap with slices: the client theorem, for
    the second implementation. *)
Example Slice_program_finds :
  ∃ s, find_after (Package0:=Slice_Package default_config Slice.double_grow)
         (tail sample_calls) 0 (VInt 1)
         ([mkNodeS None VNil (VString ".") Slice.nil_slice], []) = (Ok (Some 4), s).
Proof.
  refine (program_finds default_config
           (Laws0:=Slice_Laws default_config Slice.double_grow default_config_ok)
           (tail sample_calls) ([mkNodeS None VNil (VString ".") Slice.nil_slice], []) 0 _
           (VInt 1) _ I eq_refl).
  split; [apply root_sep|by_compute].
Qed.

End Iface.
