(* ===== verification/Pipeline.v ===== *)
(** * Visit, then search and render

    The components composed, as a client composes them: a tree is walked by
    [VisitAll] with a visitor that rewrites the values, and then searched
    and rendered.  The walk writes values only, so the search by meta
    returns what it returned before ([FindByMeta_map_values]) and [String]
    returns the diagram of the tree with the function applied to the values
    under the root ([map_String_renders]).  A search by meta written
    with [VisitAll] and a closure that remembers the first match returns
    what [FindByMeta] returns ([FindByMeta_find_by_visit]). *)

From S2P Require Import Prelude Payload Sink Heap Node Invariant Tree Search Forest Visit Roundtrip.
From S2P Require Import Render RenderSpec Refinement.

Section pipeline.
Context `{Payload any}.
Variable cfg : Config.
Hypothesis Hcfg : cfg_ok cfg.
Variable f : any → any.
Implicit Types (h : heap any) (n p : ptr) (nd : Node any) (t : tree any)
  (L : list ptr).

(** ** Definitions *)

(** [n.VisitAll(func(item *Node) { item.SetValue(f(item.Value)) })] and
    then [n.String()]. *)
Definition map_String (fuel : nat) n : M (heap any) string :=
  λ h,
    match VisitAll fuel (set_values f) n (h, ()) with
    | (Ok _, (h', _)) => (String_ cfg h' fuel n, h')
    | (Panic e, (h', _)) => (Panic e, h')
    | (OutOfFuel, (h', _)) => (OutOfFuel, h')
    end.

(** The same walk and then [n.FindByMeta(x)]. *)
Definition map_FindByMeta (fuel : nat) n (x : any) : M (heap any) (option ptr) :=
  λ h,
    match VisitAll fuel (set_values f) n (h, ()) with
    | (Ok _, (h', _)) => (FindByMeta fuel h' n x, h')
    | (Panic e, (h', _)) => (Panic e, h')
    | (OutOfFuel, (h', _)) => (OutOfFuel, h')
    end.

(** ** The search after the walk *)

Lemma has_meta_map_values L h x p :
  has_meta (map_values f L h) x p ↔ has_meta h x p.
Proof.
  unfold has_meta, has_field, map_values, ptr in *. rewrite list_lookup_imap.
  destruct (h !! p) as [nd|]; [|done]. simpl. by case_decide.
Qed.

Lemma FindByMeta_map_values L h fuel n x :
  wf_heap h → n < length h → length h ≤ fuel →
  FindByMeta fuel (map_values f L h) n x = FindByMeta fuel h n x.
Proof.
  intros Hwf Hn Hfuel. pose proof (map_values_shape f L h) as Hs.
  pose proof (same_shape_wf _ _ Hs Hwf) as Hwf'.
  pose proof (same_shape_length _ _ Hs) as Hlen.
  rewrite !FindByMeta_descendants by (done || lia).
  rewrite <- (same_shape_below _ _ Hs n n eq_refl). do 2 f_equal.
  apply filter_ext_Forall, Forall_forall. intros p _. apply has_meta_map_values.
Qed.

(** A walk that rewrites the values and then a search by meta: the
    walk returns, and the search returns the node it returned before the
    walk. *)
Theorem map_FindByMeta_same h fuel n x :
  wf_heap h → n < length h → length h ≤ fuel →
  map_FindByMeta fuel n x h =
    (FindByMeta fuel h n x, map_values f (below h n) h).
Proof.
  intros Hwf Hn Hfuel. unfold map_FindByMeta.
  destruct (abs_total h (length h) n Hwf Hn) as [t Habs]; [lia|].
  destruct (VisitAll_set_values f h fuel _ n t () Hwf Habs Hfuel) as [-> _].
  by rewrite FindByMeta_map_values.
Qed.

(** ** The diagram after the walk *)

(** C28: a walk that rewrites the values and then [String], on a node
    without parent: the walk returns, and [String] returns the diagram of
    the tree that was under the node with [f] applied to the values of the
    nodes under its root. *)
Theorem map_String_renders h fuel n nd t :
  wf_heap h → h !! n = Some nd → Root nd = None →
  abs (length h) h n = Some t → length h ≤ fuel →
  map_String fuel n h =
    (Ok (render cfg (map_kids f t)), map_values f (below h n) h).
Proof.
  intros Hwf Hn Hroot Habs Hfuel. unfold map_String.
  destruct (VisitAll_set_values f h fuel _ n t () Hwf Habs Hfuel) as [-> Habs'].
  pose proof (map_values_shape f (below h n) h) as Hs.
  destruct (same_shape_lookup _ _ _ _ Hs Hn) as (nd' & Hn' & HR & _).
  unfold String_, Bytes.
  rewrite (Writer_render cfg _ Hcfg (same_shape_wf _ _ Hs Hwf) fuel (length h) n nd'
             (map_kids f t) "" Hn');
    [done|congruence|done|by rewrite <- (same_shape_length _ _ Hs)].
Qed.

End pipeline.

(** ** A search written with [VisitAll] *)

Section search_by_walk.
Context `{Payload any}.
Implicit Types (h : heap any) (n p : ptr) (meta : any).

(** The closure
    [func(item *Node) { if found == nil && reflect.DeepEqual(item.Meta, meta) { found = item } }]:
    it remembers the first node it is called on that has the meta. *)
Definition remember meta : NodeVisitor (option ptr) := λ p,
  s ← get_state;
  match s.2 with
  | Some _ => mret ()
  | None =>
      nd ← lift (load s.1 p);
      if DeepEqual (Meta nd) meta then put_state (s.1, Some p) else mret ()
  end.

(** [n.VisitAll] with that closure, and then what it remembered. *)
Definition find_by_visit (fuel : nat) h n meta : res (option ptr) :=
  match VisitAll fuel (remember meta) n (h, None) with
  | (Ok _, (_, found)) => Ok found
  | (Panic e, _) => Panic e
  | (OutOfFuel, _) => OutOfFuel
  end.

Lemma remember_run h meta p found :
  p < length h →
  remember meta p (h, found) =
    (Ok (), (h, match found with
                | Some q => Some q
                | None => if decide (has_meta h meta p) then Some p else None
                end)).
Proof.
  intros [nd Hp]%lookup_lt_is_Some_2. unfold remember, get_state. unfold_M. simpl.
  destruct found as [q|]; [done|]. rewrite (load_Some _ _ _ Hp). simpl.
  pose proof (has_field_lookup Meta h meta p nd Hp) as Hiff. fold (has_meta h meta p) in Hiff.
  case_decide as Hm; destruct (DeepEqual (Meta nd) meta); simpl in *; (done || tauto).
Qed.

Lemma foldl_remember h meta l found :
  Forall (λ p, p < length h) l →
  foldl (visit (remember meta)) (h, found) l =
    (h, match found with
        | Some q => Some q
        | None => head (filter (has_meta h meta) l)
        end).
Proof.
  intros Hl. revert found. induction Hl as [|p l Hp _ IH]; intros found;
    [by destruct found|].
  cbn [foldl]. unfold visit at 2. rewrite (remember_run _ _ _ _ Hp). simpl.
  rewrite IH, filter_cons. destruct found; [done|]. by case_decide.
Qed.

(** C29: The search [FindByMeta] makes, which stops at the first match, is
    the search a walk of [VisitAll] over all the nodes makes with a
    closure that remembers the first match. *)
Theorem FindByMeta_find_by_visit h n meta fuel :
  wf_heap h → n < length h → length h ≤ fuel →
  FindByMeta fuel h n meta = find_by_visit fuel h n meta.
Proof.
  intros Hwf Hn Hfuel.
  assert (Forall (λ p, p < length h) (below h n)) as Hbelow.
  { apply Forall_forall. intros c Hc. by apply (descendants_lt h Hwf) in Hc as [_ ?]. }
  destruct (lookup_lt_is_Some_2 h n Hn) as [nd Hnd].
  destruct (VisitAll_walk h (remember meta) (λ h', h' = h) (λ p, p < length h) Hwf)
    with (fuel := fuel) (n := n) (s := (h, @None ptr)) (nd := nd) (nd' := nd)
    as [Hrun _]; [by intros h' p pd -> _ ?; exists pd| |done..| |lia|].
  - intros p [h' found] Hp Hh. simpl in Hh. subst h'. by rewrite remember_run.
  - by apply Forall_forall.
  - unfold find_by_visit. rewrite Hrun, foldl_remember by done.
    by apply FindByMeta_descendants; [..|lia].
Qed.

End search_by_walk.

(** ** Witnesses *)

Lemma FindByMeta_find_by_visit_witness :
  FindByMeta 6 sample_heap 0 (VInt 1) = find_by_visit 6 sample_heap 0 (VInt 1).
Proof.
  exact (FindByMeta_find_by_visit sample_heap 0 (VInt 1) 6 ltac:(by_compute)
           ltac:(simpl; lia) (le_n _)).
Defined.

Lemma map_FindByMeta_same_witness :
  map_FindByMeta upper 6 0 (VInt 1) sample_heap =
    (Ok (Some 4), map_values upper (below sample_heap 0) sample_heap).
Proof.
  exact (map_FindByMeta_same upper sample_heap 6 0 (VInt 1)
           ltac:(by_compute) ltac:(simpl; lia) (le_n _)).
Defined.

Lemma map_String_renders_witness :
  ∃ t, abs 6 sample_heap 0 = Some t ∧
    map_String default_config upper 6 0 sample_heap =
      (Ok (render default_config (map_kids upper t)),
       map_values upper (below sample_heap 0) sample_heap).
Proof.
  eexists. split; [reflexivity|].
  exact (map_String_renders default_config default_config_ok upper sample_heap 6 0
           _ _ ltac:(by_compute) eq_refl eq_refl eq_refl (le_n _)).
Defined.
