(* ===== verification/RenderErrors.v ===== *)
(** * When the renderer panics, and when it does not return

    The renderer has no error value: what goes wrong is a Go panic.  Two
    kinds can be reached through the public operations; on a heap with a
    cycle, which they cannot build, [printNodes] recurses for ever.

    - [padding] fills [links], a slice of [level + 1] strings, from the
      last index down while it walks to the root.  [Writer] starts at
      level 0 whatever node it is called on; when the walk passes more
      than [level + 1] nodes that have a parent, the index becomes -1 and
      the assignment panics.  This happens when a node that is not a root
      is rendered and a value of several lines is met.
    - [strings.Repeat] panics on a negative count: a negative
      [IndentSize], or the largest [int], for which [IndentSize + 1]
      wraps around. *)

From S2P Require Import Prelude GoStrings Payload Sink Heap Node Invariant.
From S2P Require Import Render Tree RenderSpec RenderProps.

Section errors.
Context `{Payload any}.
Variable cfg : Config.
Variable h : heap any.
Implicit Types (n r : ptr) (nd : Node any) (level k : nat) (links : list string).

(** ** Definitions *)

(** The node [k] parent pointers above [n]. *)
Fixpoint up (k : nat) n : option ptr :=
  match k with
  | 0 => Some n
  | S k' => nd ← h !! n; r ← Root nd; up k' r
  end.

(** ** The walk of [padding] *)

Lemma up_step k n nd r :
  h !! n = Some nd → Root nd = Some r → up (S k) n = up k r.
Proof. intros Hn Hr. simpl. by rewrite Hn; simpl; rewrite Hr. Qed.

Lemma up_S k n :
  is_Some (up (S k) n) →
  ∃ nd r, h !! n = Some nd ∧ Root nd = Some r ∧ is_Some (up k r).
Proof.
  simpl. destruct (h !! n) as [nd|]; simpl; [|by intros [? ?]].
  destruct (Root nd) as [r|] eqn:Hr; simpl; [|by intros [? ?]]. eauto.
Qed.

Section walk.
Hypothesis Hcfg : cfg_ok cfg.
Hypothesis Hwf : wf_heap h.

Lemma isLast_attached n nd r :
  h !! n = Some nd → Root nd = Some r → ∃ b, isLast h n = Ok b.
Proof.
  intros Hn Hr. destruct (wf_heap_parent _ _ _ _ Hwf Hn Hr) as (rd & Hrd & Hin & _).
  apply list_elem_of_lookup in Hin as [i Hi].
  eexists. by eapply isLast_index.
Qed.

(** One turn of the loop at a node that has a parent. *)
Lemma padding_loop_step n nd r :
  h !! n = Some nd → Root nd = Some r →
  ∃ b : bool, ∀ fuel links (level : Z),
    padding_loop cfg h (S fuel) links level n =
      (links' ← set_index links level (segment cfg b);
       padding_loop cfg h fuel links' (level - 1) r).
Proof.
  intros Hn Hr. destruct (isLast_attached _ _ _ Hn Hr) as [b Hb]. exists b.
  intros fuel links level. simpl.
  rewrite (load_Some _ _ _ Hn). simpl. rewrite Hr, Hb. simpl.
  by rewrite (segment_Ok cfg Hcfg).
Qed.

Lemma padding_loop_panics k : ∀ fuel links n,
  k < fuel → k ≤ length links → is_Some (up (S k) n) →
  padding_loop cfg h fuel links (Z.of_nat k - 1) n = Panic IndexOutOfRange.
Proof.
  induction k as [|k IH]; intros [|fuel] links n Hfuel Hlen Hup; try lia;
    apply up_S in Hup as (nd & r & Hn & Hr & Hup);
    destruct (padding_loop_step _ _ _ Hn Hr) as [b ->].
  - by rewrite set_index_negative by lia.
  - rewrite set_index_Ok by lia. simpl.
    replace (Z.of_nat (S k) - 1 - 1)%Z with (Z.of_nat k - 1)%Z by lia.
    apply IH; [lia|rewrite length_insert; lia|done].
Qed.

(** [padding] panics with an index out of range when the walk passes more
    than [level + 1] nodes that have a parent. *)
Lemma padding_out_of_range level n :
  is_Some (up (level + 2) n) → padding cfg h level n = Panic IndexOutOfRange.
Proof.
  intros Hup. unfold padding.
  replace (Z.of_nat level) with (Z.of_nat (S level) - 1)%Z by lia.
  rewrite padding_loop_panics; [done|lia|rewrite length_replicate; lia|].
  by replace (S (S level)) with (level + 2) by lia.
Qed.

(** The line of a node whose value has several lines, when more than
    [level + 1] nodes from it upwards have a parent: the columns are
    written, and [renderValue] panics. *)
Lemma printValues_panics level levelsEnded edge n nd (buf : string) :
  h !! n = Some nd → contains "010"%char (fmt_v (Value nd)) →
  is_Some (up (level + 2) n) →
  printValues cfg h level levelsEnded edge n buf =
    (Panic IndexOutOfRange, buf +:+ columns cfg levelsEnded level).
Proof.
  intros Hn Hnl Hup. unfold printValues.
  erewrite M_bind_Ok by (by apply print_columns).
  apply M_bind_Panic. unfold renderValue. rewrite (load_Some _ _ _ Hn). simpl.
  rewrite decide_False by (by rewrite Split_length_lt_2; intros []).
  by rewrite (padding_out_of_range _ _ Hup).
Qed.

Lemma Writer_deep_panics fuel n nd (buf : string) :
  h !! n = Some nd → is_Some (up 2 n) →
  contains "010"%char (fmt_v (Value nd)) →
  (Writer cfg h fuel n buf).1 = Panic IndexOutOfRange.
Proof.
  intros Hn Hup Hnl. pose proof Hup as (nd' & r & Hn' & Hr & _)%up_S. simplify_eq.
  unfold Writer. rewrite (load_Some _ _ _ Hn), M_bind_lift_Ok, Hr.
  apply M_bind_Panic_1.
  destruct (decide (length (Nodes nd) = 0)); simpl;
    by erewrite M_bind_Panic by (by apply (printValues_panics 0 _ _ n nd)).
Qed.

(** C11: rendering a node whose parent has a parent panics when its value
    has several lines. *)
Theorem Bytes_attached_panics fuel n nd :
  h !! n = Some nd → is_Some (up 2 n) →
  contains "010"%char (fmt_v (Value nd)) →
  Bytes cfg h fuel n = Panic IndexOutOfRange.
Proof.
  intros Hn Hup Hnl. pose proof (Writer_deep_panics fuel n nd "" Hn Hup Hnl) as Hw.
  unfold Bytes. by destruct (Writer _ _ _ _ _) as [[?|?|] ?]; simplify_eq/=.
Qed.

End walk.

(** ** [strings.Repeat] *)

Lemma segment_negative (b : bool) :
  (int_min ≤ IndentSize cfg < -1)%Z →
  (if b then blank_segment cfg else link_segment cfg) = Panic NegativeRepeat.
Proof.
  intros Hneg. unfold blank_segment, link_segment. destruct b.
  - rewrite int_add_small by (unfold int_min, int_max in *; lia).
    by rewrite Repeat_negative by lia.
  - by rewrite Repeat_negative by lia.
Qed.

(** C37: with an indent size below -1 no line under the first level can be
    printed: the first column panics. *)
Theorem printValues_negative_indent `{Sink W} level levelsEnded edge n (w : W) :
  (int_min ≤ IndentSize cfg < -1)%Z → 0 < level →
  printValues cfg h level levelsEnded edge n w = (Panic NegativeRepeat, w).
Proof.
  intros Hneg Hlevel. destruct level as [|level]; [lia|].
  unfold printValues. apply M_bind_Panic. simpl. apply M_bind_Panic.
  pose proof (segment_negative (isEnded levelsEnded 0) Hneg) as Hseg.
  by destruct (isEnded levelsEnded 0); rewrite Hseg.
Qed.

(** The largest [int] is not an indent size either: [IndentSize + 1]
    wraps around to the smallest. *)
Lemma blank_segment_wraps :
  IndentSize cfg = int_max → blank_segment cfg = Panic NegativeRepeat.
Proof.
  intros Hmax. unfold blank_segment. rewrite Hmax, int_add_overflow.
  by apply Repeat_negative.
Qed.

(** C38: with the largest [int] as indent size, [IndentSize + 1] wraps
    around to the smallest [int]: the line of a node below the first
    level is not printed when the first level has ended, that is under
    the last child of the root; [strings.Repeat] panics on the negative
    count at the first column and nothing is written.  This holds on
    every heap, for every sink, node and level. *)
Theorem printValues_indent_overflow `{Sink W} level levelsEnded edge n (w : W) :
  IndentSize cfg = int_max → 0 < level → isEnded levelsEnded 0 = true →
  printValues cfg h level levelsEnded edge n w = (Panic NegativeRepeat, w).
Proof.
  intros Hmax Hlevel Hended. destruct level as [|level]; [lia|].
  unfold printValues. apply M_bind_Panic. simpl. apply M_bind_Panic.
  by rewrite Hended, blank_segment_wraps.
Qed.

End errors.

(** ** A heap with a cycle *)

(** A node that is its own child: no call of the public operations builds
    it, a program that assigns to the fields of a [Node] can. *)
Definition loop_heap : heap GoValue := [mkNode None VNil (VString ".") [0]].

Lemma printNodes_loop cfg fuel :
  cfg_ok cfg →
  ∀ level levelsEnded (buf : string), ∃ buf',
    printNodes cfg loop_heap fuel level levelsEnded [0] buf = (OutOfFuel, buf').
Proof.
  intros Hcfg. induction fuel as [|fuel IH]; intros level levelsEnded buf;
    [by eexists|].
  cbn [printNodes range_nodes].
  erewrite M_bind_Ok; last first.
  { eapply (printValues_line cfg loop_heap Hcfg); [reflexivity|].
    left. eapply padding_pad_inv, pad_inv_detached; reflexivity. }
  rewrite (load_Some loop_heap 0 _ eq_refl), M_bind_lift_Ok. simpl.
  edestruct IH as [buf' Hbuf']. exists buf'.
  by erewrite M_bind_OutOfFuel by apply Hbuf'.
Qed.

(** C36: on a heap with a cycle the renderer does not return: whatever
    the fuel, it runs out. *)
Theorem Bytes_cycle_diverges cfg fuel :
  cfg_ok cfg → Bytes cfg loop_heap fuel 0 = OutOfFuel.
Proof.
  intros Hcfg. unfold Bytes, Writer. simpl.
  unfold Fprint, Write, Buffer_sink. unfold_M. simpl.
  edestruct (printNodes_loop cfg fuel Hcfg 0 []) as [buf' Hbuf'].
  by erewrite Hbuf'.
Qed.

(** ** Witnesses *)

Lemma Bytes_cycle_diverges_witness :
  Bytes default_config loop_heap 100 0 = OutOfFuel.
Proof. exact (Bytes_cycle_diverges default_config 100 default_config_ok). Defined.

(** The leaf of two lines of the sample program, rendered by itself. *)
Lemma Bytes_attached_panics_witness :
  Bytes default_config sample_heap 6 3 = Panic IndexOutOfRange.
Proof.
  exact (Bytes_attached_panics default_config sample_heap default_config_ok
           ltac:(by_compute) 6 3 _ eq_refl (mk_is_Some _ _ eq_refl)
           ltac:(by_compute)).
Defined.

Definition negative_config : Config := mkConfig "│" "├─" "└─" (-2).

Lemma printValues_negative_indent_witness :
  printValues negative_config sample_heap 1 [] "├─" 3 "" = (Panic NegativeRepeat, "").
Proof.
  exact (printValues_negative_indent negative_config sample_heap 1 [] "├─" 3 ""
           ltac:(unfold int_min; simpl; lia) ltac:(lia)).
Defined.

(** The node x of the sample program, under B, were B the last child. *)
Lemma printValues_indent_overflow_witness :
  printValues (mkConfig "│" "├─" "└─" int_max) sample_heap 1 [0] "└─" 4 "" =
    (Panic NegativeRepeat, "").
Proof.
  exact (printValues_indent_overflow (mkConfig "│" "├─" "└─" int_max) sample_heap
           1 [0] "└─" 4 "" eq_refl ltac:(lia) eq_refl).
Defined.
