(* ===== verification/Attached.v ===== *)
(** * Rendering a node that has a parent

    [Writer] starts at level 0 whatever node it is called on, and draws the
    children of a node that has a parent at level 0 too.  [padding] walks
    from a node whose value has several lines to the first node without
    parent and has one slot per level: under a receiver that has a parent
    the walk is one node too long, unless a node cut off by [Branch] stops
    it.  [render_attached] says what [Bytes] returns on such a receiver:
    the panic, when a value of several lines is [exposed], and else the
    line of the receiver and the diagram of its children
    ([Bytes_on_attached]). *)

From S2P Require Import Prelude GoStrings Payload Sink Heap Node Invariant.
From S2P Require Import Render Tree RenderSpec RenderProps Refinement RenderErrors.

Section attached.
Context `{Payload any}.
Variable cfg : Config.
Variable h : heap any.
Hypothesis Hcfg : cfg_ok cfg.
Hypothesis Hwf : wf_heap h.
Implicit Types (p c n r : ptr) (nd cd pd rd : Node any) (buf : string)
  (level : nat) (levelsEnded : list nat) (ks : list (tree any)) (t : tree any).

(** ** Definitions *)

(** What [Bytes] returns on a node that has a parent: [deep] says that
    the parent has a parent too, [last] that the node is the last child of
    its parent. *)
Definition render_attached (deep last : bool) t : res string :=
  if decide ((deep ∧ contains "010"%char (fmt_v (tvalue t))) ∨
             Exists exposed (kids t))
  then Panic IndexOutOfRange
  else Ok (line cfg "" (segment cfg last) (bool_decide (kids t = []))
             (tmeta t) (tvalue t) +:+
           render_forest cfg "" "" (kids t)).

(** [rec] panics on every list of children of a node with [level + 1]
    nodes that have a parent from it upwards, when a value of several
    lines is exposed in their trees. *)
Definition panics (rec : nat → list nat → list ptr → M string ()) (bound : nat)
    : Prop :=
  ∀ fa level levelsEnded p pd ks buf,
    h !! p = Some pd → is_Some (up h (level + 1) p) →
    Forall (λ l, l < level) levelsEnded →
    mapM (abs fa h) (Nodes pd) = Some ks → forest_height ks ≤ bound →
    Exists exposed ks →
    (rec level levelsEnded (Nodes pd) buf).1 = Panic IndexOutOfRange.

(** ** The walk of [padding], one level down *)

Lemma up_child level p pd c cd :
  h !! p = Some pd → c ∈ Nodes pd → h !! c = Some cd → is_Some (Root cd) →
  is_Some (up h (level + 1) p) → is_Some (up h (level + 2) c).
Proof.
  intros Hp Hin Hc [r Hr] Hup.
  destruct (wf_heap_child h p pd c Hwf Hp Hin) as (_ & cd' & Hc' & Hroot).
  simplify_eq. destruct Hroot as [Hroot|Hroot]; [|congruence].
  replace (level + 2) with (S (level + 1)) by lia.
  by rewrite (up_step h _ _ _ _ Hc Hroot).
Qed.

(** ** One child whose tree has an exposed value *)

Lemma child_panics rec bound fa level levelsEnded p pd c cd i kks rest buf :
  panics rec bound →
  h !! p = Some pd → Nodes pd !! i = Some c → h !! c = Some cd →
  is_Some (up h (level + 1) p) → Forall (λ l, l < level) levelsEnded →
  mapM (abs fa h) (Nodes cd) = Some kks → forest_height kks ≤ bound →
  exposed (node_of c cd kks) →
  (range_nodes cfg h rec level (length (Nodes pd)) i levelsEnded (c :: rest) buf).1
    = Panic IndexOutOfRange.
Proof.
  intros Hrec Hp Hi Hc Hup Hle Hkks Hheight [Hatt Hexp]%exposed_TNode.
  apply bool_decide_unpack in Hatt.
  pose proof (up_child level _ _ _ _ Hp (list_elem_of_lookup_2 _ _ _ Hi) Hc Hatt Hup)
    as Hup'.
  cbn [range_nodes].
  destruct (decide (contains "010"%char (fmt_v (Value cd)))) as [Hnl|Hone].
  { apply M_bind_Panic_1.
    by rewrite (printValues_panics cfg h Hcfg Hwf _ _ _ c cd). }
  destruct Hexp as [?|Hexp]; [done|].
  erewrite M_bind_Ok
    by (apply (print_child cfg h Hcfg Hwf _ _ p pd [] c cd i); [done..|by right; left]).
  rewrite (load_Some _ _ _ Hc), M_bind_lift_Ok. apply M_bind_Panic_1.
  rewrite decide_True
    by (rewrite (length_mapM _ _ _ Hkks); destruct Hexp; simpl; lia).
  apply (Hrec fa _ _ c cd kks); [done|by rewrite <- Nat.add_assoc| |done..].
  case_bool_decide; [apply Forall_app; split; [|repeat constructor; lia]|];
    (eapply Forall_impl; [done|simpl; lia]).
Qed.

(** ** One child whose tree has none *)

Lemma not_exposed_known p level c cd kks :
  ¬ exposed (node_of c cd kks) →
  pad_known cfg h p level [] (bool_decide (is_Some (Root cd)))
    (¬ contains "010"%char (fmt_v (Value cd))) ∧
  pad_known cfg h p level [] (bool_decide (is_Some (Root cd)))
    (Forall (λ k, ¬ exposed k) kks).
Proof.
  intros Hsafe.
  assert (pad_ok cfg h p level [] [node_of c cd kks]) as Hpad
    by (right; by repeat constructor).
  by apply pad_ok_cons in Hpad as (? & ? & _).
Qed.

(** ** The loop over the siblings *)

Lemma range_nodes_panics rec bound :
  draws cfg h rec bound → panics rec bound →
  ∀ ks fa level levelsEnded p pd i buf,
    h !! p = Some pd → is_Some (up h (level + 1) p) →
    Forall (λ l, l < level) levelsEnded →
    mapM (abs fa h) (drop i (Nodes pd)) = Some ks →
    forest_height ks ≤ S bound → Exists exposed ks →
    (range_nodes cfg h rec level (length (Nodes pd)) i levelsEnded
       (drop i (Nodes pd)) buf).1 = Panic IndexOutOfRange.
Proof.
  intros Hdraws Hrec. induction ks as [|k ks IH];
    intros fa level levelsEnded p pd i buf Hp Hup Hle Hks Hheight Hex;
    [by apply Exists_nil in Hex|].
  destruct (drop i (Nodes pd)) as [|c rest] eqn:Hdrop;
    [by apply length_mapM in Hks|].
  apply drop_cons_inv in Hdrop as [Hi ->].
  apply mapM_Some in Hks. apply Forall2_cons in Hks as [Hk Hks].
  apply mapM_Some in Hks.
  apply abs_Some in Hk as (fa' & cd & kks & -> & Hc & Hkks & ->).
  rewrite forest_height_cons in Hheight. unfold node_of in Hheight.
  rewrite height_TNode in Hheight.
  destruct (decide (exposed (node_of c cd kks))) as [Hexp|Hsafe].
  { eapply (child_panics rec bound); [done..|lia|done]. }
  apply Exists_cons in Hex as [?|Hex]; [done|].
  destruct (not_exposed_known p level c cd kks Hsafe) as [Hpadv Hpadk].
  cbn [range_nodes].
  erewrite M_bind_Ok by (by apply (print_child cfg h Hcfg Hwf _ _ p pd [] c cd i)).
  rewrite (load_Some _ _ _ Hc), M_bind_lift_Ok.
  erewrite M_bind_Ok
    by (eapply (print_kids cfg h Hcfg Hwf rec bound fa' _ _ p pd [] c cd i kks);
        [done..|lia]).
  clear Hpadv Hpadk. case_bool_decide as Hlast.
  - pose proof (lookup_lt_Some _ _ _ Hi). rewrite drop_ge in Hks by lia.
    apply length_mapM in Hks. by destruct Hex.
  - apply (IH (S fa') level levelsEnded p pd (S i)); (done || lia).
Qed.

(** ** [printNodes] *)

Lemma printNodes_panics fuel : panics (printNodes cfg h fuel) fuel.
Proof.
  induction fuel as [|fuel IH];
    intros fa level levelsEnded p pd ks buf Hp Hup Hle Hks Hheight Hex.
  - destruct Hex as [k ks ?|k ks ?]; rewrite forest_height_cons in Hheight;
      pose proof (height_pos k); lia.
  - cbn [printNodes]. rewrite <- (drop_0 (Nodes pd)) at 2.
    apply (range_nodes_panics _ fuel (printNodes_draws cfg h Hcfg Hwf fuel) IH
             ks fa level levelsEnded p pd 0 buf); [done..|by rewrite drop_0|lia|done].
Qed.

(** ** The line of the receiver *)

(** The padding of the receiver is one column, when its parent has no
    parent. *)
Lemma own_pads n nd r rd i :
  h !! n = Some nd → Root nd = Some r → h !! r = Some rd →
  Nodes rd !! i = Some n →
  ¬ (bool_decide (is_Some (Root rd)) ∧ contains "010"%char (fmt_v (Value nd))) →
  pads cfg h 0 n nd (segment cfg (bool_decide (i = length (Nodes rd) - 1))).
Proof.
  intros Hn Hr Hrd Hi Hnot.
  destruct (decide (contains "010"%char (fmt_v (Value nd)))) as [Hnl|Hone];
    [left|by right].
  assert (Root rd = None) as Hroot.
  { destruct (Root rd) eqn:E; [|done]. destruct Hnot. by split. }
  pose proof (pad_inv_child cfg h Hcfg Hwf r rd n nd i 0 [] Hrd Hi Hn
                (pad_inv_detached cfg h r rd 0 Hrd Hroot)) as Hinv.
  apply padding_pad_inv in Hinv. rewrite Hinv, Join_segs_of, Hr.
  by rewrite bool_decide_eq_true_2 by done.
Qed.

Lemma own_line n nd r rd i levelsEnded edge buf :
  h !! n = Some nd → Root nd = Some r → h !! r = Some rd →
  Nodes rd !! i = Some n →
  ¬ (bool_decide (is_Some (Root rd)) ∧ contains "010"%char (fmt_v (Value nd))) →
  printValues cfg h 0 levelsEnded edge n buf =
    (Ok (), buf +:+ (edge +:+ " " +:+
       label (segment cfg (bool_decide (i = length (Nodes rd) - 1)))
         (Meta nd) (Value nd) +:+ nl)).
Proof.
  intros Hn Hr Hrd Hi Hnot.
  rewrite (printValues_line cfg h Hcfg _ _ _ _ _ _ _ Hn
             (own_pads _ _ _ _ _ Hn Hr Hrd Hi Hnot)).
  unfold columns. simpl. by rewrite string_app_nil_l.
Qed.

(** ** [Writer] *)

Section writer.
Variables (fuel fa : nat) (n r : ptr) (nd rd : Node any) (i : nat)
  (ks : list (tree any)).
Hypothesis Hn : h !! n = Some nd.
Hypothesis Hr : Root nd = Some r.
Hypothesis Hrd : h !! r = Some rd.
Hypothesis Hi : Nodes rd !! i = Some n.
Hypothesis Hks : mapM (abs fa h) (Nodes nd) = Some ks.
Hypothesis Hheight : forest_height ks ≤ fuel.

Let deep := bool_decide (is_Some (Root rd)).
Let last := bool_decide (i = length (Nodes rd) - 1).

Lemma Writer_exposed_panics buf :
  (deep ∧ contains "010"%char (fmt_v (Value nd))) ∨ Exists exposed ks →
  (Writer cfg h fuel n buf).1 = Panic IndexOutOfRange.
Proof.
  intros Hbad.
  destruct (decide (deep ∧ contains "010"%char (fmt_v (Value nd))))
    as [[[r' Hr']%bool_decide_unpack Hnl]|Hnot].
  { apply (Writer_deep_panics cfg h Hcfg Hwf fuel n nd); [done| |done].
    by rewrite (up_step h _ _ _ _ Hn Hr), (up_step h _ _ _ _ Hrd Hr'). }
  destruct Hbad as [?|Hex]; [done|].
  assert (0 < length (Nodes nd)) as Hlen
    by (rewrite (length_mapM _ _ _ Hks); destruct Hex; simpl; lia).
  unfold Writer. rewrite (load_Some _ _ _ Hn), M_bind_lift_Ok, Hr.
  rewrite decide_False by lia.
  erewrite M_bind_Ok
    by (erewrite M_bind_Ok by (by eapply own_line); reflexivity).
  rewrite decide_True by done.
  apply (printNodes_panics fuel fa 0 [] n nd ks); [done| |done..].
  cbn [Nat.add]. by rewrite (up_step h _ _ _ _ Hn Hr).
Qed.

Lemma Writer_attached_draws buf :
  ¬ ((deep ∧ contains "010"%char (fmt_v (Value nd))) ∨ Exists exposed ks) →
  Writer cfg h fuel n buf =
    (Ok (), buf +:+
       (line cfg "" (segment cfg last) (bool_decide (ks = [])) (Meta nd) (Value nd) +:+
        render_forest cfg "" "" ks)).
Proof.
  intros Hgood.
  assert (¬ (deep ∧ contains "010"%char (fmt_v (Value nd)))) as Hnot by tauto.
  assert (Forall (λ k, ¬ exposed k) ks) as Hsafe by (apply Forall_Exists_neg; tauto).
  unfold Writer. rewrite (load_Some _ _ _ Hn), M_bind_lift_Ok, Hr.
  assert (bool_decide (ks = []) = bool_decide (length (Nodes nd) = 0)) as ->.
  { apply bool_decide_ext. pose proof (length_mapM _ _ _ Hks) as Hl.
    destruct ks; simpl in Hl; split; intros; (done || lia). }
  destruct (decide (length (Nodes nd) = 0)) as [Hlen|Hlen];
    rewrite ?bool_decide_eq_true_2, ?bool_decide_eq_false_2 by done;
    (erewrite M_bind_Ok
       by (erewrite M_bind_Ok by (by eapply own_line); reflexivity));
    (erewrite (Writer_kids cfg h Hcfg Hwf fuel fa) by (done || lia || by right));
    unfold line, connector, last; by rewrite string_app_nil_l, !string_app_assoc.
Qed.

End writer.

(** C12: what [Bytes] returns on a node that has a parent.  It panics with
    an index out of range when the value of the node has several lines and
    the parent has a parent, or when a value of several lines is reached
    from a child through nodes that have a parent; otherwise it returns
    the line of the node, with the connector of a node with or without
    children, and the diagram of its children at the same level. *)
Theorem Bytes_on_attached fuel fa n nd r rd i t :
  h !! n = Some nd → Root nd = Some r → h !! r = Some rd →
  Nodes rd !! i = Some n → abs fa h n = Some t → length h ≤ fuel →
  Bytes cfg h fuel n =
    render_attached (bool_decide (is_Some (Root rd)))
      (bool_decide (i = length (Nodes rd) - 1)) t.
Proof.
  intros Hn Hr Hrd Hi Habs Hfuel.
  pose proof (abs_height _ _ _ _ Hwf Habs) as Hheight.
  apply abs_Some in Habs as (fa' & nd' & ks & -> & Hn' & Hks & ->).
  unfold node_of in *. simplify_eq. rewrite height_TNode in Hheight.
  unfold render_attached, Bytes. simpl. case_decide as Hbad.
  - pose proof (Writer_exposed_panics fuel fa' n r nd rd i ks Hn Hr Hrd Hi Hks
                  ltac:(lia) "" Hbad) as Hw.
    by destruct (Writer _ _ _ _ _) as [[?|?|] ?]; simplify_eq/=.
  - by rewrite (Writer_attached_draws fuel fa' n r nd rd i ks Hn Hr Hrd Hi Hks
                  ltac:(lia) "" Hbad).
Qed.

End attached.

(** ** Witnesses *)

(** The branch B of the sample tree, rendered by itself: the leaf under
    it has a value of two lines. *)
Lemma Bytes_on_attached_witness :
  Bytes default_config sample_heap 6 2 = Panic IndexOutOfRange.
Proof.
  exact (Bytes_on_attached default_config sample_heap default_config_ok
           ltac:(by_compute) 6 6 2 _ 0 _ 1 _ eq_refl eq_refl eq_refl eq_refl
           eq_refl (le_n _)).
Defined.

(** A root with the leaf of two lines A and the leaf C; and a root with
    the branch A, under it the branch B cut off by [Branch], and under B a
    leaf of two lines. *)
Definition two_line_leaf : heap GoValue :=
  [mkNode None VNil (VString ".") [1; 2];
   mkNode (Some 0) VNil (VString ("A" +:+ nl +:+ "B")) [];
   mkNode (Some 0) VNil (VString "C") []].

Definition cut_branch : heap GoValue :=
  [mkNode None VNil (VString ".") [1];
   mkNode (Some 0) VNil (VString "A") [2];
   mkNode None VNil (VString "B") [3];
   mkNode (Some 2) VNil (VString ("C" +:+ nl +:+ "D")) []].

(** The leaf of two lines under a root renders by itself: its second line
    starts with the link of a node that has a sibling below, the first
    with the connector of a node without children. *)
Example Bytes_two_line_leaf :
  Bytes default_config two_line_leaf 3 1 =
    Ok ("└─ A" +:+ nl +:+ "│   B" +:+ nl).
Proof. reflexivity. Qed.

(** Under a node cut off by [Branch] a value of several lines is drawn,
    whatever node the rendering starts from. *)
Example Bytes_cut_branch :
  wf_heap cut_branch ∧
  Bytes default_config cut_branch 4 1 =
    Ok ("├─ A" +:+ nl +:+ "└─ B" +:+ nl +:+ "    └─ C" +:+ nl +:+ "    D" +:+ nl).
Proof. split; [by_compute|reflexivity]. Qed.
