(* ===== verification/SinkProps.v ===== *)
(** * The renderer and its sink

    [Writer] only writes to its sink: it never reads it.  So what it does
    on one sink determines what it does on any other that a map commuting
    with [Write] relates to it, and the bytes [Bytes] returns are the
    chunks handed to any writer, one after the other. *)

From S2P Require Import Prelude GoStrings Payload Sink Heap Node Invariant Render.

Section hom.
Context `{Payload any} `{Sink W1, Sink W2}.
Variable φ : W1 → W2.
Context `{!SinkHom φ}.
Variable cfg : Config.
Variable h : heap any.

(** ** Definitions *)

(** Two computations that do the same, one on each sink. *)
Definition hom {A} (m1 : M W1 A) (m2 : M W2 A) : Prop :=
  ∀ w, m2 (φ w) = prod_map id φ (m1 w).

(** ** The monad *)

Lemma hom_ret {A} (a : A) : hom (mret a) (mret a).
Proof. by intros w. Qed.

Lemma hom_lift {A} (r : res A) : hom (lift r) (lift r).
Proof. by intros w. Qed.

Lemma hom_bind {A B} (m1 : M W1 A) (m2 : M W2 A) (f1 : A → M W1 B) (f2 : A → M W2 B) :
  hom m1 m2 → (∀ a, hom (f1 a) (f2 a)) → hom (m1 ≫= f1) (m2 ≫= f2).
Proof.
  intros Hm Hf w. unfold mbind, M_bind. rewrite Hm.
  destruct (m1 w) as [[a|p|] w']; simpl; [apply Hf|done..].
Qed.

Lemma hom_Fprint (s : string) : hom (Fprint s) (Fprint s).
Proof. intros w. unfold Fprint. simpl. f_equal. symmetry. apply sink_hom. Qed.

Lemma hom_forM_ {A} (l : list A) (f1 : A → M W1 ()) (f2 : A → M W2 ()) :
  (∀ a, hom (f1 a) (f2 a)) → hom (forM_ l f1) (forM_ l f2).
Proof.
  intros Hf. induction l as [|a l IH]; [apply hom_ret|].
  simpl. apply hom_bind; [apply Hf|by intros _].
Qed.

Lemma hom_if {A} (b : bool) (m1 m1' : M W1 A) (m2 m2' : M W2 A) :
  hom m1 m2 → hom m1' m2' → hom (if b then m1 else m1') (if b then m2 else m2').
Proof. by destruct b. Qed.

Lemma hom_decide {A} (P : Prop) `{Decision P} (m1 m1' : M W1 A) (m2 m2' : M W2 A) :
  hom m1 m2 → hom m1' m2' →
  hom (if decide P then m1 else m1') (if decide P then m2 else m2').
Proof. by destruct (decide P). Qed.

(** ** The renderer *)

Lemma hom_printValues level levelsEnded edge node :
  hom (printValues cfg h level levelsEnded edge node)
      (printValues cfg h level levelsEnded edge node).
Proof.
  unfold printValues.
  repeat first
    [ apply hom_bind | apply hom_forM_ | apply hom_if | apply hom_decide
    | apply hom_lift | apply hom_Fprint | intros ? ].
Qed.

Lemma hom_range_nodes (rec1 : nat → list nat → list ptr → M W1 ())
    (rec2 : nat → list nat → list ptr → M W2 ()) :
  (∀ level levelsEnded nodes, hom (rec1 level levelsEnded nodes)
                                  (rec2 level levelsEnded nodes)) →
  ∀ nodes level total i levelsEnded,
    hom (range_nodes cfg h rec1 level total i levelsEnded nodes)
        (range_nodes cfg h rec2 level total i levelsEnded nodes).
Proof.
  intros Hrec. induction nodes as [|node rest IH];
    intros level total i levelsEnded; [apply hom_ret|].
  cbn [range_nodes].
  repeat first
    [ apply IH | apply Hrec | apply hom_printValues | apply hom_bind
    | apply hom_decide | apply hom_ret | apply hom_lift | intros ? ].
Qed.

Lemma hom_printNodes fuel : ∀ level levelsEnded nodes,
  hom (printNodes cfg h fuel level levelsEnded nodes)
      (printNodes cfg h fuel level levelsEnded nodes).
Proof.
  induction fuel as [|fuel IH]; intros level levelsEnded nodes;
    [apply hom_lift|].
  cbn [printNodes]. by apply hom_range_nodes.
Qed.

Lemma hom_Writer fuel n : hom (Writer cfg h fuel n) (Writer cfg h fuel n).
Proof.
  unfold Writer. apply hom_bind; [apply hom_lift|]. intros nd.
  apply hom_bind; [|intros le; apply hom_decide; [apply hom_printNodes|apply hom_ret]].
  destruct (Root nd); [destruct (decide _)|];
    repeat first
      [ apply hom_printValues | apply hom_bind | apply hom_decide
      | apply hom_ret | apply hom_Fprint | intros ? ].
Qed.


End hom.

(** The bytes [Bytes] returns are the chunks [Writer] hands to a
    sink, one after the other. *)
Theorem Bytes_flatten `{Payload any} cfg (h : heap any) fuel n :
  Bytes cfg h fuel n =
    match Writer cfg h fuel n [] with
    | (Ok _, t) => Ok (flatten t)
    | (Panic p, _) => Panic p
    | (OutOfFuel, _) => OutOfFuel
    end.
Proof.
  unfold Bytes. change "" with (flatten []).
  rewrite (hom_Writer flatten cfg h fuel n []).
  by destruct (Writer cfg h fuel n []) as [[[]|p|] t].
Qed.

(** Writing after [buf] commutes with writing. *)
#[export] Instance app_hom (buf : string) : SinkHom (String.app buf).
Proof. intros s w. unfold Write, Buffer_sink. by rewrite string_app_assoc. Qed.

(** What [Writer] appends to a buffer does not depend on what the buffer
    holds. *)
Lemma Writer_append `{Payload any} cfg (h : heap any) fuel n (buf : string) :
  Writer cfg h fuel n buf =
    prod_map id (String.app buf) (Writer cfg h fuel n "").
Proof. by rewrite <- (hom_Writer (String.app buf)), string_app_nil_r. Qed.

(** Rendering is repeatable: two calls of [Writer] on the same
    buffer append the same bytes twice. *)
Theorem Writer_twice `{Payload any} cfg (h : heap any) fuel n (out buf : string) :
  Writer cfg h fuel n "" = (Ok (), out) →
  (Writer cfg h fuel n;; Writer cfg h fuel n) buf = (Ok (), (buf +:+ out) +:+ out).
Proof.
  intros Hout. erewrite M_bind_Ok by (by rewrite Writer_append, Hout).
  by rewrite Writer_append, Hout.
Qed.

(** ** Witnesses *)

Lemma Writer_twice_witness :
  (Writer default_config heap1 2 0;; Writer default_config heap1 2 0) "" =
    (Ok (), ("" +:+ ("." +:+ nl +:+ "└─ A" +:+ nl)) +:+ ("." +:+ nl +:+ "└─ A" +:+ nl)).
Proof. exact (Writer_twice default_config heap1 2 0 _ "" eq_refl). Defined.

