(* ===== verification/Examples.v ===== *)
(** * The package at work

    Programs of calls to the public operations, run from the empty heap,
    and what the renderer, the searches and the visit return on the heap
    they build: the scenarios of the package's documentation, with values
    of the payload [GoValue] and the initial package variables. *)

From S2P Require Import Prelude GoStrings Payload Sink Heap Node Invariant.
From S2P Require Import Render Tree RenderSpec Search Visit.

(** ** Definitions *)

(** [String] of the node [n] after the calls [cls]. *)
Definition render_calls (cls : list (call (any:=GoValue))) (n : ptr) : res string :=
  match build cls [] with
  | Some h => String_ default_config h (length h) n
  | None => Panic NilDereference
  end.

(** The chunks [Writer] hands to the sink. *)
Definition trace_calls (cls : list (call (any:=GoValue))) (n : ptr)
    : res () * list string :=
  match build cls [] with
  | Some h => Writer default_config h (length h) n []
  | None => (Panic NilDereference, [])
  end.

(** A text, line by line. *)
Definition text_of (ls : list string) : string :=
  foldr (λ l acc, l +:+ nl +:+ acc) "" ls.

(** A root, the branch A with the leaf B, and the leaf C. *)
Definition branch_calls : list (call (any:=GoValue)) :=
  [CNew; CAddBranch 0 (VString "A"); CAddNode 1 (VString "B");
   CAddNode 0 (VString "C")].

(** ** Rendering *)

(** A new tree renders as a dot and a line break. *)
Example New_renders : render_calls [CNew] 0 = Ok (text_of ["."]).
Proof. reflexivity. Qed.

(** A root with one leaf: the connector of the last sibling, two
    characters wide, one space and the value. *)
Example one_leaf_renders :
  render_calls [CNew; CAddNode 0 (VString "A")] 0 = Ok (text_of ["."; "└─ A"]).
Proof. reflexivity. Qed.

Example two_leaves_render :
  render_calls [CNew; CAddNode 0 (VString "A"); CAddNode 0 (VString "B")] 0 =
    Ok (text_of ["."; "├─ A"; "└─ B"]).
Proof. reflexivity. Qed.

(** The link of a level that goes on is drawn under the branch. *)
Example branch_renders :
  render_calls branch_calls 0 = Ok (text_of ["."; "├─ A"; "│   └─ B"; "└─ C"]).
Proof. reflexivity. Qed.

Example meta_renders :
  render_calls [CNew; CAddMetaNode 0 (VInt 1) (VString "x")] 0 =
    Ok (text_of ["."; "└─ [1]  x"]).
Proof. reflexivity. Qed.

(** A meta value that is zero is a meta value. *)
Example zero_meta_renders :
  render_calls [CNew; CAddMetaNode 0 (VInt 0) (VString "x")] 0 =
    Ok (text_of ["."; "└─ [0]  x"]).
Proof. reflexivity. Qed.

Example root_meta_renders :
  render_calls [CNewWithRoot (VInt 42); CSetMetaValue 0 (VBool true)] 0 =
    Ok (text_of ["[true]  42"]).
Proof. reflexivity. Qed.

(** The second line of a value starts under the fourth column of
    its level, one column to the right of the first line's text. *)
Example two_lines_render :
  render_calls [CNew; CAddNode 0 (VString ("A" +:+ nl +:+ "B"))] 0 =
    Ok (text_of ["."; "└─ A"; "    B"]).
Proof. reflexivity. Qed.

(** A value of two lines three levels down: the links of the levels above
    are repeated on the second line. *)
Example sample_renders :
  render_calls sample_calls 0 =
    Ok (text_of ["."; "├─ A"; "├─ B"; "│   ├─ C"; "│   │   D";
                 "│   └─ [1]  x"; "└─ E"]).
Proof. reflexivity. Qed.

(** After [Branch] a node renders as a root. *)
Example detached_renders :
  render_calls (branch_calls ++ [CBranch 1]) 1 = Ok (text_of ["A"; "└─ B"]).
Proof. reflexivity. Qed.

(** A node that has a parent renders with a connector, and its
    children at the level of the node itself. *)
Example attached_renders :
  render_calls branch_calls 1 = Ok (text_of ["├─ A"; "└─ B"]).
Proof. reflexivity. Qed.

(** A value of two lines under a node that has a parent cannot be
    rendered from that node. *)
Example attached_two_lines_panics :
  render_calls [CNew; CAddBranch 0 (VString "A");
                CAddNode 1 (VString ("B" +:+ nl +:+ "C"))] 1 =
    Panic IndexOutOfRange.
Proof. reflexivity. Qed.

(** The [...f] variants hold the text [fmt.Sprintf] makes of the format
    and the operands, a verb that does not fit its operand included. *)
Example formatted_renders :
  render_calls [CNewWithRootf "%s v%d" [VString "tree"; VInt 2];
                CAddNodef 0 "%d%%" [VInt 50];
                CAddMetaNodef 0 (VInt 1) "%s" [VInt 3]] 0 =
    Ok (text_of ["tree v2"; "├─ 50%"; "└─ [1]  %!s(int=3)"]).
Proof. reflexivity. Qed.

(** The line of the root reaches the sink in two chunks, the line of a
    child in one. *)
Example one_leaf_trace :
  trace_calls [CNew; CAddNode 0 (VString "A")] 0 =
    (Ok (), ["."; nl; "└─ A" +:+ nl]).
Proof. reflexivity. Qed.

(** ** Searching *)

Example FindByMeta_sample :
  FindByMeta 6 sample_heap 0 (VInt 1) = Ok (Some 4) ∧
  FindByMeta 6 sample_heap 0 (VInt 2) = Ok None.
Proof. split; reflexivity. Qed.

(** The value x is held by a node under B; [FindByValue] misses it, and
    finds that node when asked for its meta. *)
Example FindByValue_sample :
  FindByValue 6 sample_heap 0 (VString "B") = Ok (Some 2) ∧
  FindByValue 6 sample_heap 0 (VString "x") = Ok None ∧
  FindByValue 6 sample_heap 0 (VInt 1) = Ok (Some 4).
Proof. split_and!; reflexivity. Qed.

(** ** Visiting *)

(** The sample program, then a visit that puts the value x in capitals:
    the text has the same lines, and the capital. *)
Example visit_renders :
  match VisitAll 6 (set_values upper) 0 (sample_heap, ()) with
  | (Ok _, (h, _)) => String_ default_config h (length h) 0
  | (Panic p, _) => Panic p
  | (OutOfFuel, _) => OutOfFuel
  end =
    Ok (text_of ["."; "├─ A"; "├─ B"; "│   ├─ C"; "│   │   D";
                 "│   └─ [1]  X"; "└─ E"]).
Proof. reflexivity. Qed.
